(** * RedBlackTree.h: a pointer-based red-black tree without sentinel

    Shallow embedding of [RedBlackTree<NodeType>] from
    src/tree_algorithm/RedBlackTree/RedBlackTree.h.

    Nodes live in a store indexed by their address; a [shared_ptr] (and a
    locked [weak_ptr]) is an [option ptr], the empty pointer being [None].
    Member functions are computations in a state-and-failure monad over the
    store and the [root] member.  The key type of the template is taken to
    be [Z]. *)

From Stdlib Require Import ZArith List Lia Bool.
From stdpp Require Import base option list gmap.

Open Scope Z_scope.

(** ** Data model *)

Inductive COLOR := RED | BLACK.

#[global] Instance COLOR_eq_dec : EqDecision COLOR.
Proof. solve_decision. Defined.

(** The address a smart pointer holds. *)
Definition ptr := positive.

Record Node := mkNode {
  key : Z;
  color : COLOR;
  parent : option ptr;
  lchild : option ptr;
  rchild : option ptr
}.

Definition set_color (c : COLOR) (n : Node) : Node :=
  mkNode (key n) c (parent n) (lchild n) (rchild n).
Definition set_parent (p : option ptr) (n : Node) : Node :=
  mkNode (key n) (color n) p (lchild n) (rchild n).
Definition set_lchild (p : option ptr) (n : Node) : Node :=
  mkNode (key n) (color n) (parent n) p (rchild n).
Definition set_rchild (p : option ptr) (n : Node) : Node :=
  mkNode (key n) (color n) (parent n) (lchild n) p.

(** The object store together with the [root] data member. *)
Record Tree := mkTree {
  heap : gmap ptr Node;
  root : option ptr
}.

(** ** Outcomes of a member function *)

Inductive result (A : Type) : Type :=
| Ok (a : A) (t : Tree)      (* normal return *)
| Throw (t : Tree)           (* std::invalid_argument, with the store at the throw *)
| Crash                      (* an empty pointer was dereferenced *)
| Timeout.                   (* the loop budget of the model ran out *)
Arguments Ok {A} a t.
Arguments Throw {A} t.
Arguments Crash {A}.
Arguments Timeout {A}.

Definition M (A : Type) : Type := Tree -> result A.

Definition ret {A} (a : A) : M A := fun t => Ok a t.
Definition bind {A B} (m : M A) (k : A -> M B) : M B :=
  fun t => match m t with
           | Ok a t' => k a t'
           | Throw t' => Throw t'
           | Crash => Crash
           | Timeout => Timeout
           end.
Definition throw {A} : M A := fun t => Throw t.
Definition crash {A} : M A := fun _ => Crash.
Definition timeout {A} : M A := fun _ => Timeout.

Notation "x <- m ;; k" := (bind m (fun x => k))
  (at level 100, m at next level, right associativity).
Notation "m ;; k" := (bind m (fun _ => k))
  (at level 100, right associativity).

(** [p->...] on a possibly empty pointer. *)
Definition deref (p : option ptr) : M ptr :=
  match p with Some a => ret a | None => crash end.

Definition load (a : ptr) : M Node :=
  fun t => match heap t !! a with Some n => Ok n t | None => Crash end.

Definition store (a : ptr) (f : Node -> Node) : M unit :=
  fun t => match heap t !! a with
           | Some n => Ok tt (mkTree (<[a := f n]> (heap t)) (root t))
           | None => Crash
           end.

Definition get_root : M (option ptr) := fun t => Ok (root t) t.
Definition set_root (r : option ptr) : M unit :=
  fun t => Ok tt (mkTree (heap t) r).

Definition get_key (a : ptr) : M Z := n <- load a ;; ret (key n).
Definition get_color (a : ptr) : M COLOR := n <- load a ;; ret (color n).
Definition get_parent (a : ptr) : M (option ptr) := n <- load a ;; ret (parent n).
Definition get_lchild (a : ptr) : M (option ptr) := n <- load a ;; ret (lchild n).
Definition get_rchild (a : ptr) : M (option ptr) := n <- load a ;; ret (rchild n).

(** [p && p->color == c] *)
Definition has_color (p : option ptr) (c : COLOR) : M bool :=
  match p with
  | None => ret false
  | Some a => c' <- get_color a ;; ret (bool_decide (c' = c))
  end.

(** Short-circuit [&&] and [||]. *)
Definition andM (a b : M bool) : M bool :=
  x <- a ;; if x then b else ret false.
Definition orM (a b : M bool) : M bool :=
  x <- a ;; if x then ret true else b.

(** ** The node's own queries

    Modelled from the spec: [is_left_child] and [is_right_child] are members
    of the node type declared in ../RedBlackTreeNode/RedBlackTreeNode.h, which
    is not part of the sources at hand.  The spec speaks of a node being "a
    right child" / "a left child" of its parent: the node has a parent whose
    corresponding child link holds this very node. *)
Definition is_left_child (a : ptr) : M bool :=
  p <- get_parent a ;;
  match p with
  | None => ret false
  | Some q => c <- get_lchild q ;; ret (bool_decide (c = Some a))
  end.

Definition is_right_child (a : ptr) : M bool :=
  p <- get_parent a ;;
  match p with
  | None => ret false
  | Some q => c <- get_rchild q ;; ret (bool_decide (c = Some a))
  end.

(** ** Rotations (lines 77-148)

    The second parameter of the source is a reference to the root pointer;
    every call in the class passes the [root] member, which is what the
    model updates. *)

Definition left_rotate (node : option ptr) : M unit :=
  match node with
  | None => throw
  | Some n =>
    r_node <- get_rchild n ;;
    match r_node with
    | None => ret tt
    | Some r =>
      l_r_node <- get_lchild r ;;
      np <- get_parent n ;;
      store r (set_parent np) ;;
      shared_p <- get_parent n ;;
      match shared_p with
      | Some p =>
        il <- is_left_child n ;;
        (if il then store p (set_lchild (Some r)) else ret tt) ;;
        ir <- is_right_child n ;;
        (if ir then store p (set_rchild (Some r)) else ret tt)
      | None => set_root (Some r)
      end ;;
      store n (set_rchild l_r_node) ;;
      match l_r_node with
      | Some b => store b (set_parent (Some n))
      | None => ret tt
      end ;;
      store n (set_parent (Some r)) ;;
      store r (set_lchild (Some n))
    end
  end.

Definition right_rotate (node : option ptr) : M unit :=
  match node with
  | None => throw
  | Some n =>
    l_node <- get_lchild n ;;
    match l_node with
    | None => ret tt
    | Some l =>
      r_l_node <- get_rchild l ;;
      np <- get_parent n ;;
      store l (set_parent np) ;;
      shared_p <- get_parent n ;;
      match shared_p with
      | Some p =>
        il <- is_left_child n ;;
        (if il then store p (set_lchild (Some l)) else ret tt) ;;
        ir <- is_right_child n ;;
        (if ir then store p (set_rchild (Some l)) else ret tt)
      | None => set_root (Some l)
      end ;;
      store n (set_lchild r_l_node) ;;
      match r_l_node with
      | Some b => store b (set_parent (Some n))
      | None => ret tt
      end ;;
      store n (set_parent (Some l)) ;;
      store l (set_rchild (Some n))
    end
  end.

(** ** Insertion (lines 186-298) *)

(** One pass through the body of the [while] of [insert_fixup]; the result is
    the pair ([node], [node_p]) the next test of the loop sees. *)
Definition insert_fixup_body (node node_p : ptr) : M (ptr * option ptr) :=
  node_p_p <- get_parent node_p ;;
  il <- is_left_child node_p ;;
  if il then
    g <- deref node_p_p ;;
    uncle <- get_rchild g ;;
    ured <- has_color uncle RED ;;
    if ured then
      store node_p (set_color BLACK) ;;
      u <- deref uncle ;;
      store u (set_color BLACK) ;;
      store g (set_color RED) ;;
      node_p' <- get_parent g ;;
      match node_p' with
      | None => store g (set_color BLACK)
      | Some _ => ret tt
      end ;;
      ret (g, node_p')
    else
      ir <- is_right_child node ;;
      if ir then
        left_rotate (Some node_p) ;;
        node_p' <- get_parent node_p ;;
        q <- deref node_p' ;;
        node_p_p' <- get_parent q ;;
        store q (set_color BLACK) ;;
        g' <- deref node_p_p' ;;
        store g' (set_color RED) ;;
        right_rotate node_p_p' ;;
        ret (node_p, node_p')
      else
        store node_p (set_color BLACK) ;;
        store g (set_color RED) ;;
        right_rotate node_p_p ;;
        ret (node, Some node_p)
  else
    g <- deref node_p_p ;;
    uncle <- get_lchild g ;;
    ured <- has_color uncle RED ;;
    if ured then
      store node_p (set_color BLACK) ;;
      u <- deref uncle ;;
      store u (set_color BLACK) ;;
      store g (set_color RED) ;;
      node_p' <- get_parent g ;;
      match node_p' with
      | None => store g (set_color BLACK)
      | Some _ => ret tt
      end ;;
      ret (g, node_p')
    else
      il' <- is_left_child node ;;
      if il' then
        right_rotate (Some node_p) ;;
        node_p' <- get_parent node_p ;;
        q <- deref node_p' ;;
        node_p_p' <- get_parent q ;;
        store q (set_color BLACK) ;;
        g' <- deref node_p_p' ;;
        store g' (set_color RED) ;;
        left_rotate node_p_p' ;;
        ret (node_p, node_p')
      else
        store node_p (set_color BLACK) ;;
        store g (set_color RED) ;;
        left_rotate node_p_p ;;
        ret (node, Some node_p).

(** [while (node_p->color == RED) { ...; if (!node_p) break; }] *)
Fixpoint insert_fixup_loop (fuel : nat) (node node_p : ptr) : M unit :=
  match fuel with
  | O => timeout
  | S f =>
    c <- get_color node_p ;;
    if bool_decide (c = RED) then
      next <- insert_fixup_body node node_p ;;
      let '(node', node_p') := next in
      match node_p' with
      | None => ret tt
      | Some q => insert_fixup_loop f node' q
      end
    else ret tt
  end.

Definition insert_fixup (fuel : nat) (node : option ptr) : M unit :=
  n <- deref node ;;
  node_p <- get_parent n ;;
  match node_p with
  | None => set_root (Some n) ;; store n (set_color BLACK)
  | Some p => insert_fixup_loop fuel n p
  end.

(** The descent of [insert]: [while (temp) {...}], giving the final
    [temp_parent] and [left] (here [left_]). *)
Fixpoint insert_descend (fuel : nat) (node temp temp_parent : option ptr)
    (left_ : bool) : M (option ptr * bool) :=
  match temp with
  | None => ret (temp_parent, left_)
  | Some a =>
    match fuel with
    | O => timeout
    | S f =>
      n <- deref node ;;
      k <- get_key n ;;
      ka <- get_key a ;;
      if bool_decide (k < ka) then
        l <- get_lchild a ;; insert_descend f node l (Some a) true
      else
        r <- get_rchild a ;; insert_descend f node r (Some a) false
    end
  end.

(** Lines 278-296 of [insert]: everything between the test for the empty
    tree and the call of [insert_fixup]. *)
Definition insert_attach (fuel : nat) (node : option ptr) : M unit :=
  temp <- get_root ;;
  found <- insert_descend fuel node temp None true ;;
  let '(temp_parent, left_) := found in
  n <- deref node ;;
  store n (set_parent temp_parent) ;;
  tp <- deref temp_parent ;;
  (if left_ : bool then store tp (set_lchild node) else store tp (set_rchild node)) ;;
  store n (set_color RED).

Definition insert (fuel : nat) (node : option ptr) : M unit :=
  r <- get_root ;;
  match r with
  | None => set_root node
  | Some _ => insert_attach fuel node ;; insert_fixup fuel node
  end.

(** ** Navigation (lines 562-661)

    The message [minimum] and [maximum] print on an empty subtree is not
    part of the model. *)

Fixpoint minimum_loop (fuel : nat) (current current_parent : option ptr)
    : M (option ptr) :=
  match current with
  | None => ret current_parent
  | Some a =>
    match fuel with
    | O => timeout
    | S f => l <- get_lchild a ;; minimum_loop f l (Some a)
    end
  end.

Definition minimum (fuel : nat) (node : option ptr) : M (option ptr) :=
  minimum_loop fuel node None.

Fixpoint maximum_loop (fuel : nat) (current current_parent : option ptr)
    : M (option ptr) :=
  match current with
  | None => ret current_parent
  | Some a =>
    match fuel with
    | O => timeout
    | S f => r <- get_rchild a ;; maximum_loop f r (Some a)
    end
  end.

Definition maximum (fuel : nat) (node : option ptr) : M (option ptr) :=
  maximum_loop fuel node None.

(** [while (shared_p && current->is_right_child()) {...} return shared_p;] *)
Fixpoint successor_climb (fuel : nat) (current : ptr) (shared_p : option ptr)
    : M (option ptr) :=
  match shared_p with
  | None => ret None
  | Some p =>
    match fuel with
    | O => timeout
    | S f =>
      ir <- is_right_child current ;;
      if ir then pp <- get_parent p ;; successor_climb f p pp
      else ret shared_p
    end
  end.

Definition successor (fuel : nat) (node : option ptr) : M (option ptr) :=
  match node with
  | None => throw
  | Some n =>
    r <- get_rchild n ;;
    match r with
    | Some _ => minimum fuel r
    | None => shared_p <- get_parent n ;; successor_climb fuel n shared_p
    end
  end.

Fixpoint predecessor_climb (fuel : nat) (current : ptr) (shared_p : option ptr)
    : M (option ptr) :=
  match shared_p with
  | None => ret None
  | Some p =>
    match fuel with
    | O => timeout
    | S f =>
      il <- is_left_child current ;;
      if il then pp <- get_parent p ;; predecessor_climb f p pp
      else ret shared_p
    end
  end.

Definition predecessor (fuel : nat) (node : option ptr) : M (option ptr) :=
  match node with
  | None => throw
  | Some n =>
    l <- get_lchild n ;;
    match l with
    | Some _ => maximum fuel l
    | None => shared_p <- get_parent n ;; predecessor_climb fuel n shared_p
    end
  end.

(** ** Deletion (lines 346-553) *)

(** The four cases of [delete_fixup], as labelled in the source comments. *)
Inductive fixcase := Case1 | Case2 | Case3 | Case4.

#[global] Instance fixcase_eq_dec : EqDecision fixcase.
Proof. solve_decision. Defined.

(** [w->lchild && w->lchild->color == c], with [w] dereferenced. *)
Definition lchild_has_color (w : option ptr) (c : COLOR) : M bool :=
  a <- deref w ;; l <- get_lchild a ;; has_color l c.
Definition rchild_has_color (w : option ptr) (c : COLOR) : M bool :=
  a <- deref w ;; r <- get_rchild a ;; has_color r c.
(** [!w->lchild] *)
Definition lchild_absent (w : option ptr) : M bool :=
  a <- deref w ;; l <- get_lchild a ;; ret (bool_decide (l = None)).
Definition rchild_absent (w : option ptr) : M bool :=
  a <- deref w ;; r <- get_rchild a ;; ret (bool_decide (r = None)).

(** Lines 355-360: the first [if] of the left orientation.  The result tells
    whether its body ran and gives the [w] the following tests see. *)
Definition delete_fixup_left_case1 (node_p : ptr) (w : option ptr)
    : M (bool * option ptr) :=
  wred <- has_color w RED ;;
  if wred then
    a <- deref w ;;
    store a (set_color BLACK) ;;
    store node_p (set_color RED) ;;
    left_rotate (Some node_p) ;;
    w' <- get_rchild node_p ;;
    ret (true, w')
  else ret (false, w).

(** Lines 363-398: the [if / else if / else if] chain of the left
    orientation.  The result names the branch that ran, if any, and gives
    the new [node]. *)
Definition delete_fixup_left_rest (node : ptr) (w : option ptr)
    : M (option fixcase * option ptr) :=
  c2 <- has_color w BLACK ;;
  if c2 then
    a <- deref w ;;
    store a (set_color RED) ;;
    node' <- get_parent node ;;
    ret (Some Case2, node')
  else
    c3 <- andM (has_color w BLACK)
            (andM (lchild_has_color w RED)
               (orM (rchild_absent w) (rchild_has_color w BLACK))) ;;
    if c3 then
      a <- deref w ;;
      wl <- get_lchild a ;;
      l <- deref wl ;;
      store l (set_color BLACK) ;;
      store a (set_color RED) ;;
      right_rotate w ;;
      node_p <- get_parent node ;;
      np <- deref node_p ;;
      _ <- get_rchild np ;;
      ret (Some Case3, Some node)
    else
      c4 <- andM (has_color w BLACK) (rchild_has_color w RED) ;;
      if c4 then
        node_p <- get_parent node ;;
        a <- deref w ;;
        np <- deref node_p ;;
        c <- get_color np ;;
        store a (set_color c) ;;
        store np (set_color BLACK) ;;
        wr <- get_rchild a ;;
        r <- deref wr ;;
        store r (set_color BLACK) ;;
        left_rotate node_p ;;
        rt <- get_root ;;
        ret (Some Case4, rt)
      else ret (None, Some node).

(** Lines 404-408: the first [if] of the right orientation; [w] is left as
    it was. *)
Definition delete_fixup_right_case1 (node_p : ptr) (w : option ptr)
    : M (bool * option ptr) :=
  wred <- has_color w RED ;;
  if wred then
    a <- deref w ;;
    store a (set_color BLACK) ;;
    store node_p (set_color RED) ;;
    right_rotate (Some node_p) ;;
    ret (true, w)
  else ret (false, w).

(** Lines 410-445. *)
Definition delete_fixup_right_rest (node : ptr) (w : option ptr)
    : M (option fixcase * option ptr) :=
  c2 <- has_color w BLACK ;;
  if c2 then
    a <- deref w ;;
    store a (set_color RED) ;;
    node' <- get_parent node ;;
    ret (Some Case2, node')
  else
    c3 <- andM (has_color w BLACK)
            (andM (rchild_has_color w RED)
               (orM (lchild_absent w) (lchild_has_color w BLACK))) ;;
    if c3 then
      a <- deref w ;;
      wr <- get_rchild a ;;
      r <- deref wr ;;
      store r (set_color BLACK) ;;
      store a (set_color RED) ;;
      left_rotate w ;;
      node_p <- get_parent node ;;
      np <- deref node_p ;;
      _ <- get_lchild np ;;
      ret (Some Case3, Some node)
    else
      c4 <- andM (has_color w BLACK) (lchild_has_color w RED) ;;
      if c4 then
        node_p <- get_parent node ;;
        a <- deref w ;;
        np <- deref node_p ;;
        c <- get_color np ;;
        store a (set_color c) ;;
        store np (set_color BLACK) ;;
        wl <- get_lchild a ;;
        l <- deref wl ;;
        store l (set_color BLACK) ;;
        right_rotate node_p ;;
        rt <- get_root ;;
        ret (Some Case4, rt)
      else ret (None, Some node).

Definition cases_run (c1 : bool) (c : option fixcase) : list fixcase :=
  (if c1 then [Case1] else []) ++ (match c with Some x => [x] | None => [] end).

(** One pass through the body of the [while] of [delete_fixup] (lines
    351-446): the cases whose bodies ran, in order, and the new [node]. *)
Definition delete_fixup_body (node : ptr) : M (list fixcase * option ptr) :=
  il <- is_left_child node ;;
  if il then
    node_p <- get_parent node ;;
    np <- deref node_p ;;
    w <- get_rchild np ;;
    first <- delete_fixup_left_case1 np w ;;
    second <- delete_fixup_left_rest node first.2 ;;
    ret (cases_run first.1 second.1, second.2)
  else
    node_p <- get_parent node ;;
    np <- deref node_p ;;
    w <- get_lchild np ;;
    first <- delete_fixup_right_case1 np w ;;
    second <- delete_fixup_right_rest node first.2 ;;
    ret (cases_run first.1 second.1, second.2).

(** [while (node != root && node && node->color == BLACK) {...}] *)
Fixpoint delete_fixup_loop (fuel : nat) (node : option ptr) : M (option ptr) :=
  match fuel with
  | O => timeout
  | S f =>
    r <- get_root ;;
    go <- andM (ret (bool_decide (node <> r))) (has_color node BLACK) ;;
    if go then
      n <- deref node ;;
      next <- delete_fixup_body n ;;
      delete_fixup_loop f next.2
    else ret node
  end.

Definition delete_fixup (fuel : nat) (node : option ptr) : M unit :=
  node' <- delete_fixup_loop fuel node ;;
  match node' with
  | Some a => store a (set_color BLACK)
  | None => ret tt
  end.

Definition transplant (u v : option ptr) : M unit :=
  match u with
  | None => throw
  | Some a =>
    u_parent <- get_parent a ;;
    match u_parent with
    | None => set_root v
    | Some p =>
      il <- is_left_child a ;;
      if il then store p (set_lchild v)
      else
        ir <- is_right_child a ;;
        if ir then store p (set_rchild v) else ret tt
    end ;;
    match v with
    | Some b => store b (set_parent u_parent)
    | None => ret tt
    end
  end.

(** The membership test of [remove] (lines 495-501): the final [temp]. *)
Fixpoint remove_descend (fuel : nat) (node : ptr) (temp : option ptr)
    : M (option ptr) :=
  match temp with
  | None => ret None
  | Some a =>
    if bool_decide (a = node) then ret temp
    else
      match fuel with
      | O => timeout
      | S f =>
        k <- get_key node ;;
        ka <- get_key a ;;
        if bool_decide (k < ka) then
          l <- get_lchild a ;; remove_descend f node l
        else
          r <- get_rchild a ;; remove_descend f node r
      end
  end.

(** Lines 505-548 of [remove]: the structural phase.  The result is the
    pair ([x], [y_color]) the final test of [remove] sees. *)
Definition remove_splice (fuel : nat) (node : ptr) : M (option ptr * COLOR) :=
  nl <- get_lchild node ;;
  nr <- get_rchild node ;;
  match nl, nr with
  | None, None =>
    parent_ptr <- get_parent node ;;
    match parent_ptr with
    | Some p =>
      il <- is_left_child node ;;
      (if il then store p (set_lchild None) else ret tt) ;;
      ir <- is_right_child node ;;
      (if ir then store p (set_rchild None) else ret tt)
    | None => set_root None
    end ;;
    ret (None, RED)
  | None, Some _ =>
    transplant (Some node) nr ;;
    ret (nr, RED)
  | Some _, None =>
    transplant (Some node) nl ;;
    ret (nl, RED)
  | Some _, Some _ =>
    y <- successor fuel (Some node) ;;
    ya <- deref y ;;
    x <- get_rchild ya ;;
    y_color <- get_color ya ;;
    nr' <- get_rchild node ;;
    (if bool_decide (y <> nr') then
       yr <- get_rchild ya ;;
       transplant y yr ;;
       nr'' <- get_rchild node ;;
       store ya (set_rchild nr'') ;;
       nr3 <- get_rchild node ;;
       r <- deref nr3 ;;
       store r (set_parent y) ;;
       store node (set_rchild y)
     else ret tt) ;;
    transplant (Some node) y ;;
    nl' <- get_lchild node ;;
    store ya (set_lchild nl') ;;
    nl'' <- get_lchild node ;;
    l <- deref nl'' ;;
    store l (set_parent y) ;;
    c <- get_color node ;;
    store ya (set_color c) ;;
    ret (x, y_color)
  end.

Definition remove (fuel : nat) (node : option ptr) : M unit :=
  match node with
  | None => throw
  | Some n =>
    r <- get_root ;;
    temp <- remove_descend fuel n r ;;
    if bool_decide (temp <> node) then throw
    else
      spliced <- remove_splice fuel n ;;
      if bool_decide (spliced.2 = BLACK) then delete_fixup fuel spliced.1
      else ret tt
  end.

(** ** The tree a store holds, and the invariants I1-I6 on it *)

(** The shape reachable from a pointer through child links: address, key and
    color of every node, in place. *)
Inductive shape :=
| Leaf
| Br (l : shape) (a : ptr) (k : Z) (c : COLOR) (r : shape).

Fixpoint shape_from (fuel : nat) (h : gmap ptr Node) (p : option ptr)
    : option shape :=
  match p with
  | None => Some Leaf
  | Some a =>
    match fuel with
    | O => None
    | S f =>
      match h !! a with
      | None => None
      | Some n =>
        match shape_from f h (lchild n), shape_from f h (rchild n) with
        | Some l, Some r => Some (Br l a (key n) (color n) r)
        | _, _ => None
        end
      end
    end
  end.

Definition shape_of (fuel : nat) (t : Tree) : option shape :=
  shape_from fuel (heap t) (root t).

Fixpoint inorder (s : shape) : list Z :=
  match s with
  | Leaf => []
  | Br l _ k _ r => inorder l ++ k :: inorder r
  end.

Fixpoint addrs (s : shape) : list ptr :=
  match s with
  | Leaf => []
  | Br l a _ _ r => addrs l ++ a :: addrs r
  end.

(** I3: an absent child counts as BLACK. *)
Definition shape_color (s : shape) : COLOR :=
  match s with
  | Leaf => BLACK
  | Br _ _ _ c _ => c
  end.

(** I2 *)
Definition root_black (s : shape) : bool := bool_decide (shape_color s = BLACK).

(** I4 *)
Fixpoint no_red_red (s : shape) : bool :=
  match s with
  | Leaf => true
  | Br l _ _ c r =>
    (match c with
     | RED => bool_decide (shape_color l = BLACK) && bool_decide (shape_color r = BLACK)
     | BLACK => true
     end) && no_red_red l && no_red_red r
  end.

(** I5: the common number of BLACK nodes on the paths down to an absent
    child, when there is one. *)
Fixpoint black_height (s : shape) : option nat :=
  match s with
  | Leaf => Some O
  | Br l _ _ c r =>
    match black_height l, black_height r with
    | Some hl, Some hr =>
      if bool_decide (hl = hr)
      then Some (match c with BLACK => S hl | RED => hl end)
      else None
    | _, _ => None
    end
  end.

(** I6 *)
Fixpoint nondecreasing (l : list Z) : bool :=
  match l with
  | [] => true
  | x :: l' =>
    (match l' with [] => true | y :: _ => bool_decide (x <= y) end)
    && nondecreasing l'
  end.

(** I1 holds by the type [COLOR]. *)
Definition red_black (s : shape) : bool :=
  root_black s && no_red_red s && bool_decide (is_Some (black_height s))
  && nondecreasing (inorder s).

(** ** Callers *)

(** A caller constructs a node with a key and a color and no links. *)
Definition new_node (a : ptr) (k : Z) (c : COLOR) : M unit :=
  fun t => Ok tt (mkTree (<[a := mkNode k c None None None]> (heap t)) (root t)).

Definition empty_tree : Tree := mkTree ∅ None.

Inductive op :=
| Insert (a : ptr) (k : Z) (c : COLOR)   (* construct a node at [a], insert it *)
| Remove (a : ptr).                      (* remove the node at [a] *)
Arguments Insert a%_positive k%_Z c.
Arguments Remove a%_positive.

Definition run_op (fuel : nat) (o : op) : M unit :=
  match o with
  | Insert a k c => new_node a k c ;; insert fuel (Some a)
  | Remove a => remove fuel (Some a)
  end.

Fixpoint run_ops (fuel : nat) (os : list op) : M unit :=
  match os with
  | [] => ret tt
  | o :: os' => run_op fuel o ;; run_ops fuel os'
  end.

(** ** Predicates, states and concrete trees used in the statements *)

(** A computation that never throws, whatever the store. *)
Definition nothrow {A} (m : M A) : Prop := forall t t', m t <> Throw t'.

(** Four nodes inserted in key order, the first one constructed BLACK:
    the tree is 2B(1B, 3B(-, 4R)). *)
Definition four_inserts : list op :=
  [Insert 1 1 BLACK; Insert 2 2 RED; Insert 3 3 RED; Insert 4 4 RED].

(** The shape of the tree the four inserts build. *)
Definition four_nodes_shape : shape :=
  Br (Br Leaf 1%positive 1 BLACK Leaf) 2%positive 2 BLACK
     (Br Leaf 3%positive 3 BLACK (Br Leaf 4%positive 4 RED Leaf)).

(** A computation that returns with the store it was given. *)
Definition readonly {A} (m : M A) : Prop :=
  forall t a t', m t = Ok a t' -> t' = t.

(** The pointer is present and the node it names has color [c]. *)
Definition has_color_in (t : Tree) (c : COLOR) (w : option ptr) : Prop :=
  exists a n, w = Some a /\ heap t !! a = Some n /\ color n = c.

(** The descent from [p] guided by the key [k] passes through the node [n]:
    at every node it goes left when [k] is smaller than the node's key and
    right otherwise. *)
Inductive key_path (h : gmap ptr Node) (k : Z) (n : ptr) : option ptr -> Prop :=
| key_path_here : key_path h k n (Some n)
| key_path_left a nd :
    h !! a = Some nd -> k < key nd ->
    key_path h k n (lchild nd) -> key_path h k n (Some a)
| key_path_right a nd :
    h !! a = Some nd -> ~ k < key nd ->
    key_path h k n (rchild nd) -> key_path h k n (Some a).

(** The number of nodes on the longest path from the top of the shape. *)
Fixpoint height (s : shape) : nat :=
  match s with
  | Leaf => O
  | Br l _ _ _ r => S (Nat.max (height l) (height r))
  end.

(** Every node of the shape names its parent in the shape; [par] is the
    parent of the topmost node. *)
Fixpoint parents_ok (h : gmap ptr Node) (par : option ptr) (s : shape) : Prop :=
  match s with
  | Leaf => True
  | Br l a _ _ r =>
    (parent <$> h !! a) = Some par /\
    parents_ok h (Some a) l /\ parents_ok h (Some a) r
  end.

(** [minimum]: "descend strictly left until an absent child is hit; return
    the last present node". *)
Inductive leftmost (h : gmap ptr Node) : ptr -> ptr -> Prop :=
| leftmost_here a nd :
    h !! a = Some nd -> lchild nd = None -> leftmost h a a
| leftmost_down a nd l m :
    h !! a = Some nd -> lchild nd = Some l -> leftmost h l m -> leftmost h a m.

(** [maximum]: the mirror image, the last node of the descent to the
    right. *)
Inductive rightmost (h : gmap ptr Node) : ptr -> ptr -> Prop :=
| rightmost_here a nd :
    h !! a = Some nd -> rchild nd = None -> rightmost h a a
| rightmost_down a nd r m :
    h !! a = Some nd -> rchild nd = Some r -> rightmost h r m -> rightmost h a m.

(** [successor] without a right child: "ascend through parents while the
    current node is a right child; return the first ancestor reached via a
    left-child step, or absent if no such ancestor exists". *)
Inductive left_step_ancestor (h : gmap ptr Node) : ptr -> option ptr -> Prop :=
| left_step_none c nd :
    h !! c = Some nd -> parent nd = None -> left_step_ancestor h c None
| left_step_found c nd p pn :
    h !! c = Some nd -> parent nd = Some p ->
    h !! p = Some pn -> lchild pn = Some c ->
    left_step_ancestor h c (Some p)
| left_step_ascend c nd p pn res :
    h !! c = Some nd -> parent nd = Some p ->
    h !! p = Some pn -> rchild pn = Some c ->
    left_step_ancestor h p res ->
    left_step_ancestor h c res.

(** [predecessor] without a left child: the mirror image, the first
    ancestor reached by a step up from a right child. *)
Inductive right_step_ancestor (h : gmap ptr Node) : ptr -> option ptr -> Prop :=
| right_step_none c nd :
    h !! c = Some nd -> parent nd = None -> right_step_ancestor h c None
| right_step_found c nd p pn :
    h !! c = Some nd -> parent nd = Some p ->
    h !! p = Some pn -> rchild pn = Some c ->
    right_step_ancestor h c (Some p)
| right_step_ascend c nd p pn res :
    h !! c = Some nd -> parent nd = Some p ->
    h !! p = Some pn -> lchild pn = Some c ->
    right_step_ancestor h p res ->
    right_step_ancestor h c res.

(** The chain of parents of a node: it has [d] links, each from a child to
    the node whose child it is, and ends at a node without parent. *)
Inductive parent_chain (h : gmap ptr Node) : ptr -> nat -> Prop :=
| chain_top c nd :
    h !! c = Some nd -> parent nd = None -> parent_chain h c O
| chain_up c nd p pn d :
    h !! c = Some nd -> parent nd = Some p ->
    h !! p = Some pn -> (lchild pn = Some c \/ rchild pn = Some c) ->
    parent_chain h p d ->
    parent_chain h c (S d).

(** The two sides of a node, and the field of each side: [left_rotate] and
    [right_rotate], and the two orientations of [delete_fixup], are written
    twice in the source, once per side. *)
Inductive side := L | R.

(** The other side. *)
Definition opp (d : side) : side := match d with L => R | R => L end.

(** [lchild] or [rchild], by side: the field, its update and its read. *)
Definition child (d : side) (nd : Node) : option ptr :=
  match d with L => lchild nd | R => rchild nd end.

Definition set_child (d : side) : option ptr -> Node -> Node :=
  match d with L => set_lchild | R => set_rchild end.

Definition get_child (d : side) : ptr -> M (option ptr) :=
  match d with L => get_lchild | R => get_rchild end.

(** [left_rotate] is [rotate L] and [right_rotate] is [rotate R]: the two
    functions of the source differ by the exchange of [lchild] and [rchild]
    only. *)
Definition rotate (d : side) (node : option ptr) : M unit :=
  match node with
  | None => throw
  | Some n =>
    up <- get_child (opp d) n ;;
    match up with
    | None => ret tt
    | Some r =>
      inner <- get_child d r ;;
      np <- get_parent n ;;
      store r (set_parent np) ;;
      shared_p <- get_parent n ;;
      match shared_p with
      | Some p =>
        il <- is_left_child n ;;
        (if il then store p (set_lchild (Some r)) else ret tt) ;;
        ir <- is_right_child n ;;
        (if ir then store p (set_rchild (Some r)) else ret tt)
      | None => set_root (Some r)
      end ;;
      store n (set_child (opp d) inner) ;;
      match inner with
      | Some b => store b (set_parent (Some n))
      | None => ret tt
      end ;;
      store n (set_parent (Some r)) ;;
      store r (set_child d (Some n))
    end
  end.

(** The node that had [old] as a child has [new] in its place. *)
Definition repoint (old new : ptr) (nd : Node) : Node :=
  mkNode (key nd) (color nd) (parent nd)
    (if bool_decide (lchild nd = Some old) then Some new else lchild nd)
    (if bool_decide (rchild nd = Some old) then Some new else rchild nd).

(** The store with [f] applied to the record a present pointer names. *)
Definition alter_opt (f : Node -> Node) (a : option ptr) (h : gmap ptr Node)
    : gmap ptr Node :=
  match a with Some x => alter f x h | None => h end.

(** The tree after [rotate d] on the node [n], whose record is [nd], with
    the child [r], whose record is [rn], on the side opposite to [d]. *)
Definition rotated (d : side) (n r : ptr) (nd rn : Node) (t : Tree) : Tree :=
  mkTree
    (alter (set_child d (Some n)) r
       (alter (set_parent (Some r)) n
          (alter_opt (set_parent (Some n)) (child d rn)
             (alter (set_child (opp d) (child d rn)) n
                (alter_opt (repoint n r) (parent nd)
                   (alter (set_parent (parent nd)) r (heap t)))))))
    (match parent nd with None => Some r | Some _ => root t end).

(** The node is [d] parent links below the root. *)
Inductive depth (t : Tree) : ptr -> nat -> Prop :=
| depth_root a nd :
    root t = Some a -> heap t !! a = Some nd -> parent nd = None ->
    depth t a O
| depth_up c nd p pn k d :
    heap t !! c = Some nd -> parent nd = Some p ->
    heap t !! p = Some pn -> child k pn = Some c ->
    depth t p d ->
    depth t c (S d).

(** The node can be reached from the root through child links. *)
Inductive reach (t : Tree) : ptr -> Prop :=
| reach_root a : root t = Some a -> reach t a
| reach_child a nd k c :
    reach t a -> heap t !! a = Some nd -> child k nd = Some c -> reach t c.

(** [N] is the set of the nodes of the tree: it holds the root; the
    children and the parent of its members are members; a child names its
    parent; the two children of a node differ; every member has a chain of
    parents up to the root. *)
Record tree_inv (N : gset ptr) (t : Tree) : Prop := {
  inv_root : forall r, root t = Some r -> r ∈ N;
  inv_alloc : forall a, a ∈ N -> is_Some (heap t !! a);
  inv_child : forall a nd k c,
    a ∈ N -> heap t !! a = Some nd -> child k nd = Some c ->
    c ∈ N /\ (parent <$> heap t !! c) = Some (Some a) /\
    child (opp k) nd <> Some c;
  inv_parent : forall a nd p,
    a ∈ N -> heap t !! a = Some nd -> parent nd = Some p -> p ∈ N;
  inv_depth : forall a, a ∈ N -> exists d, depth t a d
}.

#[global] Instance side_eq_dec : EqDecision side.
Proof. solve_decision. Defined.

(** The record of the node [i] after the rotation, from its record
    before. *)
Definition rot_node (d : side) (n r : ptr) (nd rn : Node) (i : ptr) (x : Node)
    : Node :=
  if decide (i = r) then set_child d (Some n) (set_parent (parent nd) x)
  else if decide (i = n)
  then set_parent (Some r) (set_child (opp d) (child d rn) x)
  else if decide (child d rn = Some i) then set_parent (Some n) x
  else if decide (parent nd = Some i) then repoint n r x
  else x.

(** The three pointers of a record: parent, left child, right child. *)
Definition links (nd : Node) : option ptr * option ptr * option ptr :=
  (parent nd, lchild nd, rchild nd).

(** The two trees have the same root and the same links in every node. *)
Definition same_links (t t' : Tree) : Prop :=
  root t' = root t /\
  forall i, (links <$> heap t' !! i) = (links <$> heap t !! i).

(** From [t] to [t'] the set [N] stays the set of the nodes of the tree,
    and the links of the nodes outside [N] are not touched. *)
Definition keeps (N : gset ptr) (t t' : Tree) : Prop :=
  tree_inv N t' /\
  forall i, i ∉ N -> (links <$> heap t' !! i) = (links <$> heap t !! i).

(** Lines 466-471: the parent of [u] gets [v] in the place of [u], the left
    place being tried first. *)
Definition repoint1 (u : ptr) (v : option ptr) (pn : Node) : Node :=
  if bool_decide (lchild pn = Some u) then set_lchild v pn
  else if bool_decide (rchild pn = Some u) then set_rchild v pn
  else pn.

(** The tree after [transplant(u, v)], [ud] being the record of [u]. *)
Definition transplanted (u : ptr) (v : option ptr) (ud : Node) (t : Tree) : Tree :=
  mkTree
    (alter_opt (set_parent (parent ud)) v
       (alter_opt (repoint1 u v) (parent ud) (heap t)))
    (match parent ud with None => v | Some _ => root t end).

(** The record of the node [i] after [transplant(u, v)]. *)
Definition tp_node (u : ptr) (v : option ptr) (ud : Node) (i : ptr) (x : Node)
    : Node :=
  if decide (v = Some i) then set_parent (parent ud) x
  else if decide (parent ud = Some i) then repoint1 u v x
  else x.

(** The tree after lines 533-547 of [remove] on the node [n] with the
    children [l] and [r] and the successor [y]. *)
Definition spliced2 (n y l r : ptr) (nd yd : Node) (t : Tree) : Tree :=
  let t1 :=
    if decide (y = r) then t
    else
      let ta := transplanted y (rchild yd) yd t in
      mkTree (alter (set_rchild (Some y)) n
                (alter (set_parent (Some y)) r
                   (alter (set_rchild (Some r)) y (heap ta))))
             (root ta) in
  let n1 := if decide (y = r) then nd else set_rchild (Some y) nd in
  let t2 := transplanted n (Some y) n1 t1 in
  mkTree (alter (set_color (color nd)) y
            (alter (set_parent (Some y)) l
               (alter (set_lchild (Some l)) y (heap t2))))
         (root t2).

(** The removed node [n] gives its place to [y]: the name a node of the
    tree without [y] has once [y] stands where [n] stood. *)
Definition renamed_ptr (n y a : ptr) : ptr := if decide (a = n) then y else a.

(** A store from the list of its records. *)
Definition nodes (l : list (positive * Node)) : gmap ptr Node := list_to_map l.

(** 2B(1B, 3B(-, 4R)), and a node 9 that belongs to no tree. *)
Definition four_nodes : Tree :=
  mkTree (nodes [(1%positive, mkNode 1 BLACK (Some 2%positive) None None);
                 (2%positive, mkNode 2 BLACK None (Some 1%positive) (Some 3%positive));
                 (3%positive, mkNode 3 BLACK (Some 2%positive) None (Some 4%positive));
                 (4%positive, mkNode 4 RED (Some 3%positive) None None);
                 (9%positive, mkNode 9 RED None None None)])
         (Some 2%positive).

(** 2B(1B, 4R(3B, 5B)): a red-black tree in which the sibling of 1 is RED. *)
Definition red_sibling : Tree :=
  mkTree (nodes [(1%positive, mkNode 1 BLACK (Some 2%positive) None None);
                 (2%positive, mkNode 2 BLACK None (Some 1%positive) (Some 4%positive));
                 (3%positive, mkNode 3 BLACK (Some 4%positive) None None);
                 (4%positive, mkNode 4 RED (Some 2%positive) (Some 3%positive) (Some 5%positive));
                 (5%positive, mkNode 5 BLACK (Some 4%positive) None None)])
         (Some 2%positive).

(** The shape of [red_sibling]. *)
Definition red_sibling_shape : shape :=
  Br (Br Leaf 1%positive 1 BLACK Leaf) 2%positive 2 BLACK
     (Br (Br Leaf 3%positive 3 BLACK Leaf) 4%positive 4 RED
         (Br Leaf 5%positive 5 BLACK Leaf)).

(** The record of the root of [red_sibling]. *)
Definition red_sibling_root : Node :=
  mkNode 2 BLACK None (Some 1%positive) (Some 4%positive).

(** 8B(4R(2B(1B, 3B), 6B(5B, 7B)), 9B): red-black but for the BLACK leaf 9,
    whose side is one BLACK node short, as after the unlinking of a BLACK
    node below 8; the sibling 4 of 9 is RED. *)
Definition short_right : Tree :=
  mkTree (nodes [(1%positive, mkNode 1 BLACK (Some 2%positive) None None);
                 (2%positive, mkNode 2 BLACK (Some 4%positive) (Some 1%positive) (Some 3%positive));
                 (3%positive, mkNode 3 BLACK (Some 2%positive) None None);
                 (4%positive, mkNode 4 RED (Some 8%positive) (Some 2%positive) (Some 6%positive));
                 (5%positive, mkNode 5 BLACK (Some 6%positive) None None);
                 (6%positive, mkNode 6 BLACK (Some 4%positive) (Some 5%positive) (Some 7%positive));
                 (7%positive, mkNode 7 BLACK (Some 6%positive) None None);
                 (8%positive, mkNode 8 BLACK None (Some 4%positive) (Some 9%positive));
                 (9%positive, mkNode 9 BLACK (Some 8%positive) None None)])
         (Some 8%positive).

(** 2B(1B, 6R(4B(3B, 5B), 8B(7B, 9B))): the mirror image of [short_right];
    the side of the BLACK leaf 1 is one BLACK node short and its sibling 6 is
    RED. *)
Definition short_left : Tree :=
  mkTree (nodes [(1%positive, mkNode 1 BLACK (Some 2%positive) None None);
                 (2%positive, mkNode 2 BLACK None (Some 1%positive) (Some 6%positive));
                 (3%positive, mkNode 3 BLACK (Some 4%positive) None None);
                 (4%positive, mkNode 4 BLACK (Some 6%positive) (Some 3%positive) (Some 5%positive));
                 (5%positive, mkNode 5 BLACK (Some 4%positive) None None);
                 (6%positive, mkNode 6 RED (Some 2%positive) (Some 4%positive) (Some 8%positive));
                 (7%positive, mkNode 7 BLACK (Some 8%positive) None None);
                 (8%positive, mkNode 8 BLACK (Some 6%positive) (Some 7%positive) (Some 9%positive));
                 (9%positive, mkNode 9 BLACK (Some 8%positive) None None)])
         (Some 2%positive).

(** 2B(1B, 4B(3B, 6R(5B, 7B))): the side of the BLACK leaf 1 is one BLACK
    node short; its sibling 4 is BLACK and has the RED right child 6. *)
Definition red_nephew : Tree :=
  mkTree (nodes [(1%positive, mkNode 1 BLACK (Some 2%positive) None None);
                 (2%positive, mkNode 2 BLACK None (Some 1%positive) (Some 4%positive));
                 (3%positive, mkNode 3 BLACK (Some 4%positive) None None);
                 (4%positive, mkNode 4 BLACK (Some 2%positive) (Some 3%positive) (Some 6%positive));
                 (5%positive, mkNode 5 BLACK (Some 6%positive) None None);
                 (6%positive, mkNode 6 RED (Some 4%positive) (Some 5%positive) (Some 7%positive));
                 (7%positive, mkNode 7 BLACK (Some 6%positive) None None)])
         (Some 2%positive).

(** ** Predicates used in the further properties *)

(** The two stores hold records at the same addresses, with the same value
    of [f] in each. *)
Definition unchanged {B} (f : Node -> B) (t t' : Tree) : Prop :=
  forall i, (f <$> heap t' !! i) = (f <$> heap t !! i).

(** A computation that, when it returns, has changed [f] in no record, and
    has neither added nor dropped a record. *)
Definition keeps_field {A B} (f : Node -> B) (m : M A) : Prop :=
  forall t a t', m t = Ok a t' -> unchanged f t t'.

(** [f] does not look at the links of a record, or at its color. *)
Definition ignores_links {B} (f : Node -> B) : Prop :=
  forall p n, f (set_parent p n) = f n /\ f (set_lchild p n) = f n /\
              f (set_rchild p n) = f n.
Definition ignores_color {B} (f : Node -> B) : Prop :=
  forall c n, f (set_color c n) = f n.

(** What a rotation and [transplant] leave alone in a record. *)
Definition key_color (n : Node) : Z * COLOR := (key n, color n).

(** Started in a tree with the node set [N], the computation returns in a
    tree with the same node set, and with a result that satisfies [Q]. *)
Definition maintains (N : gset ptr) {A} (m : M A) (Q : A -> Prop) : Prop :=
  forall t a t', tree_inv N t -> m t = Ok a t' -> keeps N t t' /\ Q a.

(** The tree after lines 292-295 of [insert]: the node [n] hangs on the side
    [k] of [tp] and is RED. *)
Definition attached (n tp : ptr) (k : side) (t : Tree) : Tree :=
  mkTree (alter (set_color RED) n
            (alter (set_child k (Some n)) tp
               (alter (set_parent (Some tp)) n (heap t))))
         (root t).

(** A RED root [1] with the key 5, as [insert] of a node constructed RED
    into the empty tree leaves it, and a second node [2] not yet linked. *)
Definition red_root : Tree :=
  mkTree (nodes [(1%positive, mkNode 5 RED None None None);
                 (2%positive, mkNode 7 BLACK None None None)])
         (Some 1%positive).

(** The in-order sequence of the nodes below a pointer: left subtree, node,
    right subtree. *)
Inductive in_order (h : gmap ptr Node) : option ptr -> list ptr -> Prop :=
| in_order_nil : in_order h None []
| in_order_node a nd l r :
    h !! a = Some nd ->
    in_order h (lchild nd) l -> in_order h (rchild nd) r ->
    in_order h (Some a) (l ++ a :: r).

(** The two children of a record. *)
Definition kids (nd : Node) : option ptr * option ptr := (lchild nd, rchild nd).

(** The sequence [side_app d a ld lo] has [a] between the sequence [ld] on
    the side [d] and the sequence [lo] on the other side. *)
Definition side_app (d : side) (a : ptr) (ld lo : list ptr) : list ptr :=
  match d with L => ld ++ a :: lo | R => lo ++ a :: ld end.

(** [t] is a tree on the nodes [N] whose in-order sequence is [l]. *)
Definition ordered (N : gset ptr) (l : list ptr) (t : Tree) : Prop :=
  tree_inv N t /\ in_order (heap t) (root t) l /\ NoDup l.

(** Started in a tree with the in-order sequence [l], the computation
    returns in a tree with the same sequence, and with a result that
    satisfies [Q]. *)
Definition keeps_order (N : gset ptr) (l : list ptr) {A} (m : M A)
    (Q : A -> Prop) : Prop :=
  forall t a t', ordered N l t -> m t = Ok a t' -> ordered N l t' /\ Q a.

(** The keys of the nodes of the sequence, in its order, never decrease. *)
Definition keys_in_order (h : gmap ptr Node) (l : list ptr) : Prop :=
  exists ks, Forall2 (fun a k => (key <$> h !! a) = Some k) l ks /\
             nondecreasing ks = true.

(** [is_left_child] or [is_right_child], by side. *)
Definition is_child (d : side) : ptr -> M bool :=
  match d with L => is_left_child | R => is_right_child end.

(** The body of the loop of [insert_fixup] when [node_p] is the child of its
    parent on the side [d]: lines 202-226 for [L], lines 230-254 for [R],
    which differ by the exchange of left and right only. *)
Definition insert_fixup_side (d : side) (node node_p : ptr)
    (node_p_p : option ptr) : M (ptr * option ptr) :=
  g <- deref node_p_p ;;
  uncle <- get_child (opp d) g ;;
  ured <- has_color uncle RED ;;
  if ured then
    store node_p (set_color BLACK) ;;
    u <- deref uncle ;;
    store u (set_color BLACK) ;;
    store g (set_color RED) ;;
    node_p' <- get_parent g ;;
    match node_p' with
    | None => store g (set_color BLACK)
    | Some _ => ret tt
    end ;;
    ret (g, node_p')
  else
    ir <- is_child (opp d) node ;;
    if ir then
      rotate d (Some node_p) ;;
      node_p' <- get_parent node_p ;;
      q <- deref node_p' ;;
      node_p_p' <- get_parent q ;;
      store q (set_color BLACK) ;;
      g' <- deref node_p_p' ;;
      store g' (set_color RED) ;;
      rotate (opp d) node_p_p' ;;
      ret (node_p, node_p')
    else
      store node_p (set_color BLACK) ;;
      store g (set_color RED) ;;
      rotate (opp d) node_p_p ;;
      ret (node, Some node_p).

(** The color of what a pointer names; the empty pointer counts as BLACK
    (property 3 of the source's comment at line 156). *)
Definition color_at (h : gmap ptr Node) (p : option ptr) : COLOR :=
  match p with
  | Some a => match h !! a with Some nd => color nd | None => BLACK end
  | None => BLACK
  end.

(** What a node of the color [c] adds to the count of BLACK nodes. *)
Definition blacks (c : COLOR) : nat := match c with BLACK => 1%nat | RED => O end.

(** The number [b] gives to what a pointer names; none for the empty
    pointer. *)
Definition bh_at (b : ptr -> nat) (p : option ptr) : nat :=
  match p with Some a => b a | None => O end.

(** Property 5, node by node: [b] gives every node the number of BLACK nodes
    on each path from it down to an empty pointer. *)
Definition balanced (N : gset ptr) (t : Tree) (b : ptr -> nat) : Prop :=
  forall a nd k, a ∈ N -> heap t !! a = Some nd ->
    b a = (bh_at b (child k nd) + blacks (color nd))%nat.

(** Property 4, node by node, with one exception: every child of a RED node
    is BLACK, unless it is the node [x]. *)
Definition red_ok (N : gset ptr) (t : Tree) (x : option ptr) : Prop :=
  forall a nd k c, a ∈ N -> heap t !! a = Some nd -> color nd = RED ->
    child k nd = Some c -> Some c <> x -> color_at (heap t) (Some c) = BLACK.

(** Property 2. *)
Definition black_root (t : Tree) : Prop := color_at (heap t) (root t) = BLACK.

(** The tree after [n] has been colored RED and [r] BLACK. *)
Definition recolored (n r : ptr) (t : Tree) : Tree :=
  mkTree (alter (set_color RED) n (alter (set_color BLACK) r (heap t))) (root t).

(** The tree after Case 1 of [insert_fixup]: [p] and [u] are BLACK and [g]
    has the color [cg], RED, or BLACK again when [g] has no parent. *)
Definition repainted (cg : COLOR) (g u p : ptr) (t : Tree) : Tree :=
  mkTree (alter (set_color cg) g
            (alter (set_color BLACK) u
               (alter (set_color BLACK) p (heap t))))
         (root t).

(** [t] is a red-black tree on the nodes [N] (properties 2, 4 and 5 of the
    source's comment at lines 153-158), except that the node [x] may be RED
    below a RED parent. *)
Definition rb_inv (N : gset ptr) (t : Tree) (x : option ptr) : Prop :=
  tree_inv N t /\ black_root t /\ red_ok N t x /\ exists b, balanced N t b.

(** What one pass through the loop of [insert_fixup] on a node at the depth
    [dn] leaves: a red-black tree when the loop is left at once; else
    either a red-black tree and a BLACK [node_p], or a RED [node] higher up
    with its parent [node_p]. *)
Definition fixup_pass (N : gset ptr) (dn : nat) (res : ptr * option ptr)
    (t' : Tree) : Prop :=
  match res.2 with
  | None => rb_inv N t' None
  | Some q =>
    (rb_inv N t' None /\ (color <$> heap t' !! q) = Some BLACK /\ (2 <= dn)%nat) \/
    (rb_inv N t' (Some res.1) /\ res.1 ∈ N /\
     (exists xd', heap t' !! res.1 = Some xd' /\ color xd' = RED /\
                  parent xd' = Some q) /\
     exists dn', depth t' res.1 dn' /\ (dn' < dn)%nat)
  end.

(** The operations of a caller that constructs the nodes of a list, each
    with its address, key and color, and inserts them one after the
    other. *)
Definition insert_ops (ns : list (ptr * Z * COLOR)) : list op :=
  (fun x => Insert x.1.1 x.1.2 x.2) <$> ns.

(** The tree after the node [a] has been colored BLACK. *)
Definition blackened (a : ptr) (t : Tree) : Tree :=
  mkTree (alter (set_color BLACK) a (heap t)) (root t).

(** 20B(10R(5B(3R(1R, -), 7R), 15B), 30B): a red-black tree to which the
    RED node 1 has just been attached below the RED node 3, whose sibling 7
    is RED too. *)
Definition red_below_red : Tree :=
  mkTree (nodes [(1%positive, mkNode 1 RED (Some 3%positive) None None);
                 (3%positive, mkNode 3 RED (Some 5%positive) (Some 1%positive) None);
                 (5%positive, mkNode 5 BLACK (Some 10%positive) (Some 3%positive) (Some 7%positive));
                 (7%positive, mkNode 7 RED (Some 5%positive) None None);
                 (10%positive, mkNode 10 RED (Some 20%positive) (Some 5%positive) (Some 15%positive));
                 (15%positive, mkNode 15 BLACK (Some 10%positive) None None);
                 (20%positive, mkNode 20 BLACK None (Some 10%positive) (Some 30%positive));
                 (30%positive, mkNode 30 BLACK (Some 20%positive) None None)])
         (Some 20%positive).

(** The shape of [red_below_red]. *)
Definition red_below_red_shape : shape :=
  Br (Br (Br (Br (Br Leaf 1%positive 1 RED Leaf) 3%positive 3 RED Leaf)
             5%positive 5 BLACK (Br Leaf 7%positive 7 RED Leaf))
         10%positive 10 RED (Br Leaf 15%positive 15 BLACK Leaf))
     20%positive 20 BLACK (Br Leaf 30%positive 30 BLACK Leaf).

(** * Properties *)

(** ** Basic facts about the monad and the store *)

Lemma bind_Ok {A B} (m : M A) (k : A -> M B) t a t' :
  m t = Ok a t' -> bind m k t = k a t'.
Proof. unfold bind. intros ->. reflexivity. Qed.

Lemma bind_Ok_inv {A B} (m : M A) (k : A -> M B) t b t'' :
  bind m k t = Ok b t'' -> exists a t', m t = Ok a t' /\ k a t' = Ok b t''.
Proof. unfold bind. destruct (m t) as [a t'| | |]; try discriminate. eauto. Qed.

Lemma load_Ok a t n : heap t !! a = Some n -> load a t = Ok n t.
Proof. unfold load. intros ->. reflexivity. Qed.

Lemma load_Ok_inv a t n t' : load a t = Ok n t' -> t' = t /\ heap t !! a = Some n.
Proof. unfold load. destruct (heap t !! a); intros [=]; subst; auto. Qed.

Lemma store_Ok a f t n :
  heap t !! a = Some n ->
  store a f t = Ok tt (mkTree (<[a := f n]> (heap t)) (root t)).
Proof. unfold store. intros ->. reflexivity. Qed.

Lemma nothrow_ret {A} (a : A) : nothrow (ret a).
Proof. intros t t'. discriminate. Qed.

Lemma nothrow_crash {A} : nothrow (@crash A).
Proof. intros t t'. discriminate. Qed.

Lemma nothrow_timeout {A} : nothrow (@timeout A).
Proof. intros t t'. discriminate. Qed.

Lemma nothrow_bind {A B} (m : M A) (k : A -> M B) :
  nothrow m -> (forall a, nothrow (k a)) -> nothrow (bind m k).
Proof.
  intros Hm Hk t t'. unfold bind. specialize (Hm t).
  destruct (m t) as [a t1|t1| |]; try discriminate.
  - apply Hk.
  - destruct (Hm t1). reflexivity.
Qed.

Lemma nothrow_bind_deref {B} (p : option ptr) (k : ptr -> M B) :
  (forall a, p = Some a -> nothrow (k a)) -> nothrow (bind (deref p) k).
Proof.
  intros Hk. destruct p as [a|].
  - intros t t'. apply (Hk a eq_refl).
  - intros t t'. discriminate.
Qed.

Lemma nothrow_load a : nothrow (load a).
Proof. intros t t'. unfold load. destruct (heap t !! a); discriminate. Qed.

Lemma nothrow_store a f : nothrow (store a f).
Proof. intros t t'. unfold store. destruct (heap t !! a); discriminate. Qed.

Lemma nothrow_get_root : nothrow get_root.
Proof. intros t t'. discriminate. Qed.

Lemma nothrow_set_root r : nothrow (set_root r).
Proof. intros t t'. discriminate. Qed.

Lemma nothrow_deref p : nothrow (deref p).
Proof. destruct p; [apply nothrow_ret | apply nothrow_crash]. Qed.

Create HintDb nothrow.
#[local] Hint Resolve nothrow_ret nothrow_crash nothrow_timeout nothrow_load
  nothrow_store nothrow_get_root nothrow_set_root nothrow_deref : nothrow.

(** Break a goal [nothrow m] along the structure of [m]. *)
Ltac nothrow_step :=
  match goal with
  | |- nothrow (bind (deref _) _) => apply nothrow_bind_deref; intros ? ?; subst
  | |- nothrow (bind _ _) => apply nothrow_bind; [| intros ?]
  | |- nothrow (if ?b then _ else _) => destruct b
  | |- nothrow (match ?x with _ => _ end) => destruct x
  | |- nothrow (let '(_, _) := ?x in _) => destruct x
  | |- nothrow _ => solve [auto with nothrow]
  end.

Lemma nothrow_get_key a : nothrow (get_key a).
Proof. unfold get_key. repeat nothrow_step. Qed.
Lemma nothrow_get_color a : nothrow (get_color a).
Proof. unfold get_color. repeat nothrow_step. Qed.
Lemma nothrow_get_parent a : nothrow (get_parent a).
Proof. unfold get_parent. repeat nothrow_step. Qed.
Lemma nothrow_get_lchild a : nothrow (get_lchild a).
Proof. unfold get_lchild. repeat nothrow_step. Qed.
Lemma nothrow_get_rchild a : nothrow (get_rchild a).
Proof. unfold get_rchild. repeat nothrow_step. Qed.
#[local] Hint Resolve nothrow_get_key nothrow_get_color nothrow_get_parent
  nothrow_get_lchild nothrow_get_rchild : nothrow.

Lemma nothrow_has_color p c : nothrow (has_color p c).
Proof. unfold has_color. repeat nothrow_step. Qed.
Lemma nothrow_is_left_child a : nothrow (is_left_child a).
Proof. unfold is_left_child. repeat nothrow_step. Qed.
Lemma nothrow_is_right_child a : nothrow (is_right_child a).
Proof. unfold is_right_child. repeat nothrow_step. Qed.
#[local] Hint Resolve nothrow_has_color nothrow_is_left_child
  nothrow_is_right_child : nothrow.

Lemma nothrow_left_rotate n : nothrow (left_rotate (Some n)).
Proof. unfold left_rotate. repeat nothrow_step. Qed.
Lemma nothrow_right_rotate n : nothrow (right_rotate (Some n)).
Proof. unfold right_rotate. repeat nothrow_step. Qed.
Lemma nothrow_transplant u v : nothrow (transplant (Some u) v).
Proof. unfold transplant. repeat nothrow_step. Qed.
#[local] Hint Resolve nothrow_left_rotate nothrow_right_rotate
  nothrow_transplant : nothrow.

(** ** Failures on an absent argument *)

(** C6: [left_rotate], [right_rotate] and [transplant] throw
    [invalid_argument] exactly when their first argument is the empty
    pointer, and then the tree is the one they were given; a rotation of a
    present node whose child on the rotating side is absent returns normally
    and leaves the tree as it was. *)
Theorem rotate_transplant_failures :
  (forall node t,
      (exists t', left_rotate node t = Throw t') <-> node = None) /\
  (forall node t,
      (exists t', right_rotate node t = Throw t') <-> node = None) /\
  (forall u v t,
      (exists t', transplant u v t = Throw t') <-> u = None) /\
  (forall t, left_rotate None t = Throw t /\ right_rotate None t = Throw t) /\
  (forall v t, transplant None v t = Throw t) /\
  (forall n nd t,
      heap t !! n = Some nd -> rchild nd = None ->
      left_rotate (Some n) t = Ok tt t) /\
  (forall n nd t,
      heap t !! n = Some nd -> lchild nd = None ->
      right_rotate (Some n) t = Ok tt t).
Proof.
  repeat split.
  - intros [t' H]. destruct node as [n|]; [|reflexivity].
    exfalso. exact (nothrow_left_rotate n t t' H).
  - intros ->. exists t. reflexivity.
  - intros [t' H]. destruct node as [n|]; [|reflexivity].
    exfalso. exact (nothrow_right_rotate n t t' H).
  - intros ->. exists t. reflexivity.
  - intros [t' H]. destruct u as [a|]; [|reflexivity].
    exfalso. exact (nothrow_transplant a v t t' H).
  - intros ->. exists t. reflexivity.
  - intros n nd t Hn Hr. unfold left_rotate, get_rchild.
    rewrite (bind_Ok _ _ t (rchild nd) t).
    + rewrite Hr. reflexivity.
    + rewrite (bind_Ok _ _ t nd t (load_Ok _ _ _ Hn)). reflexivity.
  - intros n nd t Hn Hl. unfold right_rotate, get_lchild.
    rewrite (bind_Ok _ _ t (lchild nd) t).
    + rewrite Hl. reflexivity.
    + rewrite (bind_Ok _ _ t nd t (load_Ok _ _ _ Hn)). reflexivity.
Qed.

(** C8: [remove], [successor] and [predecessor] throw [invalid_argument] on
    the empty pointer, whatever the tree, and the tree at the throw is the
    one they were given: nothing was read or written before. *)
Theorem null_argument_throws :
  forall fuel t,
    remove fuel None t = Throw t /\
    successor fuel None t = Throw t /\
    predecessor fuel None t = Throw t.
Proof. intros fuel t. repeat split. Qed.

(** ** The invariants on concrete runs *)

(** C1 (the code breaks the claim): after four inserts the tree satisfies
    I1-I6; removing the BLACK leaf 1 returns normally and leaves
    2B(-, 3B(-, 4R)), where the paths below the root do not have the same
    number of BLACK nodes.  Also, a single RED node inserted into the empty
    tree stays a RED root. *)
Theorem remove_black_leaf_breaks_invariants :
  (exists t0 t1,
      run_ops 10 four_inserts empty_tree = Ok tt t0 /\
      shape_of 10 t0 = Some four_nodes_shape /\
      red_black four_nodes_shape = true /\
      remove 10 (Some 1%positive) t0 = Ok tt t1 /\
      shape_of 10 t1 =
        Some (Br Leaf 2%positive 2 BLACK
                (Br Leaf 3%positive 3 BLACK (Br Leaf 4%positive 4 RED Leaf))) /\
      (black_height <$> shape_of 10 t1) = Some None /\
      (red_black <$> shape_of 10 t1) = Some false) /\
  (exists t1,
      run_ops 10 [Insert 1 1 RED] empty_tree = Ok tt t1 /\
      shape_of 10 t1 = Some (Br Leaf 1%positive 1 RED Leaf) /\
      (root_black <$> shape_of 10 t1) = Some false).
Proof.
  split.
  - eexists _, _. split; [vm_compute; reflexivity|].
    split; [vm_compute; reflexivity|].
    split; [vm_compute; reflexivity|].
    split; [vm_compute; reflexivity|].
    repeat split; vm_compute; reflexivity.
  - eexists. split; [vm_compute; reflexivity|].
    repeat split; vm_compute; reflexivity.
Qed.

(** C2 (the code breaks the claim): in the tree 2B(1B, 3B(-, 4R)) the leaf 1
    is BLACK, yet the structural phase of [remove] hands RED to the final
    test as [y_color], so [remove] returns the tree as the structural phase
    left it, without a call of [delete_fixup].  The same happens for the
    BLACK node 3, which has one child. *)
Theorem remove_records_red_for_black_node :
  exists t0,
    run_ops 10 four_inserts empty_tree = Ok tt t0 /\
    (color <$> heap t0 !! 1%positive) = Some BLACK /\
    (color <$> heap t0 !! 3%positive) = Some BLACK /\
    (exists t1,
        remove_splice 10 1%positive t0 = Ok (None, RED) t1 /\
        remove 10 (Some 1%positive) t0 = Ok tt t1 /\
        delete_fixup 10 None t1 = Ok tt t1) /\
    (exists t1 t2,
        remove_splice 10 3%positive t0 = Ok (Some 4%positive, RED) t1 /\
        remove 10 (Some 3%positive) t0 = Ok tt t1 /\
        delete_fixup 10 (Some 4%positive) t1 = Ok tt t2 /\
        (color <$> heap t1 !! 4%positive) = Some RED /\
        (color <$> heap t2 !! 4%positive) = Some BLACK).
Proof.
  eexists. split; [vm_compute; reflexivity|].
  split; [vm_compute; reflexivity|].
  split; [vm_compute; reflexivity|].
  split.
  - eexists. split; [vm_compute; reflexivity|].
    split; vm_compute; reflexivity.
  - eexists _, _. split; [vm_compute; reflexivity|].
    split; [vm_compute; reflexivity|].
    split; [vm_compute; reflexivity|].
    split; vm_compute; reflexivity.
Qed.

(** C3 (the code breaks the claim): a node constructed RED and inserted into
    the empty tree becomes the root and is still RED when [insert]
    returns. *)
Theorem insert_empty_keeps_red :
  forall fuel a k,
    exists t1,
      run_op fuel (Insert a k RED) empty_tree = Ok tt t1 /\
      root t1 = Some a /\
      heap t1 !! a = Some (mkNode k RED None None None).
Proof.
  intros fuel a k. eexists. split; [reflexivity|]. split; [reflexivity|].
  cbn. apply lookup_insert_eq.
Qed.

(** ** Reading fields *)

Lemma get_key_Ok a t n : heap t !! a = Some n -> get_key a t = Ok (key n) t.
Proof. intros H. unfold get_key. rewrite (bind_Ok _ _ _ _ _ (load_Ok _ _ _ H)). reflexivity. Qed.
Lemma get_color_Ok a t n : heap t !! a = Some n -> get_color a t = Ok (color n) t.
Proof. intros H. unfold get_color. rewrite (bind_Ok _ _ _ _ _ (load_Ok _ _ _ H)). reflexivity. Qed.
Lemma get_parent_Ok a t n : heap t !! a = Some n -> get_parent a t = Ok (parent n) t.
Proof. intros H. unfold get_parent. rewrite (bind_Ok _ _ _ _ _ (load_Ok _ _ _ H)). reflexivity. Qed.
Lemma get_lchild_Ok a t n : heap t !! a = Some n -> get_lchild a t = Ok (lchild n) t.
Proof. intros H. unfold get_lchild. rewrite (bind_Ok _ _ _ _ _ (load_Ok _ _ _ H)). reflexivity. Qed.
Lemma get_rchild_Ok a t n : heap t !! a = Some n -> get_rchild a t = Ok (rchild n) t.
Proof. intros H. unfold get_rchild. rewrite (bind_Ok _ _ _ _ _ (load_Ok _ _ _ H)). reflexivity. Qed.

(** ** The descent of [insert] *)

Lemma insert_descend_total fuel t n nd :
  heap t !! n = Some nd ->
  forall p s tp0 l0,
    shape_from fuel (heap t) p = Some s ->
    exists tp l,
      insert_descend fuel (Some n) p tp0 l0 t = Ok (tp, l) t /\
      (p = None -> tp = tp0 /\ l = l0) /\
      (p <> None -> exists a, tp = Some a /\ is_Some (heap t !! a)).
Proof.
  intros Hn. induction fuel as [|f IH]; intros p s tp0 l0 Hs.
  - destruct p as [a|]; [discriminate|].
    exists tp0, l0. repeat split; auto. congruence.
  - destruct p as [a|].
    + simpl in Hs. destruct (heap t !! a) as [an|] eqn:Ha; [|discriminate].
      destruct (shape_from f (heap t) (lchild an)) as [sl|] eqn:Hl; [|discriminate].
      destruct (shape_from f (heap t) (rchild an)) as [sr|] eqn:Hr; [|discriminate].
      simpl. unfold deref.
      rewrite (bind_Ok _ _ t n t eq_refl).
      rewrite (bind_Ok _ _ _ _ _ (get_key_Ok _ _ _ Hn)).
      rewrite (bind_Ok _ _ _ _ _ (get_key_Ok _ _ _ Ha)).
      destruct (bool_decide (key nd < key an)).
      * rewrite (bind_Ok _ _ _ _ _ (get_lchild_Ok _ _ _ Ha)).
        destruct (IH (lchild an) sl (Some a) true Hl) as (tp & l & -> & H0 & H1).
        exists tp, l. split; [reflexivity|]. split; [congruence|]. intros _.
        destruct (lchild an) as [c|].
        -- apply H1. congruence.
        -- destruct H0 as [-> _]; [reflexivity|]. exists a. rewrite Ha. eauto.
      * rewrite (bind_Ok _ _ _ _ _ (get_rchild_Ok _ _ _ Ha)).
        destruct (IH (rchild an) sr (Some a) false Hr) as (tp & l & -> & H0 & H1).
        exists tp, l. split; [reflexivity|]. split; [congruence|]. intros _.
        destruct (rchild an) as [c|].
        -- apply H1. congruence.
        -- destruct H0 as [-> _]; [reflexivity|]. exists a. rewrite Ha. eauto.
    + exists tp0, l0. repeat split; auto. congruence.
Qed.

(** C9: on an empty tree [insert] only sets [root] and leaves the store,
    hence the color the caller gave the node, as it was.  On a non-empty
    tree of height at most [fuel], the part of [insert] before the call of
    [insert_fixup] returns with the node RED, whatever its color was, and
    [insert] is [insert_fixup] run from there. *)
Theorem insert_sets_red_unless_empty :
  (forall fuel node t,
      root t = None -> insert fuel node t = Ok tt (mkTree (heap t) node)) /\
  (forall fuel n nd t s,
      root t <> None ->
      shape_of fuel t = Some s ->
      heap t !! n = Some nd ->
      exists t',
        insert_attach fuel (Some n) t = Ok tt t' /\
        (color <$> heap t' !! n) = Some RED /\
        insert fuel (Some n) t = insert_fixup fuel (Some n) t').
Proof.
  split.
  - intros fuel node t Hr. unfold insert, get_root, bind. rewrite Hr. reflexivity.
  - intros fuel n nd t s Hr Hs Hn.
    destruct (insert_descend_total fuel t n nd Hn (root t) s None true Hs)
      as (tp & l & Hd & _ & Ha).
    destruct (Ha Hr) as (a & -> & [an Han]).
    assert (Hattach : exists t',
      insert_attach fuel (Some n) t = Ok tt t' /\
      (color <$> heap t' !! n) = Some RED).
    { unfold insert_attach.
      rewrite (bind_Ok get_root _ t (root t) t eq_refl).
      rewrite (bind_Ok _ _ _ _ _ Hd). cbn [deref].
      rewrite (bind_Ok (ret n) _ t n t eq_refl).
      rewrite (bind_Ok _ _ _ _ _ (store_Ok n _ t nd Hn)).
      set (t1 := mkTree (<[n:=set_parent (Some a) nd]> (heap t)) (root t)).
      rewrite (bind_Ok (ret a) _ t1 a t1 eq_refl).
      assert (exists an1, heap t1 !! a = Some an1) as [an1 Ha1].
      { subst t1. cbn. destruct (decide (n = a)) as [->|Hne].
        - rewrite lookup_insert_eq. eauto.
        - rewrite lookup_insert_ne by done. eauto. }
      assert (forall g, exists t2, store a g t1 = Ok tt t2 /\
                 is_Some (heap t2 !! n)) as Hst.
      { intros g. eexists. split; [apply (store_Ok a g t1 an1 Ha1)|].
        cbn. destruct (decide (a = n)) as [->|Hne].
        - rewrite lookup_insert_eq. eauto.
        - rewrite lookup_insert_ne by done. rewrite lookup_insert_eq. eauto. }
      destruct l.
      - destruct (Hst (set_lchild (Some n))) as (t2 & H2 & [n2 Hn2]).
        rewrite (bind_Ok _ _ _ _ _ H2).
        rewrite (store_Ok n _ t2 n2 Hn2). eexists. split; [reflexivity|].
        cbn. rewrite lookup_insert_eq. reflexivity.
      - destruct (Hst (set_rchild (Some n))) as (t2 & H2 & [n2 Hn2]).
        rewrite (bind_Ok _ _ _ _ _ H2).
        rewrite (store_Ok n _ t2 n2 Hn2). eexists. split; [reflexivity|].
        cbn. rewrite lookup_insert_eq. reflexivity. }
    destruct Hattach as (t' & Hat & Hc).
    exists t'. split; [exact Hat|]. split; [exact Hc|].
    unfold insert. rewrite (bind_Ok get_root _ t (root t) t eq_refl).
    destruct (root t) as [r|]; [|congruence].
    rewrite (bind_Ok _ _ _ _ _ Hat). reflexivity.
Qed.

(** ** Computations that leave the tree alone *)

Lemma readonly_ret {A} (a : A) : readonly (ret a).
Proof. intros t b t' [=]. auto. Qed.

Lemma readonly_crash {A} : readonly (@crash A).
Proof. intros t b t' [=]. Qed.

Lemma readonly_timeout {A} : readonly (@timeout A).
Proof. intros t b t' [=]. Qed.

Lemma readonly_bind {A B} (m : M A) (k : A -> M B) :
  readonly m -> (forall a, readonly (k a)) -> readonly (bind m k).
Proof.
  intros Hm Hk t b t' H. apply bind_Ok_inv in H as (a & t1 & H1 & H2).
  apply Hm in H1. subst t1. exact (Hk a t b t' H2).
Qed.

Lemma readonly_load a : readonly (load a).
Proof. intros t n t' H. apply load_Ok_inv in H. tauto. Qed.

Lemma readonly_get_root : readonly get_root.
Proof. intros t b t' [=]. auto. Qed.

Lemma readonly_deref p : readonly (deref p).
Proof. destruct p; [apply readonly_ret | apply readonly_crash]. Qed.

Create HintDb readonly.
#[local] Hint Resolve readonly_ret readonly_crash readonly_timeout
  readonly_load readonly_get_root readonly_deref : readonly.

Ltac readonly_step :=
  match goal with
  | |- readonly (bind _ _) => apply readonly_bind; [| intros ?]
  | |- readonly (if ?b then _ else _) => destruct b
  | |- readonly (match ?x with _ => _ end) => destruct x
  | |- readonly _ => solve [auto with readonly]
  end.

Lemma readonly_get_key a : readonly (get_key a).
Proof. unfold get_key. repeat readonly_step. Qed.
Lemma readonly_get_color a : readonly (get_color a).
Proof. unfold get_color. repeat readonly_step. Qed.
Lemma readonly_get_parent a : readonly (get_parent a).
Proof. unfold get_parent. repeat readonly_step. Qed.
Lemma readonly_get_lchild a : readonly (get_lchild a).
Proof. unfold get_lchild. repeat readonly_step. Qed.
Lemma readonly_get_rchild a : readonly (get_rchild a).
Proof. unfold get_rchild. repeat readonly_step. Qed.
#[local] Hint Resolve readonly_get_key readonly_get_color readonly_get_parent
  readonly_get_lchild readonly_get_rchild : readonly.

Lemma readonly_has_color p c : readonly (has_color p c).
Proof. unfold has_color. repeat readonly_step. Qed.
Lemma readonly_is_left_child a : readonly (is_left_child a).
Proof. unfold is_left_child. repeat readonly_step. Qed.
Lemma readonly_is_right_child a : readonly (is_right_child a).
Proof. unfold is_right_child. repeat readonly_step. Qed.
#[local] Hint Resolve readonly_has_color readonly_is_left_child
  readonly_is_right_child : readonly.

Lemma readonly_andM a b : readonly a -> readonly b -> readonly (andM a b).
Proof. intros Ha Hb. unfold andM. repeat readonly_step; auto. Qed.
Lemma readonly_orM a b : readonly a -> readonly b -> readonly (orM a b).
Proof. intros Ha Hb. unfold orM. repeat readonly_step; auto. Qed.

Lemma readonly_child_tests w c :
  readonly (lchild_has_color w c) /\ readonly (rchild_has_color w c) /\
  readonly (lchild_absent w) /\ readonly (rchild_absent w).
Proof.
  unfold lchild_has_color, rchild_has_color, lchild_absent, rchild_absent.
  repeat split; repeat readonly_step.
Qed.

(** Inversion of a successful read. *)
Lemma get_parent_Ok_inv a t v t' :
  get_parent a t = Ok v t' -> t' = t /\ exists n, heap t !! a = Some n /\ v = parent n.
Proof.
  unfold get_parent. intros H. apply bind_Ok_inv in H as (n & t1 & H1 & [= <- <-]).
  apply load_Ok_inv in H1 as [-> H1]. eauto.
Qed.

Lemma get_color_Ok_inv a t v t' :
  get_color a t = Ok v t' -> t' = t /\ exists n, heap t !! a = Some n /\ v = color n.
Proof.
  unfold get_color. intros H. apply bind_Ok_inv in H as (n & t1 & H1 & [= <- <-]).
  apply load_Ok_inv in H1 as [-> H1]. eauto.
Qed.

Lemma get_lchild_Ok_inv a t v t' :
  get_lchild a t = Ok v t' -> t' = t /\ exists n, heap t !! a = Some n /\ v = lchild n.
Proof.
  unfold get_lchild. intros H. apply bind_Ok_inv in H as (n & t1 & H1 & [= <- <-]).
  apply load_Ok_inv in H1 as [-> H1]. eauto.
Qed.

Lemma get_rchild_Ok_inv a t v t' :
  get_rchild a t = Ok v t' -> t' = t /\ exists n, heap t !! a = Some n /\ v = rchild n.
Proof.
  unfold get_rchild. intros H. apply bind_Ok_inv in H as (n & t1 & H1 & [= <- <-]).
  apply load_Ok_inv in H1 as [-> H1]. eauto.
Qed.

(** ** The sibling in [delete_fixup] *)

(** C4 (the code breaks the claim).  The test of Case 2 (lines 363 and 410)
    looks at the color of [w] only: whenever [w] is present and BLACK, the
    body of Case 2 runs, recoloring [w] RED and advancing [node] to its
    parent, whatever the colors of the children of [w]; the tests of Cases 3
    and 4, which ask for a BLACK [w] too, are never reached with one.  On
    [red_nephew], where the sibling 4 of node 1 is BLACK with a RED right
    child (Case 4 of the source comment), [delete_fixup] therefore recolors 4
    and leaves the RED node 4 with the RED child 6.

    In the right orientation [w] is not read again after the rotation of
    Case 1 (lines 404-408; the left orientation reads it again at line 359).
    On [short_right] the rotation makes 6 the sibling of node 9, yet the
    test and the body of Case 2 work on the former sibling 4, which has
    become the root: the pass runs Case 1 and Case 2, colors 4 RED and leaves
    6 BLACK, and [delete_fixup] returns a tree with a RED root and unequal
    numbers of BLACK nodes.  On the mirror image [short_left] the sibling is
    read again, the pass runs Case 1 and Case 2 on the new sibling 4, and the
    result is a red-black tree. *)
Theorem delete_fixup_case2_on_wrong_sibling :
  (forall t node nd w wd,
      heap t !! node = Some nd -> heap t !! w = Some wd -> color wd = BLACK ->
      delete_fixup_left_rest node (Some w) t
      = Ok (Some Case2, parent nd)
           (mkTree (<[w := set_color RED wd]> (heap t)) (root t)) /\
      delete_fixup_right_rest node (Some w) t
      = Ok (Some Case2, parent nd)
           (mkTree (<[w := set_color RED wd]> (heap t)) (root t))) /\
  (exists t1,
      is_left_child 1%positive red_nephew = Ok true red_nephew /\
      get_parent 1%positive red_nephew = Ok (Some 2%positive) red_nephew /\
      get_rchild 2%positive red_nephew = Ok (Some 4%positive) red_nephew /\
      has_color (Some 4%positive) BLACK red_nephew = Ok true red_nephew /\
      rchild_has_color (Some 4%positive) RED red_nephew = Ok true red_nephew /\
      delete_fixup 10 (Some 1%positive) red_nephew = Ok tt t1 /\
      shape_of 10 t1 =
        Some (Br (Br Leaf 1%positive 1 BLACK Leaf) 2%positive 2 BLACK
                (Br (Br Leaf 3%positive 3 BLACK Leaf) 4%positive 4 RED
                   (Br (Br Leaf 5%positive 5 BLACK Leaf) 6%positive 6 RED
                      (Br Leaf 7%positive 7 BLACK Leaf)))) /\
      (no_red_red <$> shape_of 10 t1) = Some false) /\
  (exists t1 t2 t3,
      is_left_child 9%positive short_right = Ok false short_right /\
      get_parent 9%positive short_right = Ok (Some 8%positive) short_right /\
      get_lchild 8%positive short_right = Ok (Some 4%positive) short_right /\
      delete_fixup_right_case1 8%positive (Some 4%positive) short_right
      = Ok (true, Some 4%positive) t1 /\
      get_lchild 8%positive t1 = Ok (Some 6%positive) t1 /\
      root t1 = Some 4%positive /\
      delete_fixup_right_rest 9%positive (Some 4%positive) t1
      = Ok (Some Case2, Some 8%positive) t2 /\
      delete_fixup_body 9%positive short_right
      = Ok ([Case1; Case2], Some 8%positive) t2 /\
      (color <$> heap t2 !! 4%positive) = Some RED /\
      (color <$> heap t2 !! 6%positive) = Some BLACK /\
      delete_fixup 10 (Some 9%positive) short_right = Ok tt t3 /\
      shape_of 10 t3 =
        Some (Br (Br (Br Leaf 1%positive 1 BLACK Leaf) 2%positive 2 BLACK
                    (Br Leaf 3%positive 3 BLACK Leaf))
                4%positive 4 RED
                (Br (Br (Br Leaf 5%positive 5 BLACK Leaf) 6%positive 6 BLACK
                       (Br Leaf 7%positive 7 BLACK Leaf))
                   8%positive 8 BLACK (Br Leaf 9%positive 9 BLACK Leaf))) /\
      (root_black <$> shape_of 10 t3) = Some false /\
      (black_height <$> shape_of 10 t3) = Some None) /\
  (exists t1 t2 t3,
      is_left_child 1%positive short_left = Ok true short_left /\
      get_parent 1%positive short_left = Ok (Some 2%positive) short_left /\
      get_rchild 2%positive short_left = Ok (Some 6%positive) short_left /\
      delete_fixup_left_case1 2%positive (Some 6%positive) short_left
      = Ok (true, Some 4%positive) t1 /\
      get_rchild 2%positive t1 = Ok (Some 4%positive) t1 /\
      delete_fixup_left_rest 1%positive (Some 4%positive) t1
      = Ok (Some Case2, Some 2%positive) t2 /\
      delete_fixup_body 1%positive short_left
      = Ok ([Case1; Case2], Some 2%positive) t2 /\
      (color <$> heap t2 !! 4%positive) = Some RED /\
      (color <$> heap t2 !! 6%positive) = Some BLACK /\
      delete_fixup 10 (Some 1%positive) short_left = Ok tt t3 /\
      shape_of 10 t3 =
        Some (Br (Br (Br Leaf 1%positive 1 BLACK Leaf) 2%positive 2 BLACK
                    (Br (Br Leaf 3%positive 3 BLACK Leaf) 4%positive 4 RED
                       (Br Leaf 5%positive 5 BLACK Leaf)))
                6%positive 6 BLACK
                (Br (Br Leaf 7%positive 7 BLACK Leaf) 8%positive 8 BLACK
                   (Br Leaf 9%positive 9 BLACK Leaf))) /\
      (red_black <$> shape_of 10 t3) = Some true).
Proof.
  split; [|split; [|split]].
  - intros t node nd w wd Hn Hw Hc.
    assert (Hp : get_parent node (mkTree (<[w := set_color RED wd]> (heap t)) (root t))
                 = Ok (parent nd) (mkTree (<[w := set_color RED wd]> (heap t)) (root t))).
    { unfold get_parent, load, bind, ret. cbn [heap].
      destruct (decide (node = w)) as [->|Hne].
      - rewrite lookup_insert_eq. rewrite Hn in Hw. injection Hw as ->. reflexivity.
      - rewrite lookup_insert_ne by congruence. rewrite Hn. reflexivity. }
    assert (Hb : has_color (Some w) BLACK t = Ok true t).
    { unfold has_color, get_color, load, bind, ret. rewrite Hw, Hc. reflexivity. }
    assert (Hs : store w (set_color RED) t
                 = Ok tt (mkTree (<[w := set_color RED wd]> (heap t)) (root t))).
    { unfold store. rewrite Hw. reflexivity. }
    split.
    + unfold delete_fixup_left_rest.
      rewrite (bind_Ok _ _ _ _ _ Hb). cbn [deref].
      rewrite (bind_Ok (ret w) _ t w t eq_refl).
      rewrite (bind_Ok _ _ _ _ _ Hs), (bind_Ok _ _ _ _ _ Hp). reflexivity.
    + unfold delete_fixup_right_rest.
      rewrite (bind_Ok _ _ _ _ _ Hb). cbn [deref].
      rewrite (bind_Ok (ret w) _ t w t eq_refl).
      rewrite (bind_Ok _ _ _ _ _ Hs), (bind_Ok _ _ _ _ _ Hp). reflexivity.
  - eexists. repeat (split; [vm_compute; reflexivity|]). vm_compute; reflexivity.
  - eexists _, _, _. repeat (split; [vm_compute; reflexivity|]). vm_compute; reflexivity.
  - eexists _, _, _. repeat (split; [vm_compute; reflexivity|]). vm_compute; reflexivity.
Qed.

(** ** The membership test of [remove] *)

Lemma key_path_None h k n : ~ key_path h k n None.
Proof. intros H. inversion H. Qed.

Lemma remove_descend_spec fuel t n nd :
  heap t !! n = Some nd ->
  forall p s,
    shape_from fuel (heap t) p = Some s ->
    exists temp,
      remove_descend fuel n p t = Ok temp t /\
      (temp = Some n <-> key_path (heap t) (key nd) n p).
Proof.
  intros Hn. induction fuel as [|f IH]; intros p s Hs.
  - destruct p as [a|]; [discriminate|]. exists None. split; [reflexivity|].
    split; [discriminate|]. intros H. destruct (key_path_None _ _ _ H).
  - destruct p as [a|].
    + cbn [remove_descend]. destruct (bool_decide (a = n)) eqn:Han.
      * apply bool_decide_eq_true in Han as ->. exists (Some n).
        split; [reflexivity|]. split; [constructor|reflexivity].
      * apply bool_decide_eq_false in Han.
        simpl in Hs. destruct (heap t !! a) as [an|] eqn:Ha; [|discriminate].
        destruct (shape_from f (heap t) (lchild an)) as [sl|] eqn:Hl; [|discriminate].
        destruct (shape_from f (heap t) (rchild an)) as [sr|] eqn:Hr; [|discriminate].
        rewrite (bind_Ok _ _ _ _ _ (get_key_Ok _ _ _ Hn)).
        rewrite (bind_Ok _ _ _ _ _ (get_key_Ok _ _ _ Ha)).
        destruct (bool_decide (key nd < key an)) eqn:Hlt.
        -- apply bool_decide_eq_true in Hlt.
           rewrite (bind_Ok _ _ _ _ _ (get_lchild_Ok _ _ _ Ha)).
           destruct (IH _ _ Hl) as (temp & -> & Hiff). exists temp.
           split; [reflexivity|]. rewrite Hiff. split.
           ++ intros H. eapply key_path_left; eauto.
           ++ intros H.
              inversion H as [|a' nd' Ha' Hk Hp|a' nd' Ha' Hk Hp]; subst;
                [congruence| |]; assert (nd' = an) as -> by congruence;
                [exact Hp | contradiction].
        -- apply bool_decide_eq_false in Hlt.
           rewrite (bind_Ok _ _ _ _ _ (get_rchild_Ok _ _ _ Ha)).
           destruct (IH _ _ Hr) as (temp & -> & Hiff). exists temp.
           split; [reflexivity|]. rewrite Hiff. split.
           ++ intros H. eapply key_path_right; eauto.
           ++ intros H.
              inversion H as [|a' nd' Ha' Hk Hp|a' nd' Ha' Hk Hp]; subst;
                [congruence| |]; assert (nd' = an) as -> by congruence;
                [contradiction | exact Hp].
    + exists None. split; [reflexivity|].
      split; [discriminate|]. intros H. destruct (key_path_None _ _ _ H).
Qed.

(** ** Nothing after the membership test throws *)

Lemma nothrow_minimum_loop fuel : forall c cp, nothrow (minimum_loop fuel c cp).
Proof.
  induction fuel as [|f IH]; intros c cp; destruct c; cbn [minimum_loop];
    repeat nothrow_step; auto.
Qed.

Lemma nothrow_maximum_loop fuel : forall c cp, nothrow (maximum_loop fuel c cp).
Proof.
  induction fuel as [|f IH]; intros c cp; destruct c; cbn [maximum_loop];
    repeat nothrow_step; auto.
Qed.

Lemma nothrow_successor_climb fuel : forall c p, nothrow (successor_climb fuel c p).
Proof.
  induction fuel as [|f IH]; intros c p; destruct p; cbn [successor_climb];
    repeat nothrow_step; auto.
Qed.

Lemma nothrow_predecessor_climb fuel : forall c p, nothrow (predecessor_climb fuel c p).
Proof.
  induction fuel as [|f IH]; intros c p; destruct p; cbn [predecessor_climb];
    repeat nothrow_step; auto.
Qed.

Lemma nothrow_successor fuel n : nothrow (successor fuel (Some n)).
Proof.
  unfold successor, minimum. repeat nothrow_step;
    auto using nothrow_minimum_loop, nothrow_successor_climb.
Qed.

Lemma nothrow_predecessor fuel n : nothrow (predecessor fuel (Some n)).
Proof.
  unfold predecessor, maximum. repeat nothrow_step;
    auto using nothrow_maximum_loop, nothrow_predecessor_climb.
Qed.

Lemma nothrow_andM a b : nothrow a -> nothrow b -> nothrow (andM a b).
Proof. intros Ha Hb. unfold andM. repeat nothrow_step; auto. Qed.
Lemma nothrow_orM a b : nothrow a -> nothrow b -> nothrow (orM a b).
Proof. intros Ha Hb. unfold orM. repeat nothrow_step; auto. Qed.

Lemma nothrow_lchild_has_color w c : nothrow (lchild_has_color w c).
Proof. unfold lchild_has_color. repeat nothrow_step. Qed.
Lemma nothrow_rchild_has_color w c : nothrow (rchild_has_color w c).
Proof. unfold rchild_has_color. repeat nothrow_step. Qed.
Lemma nothrow_lchild_absent w : nothrow (lchild_absent w).
Proof. unfold lchild_absent. repeat nothrow_step. Qed.
Lemma nothrow_rchild_absent w : nothrow (rchild_absent w).
Proof. unfold rchild_absent. repeat nothrow_step. Qed.
#[local] Hint Resolve nothrow_andM nothrow_orM nothrow_lchild_has_color
  nothrow_rchild_has_color nothrow_lchild_absent nothrow_rchild_absent : nothrow.

Lemma nothrow_delete_fixup_left_case1 np w : nothrow (delete_fixup_left_case1 np w).
Proof. unfold delete_fixup_left_case1. repeat nothrow_step. Qed.
Lemma nothrow_delete_fixup_right_case1 np w : nothrow (delete_fixup_right_case1 np w).
Proof. unfold delete_fixup_right_case1. repeat nothrow_step. Qed.
Lemma nothrow_delete_fixup_left_rest n w : nothrow (delete_fixup_left_rest n w).
Proof. unfold delete_fixup_left_rest. repeat nothrow_step. Qed.
Lemma nothrow_delete_fixup_right_rest n w : nothrow (delete_fixup_right_rest n w).
Proof. unfold delete_fixup_right_rest. repeat nothrow_step. Qed.
Lemma nothrow_delete_fixup_body n : nothrow (delete_fixup_body n).
Proof.
  unfold delete_fixup_body.
  apply nothrow_bind; [apply nothrow_is_left_child|intros il].
  destruct il.
  - apply nothrow_bind; [apply nothrow_get_parent|intros node_p].
    apply nothrow_bind; [apply nothrow_deref|intros np].
    apply nothrow_bind; [apply nothrow_get_rchild|intros w].
    apply nothrow_bind; [apply nothrow_delete_fixup_left_case1|intros first_].
    apply nothrow_bind; [apply nothrow_delete_fixup_left_rest|intros second_].
    apply nothrow_ret.
  - apply nothrow_bind; [apply nothrow_get_parent|intros node_p].
    apply nothrow_bind; [apply nothrow_deref|intros np].
    apply nothrow_bind; [apply nothrow_get_lchild|intros w].
    apply nothrow_bind; [apply nothrow_delete_fixup_right_case1|intros first_].
    apply nothrow_bind; [apply nothrow_delete_fixup_right_rest|intros second_].
    apply nothrow_ret.
Qed.

Lemma nothrow_delete_fixup fuel node : nothrow (delete_fixup fuel node).
Proof.
  unfold delete_fixup. apply nothrow_bind; [|intros [a|]; auto with nothrow].
  revert node. induction fuel as [|f IH]; intros node; cbn [delete_fixup_loop].
  - auto with nothrow.
  - repeat nothrow_step; auto using nothrow_delete_fixup_body.
Qed.

Lemma nothrow_remove_splice fuel n : nothrow (remove_splice fuel n).
Proof.
  unfold remove_splice.
  repeat first [ apply nothrow_successor | nothrow_step ].
Qed.

(** C5: in a tree of height at most [fuel], [remove] of a node the
    key-guided descent from the root does not pass through throws
    [invalid_argument], and the tree at the throw is the tree it was given;
    [remove] of a node the descent does pass through does not throw. *)
Theorem remove_throws_iff_not_on_key_path :
  forall fuel t s n nd,
    shape_of fuel t = Some s ->
    heap t !! n = Some nd ->
    (~ key_path (heap t) (key nd) n (root t) ->
     remove fuel (Some n) t = Throw t) /\
    (key_path (heap t) (key nd) n (root t) ->
     forall t', remove fuel (Some n) t <> Throw t').
Proof.
  intros fuel t s n nd Hs Hn.
  destruct (remove_descend_spec fuel t n nd Hn (root t) s Hs) as (temp & Hd & Hiff).
  unfold remove. rewrite (bind_Ok get_root _ t (root t) t eq_refl).
  rewrite (bind_Ok _ _ _ _ _ Hd). split.
  - intros Hno. rewrite bool_decide_eq_true_2; [reflexivity|].
    intros Heq. apply Hno, Hiff, Heq.
  - intros Hyes t'. rewrite bool_decide_eq_false_2.
    + apply nothrow_bind; [apply nothrow_remove_splice|].
      intros [x c]. destruct (bool_decide _); auto using nothrow_delete_fixup with nothrow.
    + intros Hne. apply Hne, Hiff, Hyes.
Qed.

(** ** Trees of bounded height *)

Lemma shape_from_Some_inv f h a s :
  shape_from f h (Some a) = Some s ->
  exists f' nd l r,
    f = S f' /\ h !! a = Some nd /\
    shape_from f' h (lchild nd) = Some l /\
    shape_from f' h (rchild nd) = Some r /\
    s = Br l a (key nd) (color nd) r.
Proof.
  destruct f as [|f']; [discriminate|]. simpl.
  destruct (h !! a) as [nd|]; [|discriminate].
  destruct (shape_from f' h (lchild nd)) as [l|] eqn:Hl; [|discriminate].
  destruct (shape_from f' h (rchild nd)) as [r|] eqn:Hr; [|discriminate].
  intros [= <-]. exists f', nd, l, r. auto.
Qed.

Lemma shape_from_mono h : forall f f' p s,
  shape_from f h p = Some s -> (f <= f')%nat -> shape_from f' h p = Some s.
Proof.
  induction f as [|f IH]; intros f' p s Hs Hle.
  - destruct p; [discriminate|]. destruct f'; exact Hs.
  - destruct p as [a|]; [|destruct f'; exact Hs].
    destruct f' as [|f']; [lia|].
    simpl in *. destruct (h !! a) as [nd|]; [|discriminate].
    destruct (shape_from f h (lchild nd)) as [l|] eqn:Hl; [|discriminate].
    destruct (shape_from f h (rchild nd)) as [r|] eqn:Hr; [|discriminate].
    rewrite (IH f' _ _ Hl) by lia. rewrite (IH f' _ _ Hr) by lia. exact Hs.
Qed.

(** The subtrees of a node of the shape are shapes of smaller height. *)
Lemma shape_from_at h n : forall f p s,
  shape_from f h p = Some s -> n ∈ addrs s ->
  exists nd l r,
    h !! n = Some nd /\
    shape_from f h (lchild nd) = Some l /\
    shape_from f h (rchild nd) = Some r.
Proof.
  induction f as [|f IH]; intros p s Hs Hin.
  - destruct p; [discriminate|]. injection Hs as <-. inversion Hin.
  - destruct p as [a|]; [|injection Hs as <-; inversion Hin].
    apply shape_from_Some_inv in Hs as (f' & nd & l & r & [= <-] & Ha & Hl & Hr & ->).
    cbn [addrs] in Hin. apply elem_of_app in Hin as [Hin|Hin].
    + destruct (IH _ _ Hl Hin) as (nd' & l' & r' & H1 & H2 & H3).
      exists nd', l', r'. split; [exact H1|].
      split; eapply shape_from_mono; eauto.
    + apply elem_of_cons in Hin as [->|Hin].
      * exists nd, l, r. split; [exact Ha|].
        split; eapply shape_from_mono; eauto.
      * destruct (IH _ _ Hr Hin) as (nd' & l' & r' & H1 & H2 & H3).
        exists nd', l', r'. split; [exact H1|].
        split; eapply shape_from_mono; eauto.
Qed.

(** ** Navigation *)

Lemma minimum_loop_leftmost t : forall f r s cp,
  shape_from f (heap t) (Some r) = Some s ->
  exists m, minimum_loop f (Some r) cp t = Ok (Some m) t /\ leftmost (heap t) r m.
Proof.
  induction f as [|f IH]; intros r s cp Hs; [discriminate|].
  apply shape_from_Some_inv in Hs as (f' & nd & l & r' & [= <-] & Ha & Hl & Hr & ->).
  cbn [minimum_loop]. rewrite (bind_Ok _ _ _ _ _ (get_lchild_Ok _ _ _ Ha)).
  destruct (lchild nd) as [c|] eqn:Hc.
  - destruct (IH c l (Some r) Hl) as (m & Hm & Hlm).
    exists m. split; [exact Hm|]. eapply leftmost_down; eauto.
  - exists r. split; [destruct f; reflexivity|]. eapply leftmost_here; eauto.
Qed.

Lemma maximum_loop_rightmost t : forall f r s cp,
  shape_from f (heap t) (Some r) = Some s ->
  exists m, maximum_loop f (Some r) cp t = Ok (Some m) t /\ rightmost (heap t) r m.
Proof.
  induction f as [|f IH]; intros r s cp Hs; [discriminate|].
  apply shape_from_Some_inv in Hs as (f' & nd & l & r' & [= <-] & Ha & Hl & Hr & ->).
  cbn [maximum_loop]. rewrite (bind_Ok _ _ _ _ _ (get_rchild_Ok _ _ _ Ha)).
  destruct (rchild nd) as [c|] eqn:Hc.
  - destruct (IH c r' (Some r) Hr) as (m & Hm & Hlm).
    exists m. split; [exact Hm|]. eapply rightmost_down; eauto.
  - exists r. split; [destruct f; reflexivity|]. eapply rightmost_here; eauto.
Qed.

Lemma is_left_child_Ok t c nd p pn :
  heap t !! c = Some nd -> parent nd = Some p -> heap t !! p = Some pn ->
  is_left_child c t = Ok (bool_decide (lchild pn = Some c)) t.
Proof.
  intros Hc Hp Hpn. unfold is_left_child.
  rewrite (bind_Ok _ _ _ _ _ (get_parent_Ok _ _ _ Hc)). rewrite Hp.
  rewrite (bind_Ok _ _ _ _ _ (get_lchild_Ok _ _ _ Hpn)). reflexivity.
Qed.

Lemma is_right_child_Ok t c nd p pn :
  heap t !! c = Some nd -> parent nd = Some p -> heap t !! p = Some pn ->
  is_right_child c t = Ok (bool_decide (rchild pn = Some c)) t.
Proof.
  intros Hc Hp Hpn. unfold is_right_child.
  rewrite (bind_Ok _ _ _ _ _ (get_parent_Ok _ _ _ Hc)). rewrite Hp.
  rewrite (bind_Ok _ _ _ _ _ (get_rchild_Ok _ _ _ Hpn)). reflexivity.
Qed.

Lemma successor_climb_chain t c d :
  parent_chain (heap t) c d ->
  forall f nd, (d <= f)%nat -> heap t !! c = Some nd ->
    exists res,
      successor_climb f c (parent nd) t = Ok res t /\
      left_step_ancestor (heap t) c res.
Proof.
  induction 1 as [c nd0 Hc Hp|c nd0 p pn d Hc Hp Hpn Hch Hchain IH];
    intros f nd Hle Hnd; assert (nd = nd0) as -> by congruence.
  - rewrite Hp. exists None. split; [destruct f; reflexivity|].
    eapply left_step_none; eauto.
  - rewrite Hp. destruct f as [|f]; [lia|]. cbn [successor_climb].
    rewrite (bind_Ok _ _ _ _ _ (is_right_child_Ok _ _ _ _ _ Hc Hp Hpn)).
    destruct (bool_decide (rchild pn = Some c)) eqn:Hrc.
    + apply bool_decide_eq_true in Hrc.
      rewrite (bind_Ok _ _ _ _ _ (get_parent_Ok _ _ _ Hpn)).
      destruct (IH f pn ltac:(lia) Hpn) as (res & Hres & Hanc).
      exists res. split; [exact Hres|]. eapply left_step_ascend; eauto.
    + apply bool_decide_eq_false in Hrc. destruct Hch as [Hl|Hr]; [|contradiction].
      exists (Some p). split; [reflexivity|]. eapply left_step_found; eauto.
Qed.

Lemma predecessor_climb_chain t c d :
  parent_chain (heap t) c d ->
  forall f nd, (d <= f)%nat -> heap t !! c = Some nd ->
    exists res,
      predecessor_climb f c (parent nd) t = Ok res t /\
      right_step_ancestor (heap t) c res.
Proof.
  induction 1 as [c nd0 Hc Hp|c nd0 p pn d Hc Hp Hpn Hch Hchain IH];
    intros f nd Hle Hnd; assert (nd = nd0) as -> by congruence.
  - rewrite Hp. exists None. split; [destruct f; reflexivity|].
    eapply right_step_none; eauto.
  - rewrite Hp. destruct f as [|f]; [lia|]. cbn [predecessor_climb].
    rewrite (bind_Ok _ _ _ _ _ (is_left_child_Ok _ _ _ _ _ Hc Hp Hpn)).
    destruct (bool_decide (lchild pn = Some c)) eqn:Hrc.
    + apply bool_decide_eq_true in Hrc.
      rewrite (bind_Ok _ _ _ _ _ (get_parent_Ok _ _ _ Hpn)).
      destruct (IH f pn ltac:(lia) Hpn) as (res & Hres & Hanc).
      exists res. split; [exact Hres|]. eapply right_step_ascend; eauto.
    + apply bool_decide_eq_false in Hrc. destruct Hch as [Hl|Hr]; [contradiction|].
      exists (Some p). split; [reflexivity|]. eapply right_step_found; eauto.
Qed.

Lemma parent_chain_child h a nd c s f dtop :
  h !! a = Some nd ->
  (lchild nd = Some c \/ rchild nd = Some c) ->
  shape_from f h (Some c) = Some s ->
  parents_ok h (Some a) s ->
  parent_chain h a dtop ->
  parent_chain h c (S dtop).
Proof.
  intros Ha Hc Hs Hp Hch.
  apply shape_from_Some_inv in Hs as (f' & cn & l & r & _ & Hcn & _ & _ & ->).
  destruct Hp as (Hp & _). rewrite Hcn in Hp. injection Hp as Hp.
  eapply chain_up; eauto.
Qed.

Lemma parent_chain_in_shape h : forall f p s par dtop,
  shape_from f h p = Some s ->
  parents_ok h par s ->
  (forall a, p = Some a -> parent_chain h a dtop) ->
  forall n, n ∈ addrs s -> exists d, parent_chain h n d /\ (d < dtop + f)%nat.
Proof.
  induction f as [|f IH]; intros p s par dtop Hs Hp Htop n Hin.
  - destruct p; [discriminate|]. injection Hs as <-. inversion Hin.
  - destruct p as [a|]; [|injection Hs as <-; inversion Hin].
    apply shape_from_Some_inv in Hs as (f' & nd & l & r & [= <-] & Ha & Hl & Hr & ->).
    destruct Hp as (Hpa & Hpl & Hpr).
    pose proof (Htop a eq_refl) as Hcha.
    cbn [addrs] in Hin. apply elem_of_app in Hin as [Hin|Hin].
    + destruct (IH (lchild nd) l (Some a) (S dtop) Hl Hpl) with (n := n)
        as (d & Hd & Hlt); [|exact Hin|exists d; split; [exact Hd|lia]].
      intros c Hc. rewrite Hc in Hl.
      eapply parent_chain_child; eauto.
    + apply elem_of_cons in Hin as [->|Hin].
      * exists dtop. split; [exact Hcha|lia].
      * destruct (IH (rchild nd) r (Some a) (S dtop) Hr Hpr) with (n := n)
          as (d & Hd & Hlt); [|exact Hin|exists d; split; [exact Hd|lia]].
        intros c Hc. rewrite Hc in Hr.
        eapply parent_chain_child; eauto.
Qed.

Lemma parent_chain_in_tree fuel t s n :
  shape_of fuel t = Some s ->
  parents_ok (heap t) None s ->
  n ∈ addrs s ->
  exists d, parent_chain (heap t) n d /\ (d < fuel)%nat.
Proof.
  intros Hs Hp Hin.
  destruct (parent_chain_in_shape (heap t) fuel (root t) s None O Hs Hp) with (n := n)
    as (d & Hd & Hlt); [|exact Hin|exists d; split; [exact Hd|lia]].
  intros a Ha. unfold shape_of in Hs. rewrite Ha in Hs.
  apply shape_from_Some_inv in Hs as (f' & nd & l & r & _ & Hnd & _ & _ & ->).
  destruct Hp as (Hp & _). rewrite Hnd in Hp. injection Hp as Hp.
  eapply chain_top; eauto.
Qed.

(** C7: in a tree of height at most [fuel] whose nodes name their parents,
    for every node [n] of the tree: when [n] has a right child [r],
    [successor] returns what [minimum] returns on [r], the last node of the
    descent to the left from [r]; otherwise it returns the first ancestor
    reached by a step up from a left child after steps up from right
    children, or the empty pointer when the ascent ends at the root.
    [predecessor] is the mirror image, with [maximum].  Neither changes the
    tree. *)
Theorem successor_predecessor_spec :
  forall fuel t s n,
    shape_of fuel t = Some s ->
    parents_ok (heap t) None s ->
    n ∈ addrs s ->
    exists nd,
      heap t !! n = Some nd /\
      (forall r, rchild nd = Some r ->
         exists m,
           successor fuel (Some n) t = Ok (Some m) t /\
           minimum fuel (Some r) t = Ok (Some m) t /\
           leftmost (heap t) r m) /\
      (rchild nd = None ->
         exists res,
           successor fuel (Some n) t = Ok res t /\
           left_step_ancestor (heap t) n res) /\
      (forall l, lchild nd = Some l ->
         exists m,
           predecessor fuel (Some n) t = Ok (Some m) t /\
           maximum fuel (Some l) t = Ok (Some m) t /\
           rightmost (heap t) l m) /\
      (lchild nd = None ->
         exists res,
           predecessor fuel (Some n) t = Ok res t /\
           right_step_ancestor (heap t) n res).
Proof.
  intros fuel t s n Hs Hp Hin.
  destruct (shape_from_at _ n _ _ _ Hs Hin) as (nd & sl & sr & Hn & Hl & Hr).
  destruct (parent_chain_in_tree _ _ _ _ Hs Hp Hin) as (d & Hd & Hlt).
  exists nd. split; [exact Hn|]. repeat split.
  - intros r Hrc. rewrite Hrc in Hr.
    destruct (minimum_loop_leftmost t fuel r sr None Hr) as (m & Hm & Hlm).
    exists m. split; [|split; [exact Hm|exact Hlm]].
    unfold successor. rewrite (bind_Ok _ _ _ _ _ (get_rchild_Ok _ _ _ Hn)).
    rewrite Hrc. exact Hm.
  - intros Hrc.
    destruct (successor_climb_chain t n d Hd fuel nd ltac:(lia) Hn) as (res & Hres & Hanc).
    exists res. split; [|exact Hanc].
    unfold successor. rewrite (bind_Ok _ _ _ _ _ (get_rchild_Ok _ _ _ Hn)).
    rewrite Hrc. rewrite (bind_Ok _ _ _ _ _ (get_parent_Ok _ _ _ Hn)). exact Hres.
  - intros l Hlc. rewrite Hlc in Hl.
    destruct (maximum_loop_rightmost t fuel l sl None Hl) as (m & Hm & Hlm).
    exists m. split; [|split; [exact Hm|exact Hlm]].
    unfold predecessor. rewrite (bind_Ok _ _ _ _ _ (get_lchild_Ok _ _ _ Hn)).
    rewrite Hlc. exact Hm.
  - intros Hlc.
    destruct (predecessor_climb_chain t n d Hd fuel nd ltac:(lia) Hn) as (res & Hres & Hanc).
    exists res. split; [|exact Hanc].
    unfold predecessor. rewrite (bind_Ok _ _ _ _ _ (get_lchild_Ok _ _ _ Hn)).
    rewrite Hlc. rewrite (bind_Ok _ _ _ _ _ (get_parent_Ok _ _ _ Hn)). exact Hres.
Qed.

(** ** Rotation towards either side *)

Lemma left_rotate_rotate node : left_rotate node = rotate L node.
Proof. reflexivity. Qed.

Lemma right_rotate_rotate node : right_rotate node = rotate R node.
Proof. reflexivity. Qed.

Lemma store_alter a f t :
  is_Some (heap t !! a) ->
  store a f t = Ok tt (mkTree (alter f a (heap t)) (root t)).
Proof.
  intros [n Hn]. unfold store. rewrite Hn. f_equal. f_equal.
  apply map_eq. intros i. rewrite lookup_alter, lookup_insert.
  case_decide; subst; [rewrite Hn|]; reflexivity.
Qed.

Lemma get_parent_look a t v :
  (parent <$> heap t !! a) = Some v -> get_parent a t = Ok v t.
Proof.
  intros H. destruct (heap t !! a) as [n|] eqn:Hn; [|discriminate].
  injection H as <-. apply get_parent_Ok, Hn.
Qed.
Lemma get_lchild_look a t v :
  (lchild <$> heap t !! a) = Some v -> get_lchild a t = Ok v t.
Proof.
  intros H. destruct (heap t !! a) as [n|] eqn:Hn; [|discriminate].
  injection H as <-. apply get_lchild_Ok, Hn.
Qed.
Lemma get_rchild_look a t v :
  (rchild <$> heap t !! a) = Some v -> get_rchild a t = Ok v t.
Proof.
  intros H. destruct (heap t !! a) as [n|] eqn:Hn; [|discriminate].
  injection H as <-. apply get_rchild_Ok, Hn.
Qed.
Lemma get_color_look a t v :
  (color <$> heap t !! a) = Some v -> get_color a t = Ok v t.
Proof.
  intros H. destruct (heap t !! a) as [n|] eqn:Hn; [|discriminate].
  injection H as <-. apply get_color_Ok, Hn.
Qed.
Lemma get_child_look d a t v :
  (child d <$> heap t !! a) = Some v -> get_child d a t = Ok v t.
Proof. destruct d; [apply get_lchild_look | apply get_rchild_look]. Qed.

Lemma is_left_child_look a t p v :
  (parent <$> heap t !! a) = Some (Some p) ->
  (lchild <$> heap t !! p) = Some v ->
  is_left_child a t = Ok (bool_decide (v = Some a)) t.
Proof.
  intros Ha Hp. unfold is_left_child.
  rewrite (bind_Ok _ _ _ _ _ (get_parent_look _ _ _ Ha)).
  rewrite (bind_Ok _ _ _ _ _ (get_lchild_look _ _ _ Hp)). reflexivity.
Qed.
Lemma is_right_child_look a t p v :
  (parent <$> heap t !! a) = Some (Some p) ->
  (rchild <$> heap t !! p) = Some v ->
  is_right_child a t = Ok (bool_decide (v = Some a)) t.
Proof.
  intros Ha Hp. unfold is_right_child.
  rewrite (bind_Ok _ _ _ _ _ (get_parent_look _ _ _ Ha)).
  rewrite (bind_Ok _ _ _ _ _ (get_rchild_look _ _ _ Hp)). reflexivity.
Qed.

(** Look a node up through the updates made so far. *)
Ltac look :=
  cbn [heap root alter_opt];
  repeat first [ rewrite lookup_alter_eq
               | rewrite lookup_alter_ne by done ];
  repeat match goal with
         | H : heap _ !! _ = Some _ |- _ => rewrite H
         end;
  cbn; try reflexivity; try congruence; eauto.

Lemma alter_opt_is_Some f a (h : gmap ptr Node) i :
  is_Some (alter_opt f a h !! i) <-> is_Some (h !! i).
Proof. destruct a; [apply lookup_alter_is_Some|reflexivity]. Qed.

(** A node allocated at the start is allocated after the updates. *)
Ltac alloc :=
  cbn [heap root];
  repeat first [ rewrite lookup_alter_is_Some | rewrite alter_opt_is_Some ];
  eauto.

Ltac run_store :=
  match goal with
  | |- bind (store ?a ?f) _ ?t = _ =>
    rewrite (bind_Ok (store a f) _ t tt _ (store_alter a f t ltac:(alloc)))
  | |- store ?a ?f ?t = _ => rewrite (store_alter a f t ltac:(alloc))
  end.

Lemma mkTree_eq h h' r r' : h = h' -> r = r' -> mkTree h r = mkTree h' r'.
Proof. intros -> ->. reflexivity. Qed.

(** Lines 93-96 and their mirror: the parent of [n] gets [r] where it had
    [n]. *)
Lemma repoint_parent_exec n r p pn t :
  (parent <$> heap t !! n) = Some (Some p) ->
  heap t !! p = Some pn ->
  (il <- is_left_child n ;;
   (if il then store p (set_lchild (Some r)) else ret tt) ;;
   ir <- is_right_child n ;;
   (if ir then store p (set_rchild (Some r)) else ret tt)) t
  = Ok tt (mkTree (alter (repoint n r) p (heap t)) (root t)).
Proof.
  intros Hn Hp.
  rewrite (bind_Ok _ _ _ _ _ (is_left_child_look n t p (lchild pn) Hn
                                 ltac:(rewrite Hp; reflexivity))).
  destruct (bool_decide (lchild pn = Some n)) eqn:Hl.
  - run_store. set (t1 := mkTree _ _).
    assert (Hn1 : (parent <$> heap t1 !! n) = Some (Some p)).
    { subst t1. cbn. destruct (decide (p = n)) as [->|Hne].
      - rewrite lookup_alter_eq. rewrite Hp in *. exact Hn.
      - rewrite lookup_alter_ne by done. exact Hn. }
    rewrite (bind_Ok _ _ _ _ _ (is_right_child_look n t1 p (rchild pn) Hn1
               ltac:(subst t1; cbn; rewrite lookup_alter_eq, Hp; reflexivity))).
    destruct (bool_decide (rchild pn = Some n)) eqn:Hr.
    + unfold t1. run_store. cbn. f_equal. apply mkTree_eq; [|reflexivity].
      rewrite alter_alter_eq. apply alter_ext. intros x Hx.
      assert (x = pn) as -> by congruence.
      unfold repoint. rewrite Hl, Hr. reflexivity.
    + unfold ret. f_equal. subst t1. apply mkTree_eq; [|reflexivity].
      apply alter_ext. intros x Hx. assert (x = pn) as -> by congruence.
      unfold repoint. rewrite Hl, Hr. destruct pn; reflexivity.
  - rewrite (bind_Ok (ret tt) _ t tt t eq_refl).
    rewrite (bind_Ok _ _ _ _ _ (is_right_child_look n t p (rchild pn) Hn
               ltac:(rewrite Hp; reflexivity))).
    destruct (bool_decide (rchild pn = Some n)) eqn:Hr.
    + run_store. f_equal. apply mkTree_eq; [|reflexivity].
      apply alter_ext. intros x Hx. assert (x = pn) as -> by congruence.
      unfold repoint. rewrite Hl, Hr. destruct pn; reflexivity.
    + unfold ret. f_equal. destruct t as [h rt]. apply mkTree_eq; [|reflexivity].
      cbn in *. symmetry. apply alter_id. intros x Hx.
      assert (x = pn) as -> by congruence.
      unfold repoint. rewrite Hl, Hr. destruct pn; reflexivity.
Qed.

Lemma rotate_exec d n r nd rn t :
  heap t !! n = Some nd ->
  child (opp d) nd = Some r ->
  heap t !! r = Some rn ->
  n <> r ->
  (forall b, child d rn = Some b -> is_Some (heap t !! b) /\ b <> n /\ b <> r) ->
  (forall p, parent nd = Some p -> is_Some (heap t !! p) /\ p <> r) ->
  rotate d (Some n) t = Ok tt (rotated d n r nd rn t).
Proof.
  intros Hn Hr Hrn Hnr Hb Hp. unfold rotate, rotated.
  rewrite (bind_Ok _ _ t (Some r) t)
    by (apply get_child_look; rewrite Hn; cbn; congruence).
  rewrite (bind_Ok _ _ t (child d rn) t)
    by (apply get_child_look; rewrite Hrn; reflexivity).
  rewrite (bind_Ok _ _ t (parent nd) t)
    by (apply get_parent_look; rewrite Hn; reflexivity).
  run_store.
  rewrite (bind_Ok _ _ _ (parent nd) _) by (apply get_parent_look; look).
  set (t1 := mkTree _ _).
  assert (H2 : exists t2,
    t2 = mkTree (alter_opt (repoint n r) (parent nd) (heap t1))
                (match parent nd with None => Some r | Some _ => root t end) /\
    forall k : unit -> M unit,
    bind (match parent nd with
     | Some p =>
       il <- is_left_child n ;;
       (if il then store p (set_lchild (Some r)) else ret tt) ;;
       ir <- is_right_child n ;;
       (if ir then store p (set_rchild (Some r)) else ret tt)
     | None => set_root (Some r)
     end) k t1 = k tt t2).
  { eexists. split; [reflexivity|]. intros k.
    destruct (parent nd) as [p|] eqn:Hpar.
    - destruct (Hp p eq_refl) as ([pn Hpn] & Hpr).
      erewrite bind_Ok; [reflexivity|].
      apply (repoint_parent_exec n r p pn t1).
      + subst t1. look.
      + subst t1. look.
    - reflexivity. }
  destruct H2 as (t2 & Ht2 & ->). subst t2 t1.
  run_store.
  destruct (child d rn) as [b|] eqn:Hinner.
  - destruct (Hb b eq_refl) as (Hba & _). run_store. run_store. run_store.
    reflexivity.
  - rewrite (bind_Ok (ret tt) _ _ tt _ eq_refl). run_store. run_store.
    reflexivity.
Qed.

(** ** The nodes of a tree and their links *)

Lemma depth_reach t a d : depth t a d -> reach t a.
Proof.
  induction 1 as [a nd Hr Ha Hp|c nd p pn k d Hc Hp Hpn Hk Hd IH].
  - apply reach_root, Hr.
  - eapply reach_child; eauto.
Qed.

Lemma depth_fun t a d : depth t a d -> forall d', depth t a d' -> d = d'.
Proof.
  induction 1 as [a nd Hr Ha Hp|c nd p pn k d Hc Hp Hpn Hk Hd IH];
    intros d' H'; inversion H' as [a' nd' Hr' Ha' Hp'|c' nd' p' pn' k' d'' Hc' Hp' Hpn' Hk' Hd'];
    subst; try congruence.
  assert (p' = p) as -> by congruence. f_equal. apply IH, Hd'.
Qed.

Lemma depth_neq t a b da db : depth t a da -> depth t b db -> da <> db -> a <> b.
Proof. intros Ha Hb Hne ->. apply Hne. eapply depth_fun; eauto. Qed.

Lemma depth_parent t c nd p d :
  depth t c d -> heap t !! c = Some nd -> parent nd = Some p ->
  exists d', d = S d' /\ depth t p d'.
Proof.
  intros H Hc Hp. inversion H as [a' nd' Hr' Ha' Hp'|c' nd' p' pn' k' d'' Hc' Hp' Hpn' Hk' Hd'];
    subst; [congruence|].
  assert (p' = p) as -> by congruence. eauto.
Qed.

Lemma depth_child N t a nd k c d :
  tree_inv N t -> a ∈ N -> heap t !! a = Some nd -> child k nd = Some c ->
  depth t a d -> depth t c (S d).
Proof.
  intros HI Ha Hnd Hk Hd.
  destruct (inv_child _ _ HI a nd k c Ha Hnd Hk) as (Hc & Hpar & _).
  destruct (heap t !! c) as [cn|] eqn:Hcn; [|discriminate].
  injection Hpar as Hpar. eapply depth_up; eauto.
Qed.

Lemma depth_top N t a nd d :
  tree_inv N t -> a ∈ N -> heap t !! a = Some nd -> parent nd = None ->
  depth t a d -> root t = Some a /\ d = O.
Proof.
  intros HI Ha Hnd Hp Hd.
  inversion Hd as [a' nd' Hr' Ha' Hp'|c' nd' p' pn' k' d'' Hc' Hp' Hpn' Hk' Hd'];
    subst; [auto|congruence].
Qed.

Lemma inv_parent_link N t a nd p :
  tree_inv N t -> a ∈ N -> heap t !! a = Some nd -> parent nd = Some p ->
  p ∈ N /\ exists pn k, heap t !! p = Some pn /\ child k pn = Some a.
Proof.
  intros HI Ha Hnd Hp. split; [eapply inv_parent; eauto|].
  destruct (inv_depth _ _ HI a Ha) as [d Hd].
  inversion Hd as [a' nd' Hr' Ha' Hp'|c' nd' p' pn' k' d'' Hc' Hp' Hpn' Hk' Hd'];
    subst; [congruence|].
  assert (p' = p) as -> by congruence. eauto.
Qed.

Lemma opp_opp k : opp (opp k) = k.
Proof. destruct k; reflexivity. Qed.
Lemma opp_ne k : opp k <> k.
Proof. destruct k; discriminate. Qed.
Lemma side_ne_opp k d : k <> d -> k = opp d.
Proof. destruct k, d; cbn; intros H; try reflexivity; destruct H; reflexivity. Qed.
Lemma side_ne_opp' k d : k <> opp d -> k = d.
Proof. destruct k, d; cbn; intros H; try reflexivity; destruct H; reflexivity. Qed.

(** Add a fact to the context unless it is there. *)
Ltac learn H :=
  let T := type of H in
  lazymatch goal with
  | _ : T |- _ => fail
  | _ => pose proof H
  end.

Lemma depth_in N t a d : tree_inv N t -> depth t a d -> a ∈ N.
Proof.
  intros HI. induction 1 as [a nd Hr Ha Hp|c nd p pn k d Hc Hp Hpn Hk Hd IH].
  - apply (inv_root _ _ HI), Hr.
  - eapply (inv_child _ _ HI); eauto.
Qed.

(** *** A rotation keeps the set of nodes *)

Section rotation.
Context (d : side) (N : gset ptr) (t : Tree) (n r : ptr) (nd rn : Node).
Hypothesis HI : tree_inv N t.
Hypothesis Hn_in : n ∈ N.
Hypothesis Hn : heap t !! n = Some nd.
Hypothesis Hr : child (opp d) nd = Some r.
Hypothesis Hrn : heap t !! r = Some rn.

Lemma rot_r_in : r ∈ N /\ parent rn = Some n.
Proof.
  destruct (inv_child _ _ HI n nd (opp d) r Hn_in Hn Hr) as (H1 & H2 & _).
  split; [exact H1|]. rewrite Hrn in H2. injection H2 as H2. exact H2.
Qed.

Lemma rot_depths dn :
  depth t n dn ->
  depth t r (S dn) /\
  (forall b, child d rn = Some b ->
     b ∈ N /\ depth t b (S (S dn)) /\
     (parent <$> heap t !! b) = Some (Some r)) /\
  (forall p, parent nd = Some p ->
     p ∈ N /\ exists dp, dn = S dp /\ depth t p dp).
Proof.
  intros Hd. destruct rot_r_in as [Hr_in Hrp].
  assert (Hdr : depth t r (S dn))
    by exact (depth_child N t n nd (opp d) r dn HI Hn_in Hn Hr Hd).
  split; [exact Hdr|]. split.
  - intros b Hb.
    destruct (inv_child _ _ HI r rn d b Hr_in Hrn Hb) as (H1 & H2 & _).
    split; [exact H1|]. split; [|exact H2].
    exact (depth_child N t r rn d b _ HI Hr_in Hrn Hb Hdr).
  - intros p Hp. split; [exact (inv_parent _ _ HI n nd p Hn_in Hn Hp)|].
    exact (depth_parent t n nd p dn Hd Hn Hp).
Qed.

Lemma rot_distinct :
  n <> r /\
  (forall b, child d rn = Some b -> b <> n /\ b <> r) /\
  (forall p, parent nd = Some p ->
     p <> n /\ p <> r /\ child d rn <> Some p).
Proof.
  destruct (inv_depth _ _ HI n Hn_in) as [dn Hd].
  destruct (rot_depths dn Hd) as (Hdr & Hb & Hp).
  split; [eapply depth_neq; eauto; lia|]. split.
  - intros b Hbc. destruct (Hb b Hbc) as (_ & Hdb & _).
    split; eapply depth_neq; eauto; lia.
  - intros p Hpc. destruct (Hp p Hpc) as (_ & dp & -> & Hdp).
    split; [eapply depth_neq; eauto; lia|].
    split; [eapply depth_neq; eauto; lia|].
    intros Hbc. destruct (Hb p Hbc) as (_ & Hdb & _).
    pose proof (depth_fun _ _ _ Hdp _ Hdb). lia.
Qed.

Lemma rotate_inv_exec :
  rotate d (Some n) t = Ok tt (rotated d n r nd rn t).
Proof.
  destruct rot_distinct as (Hnr & Hb & Hp).
  destruct (inv_depth _ _ HI n Hn_in) as [dn Hd].
  destruct (rot_depths dn Hd) as (Hdr & Hb' & Hp').
  apply rotate_exec; auto.
  - intros b Hbc. destruct (Hb b Hbc), (Hb' b Hbc) as (Hin & _).
    split; [apply (inv_alloc _ _ HI), Hin|auto].
  - intros p Hpc. destruct (Hp p Hpc) as (_ & ? & _), (Hp' p Hpc) as (Hin & _).
    split; [apply (inv_alloc _ _ HI), Hin|auto].
Qed.

Lemma rotated_lookup i :
  heap (rotated d n r nd rn t) !! i = rot_node d n r nd rn i <$> heap t !! i.
Proof.
  destruct rot_distinct as (Hnr & Hb & Hp).
  unfold rotated, rot_node. cbn [heap].
  destruct (decide (i = r)) as [->|Hir].
  { rewrite lookup_alter_eq, lookup_alter_ne by done.
    assert (alter_opt (set_parent (Some n)) (child d rn)
              (alter (set_child (opp d) (child d rn)) n
                 (alter_opt (repoint n r) (parent nd)
                    (alter (set_parent (parent nd)) r (heap t)))) !! r
            = set_parent (parent nd) <$> heap t !! r) as ->.
    { destruct (child d rn) as [b|] eqn:Hbc; cbn [alter_opt].
      - destruct (Hb b eq_refl). rewrite lookup_alter_ne by done.
        rewrite lookup_alter_ne by done.
        destruct (parent nd) as [p|] eqn:Hpc; cbn [alter_opt].
        + destruct (Hp p eq_refl) as (? & ? & ?).
          rewrite lookup_alter_ne by done. apply lookup_alter_eq.
        + apply lookup_alter_eq.
      - rewrite lookup_alter_ne by done.
        destruct (parent nd) as [p|] eqn:Hpc; cbn [alter_opt].
        + destruct (Hp p eq_refl) as (? & ? & ?).
          rewrite lookup_alter_ne by done. apply lookup_alter_eq.
        + apply lookup_alter_eq. }
    rewrite <- option_fmap_compose. reflexivity. }
  rewrite lookup_alter_ne by done.
  destruct (decide (i = n)) as [->|Hin].
  { rewrite lookup_alter_eq.
    assert (alter_opt (set_parent (Some n)) (child d rn)
              (alter (set_child (opp d) (child d rn)) n
                 (alter_opt (repoint n r) (parent nd)
                    (alter (set_parent (parent nd)) r (heap t)))) !! n
            = set_child (opp d) (child d rn) <$> heap t !! n) as ->.
    { assert (alter (set_child (opp d) (child d rn)) n
                 (alter_opt (repoint n r) (parent nd)
                    (alter (set_parent (parent nd)) r (heap t))) !! n
              = set_child (opp d) (child d rn) <$> heap t !! n) as Hin.
      { rewrite lookup_alter_eq. f_equal.
        destruct (parent nd) as [p|] eqn:Hpc; cbn [alter_opt].
        - destruct (Hp p eq_refl) as (? & ? & ?).
          rewrite lookup_alter_ne by done. apply lookup_alter_ne. done.
        - apply lookup_alter_ne. done. }
      destruct (child d rn) as [b|] eqn:Hbc; cbn [alter_opt]; [|exact Hin].
      destruct (Hb b eq_refl). rewrite lookup_alter_ne by done. exact Hin. }
    rewrite <- option_fmap_compose. reflexivity. }
  rewrite lookup_alter_ne by done.
  assert (alter_opt (repoint n r) (parent nd)
            (alter (set_parent (parent nd)) r (heap t)) !! i
          = (if decide (parent nd = Some i) then repoint n r else id)
              <$> heap t !! i) as Hinner.
  { destruct (parent nd) as [p|] eqn:Hpc; cbn [alter_opt].
    - destruct (Hp p eq_refl) as (? & ? & ?).
      destruct (decide (Some p = Some i)) as [[= ->]|Hne].
      + rewrite lookup_alter_eq. rewrite lookup_alter_ne by done. reflexivity.
      + rewrite lookup_alter_ne by congruence. rewrite lookup_alter_ne by done.
        rewrite option_fmap_id. reflexivity.
    - rewrite decide_False by discriminate. rewrite lookup_alter_ne by done.
      rewrite option_fmap_id. reflexivity. }
  destruct (child d rn) as [b|] eqn:Hbc; cbn [alter_opt].
  - destruct (Hb b eq_refl). destruct (decide (Some b = Some i)) as [[= ->]|Hne].
    + rewrite lookup_alter_eq. rewrite lookup_alter_ne by done.
      rewrite Hinner. destruct (decide (parent nd = Some i)) as [Hpi|_].
      * destruct (Hp i Hpi) as (_ & _ & Hc). destruct Hc. reflexivity.
      * rewrite option_fmap_id. reflexivity.
    + rewrite lookup_alter_ne by congruence. rewrite lookup_alter_ne by done.
      rewrite Hinner. destruct (decide (parent nd = Some i)); reflexivity.
  - destruct (decide (None = Some i)); [discriminate|].
    rewrite lookup_alter_ne by done.
    rewrite Hinner. destruct (decide (parent nd = Some i)); reflexivity.
Qed.

Lemma rot_parent c x :
  parent (rot_node d n r nd rn c x)
  = if decide (c = r) then parent nd
    else if decide (c = n) then Some r
    else if decide (child d rn = Some c) then Some n
    else parent x.
Proof.
  unfold rot_node. repeat case_decide; destruct d; reflexivity.
Qed.

Lemma rot_child k c x :
  child k (rot_node d n r nd rn c x)
  = if decide (c = r) then (if decide (k = d) then Some n else child k x)
    else if decide (c = n)
    then (if decide (k = opp d) then child d rn else child k x)
    else if decide (child d rn = Some c) then child k x
    else if decide (parent nd = Some c)
    then (if decide (child k x = Some n) then Some r else child k x)
    else child k x.
Proof.
  unfold rot_node, repoint.
  repeat case_decide; destruct d, k; cbn in *;
    rewrite ?bool_decide_eq_true_2, ?bool_decide_eq_false_2 by done;
    try reflexivity; try congruence.
Qed.

Lemma rotated_Some i x' :
  heap (rotated d n r nd rn t) !! i = Some x' ->
  exists x, heap t !! i = Some x /\ x' = rot_node d n r nd rn i x.
Proof.
  rewrite rotated_lookup. destruct (heap t !! i) as [x|]; [|discriminate].
  intros [= <-]. eauto.
Qed.

Lemma rotated_parent i :
  i ∈ N ->
  (parent <$> heap (rotated d n r nd rn t) !! i)
  = Some (if decide (i = r) then parent nd
          else if decide (i = n) then Some r
          else if decide (child d rn = Some i) then Some n
          else default None (parent <$> heap t !! i)).
Proof.
  intros Hi. rewrite rotated_lookup.
  destruct (inv_alloc _ _ HI i Hi) as [x ->]. cbn. rewrite rot_parent.
  reflexivity.
Qed.

Lemma rotated_inv_child a x' k c :
  a ∈ N -> heap (rotated d n r nd rn t) !! a = Some x' ->
  child k x' = Some c ->
  c ∈ N /\
  (parent <$> heap (rotated d n r nd rn t) !! c) = Some (Some a) /\
  child (opp k) x' <> Some c.
Proof.
  intros Ha Hx' Hk.
  apply rotated_Some in Hx' as (x & Hx & ->).
  destruct rot_r_in as [Hr_in Hrp].
  destruct rot_distinct as (Hnr & Hbd & Hpd).
  destruct (inv_depth _ _ HI n Hn_in) as [dn Hd].
  destruct (rot_depths dn Hd) as (Hdr & Hb & Hp).
  assert (Hold_in : forall a nd k c, a ∈ N -> heap t !! a = Some nd ->
            child k nd = Some c -> c ∈ N)
    by (intros; eapply (inv_child _ _ HI); eauto).
  assert (Hold_par : forall a nd k c cx, a ∈ N -> heap t !! a = Some nd ->
            child k nd = Some c -> heap t !! c = Some cx -> parent cx = Some a).
  { intros a0 nd0 k0 c0 cx0 H1 H2 H3 H4.
    destruct (inv_child _ _ HI a0 nd0 k0 c0 H1 H2 H3) as (_ & H5 & _).
    rewrite H4 in H5. injection H5 as H5. exact H5. }
  assert (Hold_ne : forall a nd k c, a ∈ N -> heap t !! a = Some nd ->
            child k nd = Some c -> child (opp k) nd <> Some c)
    by (intros; eapply (inv_child _ _ HI); eauto).
  assert (Hc_in : c ∈ N).
  { rewrite rot_child in Hk. repeat case_decide; simplify_eq; eauto;
      eapply Hb; eauto. }
  split; [exact Hc_in|].
  rewrite (rotated_parent c Hc_in).
  rewrite !rot_child. rewrite rot_child in Hk.
  destruct (inv_alloc _ _ HI c Hc_in) as [cx Hcx]. rewrite Hcx. cbn.
  pose proof (Hold_ne n nd (opp d) r Hn_in Hn Hr) as Hner.
  assert (Hbp : forall b bx, child d rn = Some b -> heap t !! b = Some bx ->
            parent bx = Some r)
    by (intros b bx H1 H2; exact (Hold_par r rn d b bx Hr_in Hrn H1 H2)).
  assert (Hself : forall kk, child kk x = Some c -> parent cx = Some a)
    by (intros kk H1; exact (Hold_par a x kk c cx Ha Hx H1 Hcx)).
  assert (Hxne : forall kk e, child kk x = Some e -> child (opp kk) x <> Some e)
    by (intros kk e H1; exact (Hold_ne a x kk e Ha Hx H1)).
  pose proof (opp_ne d) as Hon.
  repeat case_decide; simplify_eq; split; try done; try congruence.
  all: try (intros Hbad).
  all: repeat match goal with
       | H : ?kk <> d |- _ => apply side_ne_opp in H; subst kk
       | H : ?kk <> opp d |- _ => apply side_ne_opp' in H; subst kk
       | H : opp ?kk <> d |- _ => apply side_ne_opp in H
       | H : opp ?kk <> opp d |- _ => apply side_ne_opp' in H
       end.
  all: rewrite ?opp_opp in *.
  all: repeat match goal with
       | Hy : heap t !! ?a' = Some ?y, Hc : child ?kk ?y = Some ?e,
         He : heap t !! ?e = Some ?ex, Ha' : ?a' ∈ N |- _ =>
         first [ learn (Hold_par a' y kk e ex Ha' Hy Hc He)
               | learn (Hold_ne a' y kk e Ha' Hy Hc) ]
       | Hy : heap t !! ?a' = Some ?y, Hc : child ?kk ?y = Some ?a',
         Ha' : ?a' ∈ N |- _ =>
         learn (Hold_par a' y kk a' y Ha' Hy Hc Hy)
       | H : parent nd = Some ?p |- _ => learn (Hpd p H)
       | H : child d rn = Some ?b |- _ => learn (Hbd b H)
       end.
  all: destruct_and?.
  all: rewrite ?opp_opp in *.
  all: clear Hold_in Hold_par Hold_ne Hb Hp Hd Hdr Hbp Hself Hxne Hbd Hpd.
  all: congruence.
Qed.

Lemma rotated_inv_parent a x' p :
  a ∈ N -> heap (rotated d n r nd rn t) !! a = Some x' ->
  parent x' = Some p -> p ∈ N.
Proof.
  intros Ha Hx' Hp'.
  apply rotated_Some in Hx' as (x & Hx & ->).
  destruct rot_r_in as [Hr_in Hrp].
  rewrite rot_parent in Hp'. repeat case_decide; simplify_eq; auto.
  - exact (inv_parent _ _ HI n nd p Hn_in Hn Hp').
  - exact (inv_parent _ _ HI a x p Ha Hx Hp').
Qed.

Lemma rotated_inv_root q : root (rotated d n r nd rn t) = Some q -> q ∈ N.
Proof.
  destruct rot_r_in as [Hr_in Hrp]. cbn.
  destruct (parent nd); [apply (inv_root _ _ HI)|intros [= <-]; exact Hr_in].
Qed.

Lemma rotated_inv_alloc a : a ∈ N -> is_Some (heap (rotated d n r nd rn t) !! a).
Proof.
  intros Ha. rewrite rotated_lookup.
  destruct (inv_alloc _ _ HI a Ha) as [x ->]. eauto.
Qed.

(** Nodes outside the tree are left alone. *)
Lemma rotated_frame i :
  i ∉ N -> heap (rotated d n r nd rn t) !! i = heap t !! i.
Proof.
  intros Hi. rewrite rotated_lookup.
  destruct rot_r_in as [Hr_in Hrp].
  destruct (inv_depth _ _ HI n Hn_in) as [dn Hd].
  destruct (rot_depths dn Hd) as (Hdr & Hb & Hp).
  unfold rot_node. repeat case_decide; simplify_eq; try contradiction.
  - destruct (Hb i) as (? & _); [assumption|contradiction].
  - destruct (Hp i) as (? & _); [assumption|contradiction].
  - apply option_fmap_id.
Qed.

(** A child link to a node whose parent the rotation does not change is
    still there. *)
Lemma rotated_link q x k a :
  heap t !! q = Some x -> child k x = Some a ->
  a <> n -> a <> r -> child d rn <> Some a ->
  child k (rot_node d n r nd rn q x) = Some a.
Proof.
  intros Hq Hk Han Har Hab. rewrite rot_child.
  repeat case_decide; simplify_eq; try done; try congruence.
Qed.

Lemma rotated_depth_other a x dq q kq xq :
  heap t !! a = Some x -> parent x = Some q ->
  heap t !! q = Some xq -> child kq xq = Some a ->
  a <> n -> a <> r -> child d rn <> Some a ->
  depth (rotated d n r nd rn t) q dq ->
  depth (rotated d n r nd rn t) a (S dq).
Proof.
  intros Ha Hp Hq Hk Han Har Hab Hd.
  eapply (depth_up _ a (rot_node d n r nd rn a x) q (rot_node d n r nd rn q xq) kq).
  - rewrite rotated_lookup, Ha. reflexivity.
  - rewrite rot_parent. repeat case_decide; simplify_eq; done.
  - rewrite rotated_lookup, Hq. reflexivity.
  - apply rotated_link; auto.
  - exact Hd.
Qed.

Lemma rotated_depth_root a x :
  root t = Some a -> heap t !! a = Some x -> parent x = None ->
  a <> n -> a <> r -> child d rn <> Some a ->
  depth (rotated d n r nd rn t) a O.
Proof.
  intros Hroot Ha Hp Han Har Hab.
  destruct (inv_depth _ _ HI n Hn_in) as [dn Hd].
  eapply (depth_root _ a (rot_node d n r nd rn a x)).
  - cbn. destruct (parent nd) as [p|] eqn:Hpar; [exact Hroot|].
    destruct (depth_top _ _ _ _ _ HI Hn_in Hn Hpar Hd) as [Hrt _]. congruence.
  - rewrite rotated_lookup, Ha. reflexivity.
  - rewrite rot_parent. repeat case_decide; simplify_eq; done.
Qed.

Lemma rotated_depth_above dn :
  depth t n dn ->
  forall d0 a, depth t a d0 -> (d0 < dn)%nat ->
               depth (rotated d n r nd rn t) a d0.
Proof.
  intros Hd. destruct (rot_depths dn Hd) as (Hdr & Hb & Hp).
  induction 1 as [a x Hroot Ha Hpa|a x q xq kq dq Ha Hpa Hq Hk Hdq IH];
    intros Hlt.
  - apply (rotated_depth_root a x); auto.
    + intros ->. pose proof (depth_fun _ _ _ Hd _ (depth_root _ _ _ Hroot Ha Hpa)). lia.
    + intros ->. pose proof (depth_fun _ _ _ Hdr _ (depth_root _ _ _ Hroot Ha Hpa)). lia.
    + intros Hab. destruct (Hb a Hab) as (_ & Hdb & _).
      pose proof (depth_fun _ _ _ Hdb _ (depth_root _ _ _ Hroot Ha Hpa)). lia.
  - pose proof (depth_up _ _ _ _ _ _ _ Ha Hpa Hq Hk Hdq) as Hda.
    apply (rotated_depth_other a x dq q kq xq); auto.
    + intros ->. pose proof (depth_fun _ _ _ Hd _ Hda). lia.
    + intros ->. pose proof (depth_fun _ _ _ Hdr _ Hda). lia.
    + intros Hab. destruct (Hb a Hab) as (_ & Hdb & _).
      pose proof (depth_fun _ _ _ Hdb _ Hda). lia.
    + apply IH. lia.
Qed.

Lemma rotated_depth_r : exists dr, depth (rotated d n r nd rn t) r dr.
Proof.
  destruct rot_r_in as [Hr_in Hrp].
  destruct rot_distinct as (Hnr & Hbd & Hpd).
  destruct (inv_depth _ _ HI n Hn_in) as [dn Hd].
  destruct (rot_depths dn Hd) as (Hdr & Hb & Hp).
  destruct (parent nd) as [p|] eqn:Hpar.
  - destruct (Hp p eq_refl) as (Hp_in & dp & -> & Hdp).
    destruct (Hpd p eq_refl) as (Hpn & Hpr & Hpb).
    destruct (inv_parent_link _ _ _ _ _ HI Hn_in Hn Hpar)
      as (_ & pn & kp & Hpn' & Hkp).
    exists (S dp).
    eapply (depth_up _ r (rot_node d n r nd rn r rn) p
              (rot_node d n r nd rn p pn) kp).
    + rewrite rotated_lookup, Hrn. reflexivity.
    + rewrite rot_parent. rewrite decide_True by done. exact Hpar.
    + rewrite rotated_lookup, Hpn'. reflexivity.
    + rewrite rot_child. repeat case_decide; simplify_eq; done.
    + apply (rotated_depth_above (S dp) Hd); [exact Hdp|lia].
  - exists O. eapply (depth_root _ r (rot_node d n r nd rn r rn)).
    + cbn. rewrite Hpar. reflexivity.
    + rewrite rotated_lookup, Hrn. reflexivity.
    + rewrite rot_parent. rewrite decide_True by done. exact Hpar.
Qed.

Lemma rotated_depth_n : exists dn', depth (rotated d n r nd rn t) n dn'.
Proof.
  destruct rot_distinct as (Hnr & Hbd & Hpd).
  destruct rotated_depth_r as [dr Hdr'].
  exists (S dr).
  eapply (depth_up _ n (rot_node d n r nd rn n nd) r
            (rot_node d n r nd rn r rn) d).
  - rewrite rotated_lookup, Hn. reflexivity.
  - rewrite rot_parent. repeat case_decide; simplify_eq; done.
  - rewrite rotated_lookup, Hrn. reflexivity.
  - rewrite rot_child. repeat case_decide; simplify_eq; done.
  - exact Hdr'.
Qed.

Lemma rotated_depth_b b :
  child d rn = Some b -> exists db, depth (rotated d n r nd rn t) b db.
Proof.
  intros Hbc.
  destruct rot_distinct as (Hnr & Hbd & Hpd).
  destruct (Hbd b Hbc) as [Hbn Hbr].
  destruct (inv_depth _ _ HI n Hn_in) as [dn Hd].
  destruct (rot_depths dn Hd) as (Hdr & Hb & Hp).
  destruct (Hb b Hbc) as (Hb_in & _ & _).
  destruct (inv_alloc _ _ HI b Hb_in) as [bx Hbx].
  destruct rotated_depth_n as [dn' Hdn'].
  exists (S dn').
  eapply (depth_up _ b (rot_node d n r nd rn b bx) n
            (rot_node d n r nd rn n nd) (opp d)).
  - rewrite rotated_lookup, Hbx. reflexivity.
  - rewrite rot_parent. repeat case_decide; simplify_eq; done.
  - rewrite rotated_lookup, Hn. reflexivity.
  - rewrite rot_child. repeat case_decide; simplify_eq; done.
  - exact Hdn'.
Qed.

Lemma rotated_inv_depth :
  forall d0 a, depth t a d0 -> exists d', depth (rotated d n r nd rn t) a d'.
Proof.
  induction 1 as [a x Hroot Ha Hpa|a x q xq kq dq Ha Hpa Hq Hk Hdq IH].
  - destruct (decide (a = n)) as [->|Han]; [apply rotated_depth_n|].
    destruct (decide (a = r)) as [->|Har]; [apply rotated_depth_r|].
    destruct (decide (child d rn = Some a)) as [Hab|Hab];
      [apply (rotated_depth_b a Hab)|].
    exists O. apply (rotated_depth_root a x); auto.
  - destruct (decide (a = n)) as [->|Han]; [apply rotated_depth_n|].
    destruct (decide (a = r)) as [->|Har]; [apply rotated_depth_r|].
    destruct (decide (child d rn = Some a)) as [Hab|Hab];
      [apply (rotated_depth_b a Hab)|].
    destruct IH as [dq' Hdq'].
    exists (S dq'). apply (rotated_depth_other a x dq' q kq xq); auto.
Qed.

Lemma rotated_inv : tree_inv N (rotated d n r nd rn t).
Proof.
  constructor.
  - apply rotated_inv_root.
  - apply rotated_inv_alloc.
  - apply rotated_inv_child.
  - apply rotated_inv_parent.
  - intros a Ha. destruct (inv_depth _ _ HI a Ha) as [d0 Hd0].
    exact (rotated_inv_depth d0 a Hd0).
Qed.
End rotation.

(** *** Colors do not matter to the links *)

Lemma same_links_refl t : same_links t t.
Proof. split; auto. Qed.

Lemma same_links_trans t1 t2 t3 :
  same_links t1 t2 -> same_links t2 t3 -> same_links t1 t3.
Proof.
  intros [H1 H2] [H3 H4]. split; [congruence|].
  intros i. rewrite H4. apply H2.
Qed.

Lemma same_links_node t t' i x' :
  same_links t t' -> heap t' !! i = Some x' ->
  exists x, heap t !! i = Some x /\ parent x = parent x' /\
            forall k, child k x = child k x'.
Proof.
  intros [_ H] Hx'. specialize (H i). rewrite Hx' in H.
  destruct (heap t !! i) as [x|]; [|discriminate].
  injection H as H1 H2 H3. exists x. split; [reflexivity|].
  split; [auto|]. intros []; cbn; auto.
Qed.

Lemma same_links_sym t t' : same_links t t' -> same_links t' t.
Proof. intros [H1 H2]. split; [auto|]. intros i. symmetry. apply H2. Qed.

Lemma same_links_depth t t' a d :
  same_links t t' -> depth t a d -> depth t' a d.
Proof.
  intros HS. pose proof (same_links_sym _ _ HS) as HS'.
  induction 1 as [a x Hroot Ha Hpa|a x q xq kq dq Ha Hpa Hq Hk Hdq IH].
  - destruct (same_links_node _ _ _ _ HS' Ha) as (x' & Hx' & Hp' & _).
    eapply depth_root; eauto.
    + destruct HS as [-> _]. exact Hroot.
    + congruence.
  - destruct (same_links_node _ _ _ _ HS' Ha) as (x' & Hx' & Hp' & _).
    destruct (same_links_node _ _ _ _ HS' Hq) as (xq' & Hxq' & _ & Hc').
    eapply depth_up; eauto.
    + congruence.
    + rewrite Hc'. exact Hk.
Qed.

Lemma same_links_inv N t t' : tree_inv N t -> same_links t t' -> tree_inv N t'.
Proof.
  intros HI HS. constructor.
  - intros q Hq. apply (inv_root _ _ HI). destruct HS as [<- _]. exact Hq.
  - intros a Ha. destruct (inv_alloc _ _ HI a Ha) as [x Hx].
    destruct HS as [_ HS]. specialize (HS a). rewrite Hx in HS.
    destruct (heap t' !! a); [eauto|discriminate].
  - intros a x' k c Ha Hx' Hk.
    destruct (same_links_node _ _ _ _ HS Hx') as (x & Hx & Hp & Hc).
    rewrite <- !Hc in *.
    destruct (inv_child _ _ HI a x k c Ha Hx Hk) as (H1 & H2 & H3).
    split; [exact H1|]. split; [|exact H3].
    destruct HS as [_ HS]. specialize (HS c).
    destruct (heap t !! c) as [cx|]; [|discriminate].
    destruct (heap t' !! c) as [cx'|]; [|discriminate].
    cbn in *. injection HS as -> _ _. exact H2.
  - intros a x' p Ha Hx' Hp'.
    destruct (same_links_node _ _ _ _ HS Hx') as (x & Hx & Hp & Hc).
    apply (inv_parent _ _ HI a x p Ha Hx). congruence.
  - intros a Ha. destruct (inv_depth _ _ HI a Ha) as [d0 Hd0].
    exists d0. eapply same_links_depth; eauto.
Qed.

Lemma store_color_same_links a c t t' :
  store a (set_color c) t = Ok tt t' -> same_links t t'.
Proof.
  unfold store. destruct (heap t !! a) as [x|] eqn:Hx; [|discriminate].
  intros [= <-]. split; [reflexivity|]. intros i. cbn.
  destruct (decide (a = i)) as [->|Hne].
  - rewrite lookup_insert_eq, Hx. reflexivity.
  - rewrite lookup_insert_ne by done. reflexivity.
Qed.

(** *** Rotations from any tree *)

Lemma rotate_preserves d N t a t' :
  tree_inv N t -> a ∈ N ->
  rotate d (Some a) t = Ok tt t' ->
  tree_inv N t' /\ (forall i, i ∉ N -> heap t' !! i = heap t !! i).
Proof.
  intros HI Ha H.
  destruct (inv_alloc _ _ HI a Ha) as [x Hx].
  destruct (child (opp d) x) as [r|] eqn:Hr.
  - destruct (inv_child _ _ HI a x (opp d) r Ha Hx Hr) as (Hr_in & _ & _).
    destruct (inv_alloc _ _ HI r Hr_in) as [rx Hrx].
    rewrite (rotate_inv_exec d N t a r x rx HI Ha Hx Hr Hrx) in H.
    injection H as <-. split.
    + apply rotated_inv; auto.
    + intros i Hi. apply (rotated_frame d N t a r x rx); auto.
  - unfold rotate in H.
    rewrite (bind_Ok _ _ t None t) in H
      by (apply get_child_look; rewrite Hx; cbn; congruence).
    injection H as <-. auto.
Qed.

(** *** [delete_fixup] keeps the set of nodes *)

Lemma keeps_refl N t : tree_inv N t -> keeps N t t.
Proof. intros HI. split; auto. Qed.

Lemma keeps_trans N t1 t2 t3 : keeps N t1 t2 -> keeps N t2 t3 -> keeps N t1 t3.
Proof.
  intros [H1 H2] [H3 H4]. split; [exact H3|].
  intros i Hi. rewrite (H4 i Hi). apply H2, Hi.
Qed.

Lemma keeps_same_links N t t' : tree_inv N t -> same_links t t' -> keeps N t t'.
Proof.
  intros HI HS. split; [eapply same_links_inv; eauto|].
  intros i _. apply HS.
Qed.

Lemma keeps_rotate d N t a t' :
  tree_inv N t -> a ∈ N -> rotate d (Some a) t = Ok tt t' -> keeps N t t'.
Proof.
  intros HI Ha H. destruct (rotate_preserves d N t a t' HI Ha H) as [H1 H2].
  split; [exact H1|]. intros i Hi. rewrite (H2 i Hi). reflexivity.
Qed.

Lemma keeps_store_color N t a c t' :
  tree_inv N t -> store a (set_color c) t = Ok tt t' -> keeps N t t'.
Proof.
  intros HI H. apply keeps_same_links; [exact HI|].
  eapply store_color_same_links; eauto.
Qed.

Lemma andM_false_l (a b : M bool) t :
  a t = Ok false t -> andM a b t = Ok false t.
Proof. intros H. unfold andM. rewrite (bind_Ok _ _ _ _ _ H). reflexivity. Qed.

(** In the chain of Cases 2-4 the bodies of Case 3 and Case 4 are never
    run: their tests ask for a BLACK sibling, and are reached only when the
    test of Case 2, which asks the same, has failed. *)
Lemma delete_fixup_left_rest_inv node w t c node' t' :
  delete_fixup_left_rest node w t = Ok (c, node') t' ->
  (c = Some Case2 /\
   (exists a, w = Some a /\ store a (set_color RED) t = Ok tt t') /\
   get_parent node t' = Ok node' t') \/
  (c = None /\ node' = Some node /\ t' = t).
Proof.
  unfold delete_fixup_left_rest. intros H.
  apply bind_Ok_inv in H as (b & t0 & Hb & H).
  pose proof (readonly_has_color _ _ _ _ _ Hb) as ->.
  destruct b.
  - left. apply bind_Ok_inv in H as (a & t0 & Ha & H).
    destruct w as [a'|]; [|discriminate]. injection Ha as <- <-.
    apply bind_Ok_inv in H as ([] & t1 & Hs & H).
    apply bind_Ok_inv in H as (p & t2 & Hp & H).
    pose proof (readonly_get_parent _ _ _ _ Hp) as ->.
    injection H as <- <- <-. split; [reflexivity|]. split; [eauto|exact Hp].
  - right. rewrite (bind_Ok _ _ t false t) in H by (apply andM_false_l, Hb).
    rewrite (bind_Ok _ _ t false t) in H by (apply andM_false_l, Hb).
    injection H as <- <- <-. auto.
Qed.

Lemma delete_fixup_right_rest_inv node w t c node' t' :
  delete_fixup_right_rest node w t = Ok (c, node') t' ->
  (c = Some Case2 /\
   (exists a, w = Some a /\ store a (set_color RED) t = Ok tt t') /\
   get_parent node t' = Ok node' t') \/
  (c = None /\ node' = Some node /\ t' = t).
Proof.
  unfold delete_fixup_right_rest. intros H.
  apply bind_Ok_inv in H as (b & t0 & Hb & H).
  pose proof (readonly_has_color _ _ _ _ _ Hb) as ->.
  destruct b.
  - left. apply bind_Ok_inv in H as (a & t0 & Ha & H).
    destruct w as [a'|]; [|discriminate]. injection Ha as <- <-.
    apply bind_Ok_inv in H as ([] & t1 & Hs & H).
    apply bind_Ok_inv in H as (p & t2 & Hp & H).
    pose proof (readonly_get_parent _ _ _ _ Hp) as ->.
    injection H as <- <- <-. split; [reflexivity|]. split; [eauto|exact Hp].
  - right. rewrite (bind_Ok _ _ t false t) in H by (apply andM_false_l, Hb).
    rewrite (bind_Ok _ _ t false t) in H by (apply andM_false_l, Hb).
    injection H as <- <- <-. auto.
Qed.

Lemma delete_fixup_case1_keeps d N t np w c1 w1 t1 :
  tree_inv N t -> np ∈ N ->
  (wred <- has_color w RED ;;
   if wred then
     a <- deref w ;;
     store a (set_color BLACK) ;;
     store np (set_color RED) ;;
     rotate d (Some np) ;;
     w' <- (if bool_decide (d = L) then get_rchild np else ret w) ;;
     ret (true, w')
   else ret (false, w)) t = Ok (c1, w1) t1 ->
  keeps N t t1.
Proof.
  intros HI Hnp H.
  apply bind_Ok_inv in H as (b & t0 & Hb & H).
  pose proof (readonly_has_color _ _ _ _ _ Hb) as ->.
  destruct b.
  - apply bind_Ok_inv in H as (a & t0 & Ha & H).
    pose proof (readonly_deref _ _ _ _ Ha) as ->.
    apply bind_Ok_inv in H as ([] & t2 & Hs1 & H).
    apply bind_Ok_inv in H as ([] & t3 & Hs2 & H).
    apply bind_Ok_inv in H as ([] & t4 & Hrot & H).
    apply bind_Ok_inv in H as (w' & t5 & Hw & H).
    injection H as <- <- <-.
    assert (t5 = t4) as ->.
    { destruct (bool_decide (d = L)).
      - exact (readonly_get_rchild _ _ _ _ Hw).
      - injection Hw as _ <-. reflexivity. }
    pose proof (keeps_store_color _ _ _ _ _ HI Hs1) as K1.
    pose proof (keeps_store_color _ _ _ _ _ (proj1 K1) Hs2) as K2.
    pose proof (keeps_rotate _ _ _ _ _ (proj1 K2) Hnp Hrot) as K3.
    exact (keeps_trans _ _ _ _ (keeps_trans _ _ _ _ K1 K2) K3).
  - injection H as <- <- <-. apply keeps_refl, HI.
Qed.

Lemma delete_fixup_left_case1_keeps N t np w c1 w1 t1 :
  tree_inv N t -> np ∈ N ->
  delete_fixup_left_case1 np w t = Ok (c1, w1) t1 -> keeps N t t1.
Proof. intros HI Hnp H. exact (delete_fixup_case1_keeps L N t np w c1 w1 t1 HI Hnp H). Qed.

Lemma delete_fixup_right_case1_keeps N t np w c1 w1 t1 :
  tree_inv N t -> np ∈ N ->
  delete_fixup_right_case1 np w t = Ok (c1, w1) t1 -> keeps N t t1.
Proof.
  intros HI Hnp H. apply (delete_fixup_case1_keeps R N t np w c1 w1 t1 HI Hnp).
  unfold delete_fixup_right_case1 in H.
  apply bind_Ok_inv in H as (b & t0 & Hb & H).
  rewrite (bind_Ok _ _ _ _ _ Hb). destruct b; [|exact H].
  apply bind_Ok_inv in H as (a & t2 & Ha & H). rewrite (bind_Ok _ _ _ _ _ Ha).
  apply bind_Ok_inv in H as ([] & t3 & Hs1 & H). rewrite (bind_Ok _ _ _ _ _ Hs1).
  apply bind_Ok_inv in H as ([] & t4 & Hs2 & H). rewrite (bind_Ok _ _ _ _ _ Hs2).
  apply bind_Ok_inv in H as ([] & t5 & Hrot & H).
  rewrite (bind_Ok _ _ _ tt _ Hrot). exact H.
Qed.

Lemma parent_in N t a p t' :
  tree_inv N t -> a ∈ N -> get_parent a t = Ok (Some p) t' -> p ∈ N.
Proof.
  intros HI Ha H. apply get_parent_Ok_inv in H as (-> & x & Hx & Hp).
  exact (inv_parent _ _ HI a x p Ha Hx (eq_sym Hp)).
Qed.

Lemma delete_fixup_rest_keeps N t node w c node' t' :
  tree_inv N t -> node ∈ N ->
  (c = Some Case2 /\
   (exists a, w = Some a /\ store a (set_color RED) t = Ok tt t') /\
   get_parent node t' = Ok node' t') \/
  (c = None /\ node' = Some node /\ t' = t) ->
  keeps N t t' /\ (forall a, node' = Some a -> a ∈ N).
Proof.
  intros HI Hnode [(_ & (a & _ & Hs) & Hp)|(_ & -> & ->)].
  - pose proof (keeps_store_color _ _ _ _ _ HI Hs) as K. split; [exact K|].
    intros p ->. exact (parent_in _ _ _ _ _ (proj1 K) Hnode Hp).
  - split; [apply keeps_refl, HI|]. intros a [= <-]. exact Hnode.
Qed.

Lemma delete_fixup_body_keeps N t node cases node' t' :
  tree_inv N t -> node ∈ N ->
  delete_fixup_body node t = Ok (cases, node') t' ->
  keeps N t t' /\ (forall a, node' = Some a -> a ∈ N).
Proof.
  intros HI Hnode H. unfold delete_fixup_body in H.
  apply bind_Ok_inv in H as (il & t0 & Hil & H).
  pose proof (readonly_is_left_child _ _ _ _ Hil) as ->.
  destruct il.
  - apply bind_Ok_inv in H as (node_p & t0 & Hp & H).
    pose proof (readonly_get_parent _ _ _ _ Hp) as ->.
    apply bind_Ok_inv in H as (np & t0 & Hd & H).
    destruct node_p as [np'|]; [|discriminate]. injection Hd as <- <-.
    apply bind_Ok_inv in H as (w0 & t0 & Hw & H).
    pose proof (readonly_get_rchild _ _ _ _ Hw) as ->.
    apply bind_Ok_inv in H as ([c1 w1] & t1 & H1 & H).
    apply bind_Ok_inv in H as ([c nd'] & t2 & H2 & H).
    injection H as <- <- <-. cbn [fst snd] in *.
    pose proof (parent_in _ _ _ _ _ HI Hnode Hp) as Hnp.
    pose proof (delete_fixup_left_case1_keeps _ _ _ _ _ _ _ HI Hnp H1) as K1.
    destruct (delete_fixup_rest_keeps N t1 node w1 c nd' t2 (proj1 K1) Hnode
                (delete_fixup_left_rest_inv _ _ _ _ _ _ H2)) as [K2 Hin].
    split; [exact (keeps_trans _ _ _ _ K1 K2)|exact Hin].
  - apply bind_Ok_inv in H as (node_p & t0 & Hp & H).
    pose proof (readonly_get_parent _ _ _ _ Hp) as ->.
    apply bind_Ok_inv in H as (np & t0 & Hd & H).
    destruct node_p as [np'|]; [|discriminate]. injection Hd as <- <-.
    apply bind_Ok_inv in H as (w0 & t0 & Hw & H).
    pose proof (readonly_get_lchild _ _ _ _ Hw) as ->.
    apply bind_Ok_inv in H as ([c1 w1] & t1 & H1 & H).
    apply bind_Ok_inv in H as ([c nd'] & t2 & H2 & H).
    injection H as <- <- <-. cbn [fst snd] in *.
    pose proof (parent_in _ _ _ _ _ HI Hnode Hp) as Hnp.
    pose proof (delete_fixup_right_case1_keeps _ _ _ _ _ _ _ HI Hnp H1) as K1.
    destruct (delete_fixup_rest_keeps N t1 node w1 c nd' t2 (proj1 K1) Hnode
                (delete_fixup_right_rest_inv _ _ _ _ _ _ H2)) as [K2 Hin].
    split; [exact (keeps_trans _ _ _ _ K1 K2)|exact Hin].
Qed.

Lemma delete_fixup_loop_keeps N : forall fuel t node node' t',
  tree_inv N t -> (forall a, node = Some a -> a ∈ N) ->
  delete_fixup_loop fuel node t = Ok node' t' ->
  keeps N t t'.
Proof.
  induction fuel as [|f IH]; intros t node node' t' HI Hnode H; [discriminate|].
  cbn [delete_fixup_loop] in H.
  apply bind_Ok_inv in H as (r & t0 & Hr & H). injection Hr as <- <-.
  apply bind_Ok_inv in H as (go & t0 & Hgo & H).
  assert (t0 = t) as ->.
  { unfold andM in Hgo. apply bind_Ok_inv in Hgo as (b & t1 & Hb & Hgo).
    injection Hb as <- <-. destruct (bool_decide (node <> root t)).
    - exact (readonly_has_color _ _ _ _ _ Hgo).
    - injection Hgo as _ <-. reflexivity. }
  destruct go.
  - apply bind_Ok_inv in H as (n & t0 & Hn & H).
    destruct node as [n'|]; [|discriminate]. injection Hn as <- <-.
    apply bind_Ok_inv in H as ([cases nxt] & t1 & Hbody & H). cbn [snd] in H.
    destruct (delete_fixup_body_keeps N t n' cases nxt t1 HI (Hnode n' eq_refl) Hbody)
      as [K1 Hin].
    pose proof (IH t1 nxt node' t' (proj1 K1) Hin H) as K2.
    exact (keeps_trans _ _ _ _ K1 K2).
  - injection H as <- <-. apply keeps_refl, HI.
Qed.

Lemma delete_fixup_keeps N fuel t node t' :
  tree_inv N t -> (forall a, node = Some a -> a ∈ N) ->
  delete_fixup fuel node t = Ok tt t' ->
  keeps N t t'.
Proof.
  intros HI Hnode H. unfold delete_fixup in H.
  apply bind_Ok_inv in H as (node' & t1 & Hloop & H).
  pose proof (delete_fixup_loop_keeps N fuel t node node' t1 HI Hnode Hloop) as K1.
  destruct node' as [a|].
  - exact (keeps_trans _ _ _ _ K1 (keeps_store_color _ _ _ _ _ (proj1 K1) H)).
  - injection H as <-. exact K1.
Qed.

(** *** [transplant] *)

Lemma transplant_exec u v ud t :
  heap t !! u = Some ud ->
  (forall p, parent ud = Some p -> is_Some (heap t !! p)) ->
  (forall b, v = Some b -> is_Some (heap t !! b)) ->
  transplant (Some u) v t = Ok tt (transplanted u v ud t).
Proof.
  intros Hu Hp Hv. unfold transplant, transplanted.
  rewrite (bind_Ok _ _ _ _ _ (get_parent_Ok _ _ _ Hu)).
  assert (H1 : forall k : unit -> M unit,
    bind (match parent ud with
          | None => set_root v
          | Some p =>
            il <- is_left_child u ;;
            if il then store p (set_lchild v)
            else
              ir <- is_right_child u ;;
              if ir then store p (set_rchild v) else ret tt
          end) k t
    = k tt (mkTree (alter_opt (repoint1 u v) (parent ud) (heap t))
              (match parent ud with None => v | Some _ => root t end))).
  { intros k. destruct (parent ud) as [p|] eqn:Hpar; [|reflexivity].
    destruct (Hp p eq_refl) as [pn Hpn].
    erewrite bind_Ok; [reflexivity|].
    rewrite (bind_Ok _ _ _ _ _ (is_left_child_Ok _ _ _ _ _ Hu Hpar Hpn)).
    cbn [alter_opt].
    assert (Hal : forall f, f pn = repoint1 u v pn ->
                  <[p := f pn]> (heap t) = alter (repoint1 u v) p (heap t)).
    { intros f Hf. apply map_eq. intros i.
      rewrite lookup_alter, lookup_insert. case_decide; subst;
        [rewrite Hpn, Hf|]; reflexivity. }
    destruct (bool_decide (lchild pn = Some u)) eqn:Hl.
    - rewrite (store_Ok _ _ _ _ Hpn). f_equal. apply mkTree_eq; [|reflexivity].
      apply Hal. unfold repoint1. rewrite Hl. reflexivity.
    - rewrite (bind_Ok _ _ _ _ _ (is_right_child_Ok _ _ _ _ _ Hu Hpar Hpn)).
      destruct (bool_decide (rchild pn = Some u)) eqn:Hr.
      + rewrite (store_Ok _ _ _ _ Hpn). f_equal. apply mkTree_eq; [|reflexivity].
        apply Hal. unfold repoint1. rewrite Hl, Hr. reflexivity.
      + unfold ret. f_equal. destruct t as [h rt]. apply mkTree_eq; [|reflexivity].
        cbn in *. symmetry. apply alter_id. intros x Hx.
        assert (x = pn) as -> by congruence.
        unfold repoint1. rewrite Hl, Hr. reflexivity. }
  rewrite H1. destruct v as [b|]; [|reflexivity].
  destruct (Hv b eq_refl). cbn [alter_opt]. run_store. reflexivity.
Qed.

Lemma depth_has_root t a d : depth t a d -> exists q, root t = Some q /\ depth t q O.
Proof.
  induction 1 as [a x Hroot Ha Hpa|a x q xq kq dq Ha Hpa Hq Hk Hdq IH].
  - exists a. split; [exact Hroot|]. eapply depth_root; eauto.
  - exact IH.
Qed.

Lemma root_depth N t q : tree_inv N t -> root t = Some q -> depth t q O.
Proof.
  intros HI Hq. destruct (inv_depth _ _ HI q (inv_root _ _ HI q Hq)) as [d Hd].
  destruct (depth_has_root _ _ _ Hd) as (q' & Hq' & Hd').
  assert (q' = q) as -> by congruence. exact Hd'.
Qed.

Lemma child_repoint1 k u v x :
  (child L x = Some u -> child R x <> Some u) ->
  child k (repoint1 u v x) = if decide (child k x = Some u) then v else child k x.
Proof.
  intros Hd. unfold repoint1. cbn in Hd.
  destruct (bool_decide (lchild x = Some u)) eqn:Hl;
    [apply bool_decide_eq_true in Hl|apply bool_decide_eq_false in Hl].
  - destruct k; cbn; case_decide; try congruence. destruct (Hd Hl). assumption.
  - destruct (bool_decide (rchild x = Some u)) eqn:Hr;
      [apply bool_decide_eq_true in Hr|apply bool_decide_eq_false in Hr];
      destruct k; cbn; case_decide; congruence.
Qed.

Lemma parent_repoint1 u v x : parent (repoint1 u v x) = parent x.
Proof. unfold repoint1. repeat case_match; reflexivity. Qed.

Section transplant.
Context (N : gset ptr) (t : Tree) (u : ptr) (ud : Node) (ku : side).
Hypothesis HI : tree_inv N t.
Hypothesis Hu_in : u ∈ N.
Hypothesis Hu : heap t !! u = Some ud.
Hypothesis Hnone : child (opp ku) ud = None.

Local Abbreviation v := (child ku ud).
Local Abbreviation t' := (transplanted u (child ku ud) ud t).

Lemma tp_children k c : child k ud = Some c -> v = Some c.
Proof.
  intros Hk. destruct (decide (k = ku)) as [->|Hne]; [exact Hk|].
  apply side_ne_opp in Hne. subst k. congruence.
Qed.

Lemma tp_depths du :
  depth t u du ->
  (forall b, v = Some b ->
     b ∈ N /\ depth t b (S du) /\ (parent <$> heap t !! b) = Some (Some u)) /\
  (forall p, parent ud = Some p ->
     p ∈ N /\ exists dp, du = S dp /\ depth t p dp).
Proof.
  intros Hd. split.
  - intros b Hb.
    destruct (inv_child _ _ HI u ud ku b Hu_in Hu Hb) as (H1 & H2 & _).
    split; [exact H1|]. split; [|exact H2].
    exact (depth_child N t u ud ku b du HI Hu_in Hu Hb Hd).
  - intros p Hp. split; [exact (inv_parent _ _ HI u ud p Hu_in Hu Hp)|].
    exact (depth_parent t u ud p du Hd Hu Hp).
Qed.

Lemma tp_distinct :
  (forall b, v = Some b -> b <> u /\ parent ud <> Some b) /\
  (forall p, parent ud = Some p -> p <> u).
Proof.
  destruct (inv_depth _ _ HI u Hu_in) as [du Hd].
  destruct (tp_depths du Hd) as (Hb & Hp). split.
  - intros b Hbc. destruct (Hb b Hbc) as (_ & Hdb & _).
    split; [eapply depth_neq; eauto; lia|].
    intros Hpb. destruct (Hp b Hpb) as (_ & dp & -> & Hdp).
    pose proof (depth_fun _ _ _ Hdp _ Hdb). lia.
  - intros p Hpc. destruct (Hp p Hpc) as (_ & dp & -> & Hdp).
    eapply depth_neq; eauto; lia.
Qed.

Lemma transplanted_lookup i :
  heap t' !! i = tp_node u v ud i <$> heap t !! i.
Proof.
  destruct tp_distinct as (Hb & Hp).
  unfold transplanted, tp_node. cbn [heap].
  destruct v as [b|] eqn:Hv; cbn [alter_opt].
  - destruct (Hb b eq_refl) as [Hbu Hpb].
    destruct (decide (Some b = Some i)) as [[= ->]|Hne].
    + rewrite lookup_alter_eq. f_equal.
      destruct (parent ud) as [p|] eqn:Hpar; cbn [alter_opt]; [|reflexivity].
      apply lookup_alter_ne. congruence.
    + rewrite lookup_alter_ne by congruence.
      destruct (parent ud) as [p|] eqn:Hpar; cbn [alter_opt].
      * destruct (decide (Some p = Some i)) as [[= ->]|Hne'].
        -- apply lookup_alter_eq.
        -- rewrite lookup_alter_ne by congruence. symmetry. apply option_fmap_id.
      * destruct (decide (None = Some i)); [discriminate|].
        symmetry. apply option_fmap_id.
  - destruct (decide (None = Some i)); [discriminate|].
    destruct (parent ud) as [p|] eqn:Hpar; cbn [alter_opt].
    + destruct (decide (Some p = Some i)) as [[= ->]|Hne'].
      * apply lookup_alter_eq.
      * rewrite lookup_alter_ne by congruence. symmetry. apply option_fmap_id.
    + destruct (decide (None = Some i)); [discriminate|].
      symmetry. apply option_fmap_id.
Qed.

Lemma transplanted_Some i x' :
  heap t' !! i = Some x' ->
  exists x, heap t !! i = Some x /\ x' = tp_node u v ud i x.
Proof.
  rewrite transplanted_lookup. destruct (heap t !! i) as [x|]; [|discriminate].
  intros [= <-]. eauto.
Qed.

Lemma tp_parent c x :
  parent (tp_node u v ud c x)
  = if decide (v = Some c) then parent ud else parent x.
Proof.
  unfold tp_node. repeat case_decide; try reflexivity. apply parent_repoint1.
Qed.

Lemma tp_child k c x :
  c ∈ N -> heap t !! c = Some x ->
  child k (tp_node u v ud c x)
  = if decide (v = Some c) then child k x
    else if decide (parent ud = Some c)
    then (if decide (child k x = Some u) then v else child k x)
    else child k x.
Proof.
  intros Hc Hx. unfold tp_node. repeat case_decide; try reflexivity; try congruence.
  - rewrite child_repoint1; [rewrite decide_True by done; reflexivity|].
    intros H'. exact (proj2 (proj2 (inv_child _ _ HI c x L u Hc Hx H'))).
  - rewrite child_repoint1; [rewrite decide_False by done; reflexivity|].
    intros H'. exact (proj2 (proj2 (inv_child _ _ HI c x L u Hc Hx H'))).
Qed.

Lemma transplanted_inv_child a x' k c :
  a ∈ N ∖ {[u]} -> heap t' !! a = Some x' -> child k x' = Some c ->
  c ∈ N ∖ {[u]} /\
  (parent <$> heap t' !! c) = Some (Some a) /\
  child (opp k) x' <> Some c.
Proof.
  intros Ha Hx' Hk. apply elem_of_difference in Ha as [Ha Hau].
  rewrite not_elem_of_singleton in Hau.
  apply transplanted_Some in Hx' as (x & Hx & ->).
  destruct tp_distinct as (Hbd & Hpd).
  destruct (inv_depth _ _ HI u Hu_in) as [du Hd].
  destruct (tp_depths du Hd) as (Hb & Hp).
  assert (Hold_in : forall a nd k c, a ∈ N -> heap t !! a = Some nd ->
            child k nd = Some c -> c ∈ N)
    by (intros; eapply (inv_child _ _ HI); eauto).
  assert (Hold_par : forall a nd k c cx, a ∈ N -> heap t !! a = Some nd ->
            child k nd = Some c -> heap t !! c = Some cx -> parent cx = Some a).
  { intros a0 nd0 k0 c0 cx0 H1 H2 H3 H4.
    destruct (inv_child _ _ HI a0 nd0 k0 c0 H1 H2 H3) as (_ & H5 & _).
    rewrite H4 in H5. injection H5 as H5. exact H5. }
  assert (Hold_ne : forall a nd k c, a ∈ N -> heap t !! a = Some nd ->
            child k nd = Some c -> child (opp k) nd <> Some c)
    by (intros; eapply (inv_child _ _ HI); eauto).
  assert (Hvp : forall b bx, v = Some b -> heap t !! b = Some bx ->
            parent bx = Some u)
    by (intros b bx H1 H2; exact (Hold_par u ud ku b bx Hu_in Hu H1 H2)).
  rewrite !(tp_child k a x Ha Hx) in Hk.
  assert (Hc_in : c ∈ N).
  { repeat case_decide; simplify_eq; eauto; eapply Hb; eauto. }
  destruct (inv_alloc _ _ HI c Hc_in) as [cx Hcx].
  assert (Hcu : c <> u).
  { intros ->. assert (cx = ud) as -> by congruence.
    repeat case_decide; simplify_eq;
      try (pose proof (Hold_par a x k u ud Ha Hx Hk Hu));
      repeat match goal with
             | H : parent ud = Some ?p |- _ => learn (Hpd p H)
             | H : v = Some ?b |- _ => learn (Hbd b H)
             end;
      destruct_and?; congruence. }
  split; [apply elem_of_difference; split;
            [exact Hc_in|rewrite not_elem_of_singleton; exact Hcu]|].
  rewrite transplanted_lookup, Hcx. cbn. rewrite tp_parent.
  rewrite (tp_child (opp k) a x Ha Hx).
  repeat case_decide; simplify_eq; split; try done; try congruence.
  all: try (intros Hbad).
  all: repeat match goal with
       | Hy : heap t !! ?a' = Some ?y, Hc : child ?kk ?y = Some ?e,
         He : heap t !! ?e = Some ?ex, Ha' : ?a' ∈ N |- _ =>
         first [ learn (Hold_par a' y kk e ex Ha' Hy Hc He)
               | learn (Hold_ne a' y kk e Ha' Hy Hc) ]
       | Hy : heap t !! ?a' = Some ?y, Hc : child ?kk ?y = Some ?a',
         Ha' : ?a' ∈ N |- _ =>
         learn (Hold_par a' y kk a' y Ha' Hy Hc Hy)
       | H : parent ud = Some ?p |- _ => learn (Hpd p H)
       | H : v = Some ?b |- _ => learn (Hbd b H)
       end.
  all: destruct_and?.
  all: rewrite ?opp_opp in *.
  all: clear Hold_in Hold_par Hold_ne Hb Hp Hd Hvp Hbd Hpd.
  all: congruence.
Qed.

Lemma transplanted_inv_parent a x' p :
  a ∈ N ∖ {[u]} -> heap t' !! a = Some x' -> parent x' = Some p ->
  p ∈ N ∖ {[u]}.
Proof.
  intros Ha Hx' Hp'. apply elem_of_difference in Ha as [Ha Hau].
  rewrite not_elem_of_singleton in Hau.
  apply transplanted_Some in Hx' as (x & Hx & ->).
  destruct tp_distinct as (Hbd & Hpd).
  rewrite tp_parent in Hp'. case_decide.
  - apply elem_of_difference. split.
    + exact (inv_parent _ _ HI u ud p Hu_in Hu Hp').
    + rewrite not_elem_of_singleton. apply Hpd, Hp'.
  - apply elem_of_difference. split.
    + exact (inv_parent _ _ HI a x p Ha Hx Hp').
    + rewrite not_elem_of_singleton. intros ->.
      destruct (inv_parent_link _ _ _ _ _ HI Ha Hx Hp') as (_ & un & k & Hun & Hk).
      assert (un = ud) as -> by congruence.
      apply tp_children in Hk. contradiction.
Qed.

Lemma transplanted_inv_root q : root t' = Some q -> q ∈ N ∖ {[u]}.
Proof.
  destruct tp_distinct as (Hbd & Hpd).
  destruct (inv_depth _ _ HI u Hu_in) as [du Hd].
  destruct (tp_depths du Hd) as (Hb & Hp). cbn.
  destruct (parent ud) as [p|] eqn:Hpar.
  - intros Hq. apply elem_of_difference. split; [apply (inv_root _ _ HI), Hq|].
    rewrite not_elem_of_singleton. intros ->.
    pose proof (root_depth _ _ _ HI Hq) as H0.
    destruct (Hp p eq_refl) as (_ & dp & -> & _).
    pose proof (depth_fun _ _ _ Hd _ H0). lia.
  - intros Hq. destruct (Hb q Hq) as (Hin & _). destruct (Hbd q Hq) as [Hqu _].
    apply elem_of_difference. split; [exact Hin|].
    rewrite not_elem_of_singleton. exact Hqu.
Qed.

Lemma transplanted_inv_alloc a : a ∈ N ∖ {[u]} -> is_Some (heap t' !! a).
Proof.
  intros Ha. apply elem_of_difference in Ha as [Ha _].
  rewrite transplanted_lookup.
  destruct (inv_alloc _ _ HI a Ha) as [x ->]. eauto.
Qed.

Lemma transplanted_depth_other a x dq q kq xq :
  a ∈ N -> q ∈ N ->
  heap t !! a = Some x -> parent x = Some q ->
  heap t !! q = Some xq -> child kq xq = Some a ->
  a <> u -> v <> Some a ->
  depth t' q dq -> depth t' a (S dq).
Proof.
  intros Ha_in Hq_in Ha Hp Hq Hk Hau Hav Hd.
  eapply (depth_up _ a (tp_node u v ud a x) q (tp_node u v ud q xq) kq).
  - rewrite transplanted_lookup, Ha. reflexivity.
  - rewrite tp_parent. rewrite decide_False by done. exact Hp.
  - rewrite transplanted_lookup, Hq. reflexivity.
  - rewrite (tp_child kq q xq Hq_in Hq).
    repeat case_decide; simplify_eq; try done; congruence.
  - exact Hd.
Qed.

Lemma transplanted_depth_root a x :
  root t = Some a -> heap t !! a = Some x -> parent x = None ->
  a <> u -> depth t' a O.
Proof.
  intros Hroot Ha Hp Hau.
  destruct (inv_depth _ _ HI u Hu_in) as [du Hd].
  destruct (tp_depths du Hd) as (Hb & _).
  eapply (depth_root _ a (tp_node u v ud a x)).
  - cbn. destruct (parent ud) as [p|] eqn:Hpar; [exact Hroot|].
    destruct (depth_top _ _ _ _ _ HI Hu_in Hu Hpar Hd) as [Hrt _]. congruence.
  - rewrite transplanted_lookup, Ha. reflexivity.
  - rewrite tp_parent. case_decide; [|exact Hp].
    destruct (Hb a) as (_ & _ & Hpa); [assumption|].
    rewrite Ha in Hpa. cbn in Hpa. congruence.
Qed.

Lemma transplanted_depth_above du :
  depth t u du ->
  forall d0 a, depth t a d0 -> (d0 < du)%nat -> depth t' a d0.
Proof.
  intros Hd. destruct (tp_depths du Hd) as (Hb & Hp).
  induction 1 as [a x Hroot Ha Hpa|a x q xq kq dq Ha Hpa Hq Hk Hdq IH];
    intros Hlt.
  - apply (transplanted_depth_root a x); auto.
    intros ->. pose proof (depth_fun _ _ _ Hd _ (depth_root _ _ _ Hroot Ha Hpa)). lia.
  - pose proof (depth_up _ _ _ _ _ _ _ Ha Hpa Hq Hk Hdq) as Hda.
    apply (transplanted_depth_other a x dq q kq xq); auto.
    + eapply depth_in; eauto.
    + eapply depth_in; eauto.
    + intros ->. pose proof (depth_fun _ _ _ Hd _ Hda). lia.
    + intros Hab. destruct (Hb a Hab) as (_ & Hdb & _).
      pose proof (depth_fun _ _ _ Hdb _ Hda). lia.
    + apply IH. lia.
Qed.

Lemma transplanted_depth_v b :
  v = Some b -> exists db, depth t' b db.
Proof.
  intros Hv.
  destruct tp_distinct as (Hbd & Hpd).
  destruct (inv_depth _ _ HI u Hu_in) as [du Hd].
  destruct (tp_depths du Hd) as (Hb & Hp).
  destruct (Hb b Hv) as (Hb_in & _ & Hbp).
  destruct (inv_alloc _ _ HI b Hb_in) as [bx Hbx].
  destruct (parent ud) as [p|] eqn:Hpar.
  - destruct (Hp p eq_refl) as (Hp_in & dp & -> & Hdp).
    destruct (inv_parent_link _ _ _ _ _ HI Hu_in Hu Hpar)
      as (_ & pn & kp & Hpn' & Hkp).
    exists (S dp).
    eapply (depth_up _ b (tp_node u v ud b bx) p (tp_node u v ud p pn) kp).
    + rewrite transplanted_lookup, Hbx. reflexivity.
    + rewrite tp_parent. rewrite decide_True by done. exact Hpar.
    + rewrite transplanted_lookup, Hpn'. reflexivity.
    + rewrite (tp_child kp p pn Hp_in Hpn').
      destruct (Hbd b Hv) as [_ Hpb].
      repeat case_decide; simplify_eq; try done; congruence.
    + apply (transplanted_depth_above (S dp) Hd); [exact Hdp|lia].
  - exists O. eapply (depth_root _ b (tp_node u v ud b bx)).
    + cbn. rewrite Hpar. exact Hv.
    + rewrite transplanted_lookup, Hbx. reflexivity.
    + rewrite tp_parent. rewrite decide_True by done. exact Hpar.
Qed.

Lemma transplanted_inv_depth :
  forall d0 a, depth t a d0 -> a <> u -> exists d', depth t' a d'.
Proof.
  induction 1 as [a x Hroot Ha Hpa|a x q xq kq dq Ha Hpa Hq Hk Hdq IH];
    intros Hau.
  - exists O. apply (transplanted_depth_root a x); auto.
  - destruct (decide (v = Some a)) as [Hav|Hav];
      [apply (transplanted_depth_v a Hav)|].
    assert (q ∈ N) as Hq_in by (eapply depth_in; eauto).
    assert (a ∈ N) as Ha_in by (eapply (inv_child _ _ HI); eauto).
    assert (q <> u) as Hqu.
    { intros ->. assert (xq = ud) as -> by congruence.
      apply tp_children in Hk. contradiction. }
    destruct (IH Hqu) as [dq' Hdq'].
    exists (S dq'). apply (transplanted_depth_other a x dq' q kq xq); auto.
Qed.

Lemma transplanted_inv : tree_inv (N ∖ {[u]}) t'.
Proof.
  constructor.
  - apply transplanted_inv_root.
  - apply transplanted_inv_alloc.
  - apply transplanted_inv_child.
  - apply transplanted_inv_parent.
  - intros a Ha. apply elem_of_difference in Ha as [Ha Hau].
    rewrite not_elem_of_singleton in Hau.
    destruct (inv_depth _ _ HI a Ha) as [d0 Hd0].
    exact (transplanted_inv_depth d0 a Hd0 Hau).
Qed.
End transplant.

(** *** A tree with its nodes renamed *)

Section rename.
Context (f : ptr -> ptr) (N : gset ptr) (t t' : Tree).
Hypothesis HI : tree_inv N t.
Hypothesis Hinj : forall a b, a ∈ N -> b ∈ N -> f a = f b -> a = b.
Hypothesis Hroot : root t' = f <$> root t.
Hypothesis Hrec : forall a x,
  a ∈ N -> heap t !! a = Some x ->
  exists x', heap t' !! f a = Some x' /\
             parent x' = f <$> parent x /\
             forall k, child k x' = f <$> child k x.

Lemma renamed_depth a d : depth t a d -> depth t' (f a) d.
Proof.
  induction 1 as [a x Hrt Ha Hpa|a x q xq kq dq Ha Hpa Hq Hk Hdq IH].
  - assert (a ∈ N) as Hin by (apply (inv_root _ _ HI), Hrt).
    destruct (Hrec a x Hin Ha) as (x' & Hx' & Hp' & _).
    eapply depth_root; eauto.
    + rewrite Hroot, Hrt. reflexivity.
    + rewrite Hp', Hpa. reflexivity.
  - assert (q ∈ N) as Hqin by (eapply depth_in; eauto).
    assert (a ∈ N) as Hin by (eapply (inv_child _ _ HI); eauto).
    destruct (Hrec a x Hin Ha) as (x' & Hx' & Hp' & _).
    destruct (Hrec q xq Hqin Hq) as (xq' & Hxq' & _ & Hc').
    eapply depth_up; eauto.
    + rewrite Hp', Hpa. reflexivity.
    + rewrite Hc', Hk. reflexivity.
Qed.

Lemma renamed_inv : tree_inv (set_map f N) t'.
Proof.
  constructor.
  - intros q Hq. rewrite Hroot in Hq.
    destruct (root t) as [q0|] eqn:Hq0; [|discriminate]. injection Hq as <-.
    apply elem_of_map. exists q0. split; [reflexivity|].
    apply (inv_root _ _ HI), Hq0.
  - intros a' Ha'. apply elem_of_map in Ha' as (a & -> & Ha).
    destruct (inv_alloc _ _ HI a Ha) as [x Hx].
    destruct (Hrec a x Ha Hx) as (x' & -> & _). eauto.
  - intros a' x' k c' Ha' Hx' Hk. apply elem_of_map in Ha' as (a & -> & Ha).
    destruct (inv_alloc _ _ HI a Ha) as [x Hx].
    destruct (Hrec a x Ha Hx) as (x'' & Hx'' & Hp' & Hc').
    assert (x'' = x') as -> by congruence.
    rewrite Hc' in Hk. destruct (child k x) as [c|] eqn:Hkc; [|discriminate].
    injection Hk as <-.
    destruct (inv_child _ _ HI a x k c Ha Hx Hkc) as (Hc_in & Hpc & Hne).
    split; [apply elem_of_map; eauto|]. split.
    + destruct (heap t !! c) as [cx|] eqn:Hcx; [|discriminate].
      injection Hpc as Hpc.
      destruct (Hrec c cx Hc_in Hcx) as (cx' & -> & Hpc' & _).
      cbn. rewrite Hpc', Hpc. reflexivity.
    + rewrite Hc'. destruct (child (opp k) x) as [e|] eqn:He; [|discriminate].
      cbn. intros [= Heq].
      destruct (inv_child _ _ HI a x (opp k) e Ha Hx He) as (He_in & _ & _).
      apply Hinj in Heq; auto. congruence.
  - intros a' x' p' Ha' Hx' Hp'. apply elem_of_map in Ha' as (a & -> & Ha).
    destruct (inv_alloc _ _ HI a Ha) as [x Hx].
    destruct (Hrec a x Ha Hx) as (x'' & Hx'' & Hpx & _).
    assert (x'' = x') as -> by congruence.
    rewrite Hpx in Hp'. destruct (parent x) as [p|] eqn:Hp; [|discriminate].
    injection Hp' as <-. apply elem_of_map. exists p. split; [reflexivity|].
    exact (inv_parent _ _ HI a x p Ha Hx Hp).
  - intros a' Ha'. apply elem_of_map in Ha' as (a & -> & Ha).
    destruct (inv_depth _ _ HI a Ha) as [d Hd].
    exists d. apply renamed_depth, Hd.
Qed.
End rename.

(** *** The structural phase of [remove] on a node with two children *)

Lemma lookup_alter_opt_ne f a (h : gmap ptr Node) i :
  a <> Some i -> alter_opt f a h !! i = h !! i.
Proof.
  intros Hne. destruct a as [x|]; [|reflexivity].
  apply lookup_alter_ne. congruence.
Qed.

Lemma minimum_loop_inv : forall f cur cp res t t',
  minimum_loop f cur cp t = Ok res t' ->
  t' = t /\ (cur = None -> res = cp) /\
  (forall r, cur = Some r -> exists y, res = Some y /\ leftmost (heap t) r y).
Proof.
  induction f as [|f IH]; intros cur cp res t t' H.
  - destruct cur as [a|]; [discriminate|]. injection H as <- <-.
    split; [reflexivity|]. split; [reflexivity|discriminate].
  - destruct cur as [a|].
    + cbn [minimum_loop] in H. apply bind_Ok_inv in H as (lc & t1 & Hl & H).
      apply get_lchild_Ok_inv in Hl as (-> & x & Hx & ->).
      destruct (IH _ _ _ _ _ H) as (-> & Hnone & Hsome).
      split; [reflexivity|]. split; [discriminate|].
      intros r [= <-]. destruct (lchild x) as [c|] eqn:Hc.
      * destruct (Hsome c eq_refl) as (y & -> & Hy). exists y.
        split; [reflexivity|]. eapply leftmost_down; eauto.
      * exists a. split; [apply Hnone; reflexivity|]. eapply leftmost_here; eauto.
    + injection H as <- <-.
      split; [reflexivity|]. split; [reflexivity|discriminate].
Qed.

Lemma successor_right_inv fuel n nd r res t t' :
  heap t !! n = Some nd -> rchild nd = Some r ->
  successor fuel (Some n) t = Ok res t' ->
  t' = t /\ exists y, res = Some y /\ leftmost (heap t) r y.
Proof.
  intros Hn Hr H. unfold successor in H.
  rewrite (bind_Ok _ _ _ _ _ (get_rchild_Ok _ _ _ Hn)), Hr in H.
  destruct (minimum_loop_inv _ _ _ _ _ _ H) as (-> & _ & Hy).
  split; [reflexivity|]. apply Hy. reflexivity.
Qed.

(** What the invariant says about the leftmost node below [r]. *)
Lemma leftmost_facts N t r y :
  tree_inv N t -> leftmost (heap t) r y ->
  forall dr, r ∈ N -> depth t r dr ->
  y ∈ N /\
  exists yd dy,
    heap t !! y = Some yd /\ lchild yd = None /\ depth t y dy /\
    (y = r \/
     (dr < dy)%nat /\
     exists yp ypd dyp,
       parent yd = Some yp /\ yp ∈ N /\ heap t !! yp = Some ypd /\
       lchild ypd = Some y /\ depth t yp dyp /\ dy = S dyp /\
       (dr <= dyp)%nat /\ (dyp = dr -> yp = r)).
Proof.
  intros HI. induction 1 as [a x Ha Hl|a x c m Ha Hl Hm IH]; intros dr Hin Hd.
  - split; [exact Hin|]. exists x, dr. auto.
  - destruct (inv_child _ _ HI a x L c Hin Ha Hl) as (Hc_in & Hpc & _).
    pose proof (depth_child N t a x L c dr HI Hin Ha Hl Hd) as Hdc.
    destruct (IH (S dr) Hc_in Hdc) as (Hm_in & yd & dy & Hyd & Hyl & Hdy & Hcase).
    split; [exact Hm_in|]. exists yd, dy. split; [exact Hyd|].
    split; [exact Hyl|]. split; [exact Hdy|]. right.
    destruct Hcase as [->|(Hlt & yp & ypd & dyp & H1 & H2 & H3 & H4 & H5 & H6 & H7 & H8)].
    + pose proof (depth_fun _ _ _ Hdc _ Hdy) as <-. split; [lia|].
      rewrite Hyd in Hpc. injection Hpc as Hpc.
      exists a, x, dr. auto 10.
    + split; [lia|]. exists yp, ypd, dyp. repeat split; auto; lia.
Qed.

Ltac look2 :=
  cbn [heap root];
  repeat first [ rewrite lookup_alter_eq
               | rewrite lookup_alter_ne by done
               | rewrite lookup_alter_opt_ne by done ];
  repeat match goal with
         | H : heap _ !! _ = Some _ |- _ => rewrite H
         end;
  cbn; try reflexivity; try congruence; eauto.

Ltac run_get lem := erewrite bind_Ok; [|apply lem; look2].

Lemma remove_splice_two_exec fuel n y l r nd yd t :
  heap t !! n = Some nd -> lchild nd = Some l -> rchild nd = Some r ->
  heap t !! y = Some yd ->
  successor fuel (Some n) t = Ok (Some y) t ->
  is_Some (heap t !! l) -> is_Some (heap t !! r) ->
  (forall p, parent nd = Some p -> is_Some (heap t !! p)) ->
  (forall p, parent yd = Some p -> is_Some (heap t !! p)) ->
  (forall b, rchild yd = Some b -> is_Some (heap t !! b)) ->
  n <> y -> n <> l -> parent nd <> Some n -> 
  (y <> r -> n <> r /\ parent yd <> Some n /\ rchild yd <> Some n) ->
  remove_splice fuel n t = Ok (rchild yd, color yd) (spliced2 n y l r nd yd t).
Proof.
  intros Hn Hl Hr Hy Hsucc Hal Har HaP Hayp Hax Hny Hnl HnP Hcase.
  unfold remove_splice, spliced2.
  rewrite (bind_Ok _ _ _ _ _ (get_lchild_Ok _ _ _ Hn)).
  rewrite (bind_Ok _ _ _ _ _ (get_rchild_Ok _ _ _ Hn)).
  rewrite Hl, Hr. rewrite (bind_Ok _ _ _ _ _ Hsucc). cbn [deref].
  rewrite (bind_Ok (ret y) _ t y t eq_refl).
  rewrite (bind_Ok _ _ _ _ _ (get_rchild_Ok _ _ _ Hy)).
  rewrite (bind_Ok _ _ _ _ _ (get_color_Ok _ _ _ Hy)).
  rewrite (bind_Ok _ _ _ _ _ (get_rchild_Ok _ _ _ Hn)). rewrite Hr.
  destruct (decide (y = r)) as [->|Hyr].
  - rewrite bool_decide_eq_false_2 by (intros H; apply H; reflexivity).
    rewrite (bind_Ok (ret tt) _ t tt t eq_refl).
    rewrite (bind_Ok _ _ _ _ _ (transplant_exec n (Some r) nd t Hn HaP
               ltac:(intros b [= <-]; exact Har))).
    unfold transplanted. cbn [alter_opt].
    run_get get_lchild_look. rewrite Hl.
    run_store.
    run_get get_lchild_look. rewrite Hl. cbn [deref].
    rewrite (bind_Ok (ret l) _ _ l _ eq_refl).
    run_store.
    run_get get_color_look.
    run_store. reflexivity.
  - rewrite bool_decide_eq_true_2 by congruence. cbv iota.
    destruct (Hcase Hyr) as (Hnr & Hnyp & Hnx).
    erewrite (bind_Ok _ _ t tt).
    2:{ rewrite (bind_Ok _ _ _ _ _ (get_rchild_Ok _ _ _ Hy)).
        rewrite (bind_Ok _ _ _ _ _ (transplant_exec y (rchild yd) yd t Hy Hayp Hax)).
        unfold transplanted.
        run_get get_rchild_look. rewrite Hr.
        run_store.
        run_get get_rchild_look. rewrite Hr. cbn [deref].
        rewrite (bind_Ok (ret r) _ _ r _ eq_refl).
        run_store. run_store. reflexivity. }
    erewrite (bind_Ok _ _ _ tt).
    2:{ apply (transplant_exec n (Some y) (set_rchild (Some y) nd)).
        - look2.
        - cbn. intros p Hp. alloc.
        - intros b [= <-]. alloc. }
    unfold transplanted at 1 2. cbn [alter_opt].
    run_get get_lchild_look. rewrite Hl.
    run_store.
    run_get get_lchild_look. rewrite Hl. cbn [deref].
    rewrite (bind_Ok (ret l) _ _ l _ eq_refl).
    run_store.
    run_get get_color_look.
    run_store. reflexivity.
Qed.

(** Two nodes at different depths differ. *)
Ltac by_depth :=
  let H := fresh in
  intros H; subst;
  repeat match goal with
         | H1 : depth ?t ?c ?d1, H2 : depth ?t ?c ?d2 |- _ =>
           pose proof (depth_fun _ _ _ H1 _ H2); clear H2
         end;
  lia.

Section splice2.
Context (N : gset ptr) (t : Tree) (n l r y : ptr) (nd yd : Node).
Hypothesis HI : tree_inv N t.
Hypothesis Hn_in : n ∈ N.
Hypothesis Hn : heap t !! n = Some nd.
Hypothesis Hl : lchild nd = Some l.
Hypothesis Hr : rchild nd = Some r.
Hypothesis Hlm : leftmost (heap t) r y.
Hypothesis Hy : heap t !! y = Some yd.

(** The nodes the structural phase touches, and where they are. *)
Lemma splice2_facts :
  exists dn dy,
    depth t n dn /\ depth t l (S dn) /\ depth t r (S dn) /\ depth t y dy /\
    (S dn <= dy)%nat /\
    l ∈ N /\ r ∈ N /\ y ∈ N /\ l <> r /\ lchild yd = None /\
    (parent <$> heap t !! l) = Some (Some n) /\
    (parent <$> heap t !! r) = Some (Some n) /\
    (forall x, rchild yd = Some x ->
       x ∈ N /\ depth t x (S dy) /\ (parent <$> heap t !! x) = Some (Some y)) /\
    (forall p, parent nd = Some p ->
       p ∈ N /\ exists dp, dn = S dp /\ depth t p dp) /\
    (y = r \/
     y <> r /\
     exists yp ypd dyp,
       parent yd = Some yp /\ yp ∈ N /\ heap t !! yp = Some ypd /\
       lchild ypd = Some y /\ depth t yp dyp /\ dy = S dyp /\
       (S dn <= dyp)%nat /\ (dyp = S dn -> yp = r)).
Proof.
  destruct (inv_depth _ _ HI n Hn_in) as [dn Hdn].
  destruct (inv_child _ _ HI n nd L l Hn_in Hn Hl) as (Hl_in & Hpl & Hlr).
  destruct (inv_child _ _ HI n nd R r Hn_in Hn Hr) as (Hr_in & Hpr & _).
  pose proof (depth_child N t n nd L l dn HI Hn_in Hn Hl Hdn) as Hdl.
  pose proof (depth_child N t n nd R r dn HI Hn_in Hn Hr Hdn) as Hdr.
  destruct (leftmost_facts N t r y HI Hlm (S dn) Hr_in Hdr)
    as (Hy_in & yd' & dy & Hyd' & Hyl & Hdy & Hcase).
  assert (yd' = yd) as -> by congruence.
  exists dn, dy. split; [exact Hdn|]. split; [exact Hdl|]. split; [exact Hdr|].
  split; [exact Hdy|].
  assert (S dn <= dy)%nat as Hle.
  { destruct Hcase as [->|[? _]]; [|lia].
    pose proof (depth_fun _ _ _ Hdr _ Hdy). lia. }
  split; [exact Hle|]. split; [exact Hl_in|]. split; [exact Hr_in|].
  split; [exact Hy_in|].
  split; [cbn in Hlr; congruence|]. split; [exact Hyl|].
  split; [exact Hpl|]. split; [exact Hpr|]. split.
  { intros x Hx.
    destruct (inv_child _ _ HI y yd R x Hy_in Hy Hx) as (Hx_in & Hpx & _).
    split; [exact Hx_in|]. split; [|exact Hpx].
    exact (depth_child N t y yd R x dy HI Hy_in Hy Hx Hdy). }
  split.
  { intros p Hp. split; [exact (inv_parent _ _ HI n nd p Hn_in Hn Hp)|].
    exact (depth_parent t n nd p dn Hdn Hn Hp). }
  destruct Hcase as [->|(Hlt & yp & ypd & dyp & H1 & H2 & H3 & H4 & H5 & H6 & H7 & H8)].
  - left. reflexivity.
  - right. split.
    + intros ->. pose proof (depth_fun _ _ _ Hdr _ Hdy). lia.
    + exists yp, ypd, dyp. repeat split; auto.
Qed.

Local Abbreviation rename_n := (renamed_ptr n y).

Local Abbreviation t_mid := (transplanted y (rchild yd) yd t).
Local Abbreviation t_fin := (spliced2 n y l r nd yd t).

Lemma splice2_mid_inv : tree_inv (N ∖ {[y]}) t_mid.
Proof.
  destruct splice2_facts as (dn & dy & _ & _ & _ & _ & _ & _ & _ & Hy_in & _ & Hyl & _).
  exact (transplanted_inv N t y yd R HI Hy_in Hy Hyl).
Qed.

Lemma splice2_root : root t_fin = rename_n <$> root t_mid.
Proof.
  destruct splice2_facts
    as (dn & dy & Hdn & Hdl & Hdr & Hdy & Hle & Hl_in & Hr_in & Hy_in & Hlr &
        Hyl & Hpl & Hpr & Hx & Hp & Hcase).
  assert (Hpy : exists q, parent yd = Some q).
  { destruct Hcase as [->|(_ & yp & ? & ? & H1 & _)]; [|eauto].
    rewrite Hy in Hpr. injection Hpr as Hpr. eauto. }
  destruct Hpy as [q Hq].
  assert (Hfin : root t_fin = match parent nd with
                             | None => Some y
                             | Some _ => root t
                             end).
  { unfold spliced2, transplanted.
    destruct (decide (y = r)); cbn [root heap parent set_rchild];
      rewrite ?Hq; reflexivity. }
  rewrite Hfin. unfold transplanted. cbn [root]. rewrite Hq.
  destruct (parent nd) as [p|] eqn:Hpar.
  - destruct (root t) as [rt|] eqn:Hrt; [|reflexivity].
    cbn. unfold renamed_ptr. rewrite decide_False; [reflexivity|].
    intros ->. pose proof (root_depth _ _ _ HI Hrt) as H0.
    destruct (Hp p eq_refl) as (_ & dp & -> & _).
    pose proof (depth_fun _ _ _ Hdn _ H0). lia.
  - destruct (depth_top _ _ _ _ _ HI Hn_in Hn Hpar Hdn) as [Hrt _].
    rewrite Hrt. cbn. unfold renamed_ptr. rewrite decide_True by done. reflexivity.
Qed.

Lemma splice2_distinct :
  n <> y /\ n <> l /\ n <> r /\ l <> y /\ l <> r /\
  parent nd <> Some n /\ parent nd <> Some l /\ parent nd <> Some r /\
  parent nd <> Some y /\
  rchild yd <> Some n /\ rchild yd <> Some l /\ rchild yd <> Some r /\
  rchild yd <> Some y /\ (forall p, parent nd = Some p -> rchild yd <> Some p) /\
  (y <> r ->
   parent yd <> Some n /\ parent yd <> Some l /\ parent yd <> Some y /\
   (forall p, parent nd = Some p -> parent yd <> Some p) /\
   (forall x, rchild yd = Some x -> parent yd <> Some x)).
Proof.
  destruct splice2_facts
    as (dn & dy & Hdn & Hdl & Hdr & Hdy & Hle & Hl_in & Hr_in & Hy_in & Hlr &
        Hyl & Hpl & Hpr & Hx & Hp & Hcase).
  assert (HP : forall p s ds, parent nd = Some p -> depth t s ds ->
               (dn <= ds)%nat -> p <> s).
  { intros p s ds Hpp Hds Hle'. destruct (Hp p Hpp) as (_ & dp & -> & Hdp).
    intros ->. pose proof (depth_fun _ _ _ Hdp _ Hds). lia. }
  assert (HX : forall x s ds, rchild yd = Some x -> depth t s ds ->
               (ds <= dy)%nat -> x <> s).
  { intros x s ds Hxx Hds Hle'. destruct (Hx x Hxx) as (_ & Hdx & _).
    intros ->. pose proof (depth_fun _ _ _ Hdx _ Hds). lia. }
  assert (Hny : n <> y) by by_depth.
  assert (Hnl : n <> l) by by_depth.
  assert (Hnr : n <> r) by by_depth.
  assert (Hly : l <> y).
  { destruct Hcase as [->|(Hyr & yp & ypd & dyp & _ & _ & _ & _ & Hdyp & -> & Hle2 & _)];
      [exact Hlr|].
    intros ->. pose proof (depth_fun _ _ _ Hdl _ Hdy). lia. }
  split; [exact Hny|]. split; [exact Hnl|]. split; [exact Hnr|].
  split; [exact Hly|]. split; [exact Hlr|].
  split; [intros H; exact (HP n n dn H Hdn ltac:(lia) eq_refl)|].
  split; [intros H; exact (HP l l _ H Hdl ltac:(lia) eq_refl)|].
  split; [intros H; exact (HP r r _ H Hdr ltac:(lia) eq_refl)|].
  split; [intros H; exact (HP y y _ H Hdy ltac:(lia) eq_refl)|].
  split; [intros H; exact (HX n n _ H Hdn ltac:(lia) eq_refl)|].
  split; [intros H; exact (HX l l _ H Hdl ltac:(lia) eq_refl)|].
  split; [intros H; exact (HX r r _ H Hdr ltac:(lia) eq_refl)|].
  split; [intros H; exact (HX y y _ H Hdy ltac:(lia) eq_refl)|].
  split.
  { intros p Hpp H. destruct (Hp p Hpp) as (_ & dp & -> & Hdp).
    exact (HX p p _ H Hdp ltac:(lia) eq_refl). }
  intros Hyr.
  destruct Hcase as [Heq|(_ & yp & ypd & dyp & Hyp & _ & _ & _ & Hdyp & -> & Hle2 & Heq)];
    [contradiction|].
  rewrite Hyp. split; [|split; [|split; [|split]]].
  - intros [= ->]. pose proof (depth_fun _ _ _ Hdyp _ Hdn). lia.
  - intros [= ->]. pose proof (depth_fun _ _ _ Hdyp _ Hdl) as ->.
    apply Hlr. apply Heq. reflexivity.
  - intros [= ->]. pose proof (depth_fun _ _ _ Hdyp _ Hdy). lia.
  - intros p Hpp [= ->]. exact (HP p p _ Hpp Hdyp ltac:(lia) eq_refl).
  - intros x Hxx [= ->]. exact (HX x x _ Hxx Hdyp ltac:(lia) eq_refl).
Qed.

Lemma rename_n_id (o : option ptr) : o <> Some n -> rename_n <$> o = o.
Proof.
  destruct o as [a|]; [|reflexivity]. intros Hne. cbn. unfold renamed_ptr.
  rewrite decide_False by congruence. reflexivity.
Qed.

Lemma child_of_n a a0 k :
  a ∈ N -> heap t !! a = Some a0 -> child k a0 = Some n -> parent nd = Some a.
Proof.
  intros Ha Ha0 Hk.
  destruct (inv_child _ _ HI a a0 k n Ha Ha0 Hk) as (_ & Hp & _).
  rewrite Hn in Hp. injection Hp as Hp. exact Hp.
Qed.

Lemma parent_is_n a a0 :
  a ∈ N -> heap t !! a = Some a0 -> parent a0 = Some n -> a = l \/ a = r.
Proof.
  intros Ha Ha0 Hp.
  destruct (inv_parent_link _ _ _ _ _ HI Ha Ha0 Hp) as (_ & nd' & k & Hn' & Hk).
  assert (nd' = nd) as -> by congruence.
  destruct k; cbn in Hk; [left|right]; congruence.
Qed.

Lemma splice2_rec_adjacent :
  y = r ->
  forall a x,
    a ∈ N ∖ {[y]} -> heap t_mid !! a = Some x ->
    exists x', heap t_fin !! rename_n a = Some x' /\
               parent x' = rename_n <$> parent x /\
               forall k, child k x' = rename_n <$> child k x.
Proof.
  intros Hyr a x Ha Hx.
  apply elem_of_difference in Ha as [Ha Hay]. rewrite not_elem_of_singleton in Hay.
  destruct splice2_facts
    as (dn & dy & Hdn & Hdl & Hdr & Hdy & Hle & Hl_in & Hr_in & Hy_in & Hlr &
        Hyl & Hpl & Hpr & Hxf & Hpf & _).
  destruct splice2_distinct
    as (Hny & Hnl & Hnr & Hly & _ & HPn & HPl & HPr & HPy &
        HXn & HXl & HXr & HXy & HXP & _).
  destruct (transplanted_Some N t y yd R HI Hy_in Hy a x Hx) as (a0 & Ha0 & ->).
  rewrite (tp_parent y yd R a a0).
  setoid_rewrite (fun k => tp_child N t y yd R HI k a a0 Ha Ha0).
  assert (Hpy : parent yd = Some n).
  { rewrite <- Hyr, Hy in Hpr. injection Hpr as Hpr. exact Hpr. }
  rewrite Hpy. cbn [child].
  unfold spliced2. destruct (decide (y = r)) as [_|Hne]; [|contradiction].
  unfold transplanted. cbn [heap alter_opt].
  assert (Hcn : forall k, child k a0 = Some n -> parent nd = Some a)
    by (intros k; apply child_of_n; auto).
  destruct (decide (a = n)) as [->|Han].
  { assert (a0 = nd) as -> by congruence.
    unfold renamed_ptr at 1. rewrite decide_True by done.
    eexists. split; [look2|].
    rewrite decide_False by done. cbn [parent set_color set_lchild set_parent].
    split; [symmetry; apply rename_n_id; done|].
    intros k. rewrite decide_False by done. rewrite decide_True by done.
    destruct k; cbn [child lchild rchild set_color set_lchild set_parent].
    - rewrite Hl. rewrite decide_False by congruence. cbn.
      unfold renamed_ptr. rewrite decide_False by done. reflexivity.
    - rewrite Hr. rewrite decide_True by congruence.
      symmetry. apply rename_n_id. done. }
  unfold renamed_ptr at 1. rewrite decide_False by done.
  assert (Hpa : parent a0 = Some n -> a = l).
  { intros Hp. destruct (parent_is_n a a0 Ha Ha0 Hp) as [?|?]; congruence. }
  assert (Hchild : forall k, child k a0 <> Some n ->
            rename_n <$> child k a0 = child k a0)
    by (intros k; apply rename_n_id).
  destruct (decide (a = l)) as [->|Hal].
  { eexists. split; [look2|].
    rewrite decide_False by done. cbn [parent set_parent].
    rewrite Ha0 in Hpl. injection Hpl as Hpl. rewrite Hpl. cbn.
    unfold renamed_ptr at 1. rewrite decide_True by done. split; [reflexivity|].
    intros k. rewrite decide_False by done. rewrite decide_False by congruence.
    cbn. destruct k; cbn; symmetry; apply rename_n_id; intros Hc.
    - exact (HPl (Hcn L Hc)).
    - exact (HPl (Hcn R Hc)). }
  destruct (decide (rchild yd = Some a)) as [Hxa|Hxa].
  { assert (parent nd <> Some a) as HPa by (intros H; exact (HXP a H Hxa)).
    eexists. split; [look2|].
    destruct (Hxf a Hxa) as (_ & _ & Hpx). rewrite Ha0 in Hpx.
    injection Hpx as Hpx. rewrite Hpx. cbn.
    unfold renamed_ptr at 1. rewrite decide_True by done. split; [reflexivity|].
    intros k. symmetry. apply rename_n_id. intros Hc. exact (HPa (Hcn k Hc)). }
  assert (Hpan : parent a0 <> Some n).
  { intros Hp. destruct (parent_is_n a a0 Ha Ha0 Hp) as [?|?]; congruence. }
  destruct (decide (parent nd = Some a)) as [HPa|HPa].
  { eexists. split.
    - cbn [heap]. rewrite lookup_alter_ne by done. rewrite lookup_alter_ne by done.
      rewrite lookup_alter_ne by done. rewrite lookup_alter_ne by done.
      rewrite HPa. cbn [alter_opt]. rewrite lookup_alter_eq, Ha0. reflexivity.
    - rewrite parent_repoint1. split; [symmetry; apply rename_n_id, Hpan|].
      intros k. rewrite decide_False by congruence.
      rewrite child_repoint1
        by (intros H'; exact (proj2 (proj2 (inv_child _ _ HI a a0 L n Ha Ha0 H')))).
      destruct (child k a0) as [c|] eqn:Hc; cbn; [|rewrite decide_False by done; reflexivity].
      unfold renamed_ptr. destruct (decide (c = n)) as [->|Hcn'].
      + rewrite decide_True by done. reflexivity.
      + rewrite decide_False by congruence. reflexivity. }
  eexists. split; [look2|].
  split; [symmetry; apply rename_n_id, Hpan|].
  intros k. rewrite decide_False by congruence. symmetry. apply rename_n_id.
  intros Hc. exact (HPa (Hcn k Hc)).
Qed.

Lemma splice2_rec_far :
  y <> r ->
  forall a x,
    a ∈ N ∖ {[y]} -> heap t_mid !! a = Some x ->
    exists x', heap t_fin !! rename_n a = Some x' /\
               parent x' = rename_n <$> parent x /\
               forall k, child k x' = rename_n <$> child k x.
Proof.
  intros Hyr a x Ha Hx.
  apply elem_of_difference in Ha as [Ha Hay]. rewrite not_elem_of_singleton in Hay.
  destruct splice2_facts
    as (dn & dy & Hdn & Hdl & Hdr & Hdy & Hle & Hl_in & Hr_in & Hy_in & Hlr &
        Hyl & Hpl & Hpr & Hxf & Hpf & _).
  destruct splice2_distinct
    as (Hny & Hnl & Hnr & Hly & _ & HPn & HPl & HPr & HPy &
        HXn & HXl & HXr & HXy & HXP & Hfar).
  destruct (Hfar Hyr) as (HYn & HYl & HYy & HYP & HYX).
  destruct (transplanted_Some N t y yd R HI Hy_in Hy a x Hx) as (a0 & Ha0 & ->).
  rewrite (tp_parent y yd R a a0).
  setoid_rewrite (fun k => tp_child N t y yd R HI k a a0 Ha Ha0).
  cbn [child].
  unfold spliced2. destruct (decide (y = r)) as [Heq|_]; [contradiction|].
  unfold transplanted. cbn [heap alter_opt parent set_rchild].
  assert (Hcn : forall k, child k a0 = Some n -> parent nd = Some a)
    by (intros k; apply child_of_n; auto).
  destruct (decide (a = n)) as [->|Han].
  { assert (a0 = nd) as -> by congruence.
    unfold renamed_ptr at 1. rewrite decide_True by done.
    eexists. split; [look2|].
    rewrite decide_False by done. cbn [parent set_color set_lchild set_parent set_rchild].
    split; [symmetry; apply rename_n_id; done|].
    intros k. rewrite decide_False by done. rewrite decide_False by done.
    destruct k; cbn [child lchild rchild set_color set_lchild set_parent set_rchild].
    - rewrite Hl. cbn. unfold renamed_ptr. rewrite decide_False by done. reflexivity.
    - rewrite Hr. cbn. unfold renamed_ptr. rewrite decide_False by done. reflexivity. }
  unfold renamed_ptr at 1. rewrite decide_False by done.
  assert (Hchild : forall k, child k a0 <> Some n ->
            rename_n <$> child k a0 = child k a0)
    by (intros k; apply rename_n_id).
  destruct (decide (a = l)) as [->|Hal].
  { eexists. split; [look2|].
    rewrite decide_False by done. cbn [parent set_parent].
    rewrite Ha0 in Hpl. injection Hpl as Hpl. rewrite Hpl. cbn.
    unfold renamed_ptr at 1. rewrite decide_True by done. split; [reflexivity|].
    intros k. rewrite decide_False by done. rewrite decide_False by done.
    cbn. destruct k; cbn; symmetry; apply rename_n_id; intros Hc.
    - exact (HPl (Hcn L Hc)).
    - exact (HPl (Hcn R Hc)). }
  destruct (decide (a = r)) as [->|Har].
  { assert (Hcr : forall k, child k a0 <> Some n)
      by (intros k Hc; exact (HPr (Hcn k Hc))).
    rewrite Ha0 in Hpr. injection Hpr as Hpr.
    destruct (decide (parent yd = Some r)) as [Hypr|Hypr].
    - eexists. split.
      + cbn [heap]. rewrite lookup_alter_ne by done. rewrite lookup_alter_ne by done.
        rewrite lookup_alter_ne by done. rewrite lookup_alter_ne by done.
        rewrite lookup_alter_opt_ne by done. rewrite lookup_alter_ne by done.
        rewrite lookup_alter_eq. rewrite lookup_alter_ne by done.
        rewrite lookup_alter_opt_ne by done.
        rewrite Hypr. cbn [alter_opt]. rewrite lookup_alter_eq, Ha0. reflexivity.
      + rewrite decide_False by done. cbn [parent set_parent]. rewrite Hpr. cbn.
        unfold renamed_ptr at 1. rewrite decide_True by done. split; [reflexivity|].
        intros k. rewrite decide_False by done.
        replace (child k (set_parent (Some y) (repoint1 y (rchild yd) a0)))
          with (child k (repoint1 y (rchild yd) a0)) by (destruct k; reflexivity).
        rewrite child_repoint1
          by (intros H'; exact (proj2 (proj2 (inv_child _ _ HI r a0 L y Ha Ha0 H')))).
        destruct (decide (child k a0 = Some y)).
        * symmetry. apply rename_n_id. done.
        * symmetry. apply rename_n_id. apply Hcr.
    - eexists. split; [look2|].
      rewrite decide_False by done. cbn [parent set_parent]. rewrite Hpr. cbn.
      unfold renamed_ptr at 1. rewrite decide_True by done. split; [reflexivity|].
      intros k. rewrite decide_False by done.
      replace (child k (set_parent (Some y) a0)) with (child k a0)
        by (destruct k; reflexivity).
      symmetry. apply rename_n_id. apply Hcr. }
  assert (Hpan : parent a0 <> Some n).
  { intros Hp. destruct (parent_is_n a a0 Ha Ha0 Hp) as [?|?]; congruence. }
  destruct (decide (rchild yd = Some a)) as [Hxa|Hxa].
  { assert (parent nd <> Some a) as HPa by (intros H; exact (HXP a H Hxa)).
    assert (parent yd <> Some a) as HYa by (exact (HYX a Hxa)).
    eexists. split.
    - cbn [heap]. rewrite lookup_alter_ne by done. rewrite lookup_alter_ne by done.
      rewrite lookup_alter_ne by done. rewrite lookup_alter_ne by done.
      rewrite lookup_alter_opt_ne by done. rewrite lookup_alter_ne by done.
      rewrite lookup_alter_ne by done. rewrite lookup_alter_ne by done.
      rewrite Hxa. cbn [alter_opt]. rewrite lookup_alter_eq.
      rewrite <- Hxa. rewrite lookup_alter_opt_ne by done. rewrite Ha0. reflexivity.
    - cbn [parent set_parent]. split; [symmetry; apply rename_n_id; done|].
      intros k.
      replace (child k (set_parent (parent yd) a0)) with (child k a0)
        by (destruct k; reflexivity).
      symmetry. apply rename_n_id. intros Hc. exact (HPa (Hcn k Hc)). }
  destruct (decide (parent yd = Some a)) as [HYa|HYa].
  { assert (parent nd <> Some a) as HPa by (intros H; exact (HYP a H HYa)).
    eexists. split.
    - cbn [heap]. rewrite lookup_alter_ne by done. rewrite lookup_alter_ne by done.
      rewrite lookup_alter_ne by done. rewrite lookup_alter_ne by done.
      rewrite lookup_alter_opt_ne by done. rewrite lookup_alter_ne by done.
      rewrite lookup_alter_ne by done. rewrite lookup_alter_ne by done.
      rewrite lookup_alter_opt_ne by done.
      rewrite HYa. cbn [alter_opt]. rewrite lookup_alter_eq, Ha0. reflexivity.
    - rewrite parent_repoint1. split; [symmetry; apply rename_n_id, Hpan|].
      intros k.
      rewrite child_repoint1
        by (intros H'; exact (proj2 (proj2 (inv_child _ _ HI a a0 L y Ha Ha0 H')))).
      destruct (decide (child k a0 = Some y)).
      + symmetry. apply rename_n_id. done.
      + symmetry. apply rename_n_id. intros Hc. exact (HPa (Hcn k Hc)). }
  destruct (decide (parent nd = Some a)) as [HPa|HPa].
  { eexists. split.
    - cbn [heap]. rewrite lookup_alter_ne by done. rewrite lookup_alter_ne by done.
      rewrite lookup_alter_ne by done. rewrite lookup_alter_ne by done.
      rewrite HPa. cbn [alter_opt]. rewrite lookup_alter_eq.
      rewrite lookup_alter_ne by done. rewrite lookup_alter_ne by done.
      rewrite lookup_alter_ne by done.
      rewrite lookup_alter_opt_ne by done. rewrite lookup_alter_opt_ne by done.
      rewrite Ha0. reflexivity.
    - rewrite parent_repoint1. split; [symmetry; apply rename_n_id, Hpan|].
      intros k.
      rewrite child_repoint1
        by (intros H'; exact (proj2 (proj2 (inv_child _ _ HI a a0 L n Ha Ha0 H')))).
      destruct (child k a0) as [c|] eqn:Hc; cbn; [|rewrite decide_False by done; reflexivity].
      unfold renamed_ptr. destruct (decide (c = n)) as [->|Hcn'].
      + rewrite decide_True by done. reflexivity.
      + rewrite decide_False by congruence. reflexivity. }
  eexists. split; [look2|].
  split; [symmetry; apply rename_n_id, Hpan|].
  intros k. symmetry. apply rename_n_id.
  intros Hc. exact (HPa (Hcn k Hc)).
Qed.

Lemma rename_n_nodes : set_map rename_n (N ∖ {[y]}) = (N ∖ {[n]} : gset ptr).
Proof.
  destruct splice2_distinct as (Hny & _).
  destruct splice2_facts as (dn & dy & _ & _ & _ & _ & _ & _ & _ & Hy_in & _).
  apply set_eq. intros a. rewrite elem_of_map. split.
  - intros (b & -> & Hb). apply elem_of_difference in Hb as [Hb Hby].
    rewrite not_elem_of_singleton in Hby. unfold renamed_ptr.
    apply elem_of_difference. rewrite not_elem_of_singleton.
    destruct (decide (b = n)) as [->|Hbn]; split; auto.
  - intros Ha. apply elem_of_difference in Ha as [Ha Han].
    rewrite not_elem_of_singleton in Han.
    destruct (decide (a = y)) as [->|Hay].
    + exists n. unfold renamed_ptr. rewrite decide_True by done.
      split; [reflexivity|]. apply elem_of_difference.
      rewrite not_elem_of_singleton. auto.
    + exists a. unfold renamed_ptr. rewrite decide_False by done.
      split; [reflexivity|]. apply elem_of_difference.
      rewrite not_elem_of_singleton. auto.
Qed.

(** After the structural phase the nodes of the tree are those of before
    without [n]. *)
Lemma spliced2_inv : tree_inv (N ∖ {[n]}) t_fin.
Proof.
  rewrite <- rename_n_nodes.
  apply (renamed_inv rename_n (N ∖ {[y]}) t_mid t_fin splice2_mid_inv).
  - destruct splice2_distinct as (Hny & _).
    intros a b Ha Hb. apply elem_of_difference in Ha as [_ Hay].
    apply elem_of_difference in Hb as [_ Hby].
    rewrite not_elem_of_singleton in Hay, Hby. unfold renamed_ptr.
    repeat case_decide; congruence.
  - apply splice2_root.
  - destruct (decide (y = r)) as [Hyr|Hyr].
    + apply splice2_rec_adjacent, Hyr.
    + apply splice2_rec_far, Hyr.
Qed.

(** The removed node keeps its parent and its left child, and has [y] as
    its right child. *)
Lemma spliced2_removed :
  (links <$> heap t_fin !! n) = Some (parent nd, Some l, Some y).
Proof.
  destruct splice2_distinct
    as (Hny & Hnl & Hnr & Hly & _ & HPn & HPl & HPr & HPy &
        HXn & HXl & HXr & HXy & HXP & Hfar).
  unfold spliced2, transplanted.
  destruct (decide (y = r)) as [Hyr|Hyr]; cbn [heap alter_opt parent set_rchild].
  - rewrite lookup_alter_ne by done. rewrite lookup_alter_ne by done.
    rewrite lookup_alter_ne by done. rewrite lookup_alter_ne by done.
    rewrite lookup_alter_opt_ne by done. rewrite Hn. cbn. unfold links.
    rewrite Hl, Hr, Hyr. reflexivity.
  - destruct (Hfar Hyr) as (HYn & _).
    rewrite lookup_alter_ne by done. rewrite lookup_alter_ne by done.
    rewrite lookup_alter_ne by done. rewrite lookup_alter_ne by done.
    rewrite lookup_alter_opt_ne by done. rewrite lookup_alter_eq.
    rewrite lookup_alter_ne by done. rewrite lookup_alter_ne by done.
    rewrite lookup_alter_opt_ne by done. rewrite lookup_alter_opt_ne by done.
    rewrite Hn. cbn. unfold links. cbn. rewrite Hl. reflexivity.
Qed.

Lemma splice2_exec fuel :
  successor fuel (Some n) t = Ok (Some y) t ->
  remove_splice fuel n t = Ok (rchild yd, color yd) t_fin.
Proof.
  intros Hsucc.
  destruct splice2_facts
    as (dn & dy & Hdn & Hdl & Hdr & Hdy & Hle & Hl_in & Hr_in & Hy_in & Hlr &
        Hyl & Hpl & Hpr & Hxf & Hpf & Hcase).
  destruct splice2_distinct
    as (Hny & Hnl & Hnr & Hly & _ & HPn & HPl & HPr & HPy &
        HXn & HXl & HXr & HXy & HXP & Hfar).
  apply remove_splice_two_exec; auto.
  - apply (inv_alloc _ _ HI), Hl_in.
  - apply (inv_alloc _ _ HI), Hr_in.
  - intros p Hp. apply (inv_alloc _ _ HI). apply (Hpf p Hp).
  - intros p Hp. apply (inv_alloc _ _ HI).
    exact (inv_parent _ _ HI y yd p Hy_in Hy Hp).
  - intros b Hb. apply (inv_alloc _ _ HI). apply (Hxf b Hb).
  - intros Hyr. destruct (Hfar Hyr) as (HYn & _). auto.
Qed.
End splice2.

(** ** The links of the removed node *)

Lemma inv_not_own_parent N t a nd :
  tree_inv N t -> a ∈ N -> heap t !! a = Some nd -> parent nd <> Some a.
Proof.
  intros HI Ha Hnd Hp. destruct (inv_depth _ _ HI a Ha) as [d Hd].
  destruct (depth_parent _ _ _ _ _ Hd Hnd Hp) as (d' & -> & Hd').
  pose proof (depth_fun _ _ _ Hd _ Hd'). lia.
Qed.

Lemma inv_not_own_child N t a nd k :
  tree_inv N t -> a ∈ N -> heap t !! a = Some nd -> child k nd <> Some a.
Proof.
  intros HI Ha Hnd Hk. destruct (inv_depth _ _ HI a Ha) as [d Hd].
  pose proof (depth_child N t a nd k a d HI Ha Hnd Hk Hd) as Hd'.
  pose proof (depth_fun _ _ _ Hd _ Hd'). lia.
Qed.

Lemma reach_in N t a : tree_inv N t -> reach t a -> a ∈ N.
Proof.
  intros HI. induction 1 as [a Hr|a nd k c Ha IH Hnd Hk].
  - apply (inv_root _ _ HI), Hr.
  - eapply (inv_child _ _ HI); eauto.
Qed.

Lemma readonly_remove_descend fuel n : forall p, readonly (remove_descend fuel n p).
Proof.
  induction fuel as [|f IH]; intros p; destruct p as [a|]; cbn [remove_descend];
    try apply readonly_ret.
  - destruct (bool_decide (a = n)); [apply readonly_ret|apply readonly_timeout].
  - destruct (bool_decide (a = n)); [apply readonly_ret|].
    apply readonly_bind; [apply readonly_get_key|intros k].
    apply readonly_bind; [apply readonly_get_key|intros ka].
    destruct (bool_decide (k < ka)).
    + apply readonly_bind; [apply readonly_get_lchild|intros l]. apply IH.
    + apply readonly_bind; [apply readonly_get_rchild|intros r]. apply IH.
Qed.

Lemma alter_at (f g : Node -> Node) p (h : gmap ptr Node) x :
  h !! p = Some x -> f x = g x -> alter f p h = alter g p h.
Proof.
  intros Hp Hfg. apply map_eq. intros i. rewrite !lookup_alter.
  case_decide; [subst; rewrite Hp; cbn; f_equal; exact Hfg|reflexivity].
Qed.

(** With at most one child, the child on the side [k] if any, the
    structural phase is [transplant] of that child into the place of the
    node, also where the source writes the two stores itself (lines
    511-519); it records RED. *)
Lemma remove_splice_few_exec N fuel t n nd k :
  tree_inv N t -> n ∈ N -> heap t !! n = Some nd ->
  child (opp k) nd = None ->
  remove_splice fuel n t = Ok (child k nd, RED) (transplanted n (child k nd) nd t).
Proof.
  intros HI Hin Hn Hnone. unfold remove_splice.
  rewrite (bind_Ok _ _ _ _ _ (get_lchild_Ok _ _ _ Hn)).
  rewrite (bind_Ok _ _ _ _ _ (get_rchild_Ok _ _ _ Hn)).
  pose proof (inv_not_own_parent N t n nd HI Hin Hn) as HnP.
  assert (HaP : forall p, parent nd = Some p -> is_Some (heap t !! p)).
  { intros p Hp. apply (inv_alloc _ _ HI). exact (inv_parent _ _ HI n nd p Hin Hn Hp). }
  assert (Hone : forall b, child k nd = Some b ->
            transplant (Some n) (Some b) t = Ok tt (transplanted n (Some b) nd t)).
  { intros b Hb.
    destruct (inv_child _ _ HI n nd k b Hin Hn Hb) as (Hb_in & _ & _).
    apply transplant_exec; [exact Hn|exact HaP|].
    intros b' [= <-]. apply (inv_alloc _ _ HI), Hb_in. }
  destruct (child k nd) as [b|] eqn:Hk.
  - specialize (Hone b eq_refl).
    destruct k; cbn [child opp] in Hk, Hnone; rewrite Hk, Hnone;
      rewrite (bind_Ok _ _ _ _ _ Hone); reflexivity.
  - clear Hone.
    assert (Hl : lchild nd = None) by (destruct k; assumption).
    assert (Hr : rchild nd = None) by (destruct k; assumption).
    rewrite Hl, Hr.
    rewrite (bind_Ok _ _ _ _ _ (get_parent_Ok _ _ _ Hn)).
    unfold transplanted. cbn [alter_opt].
    destruct (parent nd) as [p|] eqn:Hp; [|reflexivity].
    assert (Hnp : n <> p) by congruence.
    destruct (inv_parent_link N t n nd p HI Hin Hn Hp) as (Hp_in & pn & kp & Hpn & Hkp).
    destruct (inv_child _ _ HI p pn kp n Hp_in Hpn Hkp) as (_ & _ & Hother).
    cbn [alter_opt].
    erewrite (bind_Ok _ _ t tt (mkTree (alter (repoint1 n None) p (heap t)) (root t)));
      [reflexivity|].
    rewrite (bind_Ok _ _ _ _ _ (is_left_child_Ok _ _ _ _ _ Hn Hp Hpn)).
    destruct kp; cbn [child opp] in Hkp, Hother.
    + rewrite bool_decide_eq_true_2 by exact Hkp.
      run_store.
      erewrite bind_Ok.
      2:{ apply (is_right_child_look n _ p (rchild pn)).
          - cbn [heap]. rewrite lookup_alter_ne by congruence. rewrite Hn. cbn.
            rewrite Hp. reflexivity.
          - cbn [heap]. rewrite lookup_alter_eq, Hpn. reflexivity. }
      rewrite bool_decide_eq_false_2 by exact Hother.
      unfold ret. f_equal. apply mkTree_eq; [|reflexivity].
      apply (alter_at _ _ p (heap t) pn Hpn).
      unfold repoint1. rewrite bool_decide_eq_true_2 by exact Hkp. reflexivity.
    + rewrite bool_decide_eq_false_2 by exact Hother.
      rewrite (bind_Ok (ret tt) _ t tt t eq_refl).
      rewrite (bind_Ok _ _ _ _ _ (is_right_child_Ok _ _ _ _ _ Hn Hp Hpn)).
      rewrite bool_decide_eq_true_2 by exact Hkp.
      run_store. f_equal. apply mkTree_eq; [|reflexivity].
      apply (alter_at _ _ p (heap t) pn Hpn).
      unfold repoint1. rewrite bool_decide_eq_false_2 by exact Hother.
      rewrite bool_decide_eq_true_2 by exact Hkp. reflexivity.
Qed.

(** With at most one child the nodes of the tree are those of before
    without the removed node, whose record is not written. *)
Lemma remove_splice_few N fuel t n nd res t' :
  tree_inv N t -> n ∈ N -> heap t !! n = Some nd ->
  lchild nd = None \/ rchild nd = None ->
  remove_splice fuel n t = Ok res t' ->
  res.2 = RED /\ heap t' !! n = Some nd /\ tree_inv (N ∖ {[n]}) t'.
Proof.
  intros HI Hin Hn Hfew H.
  assert (exists k, child (opp k) nd = None) as [k Hnone].
  { destruct Hfew as [Hl|Hr]; [exists R|exists L]; assumption. }
  rewrite (remove_splice_few_exec N fuel t n nd k HI Hin Hn Hnone) in H.
  injection H as <- <-. split; [reflexivity|]. split.
  - pose proof (inv_not_own_parent N t n nd HI Hin Hn) as HnP.
    pose proof (inv_not_own_child N t n nd k HI Hin Hn) as HnC.
    unfold transplanted. cbn [heap].
    rewrite lookup_alter_opt_ne by done.
    rewrite lookup_alter_opt_ne by done. exact Hn.
  - exact (transplanted_inv N t n nd k HI Hin Hn Hnone).
Qed.

(** [remove] on a node of a tree with the node set [N]: the nodes of the
    tree it leaves are those of [N] without the removed node. *)
Lemma remove_links N fuel t n nd t' :
  tree_inv N t -> n ∈ N -> heap t !! n = Some nd ->
  remove fuel (Some n) t = Ok tt t' ->
  tree_inv (N ∖ {[n]}) t' /\
  exists nd',
    heap t' !! n = Some nd' /\
    parent nd' = parent nd /\ lchild nd' = lchild nd /\
    ((lchild nd = None \/ rchild nd = None) /\ nd' = nd \/
     exists l r y,
       lchild nd = Some l /\ rchild nd = Some r /\
       leftmost (heap t) r y /\ rchild nd' = Some y /\ y ∈ N ∖ {[n]}).
Proof.
  intros HI Hin Hn H. unfold remove in H.
  apply bind_Ok_inv in H as (r0 & t0 & Hroot & H).
  apply readonly_get_root in Hroot. subst t0.
  apply bind_Ok_inv in H as (temp & t0 & Hdesc & H).
  apply readonly_remove_descend in Hdesc. subst t0.
  destruct (bool_decide (temp <> Some n)); [discriminate|].
  apply bind_Ok_inv in H as (spliced & t1 & Hsp & H).
  destruct (lchild nd) as [l|] eqn:Hl; [destruct (rchild nd) as [r|] eqn:Hr|].
  - (* two children *)
    assert (Hsucc : exists y, successor fuel (Some n) t = Ok (Some y) t /\
                              leftmost (heap t) r y).
    { pose proof Hsp as Hsp'. unfold remove_splice in Hsp'.
      rewrite (bind_Ok _ _ _ _ _ (get_lchild_Ok _ _ _ Hn)) in Hsp'.
      rewrite (bind_Ok _ _ _ _ _ (get_rchild_Ok _ _ _ Hn)) in Hsp'.
      rewrite Hl, Hr in Hsp'.
      apply bind_Ok_inv in Hsp' as (yo & t2 & Hs & _).
      destruct (successor_right_inv _ _ _ _ _ _ _ Hn Hr Hs) as (-> & y & -> & Hlm).
      exists y. auto. }
    destruct Hsucc as (y & Hsucc & Hlm).
    destruct (inv_child _ _ HI n nd R r Hin Hn Hr) as (Hr_in & _ & _).
    destruct (inv_depth _ _ HI r Hr_in) as [dr Hdr].
    destruct (leftmost_facts N t r y HI Hlm dr Hr_in Hdr)
      as (Hy_in & yd & dy & Hy & _).
    rewrite (splice2_exec N t n l r y nd yd HI Hin Hn Hl Hr Hlm Hy fuel Hsucc) in Hsp.
    injection Hsp as <- <-.
    pose proof (spliced2_inv N t n l r y nd yd HI Hin Hn Hl Hr Hlm Hy) as HI1.
    pose proof (spliced2_removed N t n l r y nd yd HI Hin Hn Hl Hr Hlm Hy) as Hrem.
    destruct (splice2_facts N t n l r y nd yd HI Hin Hn Hl Hr Hlm Hy)
      as (dn & dy' & _ & _ & _ & _ & _ & _ & _ & _ & _ & _ & _ & _ & Hxf & _ & _).
    destruct (splice2_distinct N t n l r y nd yd HI Hin Hn Hl Hr Hlm Hy)
      as (Hny & _ & _ & _ & _ & _ & _ & _ & _ & HXn & _).
    assert (Hmem : forall a, a ∈ N -> n <> a -> a ∈ N ∖ {[n]}).
    { intros a Ha Hne. apply elem_of_difference. split; [exact Ha|].
      rewrite not_elem_of_singleton. congruence. }
    assert (HK : keeps (N ∖ {[n]}) (spliced2 n y l r nd yd t) t').
    { cbn [fst snd] in H. destruct (bool_decide (color yd = BLACK)).
      - apply (delete_fixup_keeps _ fuel _ (rchild yd)); [exact HI1| |exact H].
        intros a Ha. apply Hmem; [apply (Hxf a Ha)|congruence].
      - injection H as <-. apply keeps_refl, HI1. }
    destruct HK as [HI' Hframe]. split; [exact HI'|].
    assert (Hnot : n ∉ N ∖ {[n]}).
    { intros Hc. apply elem_of_difference in Hc as [_ Hc].
      apply Hc, elem_of_singleton. reflexivity. }
    specialize (Hframe n Hnot). rewrite Hrem in Hframe.
    destruct (heap t' !! n) as [nd'|]; [|discriminate].
    injection Hframe as Hp' Hl' Hr'.
    exists nd'. split; [reflexivity|]. split; [exact Hp'|]. split; [exact Hl'|].
    right. exists l, r, y. split; [reflexivity|]. split; [reflexivity|].
    split; [exact Hlm|]. split; [exact Hr'|]. apply Hmem; auto.
  - destruct (remove_splice_few N fuel t n nd spliced t1 HI Hin Hn
                ltac:(right; exact Hr) Hsp) as (Hred & Hlook & HI').
    rewrite Hred in H. injection H as <-. split; [exact HI'|].
    exists nd. split; [exact Hlook|]. split; [reflexivity|]. split; [exact Hl|].
    left. auto.
  - destruct (remove_splice_few N fuel t n nd spliced t1 HI Hin Hn
                ltac:(left; exact Hl) Hsp) as (Hred & Hlook & HI').
    rewrite Hred in H. injection H as <-. split; [exact HI'|].
    exists nd. split; [exact Hlook|]. split; [reflexivity|]. split; [exact Hl|].
    left. auto.
Qed.

(** *** The nodes of a shape are the nodes of a tree *)

Lemma shape_from_top f h c s :
  shape_from f h (Some c) = Some s ->
  c ∈ addrs s /\
  forall par, parents_ok h par s -> (parent <$> h !! c) = Some par.
Proof.
  intros Hs.
  apply shape_from_Some_inv in Hs as (f' & cn & l & r & _ & Hcn & _ & _ & ->).
  split.
  - cbn [addrs]. apply elem_of_app. right. apply elem_of_cons. left. reflexivity.
  - intros par (Hp & _). exact Hp.
Qed.

Lemma shape_nodes t : forall f p s par dtop,
  shape_from f (heap t) p = Some s ->
  parents_ok (heap t) par s ->
  NoDup (addrs s) ->
  (forall a, p = Some a -> depth t a dtop) ->
  forall a, a ∈ addrs s ->
    exists nd d,
      heap t !! a = Some nd /\ depth t a d /\
      (forall k c, child k nd = Some c ->
         c ∈ addrs s /\ (parent <$> heap t !! c) = Some (Some a) /\
         child (opp k) nd <> Some c) /\
      (forall q, parent nd = Some q -> q ∈ addrs s \/ par = Some q).
Proof.
  induction f as [|f IH]; intros p s par dtop Hs Hp Hnd Htop a Hin.
  - destruct p; [discriminate|]. injection Hs as <-. inversion Hin.
  - destruct p as [a0|]; [|injection Hs as <-; inversion Hin].
    apply shape_from_Some_inv in Hs as (f' & nd0 & l & r & [= <-] & Ha0 & Hl & Hr & ->).
    destruct Hp as (Hpa & Hpl & Hpr).
    pose proof (Htop a0 eq_refl) as Hd0.
    cbn [addrs] in Hnd, Hin |- *.
    apply NoDup_app in Hnd as (Hndl & Hdisj & Hnd).
    apply NoDup_cons in Hnd as (Ha0r & Hndr).
    assert (Hin_l : forall b, b ∈ addrs l -> b ∈ addrs l ++ a0 :: addrs r).
    { intros b Hb. apply elem_of_app. left. exact Hb. }
    assert (Hin_r : forall b, b ∈ addrs r -> b ∈ addrs l ++ a0 :: addrs r).
    { intros b Hb. apply elem_of_app. right. apply elem_of_cons. right. exact Hb. }
    assert (Hin_0 : a0 ∈ addrs l ++ a0 :: addrs r).
    { apply elem_of_app. right. apply elem_of_cons. left. reflexivity. }
    assert (Hkid : forall k c sc, child k nd0 = Some c ->
              shape_from f (heap t) (Some c) = Some sc ->
              parents_ok (heap t) (Some a0) sc ->
              c ∈ addrs sc /\ (parent <$> heap t !! c) = Some (Some a0) /\
              depth t c (S dtop)).
    { intros k c sc Hk Hsc Hpc. destruct (shape_from_top _ _ _ _ Hsc) as (Hc & Hpar).
      specialize (Hpar _ Hpc). split; [exact Hc|]. split; [exact Hpar|].
      destruct (heap t !! c) as [cn|] eqn:Hcn; [|discriminate].
      injection Hpar as Hpar. eapply depth_up; eauto. }
    apply elem_of_app in Hin as [Hin|Hin]; [|apply elem_of_cons in Hin as [->|Hin]].
    + destruct (IH (lchild nd0) l (Some a0) (S dtop) Hl Hpl Hndl) with (a := a)
        as (nd & d & H1 & H2 & H3 & H4); [|exact Hin|].
      { intros c Hc. rewrite Hc in Hl.
        apply (Hkid L c l Hc Hl Hpl). }
      exists nd, d. split; [exact H1|]. split; [exact H2|]. split.
      * intros k c Hc. destruct (H3 k c Hc) as (Hc1 & Hc2 & Hc3). auto.
      * intros q Hq. destruct (H4 q Hq) as [Hq'|[= <-]]; left; auto.
    + exists nd0, dtop. split; [exact Ha0|]. split; [exact Hd0|]. split.
      * intros k c Hc. destruct k; cbn [child opp] in Hc |- *.
        -- rewrite Hc in Hl. destruct (Hkid L c l Hc Hl Hpl) as (Hc1 & Hc2 & _).
           split; [auto|]. split; [exact Hc2|].
           intros Hc'. rewrite Hc' in Hr.
           destruct (shape_from_top _ _ _ _ Hr) as (Hcr & _).
           apply (Hdisj c Hc1). apply elem_of_cons. right. exact Hcr.
        -- rewrite Hc in Hr. destruct (Hkid R c r Hc Hr Hpr) as (Hc1 & Hc2 & _).
           split; [auto|]. split; [exact Hc2|].
           intros Hc'. rewrite Hc' in Hl.
           destruct (shape_from_top _ _ _ _ Hl) as (Hcl & _).
           apply (Hdisj c Hcl). apply elem_of_cons. right. exact Hc1.
      * intros q Hq. right. rewrite Ha0 in Hpa. injection Hpa as <-. exact Hq.
    + destruct (IH (rchild nd0) r (Some a0) (S dtop) Hr Hpr Hndr) with (a := a)
        as (nd & d & H1 & H2 & H3 & H4); [|exact Hin|].
      { intros c Hc. rewrite Hc in Hr.
        apply (Hkid R c r Hc Hr Hpr). }
      exists nd, d. split; [exact H1|]. split; [exact H2|]. split.
      * intros k c Hc. destruct (H3 k c Hc) as (Hc1 & Hc2 & Hc3). auto.
      * intros q Hq. destruct (H4 q Hq) as [Hq'|[= <-]]; left; auto.
Qed.

(** A shape without a repeated address, whose nodes name their parents, is a
    tree in the sense of [tree_inv]. *)
Lemma shape_tree_inv fuel t s :
  shape_of fuel t = Some s ->
  parents_ok (heap t) None s ->
  NoDup (addrs s) ->
  tree_inv (list_to_set (addrs s)) t.
Proof.
  intros Hs Hp Hnd. unfold shape_of in Hs.
  assert (Htop : forall a, root t = Some a -> depth t a O).
  { intros a Ha. rewrite Ha in Hs.
    destruct (shape_from_top _ _ _ _ Hs) as (_ & Hpar). specialize (Hpar _ Hp).
    destruct (heap t !! a) as [x|] eqn:Hx; [|discriminate].
    injection Hpar as Hpar. eapply depth_root; eauto. }
  pose proof (shape_nodes t fuel (root t) s None O Hs Hp Hnd Htop) as Hall.
  split.
  - intros r Hr. rewrite Hr in Hs. apply elem_of_list_to_set.
    apply (shape_from_top _ _ _ _ Hs).
  - intros a Ha. apply elem_of_list_to_set in Ha.
    destruct (Hall a Ha) as (nd & d & H1 & _). eauto.
  - intros a nd k c Ha Hnd' Hk. apply elem_of_list_to_set in Ha.
    destruct (Hall a Ha) as (nd1 & d & H1 & _ & H3 & _).
    assert (nd1 = nd) as -> by congruence.
    destruct (H3 k c Hk) as (Hc1 & Hc2 & Hc3).
    split; [apply elem_of_list_to_set, Hc1|]. auto.
  - intros a nd p Ha Hnd' Hpp. apply elem_of_list_to_set in Ha.
    destruct (Hall a Ha) as (nd1 & d & H1 & _ & _ & H4).
    assert (nd1 = nd) as -> by congruence.
    destruct (H4 p Hpp) as [Hq|Hq]; [apply elem_of_list_to_set, Hq|discriminate].
  - intros a Ha. apply elem_of_list_to_set in Ha.
    destruct (Hall a Ha) as (nd & d & _ & H2 & _). eauto.
Qed.

Lemma remove_descend_found fuel n : forall f p t t' s,
  remove_descend fuel n p t = Ok (Some n) t' ->
  shape_from f (heap t) p = Some s ->
  n ∈ addrs s.
Proof.
  induction fuel as [|fl IH]; intros f p t t' s H Hs.
  - destruct p as [a|]; [|discriminate]. cbn [remove_descend] in H.
    destruct (bool_decide (a = n)) eqn:Han; [|discriminate].
    apply bool_decide_eq_true in Han as ->. apply (shape_from_top _ _ _ _ Hs).
  - destruct p as [a|]; [|discriminate]. cbn [remove_descend] in H.
    destruct (bool_decide (a = n)) eqn:Han.
    + apply bool_decide_eq_true in Han as ->. apply (shape_from_top _ _ _ _ Hs).
    + apply shape_from_Some_inv in Hs as (f' & an & l & r & -> & Ha & Hl & Hr & ->).
      apply bind_Ok_inv in H as (k & t1 & Hk & H).
      apply readonly_get_key in Hk. subst t1.
      apply bind_Ok_inv in H as (ka & t1 & Hka & H).
      apply readonly_get_key in Hka. subst t1.
      cbn [addrs]. apply elem_of_app.
      destruct (bool_decide (k < ka)).
      * apply bind_Ok_inv in H as (c & t1 & Hc & H).
        apply get_lchild_Ok_inv in Hc as (-> & x & Hx & ->).
        assert (x = an) as -> by congruence.
        left. eapply IH; eauto.
      * apply bind_Ok_inv in H as (c & t1 & Hc & H).
        apply get_rchild_Ok_inv in Hc as (-> & x & Hx & ->).
        assert (x = an) as -> by congruence.
        right. apply elem_of_cons. right. eapply IH; eauto.
Qed.

(** C10: when [remove] returns normally on a node of a tree (a shape
    without a repeated address whose nodes name their parents), the record
    of the removed node still holds its parent and its left child.  With at
    most one child the record is not written at all; with two children its
    right child is the successor [y], the leftmost node below the former
    right child.  The removed node cannot be reached from the root of the
    tree that [remove] leaves, and every node its record names (parent, left
    child, right child) can. *)
Theorem remove_keeps_links_of_removed_node :
  forall fuel fuel' t s n nd t',
    shape_of fuel t = Some s ->
    parents_ok (heap t) None s ->
    NoDup (addrs s) ->
    heap t !! n = Some nd ->
    remove fuel' (Some n) t = Ok tt t' ->
    exists nd',
      heap t' !! n = Some nd' /\
      parent nd' = parent nd /\ lchild nd' = lchild nd /\
      ((lchild nd = None \/ rchild nd = None) /\ nd' = nd \/
       exists l r y,
         lchild nd = Some l /\ rchild nd = Some r /\
         leftmost (heap t) r y /\ rchild nd' = Some y) /\
      ~ reach t' n /\
      forall a,
        parent nd' = Some a \/ lchild nd' = Some a \/ rchild nd' = Some a ->
        reach t' a.
Proof.
  intros fuel fuel' t s n nd t' Hs Hp Hnd Hn H.
  pose proof (shape_tree_inv fuel t s Hs Hp Hnd) as HI.
  assert (Hin : n ∈ (list_to_set (addrs s) : gset ptr)).
  { apply elem_of_list_to_set. pose proof H as H'. unfold remove in H'.
    apply bind_Ok_inv in H' as (r0 & t0 & Hroot & H').
    injection Hroot as <- <-.
    apply bind_Ok_inv in H' as (temp & t0 & Hdesc & H').
    destruct (bool_decide (temp <> Some n)) eqn:Ht; [discriminate|].
    apply bool_decide_eq_false in Ht. apply dec_stable in Ht. subst temp.
    exact (remove_descend_found fuel' n fuel (root t) t t0 s Hdesc Hs). }
  destruct (remove_links _ fuel' t n nd t' HI Hin Hn H)
    as (HI' & nd' & H1 & H2 & H3 & H4).
  set (N := list_to_set (addrs s) : gset ptr) in *.
  assert (Hreach : forall a, a ∈ N ∖ {[n]} -> reach t' a).
  { intros a Ha. destruct (inv_depth _ _ HI' a Ha) as [d Hd].
    exact (depth_reach _ _ _ Hd). }
  assert (Hmem : forall a, a ∈ N -> n <> a -> a ∈ N ∖ {[n]}).
  { intros a Ha Hne. apply elem_of_difference. split; [exact Ha|].
    rewrite not_elem_of_singleton. congruence. }
  assert (Hold : forall a,
            parent nd = Some a \/ lchild nd = Some a \/ rchild nd = Some a ->
            a ∈ N ∖ {[n]}).
  { intros a [Ha|[Ha|Ha]].
    - apply Hmem; [exact (inv_parent _ _ HI n nd a Hin Hn Ha)|].
      pose proof (inv_not_own_parent N t n nd HI Hin Hn). congruence.
    - apply Hmem; [apply (inv_child _ _ HI n nd L a Hin Hn Ha)|].
      pose proof (inv_not_own_child N t n nd L HI Hin Hn). cbn in *. congruence.
    - apply Hmem; [apply (inv_child _ _ HI n nd R a Hin Hn Ha)|].
      pose proof (inv_not_own_child N t n nd R HI Hin Hn). cbn in *. congruence. }
  exists nd'. split; [exact H1|]. split; [exact H2|]. split; [exact H3|].
  split; [|split].
  - destruct H4 as [H4|(l & r & y & Hl & Hr & Hlm & Hr' & _)]; [left; exact H4|].
    right. exists l, r, y. auto.
  - intros Hc. apply (reach_in _ _ _ HI') in Hc.
    apply elem_of_difference in Hc as [_ Hc]. apply Hc, elem_of_singleton. reflexivity.
  - intros a Ha. apply Hreach.
    destruct H4 as [[_ ->]|(l & r & y & Hl & Hr & Hlm & Hr' & Hy_in)].
    + apply Hold, Ha.
    + rewrite H2, H3, Hr' in Ha. destruct Ha as [Ha|[Ha|[= <-]]].
      * apply Hold. left. exact Ha.
      * apply Hold. right. left. exact Ha.
      * exact Hy_in.
Qed.

(** ** Concrete trees *)

Example red_sibling_is_red_black :
  (red_black <$> shape_of 10 red_sibling) = Some true.
Proof. vm_compute. reflexivity. Qed.

Lemma delete_fixup_case2_on_wrong_sibling_witness :
  rchild_has_color (Some 3%positive) RED four_nodes = Ok true four_nodes /\
  delete_fixup_left_rest 1%positive (Some 3%positive) four_nodes
  = Ok (Some Case2, Some 2%positive)
       (mkTree (<[3%positive := mkNode 3 RED (Some 2%positive) None (Some 4%positive)]>
                  (heap four_nodes))
               (root four_nodes)).
Proof.
  split; [vm_compute; reflexivity|].
  apply (proj1 (proj1 delete_fixup_case2_on_wrong_sibling four_nodes 1%positive
                  (mkNode 1 BLACK (Some 2%positive) None None) 3%positive
                  (mkNode 3 BLACK (Some 2%positive) None (Some 4%positive))
                  eq_refl eq_refl eq_refl)).
Defined.

Lemma rotate_transplant_failures_witness :
  left_rotate (Some 4%positive) four_nodes = Ok tt four_nodes /\
  right_rotate (Some 3%positive) four_nodes = Ok tt four_nodes.
Proof.
  destruct rotate_transplant_failures as (_ & _ & _ & _ & _ & Hl & Hr).
  split.
  - apply (Hl 4%positive (mkNode 4 RED (Some 3%positive) None None)); reflexivity.
  - apply (Hr 3%positive (mkNode 3 BLACK (Some 2%positive) None (Some 4%positive)));
      reflexivity.
Defined.

Lemma insert_sets_red_unless_empty_witness :
  exists t',
    insert_attach 10 (Some 9%positive) four_nodes = Ok tt t' /\
    (color <$> heap t' !! 9%positive) = Some RED /\
    insert 10 (Some 9%positive) four_nodes = insert_fixup 10 (Some 9%positive) t'.
Proof.
  destruct insert_sets_red_unless_empty as [_ H].
  apply (H 10%nat 9%positive (mkNode 9 RED None None None) four_nodes four_nodes_shape).
  - discriminate.
  - vm_compute. reflexivity.
  - reflexivity.
Defined.

Lemma remove_throws_iff_not_on_key_path_witness :
  remove 10 (Some 9%positive) four_nodes = Throw four_nodes /\
  (forall t', remove 10 (Some 1%positive) four_nodes <> Throw t').
Proof.
  split.
  - refine (proj1 (remove_throws_iff_not_on_key_path 10 four_nodes four_nodes_shape
                     9%positive (mkNode 9 RED None None None) _ _) _).
    + vm_compute. reflexivity.
    + reflexivity.
    + intros H.
      repeat (inversion H as [|a nd Ha Hk Hp|a nd Ha Hk Hp]; clear H; subst;
              vm_compute in Ha; injection Ha as <-; cbn in Hk, Hp;
              try lia; clear Hk; rename Hp into H).
  - refine (proj2 (remove_throws_iff_not_on_key_path 10 four_nodes four_nodes_shape
                     1%positive (mkNode 1 BLACK (Some 2%positive) None None) _ _) _).
    + vm_compute. reflexivity.
    + reflexivity.
    + eapply key_path_left; [reflexivity|cbn; lia|]. constructor.
Defined.

Lemma successor_predecessor_spec_witness :
  exists nd,
    heap four_nodes !! 3%positive = Some nd /\
    (forall r, rchild nd = Some r ->
       exists m,
         successor 10 (Some 3%positive) four_nodes = Ok (Some m) four_nodes /\
         minimum 10 (Some r) four_nodes = Ok (Some m) four_nodes /\
         leftmost (heap four_nodes) r m) /\
    (rchild nd = None ->
       exists res,
         successor 10 (Some 3%positive) four_nodes = Ok res four_nodes /\
         left_step_ancestor (heap four_nodes) 3%positive res) /\
    (forall l, lchild nd = Some l ->
       exists m,
         predecessor 10 (Some 3%positive) four_nodes = Ok (Some m) four_nodes /\
         maximum 10 (Some l) four_nodes = Ok (Some m) four_nodes /\
         rightmost (heap four_nodes) l m) /\
    (lchild nd = None ->
       exists res,
         predecessor 10 (Some 3%positive) four_nodes = Ok res four_nodes /\
         right_step_ancestor (heap four_nodes) 3%positive res).
Proof.
  apply (successor_predecessor_spec 10 four_nodes four_nodes_shape 3%positive).
  - vm_compute. reflexivity.
  - cbn. repeat split.
  - cbn. set_solver.
Defined.

Lemma remove_keeps_links_of_removed_node_witness :
  exists t',
    remove 10 (Some 2%positive) red_sibling = Ok tt t' /\
    exists nd',
      heap t' !! 2%positive = Some nd' /\
      parent nd' = parent red_sibling_root /\
      lchild nd' = lchild red_sibling_root /\
      ((lchild red_sibling_root = None \/ rchild red_sibling_root = None) /\
       nd' = red_sibling_root \/
       exists l r y,
         lchild red_sibling_root = Some l /\ rchild red_sibling_root = Some r /\
         leftmost (heap red_sibling) r y /\ rchild nd' = Some y) /\
      ~ reach t' 2%positive /\
      forall a,
        parent nd' = Some a \/ lchild nd' = Some a \/ rchild nd' = Some a ->
        reach t' a.
Proof.
  assert (exists t', remove 10 (Some 2%positive) red_sibling = Ok tt t') as [t' H]
    by (eexists; vm_compute; reflexivity).
  exists t'. split; [exact H|].
  apply (remove_keeps_links_of_removed_node 10 10 red_sibling red_sibling_shape
           2%positive red_sibling_root t').
  - vm_compute. reflexivity.
  - cbn. repeat split.
  - apply (bool_decide_unpack _). vm_compute. exact I.
  - reflexivity.
  - exact H.
Defined.

(** * Further properties *)

(** ** What no member function writes *)

Lemma unchanged_refl {B} (f : Node -> B) t : unchanged f t t.
Proof. intros i. reflexivity. Qed.

Lemma unchanged_trans {B} (f : Node -> B) t1 t2 t3 :
  unchanged f t1 t2 -> unchanged f t2 t3 -> unchanged f t1 t3.
Proof. intros H1 H2 i. rewrite (H2 i). apply H1. Qed.

Lemma keeps_field_ret {A B} (f : Node -> B) (a : A) : keeps_field f (ret a).
Proof. intros t b t' [= _ <-]. apply unchanged_refl. Qed.

Lemma keeps_field_crash {A B} (f : Node -> B) : keeps_field f (@crash A).
Proof. intros t b t' [=]. Qed.

Lemma keeps_field_timeout {A B} (f : Node -> B) : keeps_field f (@timeout A).
Proof. intros t b t' [=]. Qed.

Lemma keeps_field_throw {A B} (f : Node -> B) : keeps_field f (@throw A).
Proof. intros t b t' [=]. Qed.

Lemma keeps_field_bind {A A' B} (f : Node -> B) (m : M A) (k : A -> M A') :
  keeps_field f m -> (forall a, keeps_field f (k a)) -> keeps_field f (bind m k).
Proof.
  intros Hm Hk t b t' H. apply bind_Ok_inv in H as (a & t1 & H1 & H2).
  exact (unchanged_trans f _ _ _ (Hm _ _ _ H1) (Hk a _ _ _ H2)).
Qed.

Lemma keeps_field_readonly {A B} (f : Node -> B) (m : M A) :
  readonly m -> keeps_field f m.
Proof. intros Hm t a t' H. apply Hm in H. subst. apply unchanged_refl. Qed.

Lemma keeps_field_set_root {B} (f : Node -> B) r : keeps_field f (set_root r).
Proof. intros t a t' [= _ <-]. intros i. reflexivity. Qed.

Lemma keeps_field_store {B} (f : Node -> B) a g :
  (forall n, f (g n) = f n) -> keeps_field f (store a g).
Proof.
  intros Hg t u t' H. unfold store in H.
  destruct (heap t !! a) as [n|] eqn:Hn; [|discriminate].
  injection H as _ <-. intros i. cbn [heap].
  destruct (decide (i = a)) as [->|Hne].
  - rewrite lookup_insert_eq, Hn. cbn. f_equal. apply Hg.
  - rewrite lookup_insert_ne by congruence. reflexivity.
Qed.

Lemma readonly_minimum_loop fuel : forall c cp, readonly (minimum_loop fuel c cp).
Proof.
  induction fuel as [|fl IH]; intros [a|] cp; cbn [minimum_loop];
    try apply readonly_ret; try apply readonly_timeout.
  apply readonly_bind; [apply readonly_get_lchild|intros l]. apply IH.
Qed.

Lemma readonly_maximum_loop fuel : forall c cp, readonly (maximum_loop fuel c cp).
Proof.
  induction fuel as [|fl IH]; intros [a|] cp; cbn [maximum_loop];
    try apply readonly_ret; try apply readonly_timeout.
  apply readonly_bind; [apply readonly_get_rchild|intros l]. apply IH.
Qed.

Lemma readonly_successor_climb fuel : forall c p, readonly (successor_climb fuel c p).
Proof.
  induction fuel as [|fl IH]; intros c [p|]; cbn [successor_climb];
    try apply readonly_ret; try apply readonly_timeout.
  apply readonly_bind; [apply readonly_is_right_child|intros ir].
  destruct ir; [|apply readonly_ret].
  apply readonly_bind; [apply readonly_get_parent|intros pp]. apply IH.
Qed.

Lemma readonly_predecessor_climb fuel : forall c p, readonly (predecessor_climb fuel c p).
Proof.
  induction fuel as [|fl IH]; intros c [p|]; cbn [predecessor_climb];
    try apply readonly_ret; try apply readonly_timeout.
  apply readonly_bind; [apply readonly_is_left_child|intros ir].
  destruct ir; [|apply readonly_ret].
  apply readonly_bind; [apply readonly_get_parent|intros pp]. apply IH.
Qed.

Lemma readonly_throw {A} : readonly (@throw A).
Proof. intros t a t' [=]. Qed.

Lemma readonly_successor fuel node : readonly (successor fuel node).
Proof.
  unfold successor. destruct node as [n|]; [|apply readonly_throw].
  apply readonly_bind; [apply readonly_get_rchild|intros [r|]].
  - apply readonly_minimum_loop.
  - apply readonly_bind; [apply readonly_get_parent|intros p].
    apply readonly_successor_climb.
Qed.

Lemma readonly_predecessor fuel node : readonly (predecessor fuel node).
Proof.
  unfold predecessor. destruct node as [n|]; [|apply readonly_throw].
  apply readonly_bind; [apply readonly_get_lchild|intros [r|]].
  - apply readonly_maximum_loop.
  - apply readonly_bind; [apply readonly_get_parent|intros p].
    apply readonly_predecessor_climb.
Qed.

Create HintDb keeps.

Section keeps_field.
Context {B : Type} (f : Node -> B).
Hypothesis Hlinks : ignores_links f.

Lemma keeps_field_store_parent a p : keeps_field f (store a (set_parent p)).
Proof. apply keeps_field_store. intros n. apply Hlinks. Qed.
Lemma keeps_field_store_lchild a p : keeps_field f (store a (set_lchild p)).
Proof. apply keeps_field_store. intros n. apply Hlinks. Qed.
Lemma keeps_field_store_rchild a p : keeps_field f (store a (set_rchild p)).
Proof. apply keeps_field_store. intros n. apply Hlinks. Qed.

Local Hint Resolve keeps_field_ret keeps_field_crash keeps_field_timeout
  keeps_field_throw keeps_field_set_root keeps_field_store_parent
  keeps_field_store_lchild keeps_field_store_rchild : keeps.
Local Hint Extern 1 (keeps_field _ (get_parent _)) =>
  apply keeps_field_readonly, readonly_get_parent : keeps.
Local Hint Extern 1 (keeps_field _ (get_lchild _)) =>
  apply keeps_field_readonly, readonly_get_lchild : keeps.
Local Hint Extern 1 (keeps_field _ (get_rchild _)) =>
  apply keeps_field_readonly, readonly_get_rchild : keeps.
Local Hint Extern 1 (keeps_field _ (get_color _)) =>
  apply keeps_field_readonly, readonly_get_color : keeps.
Local Hint Extern 1 (keeps_field _ (get_key _)) =>
  apply keeps_field_readonly, readonly_get_key : keeps.
Local Hint Extern 1 (keeps_field _ get_root) =>
  apply keeps_field_readonly, readonly_get_root : keeps.
Local Hint Extern 1 (keeps_field _ (deref _)) =>
  apply keeps_field_readonly, readonly_deref : keeps.
Local Hint Extern 1 (keeps_field _ (is_left_child _)) =>
  apply keeps_field_readonly, readonly_is_left_child : keeps.
Local Hint Extern 1 (keeps_field _ (is_right_child _)) =>
  apply keeps_field_readonly, readonly_is_right_child : keeps.
Local Hint Extern 1 (keeps_field _ (has_color _ _)) =>
  apply keeps_field_readonly, readonly_has_color : keeps.

Local Ltac keeps_step :=
  match goal with
  | |- keeps_field _ (bind _ _) => apply keeps_field_bind; [|intros ?]
  | |- keeps_field _ (if ?b then _ else _) => destruct b
  | |- keeps_field _ (match ?x with _ => _ end) => destruct x
  | |- keeps_field _ _ => solve [auto with keeps]
  end.

Lemma keeps_field_left_rotate node : keeps_field f (left_rotate node).
Proof. unfold left_rotate. repeat keeps_step. Qed.

Lemma keeps_field_right_rotate node : keeps_field f (right_rotate node).
Proof. unfold right_rotate. repeat keeps_step. Qed.

Lemma keeps_field_transplant u v : keeps_field f (transplant u v).
Proof. unfold transplant. repeat keeps_step. Qed.

Hypothesis Hcolor : ignores_color f.

Lemma keeps_field_store_color a c : keeps_field f (store a (set_color c)).
Proof. apply keeps_field_store. intros n. apply Hcolor. Qed.

Local Hint Resolve keeps_field_store_color : keeps.
Local Hint Extern 1 (keeps_field _ (left_rotate _)) =>
  apply keeps_field_left_rotate : keeps.
Local Hint Extern 1 (keeps_field _ (right_rotate _)) =>
  apply keeps_field_right_rotate : keeps.
Local Hint Extern 1 (keeps_field _ (transplant _ _)) =>
  apply keeps_field_transplant : keeps.

Lemma keeps_field_insert_fixup_body node node_p :
  keeps_field f (insert_fixup_body node node_p).
Proof. unfold insert_fixup_body. repeat keeps_step. Qed.

Lemma keeps_field_insert_fixup_loop fuel :
  forall node node_p, keeps_field f (insert_fixup_loop fuel node node_p).
Proof.
  induction fuel as [|fl IH]; intros node node_p; cbn [insert_fixup_loop].
  - apply keeps_field_timeout.
  - apply keeps_field_bind; [auto with keeps|intros c].
    destruct (bool_decide (c = RED)); [|apply keeps_field_ret].
    apply keeps_field_bind; [apply keeps_field_insert_fixup_body|intros [n' [q|]]].
    + apply IH.
    + apply keeps_field_ret.
Qed.

Lemma keeps_field_insert_fixup fuel node : keeps_field f (insert_fixup fuel node).
Proof.
  unfold insert_fixup.
  apply keeps_field_bind; [auto with keeps|intros n].
  apply keeps_field_bind; [auto with keeps|intros [p|]].
  - apply keeps_field_insert_fixup_loop.
  - repeat keeps_step.
Qed.

Lemma keeps_field_insert_descend fuel node :
  forall temp tp l, keeps_field f (insert_descend fuel node temp tp l).
Proof.
  induction fuel as [|fl IH]; intros temp tp l; destruct temp as [a|];
    cbn [insert_descend]; try apply keeps_field_ret; try apply keeps_field_timeout.
  apply keeps_field_bind; [auto with keeps|intros n].
  apply keeps_field_bind; [auto with keeps|intros k].
  apply keeps_field_bind; [auto with keeps|intros ka].
  destruct (bool_decide (k < ka)).
  - apply keeps_field_bind; [auto with keeps|intros c]. apply IH.
  - apply keeps_field_bind; [auto with keeps|intros c]. apply IH.
Qed.

Lemma keeps_field_insert fuel node : keeps_field f (insert fuel node).
Proof.
  unfold insert. apply keeps_field_bind; [auto with keeps|intros [r|]].
  - apply keeps_field_bind; [|intros _; apply keeps_field_insert_fixup].
    unfold insert_attach.
    apply keeps_field_bind; [auto with keeps|intros temp].
    apply keeps_field_bind; [apply keeps_field_insert_descend|intros [tp l]].
    repeat keeps_step.
  - apply keeps_field_set_root.
Qed.

Local Ltac readonly_test :=
  repeat first [ apply readonly_andM | apply readonly_orM
               | apply readonly_has_color
               | apply (proj1 (readonly_child_tests _ _))
               | apply (proj1 (proj2 (readonly_child_tests _ _)))
               | apply (proj1 (proj2 (proj2 (readonly_child_tests _ RED))))
               | apply (proj2 (proj2 (proj2 (readonly_child_tests _ RED)))) ].

Local Hint Extern 1 (keeps_field _ (andM _ _)) =>
  apply keeps_field_readonly; solve [readonly_test] : keeps.

Lemma keeps_field_delete_fixup_left_case1 np w :
  keeps_field f (delete_fixup_left_case1 np w).
Proof. unfold delete_fixup_left_case1. repeat keeps_step. Qed.

Lemma keeps_field_delete_fixup_right_case1 np w :
  keeps_field f (delete_fixup_right_case1 np w).
Proof. unfold delete_fixup_right_case1. repeat keeps_step. Qed.

Lemma keeps_field_delete_fixup_left_rest node w :
  keeps_field f (delete_fixup_left_rest node w).
Proof. unfold delete_fixup_left_rest. repeat keeps_step. Qed.

Lemma keeps_field_delete_fixup_right_rest node w :
  keeps_field f (delete_fixup_right_rest node w).
Proof. unfold delete_fixup_right_rest. repeat keeps_step. Qed.

Lemma keeps_field_delete_fixup_body node : keeps_field f (delete_fixup_body node).
Proof.
  unfold delete_fixup_body.
  apply keeps_field_bind; [auto with keeps|intros il]. destruct il.
  - apply keeps_field_bind; [auto with keeps|intros node_p].
    apply keeps_field_bind; [auto with keeps|intros np].
    apply keeps_field_bind; [auto with keeps|intros w].
    apply keeps_field_bind; [apply keeps_field_delete_fixup_left_case1|intros first_].
    apply keeps_field_bind; [apply keeps_field_delete_fixup_left_rest|intros second_].
    apply keeps_field_ret.
  - apply keeps_field_bind; [auto with keeps|intros node_p].
    apply keeps_field_bind; [auto with keeps|intros np].
    apply keeps_field_bind; [auto with keeps|intros w].
    apply keeps_field_bind; [apply keeps_field_delete_fixup_right_case1|intros first_].
    apply keeps_field_bind; [apply keeps_field_delete_fixup_right_rest|intros second_].
    apply keeps_field_ret.
Qed.

Lemma keeps_field_delete_fixup_loop fuel :
  forall node, keeps_field f (delete_fixup_loop fuel node).
Proof.
  induction fuel as [|fl IH]; intros node; cbn [delete_fixup_loop].
  - apply keeps_field_timeout.
  - apply keeps_field_bind; [auto with keeps|intros r].
    apply keeps_field_bind.
    { apply keeps_field_readonly, readonly_andM;
        [apply readonly_ret|apply readonly_has_color]. }
    intros go. destruct go; [|apply keeps_field_ret].
    apply keeps_field_bind; [auto with keeps|intros n].
    apply keeps_field_bind; [apply keeps_field_delete_fixup_body|intros next].
    apply IH.
Qed.

Lemma keeps_field_delete_fixup fuel node : keeps_field f (delete_fixup fuel node).
Proof.
  unfold delete_fixup.
  apply keeps_field_bind; [apply keeps_field_delete_fixup_loop|intros [a|]];
    auto with keeps.
Qed.

Lemma keeps_field_remove_splice fuel n : keeps_field f (remove_splice fuel n).
Proof.
  unfold remove_splice.
  apply keeps_field_bind; [auto with keeps|intros nl].
  apply keeps_field_bind; [auto with keeps|intros nr].
  destruct nl as [l|], nr as [r|].
  - apply keeps_field_bind; [apply keeps_field_readonly, readonly_successor|intros y].
    repeat keeps_step.
  - repeat keeps_step.
  - repeat keeps_step.
  - repeat keeps_step.
Qed.

Lemma keeps_field_remove fuel node : keeps_field f (remove fuel node).
Proof.
  unfold remove. destruct node as [n|]; [|apply keeps_field_throw].
  apply keeps_field_bind; [auto with keeps|intros r].
  apply keeps_field_bind;
    [apply keeps_field_readonly, readonly_remove_descend|intros temp].
  destruct (bool_decide (temp <> Some n)); [apply keeps_field_throw|].
  apply keeps_field_bind; [apply keeps_field_remove_splice|intros spliced].
  destruct (bool_decide (spliced.2 = BLACK)).
  - apply keeps_field_delete_fixup.
  - apply keeps_field_ret.
Qed.

End keeps_field.

Lemma key_ignores_links : ignores_links key.
Proof. intros p n. auto. Qed.
Lemma key_ignores_color : ignores_color key.
Proof. intros c n. reflexivity. Qed.
Lemma key_color_ignores_links : ignores_links key_color.
Proof. intros p n. auto. Qed.

(** X1: when [insert], [remove], a rotation, [transplant] or a fixup
    returns, every address that held a record holds one with the same key,
    and no record has appeared or disappeared: the functions relink and
    recolor nodes, they never create, destroy or rekey one. *)
Theorem keys_never_change :
  forall fuel node u v t t',
    insert fuel node t = Ok tt t' \/ remove fuel node t = Ok tt t' \/
    insert_fixup fuel node t = Ok tt t' \/ delete_fixup fuel node t = Ok tt t' \/
    left_rotate node t = Ok tt t' \/ right_rotate node t = Ok tt t' \/
    transplant u v t = Ok tt t' ->
    forall i, (key <$> heap t' !! i) = (key <$> heap t !! i).
Proof.
  intros fuel node u v t t' H.
  pose proof key_ignores_links as Hl. pose proof key_ignores_color as Hc.
  destruct H as [H|[H|[H|[H|[H|[H|H]]]]]].
  - exact (keeps_field_insert key Hl Hc fuel node t tt t' H).
  - exact (keeps_field_remove key Hl Hc fuel node t tt t' H).
  - exact (keeps_field_insert_fixup key Hl Hc fuel node t tt t' H).
  - exact (keeps_field_delete_fixup key Hl Hc fuel node t tt t' H).
  - exact (keeps_field_left_rotate key Hl node t tt t' H).
  - exact (keeps_field_right_rotate key Hl node t tt t' H).
  - exact (keeps_field_transplant key Hl u v t tt t' H).
Qed.

(** X2: a rotation and [transplant] change links only: when one of them
    returns, every record has the key and the color it had. *)
Theorem rotations_keep_colors :
  forall node u v t t',
    left_rotate node t = Ok tt t' \/ right_rotate node t = Ok tt t' \/
    transplant u v t = Ok tt t' ->
    forall i, (key_color <$> heap t' !! i) = (key_color <$> heap t !! i).
Proof.
  intros node u v t t' H. pose proof key_color_ignores_links as Hl.
  destruct H as [H|[H|H]].
  - exact (keeps_field_left_rotate key_color Hl node t tt t' H).
  - exact (keeps_field_right_rotate key_color Hl node t tt t' H).
  - exact (keeps_field_transplant key_color Hl u v t tt t' H).
Qed.

(** ** Rotations on a tree *)

Lemma reach_iff N t a : tree_inv N t -> (reach t a <-> a ∈ N).
Proof.
  intros HI. split; [apply reach_in, HI|].
  intros Ha. destruct (inv_depth _ _ HI a Ha) as [d Hd].
  exact (depth_reach _ _ _ Hd).
Qed.

(** A rotation on a node of a tree always returns. *)
Lemma rotate_spec d N t n nd :
  tree_inv N t -> n ∈ N -> heap t !! n = Some nd ->
  match child (opp d) nd with
  | None => rotate d (Some n) t = Ok tt t
  | Some r =>
    exists rn, heap t !! r = Some rn /\
      rotate d (Some n) t = Ok tt (rotated d n r nd rn t) /\
      tree_inv N (rotated d n r nd rn t) /\
      forall i, heap (rotated d n r nd rn t) !! i
                = rot_node d n r nd rn i <$> heap t !! i
  end.
Proof.
  intros HI Hin Hn. destruct (child (opp d) nd) as [r|] eqn:Hr.
  - destruct (inv_child _ _ HI n nd (opp d) r Hin Hn Hr) as (Hr_in & _ & _).
    destruct (inv_alloc _ _ HI r Hr_in) as [rn Hrn]. exists rn.
    split; [exact Hrn|]. split; [|split].
    + exact (rotate_inv_exec d N t n r nd rn HI Hin Hn Hr Hrn).
    + exact (rotated_inv d N t n r nd rn HI Hin Hn Hr Hrn).
    + exact (rotated_lookup d N t n r nd rn HI Hin Hn Hr Hrn).
  - unfold rotate.
    rewrite (bind_Ok _ _ t None t)
      by (apply get_child_look; rewrite Hn; cbn; congruence).
    reflexivity.
Qed.

Lemma rotate_returns d N t n :
  tree_inv N t -> n ∈ N ->
  exists t', rotate d (Some n) t = Ok tt t' /\ tree_inv N t' /\
             forall a, reach t' a <-> reach t a.
Proof.
  intros HI Hin. destruct (inv_alloc _ _ HI n Hin) as [nd Hn].
  pose proof (rotate_spec d N t n nd HI Hin Hn) as H.
  destruct (child (opp d) nd) as [r|].
  - destruct H as (rn & _ & Hex & HI' & _). eexists. split; [exact Hex|].
    split; [exact HI'|]. intros a.
    rewrite (reach_iff N _ a HI'), (reach_iff N t a HI). reflexivity.
  - exists t. split; [exact H|]. split; [exact HI|]. reflexivity.
Qed.

(** X3: on a node of a tree a rotation always returns, and the nodes that
    can be reached from the root afterwards are those that could be reached
    before: the result is again a tree on the same nodes. *)
Theorem rotation_keeps_the_nodes :
  forall N t n,
    tree_inv N t -> n ∈ N ->
    (exists t', left_rotate (Some n) t = Ok tt t' /\ tree_inv N t' /\
                forall a, reach t' a <-> reach t a) /\
    (exists t', right_rotate (Some n) t = Ok tt t' /\ tree_inv N t' /\
                forall a, reach t' a <-> reach t a).
Proof.
  intros N t n HI Hin. split.
  - exact (rotate_returns L N t n HI Hin).
  - exact (rotate_returns R N t n HI Hin).
Qed.

(** X4: [left_rotate] on a node [n] of a tree with the right child [r]
    returns the tree of the picture at lines 66-75: [r] stands where [n]
    stood, under the former parent of [n] or as the root; [n] is the left
    child of [r]; the former left child of [r] is the right child of [n]; no
    other record changes.  [right_rotate] is the mirror image. *)
Theorem rotation_effect :
  forall N t n nd r,
    tree_inv N t -> n ∈ N -> heap t !! n = Some nd ->
    (rchild nd = Some r ->
     exists rn t',
       heap t !! r = Some rn /\ left_rotate (Some n) t = Ok tt t' /\
       root t' = match parent nd with None => Some r | Some _ => root t end /\
       forall i, heap t' !! i = rot_node L n r nd rn i <$> heap t !! i) /\
    (lchild nd = Some r ->
     exists rn t',
       heap t !! r = Some rn /\ right_rotate (Some n) t = Ok tt t' /\
       root t' = match parent nd with None => Some r | Some _ => root t end /\
       forall i, heap t' !! i = rot_node R n r nd rn i <$> heap t !! i).
Proof.
  intros N t n nd r HI Hin Hn. split; intros Hr.
  - pose proof (rotate_spec L N t n nd HI Hin Hn) as H. cbn [opp child] in H.
    rewrite Hr in H. destruct H as (rn & Hrn & Hex & _ & Hlook).
    exists rn, (rotated L n r nd rn t). auto.
  - pose proof (rotate_spec R N t n nd HI Hin Hn) as H. cbn [opp child] in H.
    rewrite Hr in H. destruct H as (rn & Hrn & Hex & _ & Hlook).
    exists rn, (rotated R n r nd rn t). auto.
Qed.

Lemma Node_eq (x y : Node) :
  key x = key y -> color x = color y -> parent x = parent y ->
  lchild x = lchild y -> rchild x = rchild y -> x = y.
Proof. destruct x, y. cbn. intros. subst. reflexivity. Qed.

Lemma child_set_child d k v x :
  child k (set_child d v x) = if decide (k = d) then v else child k x.
Proof. destruct d, k; reflexivity. Qed.

(** A rotation towards [d] on [n] followed by the rotation towards the other
    side on the node that took the place of [n] gives back the tree. *)
Lemma rotate_rotate d N t n nd r :
  tree_inv N t -> n ∈ N -> heap t !! n = Some nd ->
  child (opp d) nd = Some r ->
  exists t1, rotate d (Some n) t = Ok tt t1 /\
             rotate (opp d) (Some r) t1 = Ok tt t.
Proof.
  intros HI Hin Hn Hr.
  pose proof (rotate_spec d N t n nd HI Hin Hn) as H. rewrite Hr in H.
  destruct H as (rn & Hrn & Hex & HI1 & Hlook1).
  exists (rotated d n r nd rn t). split; [exact Hex|].
  destruct (rot_r_in d N t n r nd rn HI Hin Hn Hr Hrn) as (Hr_in & Hrp).
  destruct (rot_distinct d N t n r nd rn HI Hin Hn Hr Hrn) as (Hnr & Hbd & Hpd).
  set (t1 := rotated d n r nd rn t) in *.
  set (r1 := set_child d (Some n) (set_parent (parent nd) rn)).
  set (n1 := set_parent (Some r) (set_child (opp d) (child d rn) nd)).
  assert (Hr1 : heap t1 !! r = Some r1).
  { rewrite Hlook1, Hrn. cbn. unfold rot_node. rewrite decide_True by done.
    reflexivity. }
  assert (Hn1 : heap t1 !! n = Some n1).
  { rewrite Hlook1, Hn. cbn. unfold rot_node. rewrite decide_False by done.
    rewrite decide_True by done. reflexivity. }
  assert (Hc1 : child (opp (opp d)) r1 = Some n).
  { rewrite opp_opp. subst r1. rewrite child_set_child.
    rewrite decide_True by done. reflexivity. }
  pose proof (rotate_spec (opp d) N t1 r r1 HI1 Hr_in Hr1) as H. rewrite Hc1 in H.
  destruct H as (n1' & Hn1' & Hex2 & _ & Hlook2).
  assert (n1' = n1) as -> by congruence.
  rewrite Hex2. f_equal. destruct t as [h rt].
  assert (Hp1 : parent r1 = parent nd).
  { subst r1. destruct d; reflexivity. }
  assert (Hinner : child (opp d) n1 = child d rn).
  { subst n1. destruct d; reflexivity. }
  unfold rotated at 1. apply mkTree_eq.
  - apply map_eq. intros i.
    change (heap (rotated (opp d) r n r1 n1 t1) !! i = h !! i).
    rewrite Hlook2, Hlook1. cbn [heap] in *.
    destruct (h !! i) as [x|] eqn:Hx; [|reflexivity]. cbn. f_equal.
    unfold rot_node. rewrite Hp1, Hinner.
    destruct (decide (i = n)) as [->|Hin'].
    + rewrite (decide_False (P := n = r)) by done.
      assert (x = nd) as -> by congruence.
      apply Node_eq; destruct d; cbn in *; congruence.
    + destruct (decide (i = r)) as [->|Hir].
      * assert (x = rn) as -> by congruence.
        apply Node_eq; destruct d; cbn in *; congruence.
      * destruct (decide (child d rn = Some i)) as [Hb|Hb].
        -- destruct (inv_child _ _ HI r rn d i Hr_in Hrn Hb) as (_ & Hpi & _).
           cbn [heap] in Hpi. rewrite Hx in Hpi. injection Hpi as Hpi.
           apply Node_eq; destruct d; cbn in *; congruence.
        -- destruct (decide (parent nd = Some i)) as [Hp|Hp]; [|reflexivity].
           destruct (inv_parent_link N _ n nd i HI Hin Hn Hp) as (Hi_in & _).
           assert (Hnor : forall k, child k x <> Some r).
           { intros k Hk.
             destruct (inv_child _ _ HI i x k r Hi_in Hx Hk) as (_ & Hpr & _).
             cbn [heap] in Hpr, Hrn. rewrite Hrn in Hpr. cbn in Hpr. congruence. }
           pose proof (Hnor L) as HnL. pose proof (Hnor R) as HnR.
           cbn [child] in HnL, HnR.
           unfold repoint. apply Node_eq; cbn; try reflexivity.
           ++ destruct (decide (lchild x = Some n)) as [Hl|Hl].
              ** rewrite (bool_decide_eq_true_2 _ Hl).
                 rewrite bool_decide_eq_true_2 by reflexivity. congruence.
              ** rewrite (bool_decide_eq_false_2 _ Hl).
                 rewrite (bool_decide_eq_false_2 _ HnL). reflexivity.
           ++ destruct (decide (rchild x = Some n)) as [Hl|Hl].
              ** rewrite (bool_decide_eq_true_2 _ Hl).
                 rewrite bool_decide_eq_true_2 by reflexivity. congruence.
              ** rewrite (bool_decide_eq_false_2 _ Hl).
                 rewrite (bool_decide_eq_false_2 _ HnR). reflexivity.
  - rewrite Hp1. subst t1. unfold rotated. cbn [root].
    destruct (parent nd) as [p|] eqn:Hp; [reflexivity|].
    destruct (inv_depth _ _ HI n Hin) as [dn Hd].
    destruct (depth_top N _ n nd dn HI Hin Hn Hp Hd) as (Hroot & _).
    cbn [root] in Hroot. congruence.
Qed.

(** X5: a rotation can be undone: on a node [n] of a tree with the right
    child [r], [left_rotate] on [n] followed by [right_rotate] on [r] returns
    the very tree it started from, record by record; likewise
    [right_rotate] on [n] followed by [left_rotate] on its former left
    child. *)
Theorem rotations_are_inverse :
  forall N t n nd r,
    tree_inv N t -> n ∈ N -> heap t !! n = Some nd ->
    (rchild nd = Some r ->
     exists t1, left_rotate (Some n) t = Ok tt t1 /\
                right_rotate (Some r) t1 = Ok tt t) /\
    (lchild nd = Some r ->
     exists t1, right_rotate (Some n) t = Ok tt t1 /\
                left_rotate (Some r) t1 = Ok tt t).
Proof.
  intros N t n nd r HI Hin Hn. split; intros Hr.
  - exact (rotate_rotate L N t n nd r HI Hin Hn Hr).
  - exact (rotate_rotate R N t n nd r HI Hin Hn Hr).
Qed.

(** ** Removal on a tree *)

Lemma reach_without N t t' n :
  tree_inv N t -> tree_inv (N ∖ {[n]}) t' ->
  forall a, reach t' a <-> reach t a /\ a <> n.
Proof.
  intros HI HI' a. rewrite (reach_iff _ _ a HI'), (reach_iff _ _ a HI).
  rewrite elem_of_difference, not_elem_of_singleton. reflexivity.
Qed.

(** X6: [remove] unlinks its argument and nothing else: when it returns on
    a node of a tree, the result is a tree whose nodes are the former ones
    without the removed node. *)
Theorem remove_unlinks_exactly_the_node :
  forall N fuel t n t',
    tree_inv N t -> n ∈ N ->
    remove fuel (Some n) t = Ok tt t' ->
    tree_inv (N ∖ {[n]}) t' /\
    forall a, reach t' a <-> reach t a /\ a <> n.
Proof.
  intros N fuel t n t' HI Hin H.
  destruct (inv_alloc _ _ HI n Hin) as [nd Hn].
  destruct (remove_links N fuel t n nd t' HI Hin Hn H) as (HI' & _).
  split; [exact HI'|]. exact (reach_without N t t' n HI HI').
Qed.

(** X7: [transplant(u, v)] on a node [u] of a tree whose only child, if it
    has one, is [v] always returns; the result is a tree whose nodes are the
    former ones without [u], and the record of [u] is as it was. *)
Theorem transplant_only_child :
  forall N t u ud k,
    tree_inv N t -> u ∈ N -> heap t !! u = Some ud ->
    child (opp k) ud = None ->
    exists t',
      transplant (Some u) (child k ud) t = Ok tt t' /\
      tree_inv (N ∖ {[u]}) t' /\
      heap t' !! u = Some ud /\
      forall a, reach t' a <-> reach t a /\ a <> u.
Proof.
  intros N t u ud k HI Hin Hu Hnone.
  exists (transplanted u (child k ud) ud t).
  pose proof (transplanted_inv N t u ud k HI Hin Hu Hnone) as HI'.
  split; [|split; [exact HI'|split]].
  - apply transplant_exec; [exact Hu| |].
    + intros p Hp. apply (inv_alloc _ _ HI).
      exact (inv_parent _ _ HI u ud p Hin Hu Hp).
    + intros b Hb. apply (inv_alloc _ _ HI).
      apply (inv_child _ _ HI u ud k b Hin Hu Hb).
  - pose proof (inv_not_own_parent N t u ud HI Hin Hu) as HnP.
    pose proof (inv_not_own_child N t u ud k HI Hin Hu) as HnC.
    unfold transplanted. cbn [heap].
    rewrite lookup_alter_opt_ne by done.
    rewrite lookup_alter_opt_ne by done. exact Hu.
  - exact (reach_without N t _ u HI HI').
Qed.

(** X8: [delete_fixup] recolors and rotates only: when it returns on a node
    of a tree (or on the empty pointer), the result is a tree on the same
    nodes. *)
Theorem delete_fixup_keeps_the_nodes :
  forall N fuel t node t',
    tree_inv N t -> (forall a, node = Some a -> a ∈ N) ->
    delete_fixup fuel node t = Ok tt t' ->
    tree_inv N t' /\ forall a, reach t' a <-> reach t a.
Proof.
  intros N fuel t node t' HI Hnode H.
  destruct (delete_fixup_keeps N fuel t node t' HI Hnode H) as [HI' _].
  split; [exact HI'|]. intros a.
  rewrite (reach_iff _ _ a HI'), (reach_iff _ _ a HI). reflexivity.
Qed.

(** ** Insertion into a tree *)

Lemma maintains_bind N {A B} (m : M A) (k : A -> M B) Q Q' :
  maintains N m Q -> (forall a, Q a -> maintains N (k a) Q') ->
  maintains N (bind m k) Q'.
Proof.
  intros Hm Hk t b t' HI H. apply bind_Ok_inv in H as (a & t1 & H1 & H2).
  destruct (Hm _ _ _ HI H1) as [K1 Ha].
  destruct (Hk a Ha _ _ _ (proj1 K1) H2) as [K2 Hb].
  split; [exact (keeps_trans _ _ _ _ K1 K2)|exact Hb].
Qed.

Lemma maintains_ret N {A} (a : A) (Q : A -> Prop) : Q a -> maintains N (ret a) Q.
Proof. intros Ha t b t' HI [= <- <-]. split; [apply keeps_refl, HI|exact Ha]. Qed.

Lemma maintains_readonly N {A} (m : M A) :
  readonly m -> maintains N m (fun _ => True).
Proof.
  intros Hm t a t' HI H. apply Hm in H. subst. split; [apply keeps_refl, HI|exact I].
Qed.

Lemma maintains_get_parent N a :
  a ∈ N -> maintains N (get_parent a) (fun p => forall q, p = Some q -> q ∈ N).
Proof.
  intros Ha t p t' HI H. pose proof (readonly_get_parent _ _ _ _ H) as ->.
  split; [apply keeps_refl, HI|]. intros q ->. exact (parent_in N t a q t HI Ha H).
Qed.

Lemma maintains_deref N p : maintains N (deref p) (fun a => p = Some a).
Proof.
  intros t a t' HI H. destruct p as [x|]; [|discriminate]. injection H as <- <-.
  split; [apply keeps_refl, HI|reflexivity].
Qed.

Lemma maintains_store_color N a c :
  maintains N (store a (set_color c)) (fun _ => True).
Proof.
  intros t [] t' HI H. split; [exact (keeps_store_color N t a c t' HI H)|exact I].
Qed.

Lemma maintains_rotate N d a :
  a ∈ N -> maintains N (rotate d (Some a)) (fun _ => True).
Proof.
  intros Ha t [] t' HI H. split; [exact (keeps_rotate d N t a t' HI Ha H)|exact I].
Qed.

(** On a node of a tree that has no parent, line 193 writes the root the
    tree has. *)
Lemma maintains_set_root N n :
  n ∈ N ->
  maintains N (p <- get_parent n ;;
               match p with
               | None => set_root (Some n) ;; store n (set_color BLACK)
               | Some _ => ret tt
               end) (fun _ => True).
Proof.
  intros Hn t [] t' HI H.
  apply bind_Ok_inv in H as (p & t0 & Hp & H).
  apply get_parent_Ok_inv in Hp as (-> & nd & Hnd & ->).
  destruct (parent nd) as [q|] eqn:Hq.
  - injection H as <-. split; [apply keeps_refl, HI|exact I].
  - apply bind_Ok_inv in H as ([] & t1 & Hroot & H). injection Hroot as <-.
    destruct (inv_depth _ _ HI n Hn) as [d Hd].
    destruct (depth_top N t n nd d HI Hn Hnd Hq Hd) as (Hr & _).
    assert (mkTree (heap t) (Some n) = t) as Ht.
    { destruct t as [h rt]. cbn in *. rewrite Hr. reflexivity. }
    rewrite Ht in H.
    split; [exact (keeps_store_color N t n BLACK t' HI H)|exact I].
Qed.

(** One pass through the loop of [insert_fixup] on a node whose parent is a
    node of the tree. *)
Lemma insert_fixup_body_maintains N node node_p :
  node_p ∈ N ->
  maintains N (insert_fixup_body node node_p)
    (fun next => forall q, next.2 = Some q -> q ∈ N).
Proof.
  intros Hp. unfold insert_fixup_body.
  apply (maintains_bind N _ _ _ _ (maintains_get_parent N node_p Hp)).
  intros node_p_p Hpp.
  apply (maintains_bind N _ _ _ _
           (maintains_readonly N _ (readonly_is_left_child node_p))).
  intros il _. destruct il.
  - apply (maintains_bind N _ _ _ _ (maintains_deref N node_p_p)).
    intros g ->. pose proof (Hpp g eq_refl) as Hg.
    apply (maintains_bind N _ _ _ _
             (maintains_readonly N _ (readonly_get_rchild g))).
    intros uncle _.
    apply (maintains_bind N _ _ _ _
             (maintains_readonly N _ (readonly_has_color uncle RED))).
    intros ured _. destruct ured.
    + apply (maintains_bind N _ _ _ _ (maintains_store_color N _ _)). intros _ _.
      apply (maintains_bind N _ _ _ _ (maintains_deref N uncle)). intros u _.
      apply (maintains_bind N _ _ _ _ (maintains_store_color N _ _)). intros _ _.
      apply (maintains_bind N _ _ _ _ (maintains_store_color N _ _)). intros _ _.
      apply (maintains_bind N _ _ _ _ (maintains_get_parent N g Hg)).
      intros node_p' Hnp'.
      apply (maintains_bind N _ _ (fun _ => True)).
      { destruct node_p'; [apply maintains_ret; exact I|apply maintains_store_color]. }
      intros _ _. apply maintains_ret. exact Hnp'.
    + apply (maintains_bind N _ _ _ _
               (maintains_readonly N _ (readonly_is_right_child node))).
      intros ir _. destruct ir.
      * apply (maintains_bind N _ _ _ _ (maintains_rotate N L node_p Hp)). intros _ _.
        apply (maintains_bind N _ _ _ _ (maintains_get_parent N node_p Hp)).
        intros node_p' Hnp'.
        apply (maintains_bind N _ _ _ _ (maintains_deref N node_p')).
        intros q ->. pose proof (Hnp' q eq_refl) as Hq.
        apply (maintains_bind N _ _ _ _ (maintains_get_parent N q Hq)).
        intros node_p_p' Hpp'.
        apply (maintains_bind N _ _ _ _ (maintains_store_color N _ _)). intros _ _.
        apply (maintains_bind N _ _ _ _ (maintains_deref N node_p_p')).
        intros g' ->. pose proof (Hpp' g' eq_refl) as Hg'.
        apply (maintains_bind N _ _ _ _ (maintains_store_color N _ _)). intros _ _.
        apply (maintains_bind N _ _ _ _ (maintains_rotate N R g' Hg')). intros _ _.
        apply maintains_ret. exact Hnp'.
      * apply (maintains_bind N _ _ _ _ (maintains_store_color N _ _)). intros _ _.
        apply (maintains_bind N _ _ _ _ (maintains_store_color N _ _)). intros _ _.
        apply (maintains_bind N _ _ _ _ (maintains_rotate N R g Hg)). intros _ _.
        apply maintains_ret. intros q [= <-]. exact Hp.
  - apply (maintains_bind N _ _ _ _ (maintains_deref N node_p_p)).
    intros g ->. pose proof (Hpp g eq_refl) as Hg.
    apply (maintains_bind N _ _ _ _
             (maintains_readonly N _ (readonly_get_lchild g))).
    intros uncle _.
    apply (maintains_bind N _ _ _ _
             (maintains_readonly N _ (readonly_has_color uncle RED))).
    intros ured _. destruct ured.
    + apply (maintains_bind N _ _ _ _ (maintains_store_color N _ _)). intros _ _.
      apply (maintains_bind N _ _ _ _ (maintains_deref N uncle)). intros u _.
      apply (maintains_bind N _ _ _ _ (maintains_store_color N _ _)). intros _ _.
      apply (maintains_bind N _ _ _ _ (maintains_store_color N _ _)). intros _ _.
      apply (maintains_bind N _ _ _ _ (maintains_get_parent N g Hg)).
      intros node_p' Hnp'.
      apply (maintains_bind N _ _ (fun _ => True)).
      { destruct node_p'; [apply maintains_ret; exact I|apply maintains_store_color]. }
      intros _ _. apply maintains_ret. exact Hnp'.
    + apply (maintains_bind N _ _ _ _
               (maintains_readonly N _ (readonly_is_left_child node))).
      intros ir _. destruct ir.
      * apply (maintains_bind N _ _ _ _ (maintains_rotate N R node_p Hp)). intros _ _.
        apply (maintains_bind N _ _ _ _ (maintains_get_parent N node_p Hp)).
        intros node_p' Hnp'.
        apply (maintains_bind N _ _ _ _ (maintains_deref N node_p')).
        intros q ->. pose proof (Hnp' q eq_refl) as Hq.
        apply (maintains_bind N _ _ _ _ (maintains_get_parent N q Hq)).
        intros node_p_p' Hpp'.
        apply (maintains_bind N _ _ _ _ (maintains_store_color N _ _)). intros _ _.
        apply (maintains_bind N _ _ _ _ (maintains_deref N node_p_p')).
        intros g' ->. pose proof (Hpp' g' eq_refl) as Hg'.
        apply (maintains_bind N _ _ _ _ (maintains_store_color N _ _)). intros _ _.
        apply (maintains_bind N _ _ _ _ (maintains_rotate N L g' Hg')). intros _ _.
        apply maintains_ret. exact Hnp'.
      * apply (maintains_bind N _ _ _ _ (maintains_store_color N _ _)). intros _ _.
        apply (maintains_bind N _ _ _ _ (maintains_store_color N _ _)). intros _ _.
        apply (maintains_bind N _ _ _ _ (maintains_rotate N L g Hg)). intros _ _.
        apply maintains_ret. intros q [= <-]. exact Hp.
Qed.

Lemma insert_fixup_loop_maintains N fuel :
  forall node node_p,
    node_p ∈ N -> maintains N (insert_fixup_loop fuel node node_p) (fun _ => True).
Proof.
  induction fuel as [|fl IH]; intros node node_p Hp; cbn [insert_fixup_loop].
  - intros t a t' _ [=].
  - apply (maintains_bind N _ _ _ _
             (maintains_readonly N _ (readonly_get_color node_p))).
    intros c _. destruct (bool_decide (c = RED)); [|apply maintains_ret; exact I].
    apply (maintains_bind N _ _ _ _ (insert_fixup_body_maintains N node node_p Hp)).
    intros [node' [q|]] Hq; cbn [snd] in Hq.
    + apply IH. apply Hq. reflexivity.
    + apply maintains_ret. exact I.
Qed.

Lemma insert_fixup_maintains N fuel n :
  n ∈ N -> maintains N (insert_fixup fuel (Some n)) (fun _ => True).
Proof.
  intros Hn t [] t' HI H. unfold insert_fixup in H.
  rewrite (bind_Ok (deref (Some n)) _ t n t eq_refl) in H.
  pose proof H as H'.
  apply bind_Ok_inv in H' as (p & t0 & Hp & _).
  pose proof (maintains_get_parent N n Hn _ _ _ HI Hp) as [_ Hpin].
  apply get_parent_Ok_inv in Hp as (-> & nd & Hnd & ->).
  destruct (parent nd) as [q|] eqn:Hq.
  - rewrite (bind_Ok _ _ _ _ _ (get_parent_Ok _ _ _ Hnd)), Hq in H.
    exact (insert_fixup_loop_maintains N fuel n q (Hpin q eq_refl) t tt t' HI H).
  - apply (maintains_set_root N n Hn t tt t' HI).
    rewrite (bind_Ok _ _ _ _ _ (get_parent_Ok _ _ _ Hnd)), Hq.
    rewrite (bind_Ok _ _ _ _ _ (get_parent_Ok _ _ _ Hnd)), Hq in H. exact H.
Qed.

(** X9: [insert_fixup] recolors and rotates only: when it returns on a node
    of a tree, the result is a tree on the same nodes. *)
Theorem insert_fixup_keeps_the_nodes :
  forall N fuel t n t',
    tree_inv N t -> n ∈ N ->
    insert_fixup fuel (Some n) t = Ok tt t' ->
    tree_inv N t' /\ forall a, reach t' a <-> reach t a.
Proof.
  intros N fuel t n t' HI Hn H.
  destruct (insert_fixup_maintains N fuel n Hn t tt t' HI H) as [[HI' _] _].
  split; [exact HI'|]. intros a.
  rewrite (reach_iff _ _ a HI'), (reach_iff _ _ a HI). reflexivity.
Qed.

(** *** Attaching the node *)

Lemma insert_descend_inv N t n :
  tree_inv N t ->
  forall fuel temp tp l res t',
    (forall a, temp = Some a -> a ∈ N) ->
    insert_descend fuel (Some n) temp tp l t = Ok res t' ->
    t' = t /\
    (temp = None -> res = (tp, l)) /\
    (temp <> None ->
     exists a x, res.1 = Some a /\ a ∈ N /\ heap t !! a = Some x /\
                 child (if res.2 then L else R) x = None).
Proof.
  intros HI. induction fuel as [|fl IH]; intros temp tp l res t' Htemp H.
  - destruct temp as [a|]; [discriminate|]. injection H as <- <-.
    split; [reflexivity|]. split; [reflexivity|]. intros Hc. destruct Hc. reflexivity.
  - destruct temp as [a|].
    + pose proof (Htemp a eq_refl) as Ha. cbn [insert_descend] in H.
      rewrite (bind_Ok (deref (Some n)) _ t n t eq_refl) in H.
      apply bind_Ok_inv in H as (k & t0 & Hk & H).
      pose proof (readonly_get_key _ _ _ _ Hk) as ->.
      apply bind_Ok_inv in H as (ka & t0 & Hka & H).
      pose proof (readonly_get_key _ _ _ _ Hka) as ->.
      assert (Hgo : forall (k' : side) (b : bool) c x,
                heap t !! a = Some x -> c = child k' x ->
                b = match k' with L => true | R => false end ->
                insert_descend fl (Some n) c (Some a) b t = Ok res t' ->
                t' = t /\
                exists a0 x0, res.1 = Some a0 /\ a0 ∈ N /\ heap t !! a0 = Some x0 /\
                              child (if res.2 then L else R) x0 = None).
      { intros k' b c x Hx Hc Hb Hrec.
        assert (Hcin : forall a0, c = Some a0 -> a0 ∈ N).
        { intros a0 ->. symmetry in Hc.
          apply (inv_child _ _ HI a x k' a0 Ha Hx Hc). }
        destruct (IH c (Some a) b res t' Hcin Hrec) as (-> & Hnone & Hsome).
        split; [reflexivity|]. destruct c as [c0|].
        - apply Hsome. discriminate.
        - rewrite (Hnone eq_refl). cbn [fst snd]. exists a, x.
          split; [reflexivity|]. split; [exact Ha|]. split; [exact Hx|].
          subst b. destruct k'; symmetry; exact Hc. }
      assert (Hres : t' = t /\
                exists a0 x0, res.1 = Some a0 /\ a0 ∈ N /\ heap t !! a0 = Some x0 /\
                              child (if res.2 then L else R) x0 = None).
      { destruct (bool_decide (k < ka)).
        - apply bind_Ok_inv in H as (c & t0 & Hc & H).
          apply get_lchild_Ok_inv in Hc as (-> & x & Hx & ->).
          exact (Hgo L true (lchild x) x Hx eq_refl eq_refl H).
        - apply bind_Ok_inv in H as (c & t0 & Hc & H).
          apply get_rchild_Ok_inv in Hc as (-> & x & Hx & ->).
          exact (Hgo R false (rchild x) x Hx eq_refl eq_refl H). }
      destruct Hres as (-> & Hres). split; [reflexivity|].
      split; [discriminate|]. intros _. exact Hres.
    + injection H as <- <-. split; [reflexivity|]. split; [reflexivity|].
      intros Hc. destruct Hc. reflexivity.
Qed.

Lemma attached_lookup n tp k t nd x :
  n <> tp -> heap t !! n = Some nd -> heap t !! tp = Some x ->
  forall i,
    heap (attached n tp k t) !! i =
    if decide (i = n) then Some (set_color RED (set_parent (Some tp) nd))
    else if decide (i = tp) then Some (set_child k (Some n) x)
    else heap t !! i.
Proof.
  intros Hne Hn Hx i. unfold attached. cbn [heap].
  destruct (decide (i = n)) as [->|Hin].
  - rewrite lookup_alter_eq, lookup_alter_ne by done.
    rewrite lookup_alter_eq, Hn. reflexivity.
  - rewrite lookup_alter_ne by done.
    destruct (decide (i = tp)) as [->|Hitp].
    + rewrite lookup_alter_eq, lookup_alter_ne by done. rewrite Hx. reflexivity.
    + rewrite lookup_alter_ne by done. rewrite lookup_alter_ne by done. reflexivity.
Qed.

Section attach.
Context (N : gset ptr) (t : Tree) (n tp : ptr) (k : side) (nd x : Node).
Hypothesis HI : tree_inv N t.
Hypothesis Hn_out : n ∉ N.
Hypothesis Hn : heap t !! n = Some nd.
Hypothesis Hnl : lchild nd = None.
Hypothesis Hnr : rchild nd = None.
Hypothesis Htp_in : tp ∈ N.
Hypothesis Hx : heap t !! tp = Some x.
Hypothesis Hfree : child k x = None.

Local Abbreviation t' := (attached n tp k t).

Lemma attach_ne : n <> tp.
Proof. intros ->. contradiction. Qed.

Lemma attach_lookup i :
  heap t' !! i =
  if decide (i = n) then Some (set_color RED (set_parent (Some tp) nd))
  else if decide (i = tp) then Some (set_child k (Some n) x)
  else heap t !! i.
Proof. exact (attached_lookup n tp k t nd x attach_ne Hn Hx i). Qed.

Lemma attach_old i y :
  i ∈ N -> heap t !! i = Some y ->
  exists y', heap t' !! i = Some y' /\ parent y' = parent y /\
             forall k', child k' y' =
                        if decide (i = tp /\ k' = k) then Some n else child k' y.
Proof.
  intros Hi Hy. rewrite attach_lookup.
  rewrite decide_False by (intros ->; contradiction).
  destruct (decide (i = tp)) as [->|Hne].
  - assert (y = x) as -> by congruence. eexists. split; [reflexivity|].
    split; [destruct k; reflexivity|]. intros k'. rewrite child_set_child.
    destruct (decide (k' = k)) as [->|Hk].
    + rewrite decide_True by done. reflexivity.
    + rewrite decide_False by (intros [_ ?]; contradiction). reflexivity.
  - exists y. split; [exact Hy|]. split; [reflexivity|]. intros k'.
    rewrite decide_False by (intros [? _]; contradiction). reflexivity.
Qed.

Lemma attach_new :
  exists y', heap t' !! n = Some y' /\ parent y' = Some tp /\
             forall k', child k' y' = None.
Proof.
  rewrite attach_lookup. rewrite decide_True by done. eexists.
  split; [reflexivity|]. split; [reflexivity|].
  intros k'. destruct k'; cbn; assumption.
Qed.

Lemma attach_depth_old a d : depth t a d -> depth t' a d.
Proof.
  induction 1 as [a y Hr Ha Hp|c y p py k' d Hc Hp Hpy Hk Hd IH].
  - assert (Ha_in : a ∈ N) by (apply (inv_root _ _ HI), Hr).
    destruct (attach_old a y Ha_in Ha) as (y' & Hy' & Hpar & _).
    eapply depth_root; [exact Hr|exact Hy'|congruence].
  - assert (Hp_in : p ∈ N) by exact (depth_in N t p d HI Hd).
    destruct (inv_child _ _ HI p py k' c Hp_in Hpy Hk) as (Hc_in & _ & _).
    destruct (attach_old c y Hc_in Hc) as (y' & Hy' & Hpar & _).
    destruct (attach_old p py Hp_in Hpy) as (py' & Hpy' & _ & Hkids).
    eapply (depth_up t' c y' p py' k'); [exact Hy'|congruence|exact Hpy'| |exact IH].
    rewrite Hkids. destruct (decide (p = tp /\ k' = k)) as [[-> ->]|_]; [|exact Hk].
    assert (py = x) as -> by congruence. congruence.
Qed.

Lemma attached_inv : tree_inv (N ∪ {[n]}) t'.
Proof.
  assert (Hcase : forall a, a ∈ N ∪ {[n]} -> a ∈ N \/ a = n).
  { intros a Ha. apply elem_of_union in Ha as [Ha|Ha]; [left; exact Ha|].
    right. apply elem_of_singleton in Ha. exact Ha. }
  assert (Hold : forall a, a ∈ N -> a ∈ N ∪ {[n]}).
  { intros a Ha. apply elem_of_union. left. exact Ha. }
  assert (Hnew : n ∈ N ∪ {[n]}).
  { apply elem_of_union. right. apply elem_of_singleton. reflexivity. }
  destruct attach_new as (n' & Hn' & Hn'p & Hn'c).
  constructor.
  - intros r Hr. apply Hold. apply (inv_root _ _ HI). exact Hr.
  - intros a Ha. destruct (Hcase a Ha) as [Ha'| ->]; [|eauto].
    destruct (inv_alloc _ _ HI a Ha') as [y Hy].
    destruct (attach_old a y Ha' Hy) as (y' & Hy' & _). eauto.
  - intros a y' k' c Ha Hy' Hk. destruct (Hcase a Ha) as [Ha'| ->].
    + destruct (inv_alloc _ _ HI a Ha') as [y Hy].
      destruct (attach_old a y Ha' Hy) as (y'' & Hy'' & _ & Hkids).
      assert (y'' = y') as -> by congruence.
      rewrite Hkids in Hk. rewrite Hkids.
      destruct (decide (a = tp /\ k' = k)) as [[-> ->]|Hnot].
      * injection Hk as <-. split; [exact Hnew|]. split.
        -- rewrite Hn'. cbn. rewrite Hn'p. reflexivity.
        -- rewrite decide_False by (intros [_ Hc]; exact (opp_ne _ Hc)).
           intros Hc. apply Hn_out.
           apply (inv_child _ _ HI tp y (opp k) n Ha' Hy Hc).
      * destruct (inv_child _ _ HI a y k' c Ha' Hy Hk) as (Hc_in & Hpc & Hoth).
        split; [apply Hold, Hc_in|]. split.
        -- destruct (heap t !! c) as [cy|] eqn:Hcy; [|discriminate].
           destruct (attach_old c cy Hc_in Hcy) as (cy' & Hcy' & Hpar & _).
           rewrite Hcy'. cbn in *. congruence.
        -- destruct (decide (a = tp /\ opp k' = k)) as [[-> Hk']|_]; [|exact Hoth].
           intros [= <-]. contradiction.
    + assert (n' = y') as <- by congruence. rewrite Hn'c in Hk. discriminate.
  - intros a y' p Ha Hy' Hp. apply Hold. destruct (Hcase a Ha) as [Ha'| ->].
    + destruct (inv_alloc _ _ HI a Ha') as [y Hy].
      destruct (attach_old a y Ha' Hy) as (y'' & Hy'' & Hpar & _).
      assert (y'' = y') as -> by congruence.
      apply (inv_parent _ _ HI a y p Ha' Hy). congruence.
    + assert (n' = y') as <- by congruence.
      assert (p = tp) as -> by congruence. exact Htp_in.
  - intros a Ha. destruct (Hcase a Ha) as [Ha'| ->].
    + destruct (inv_depth _ _ HI a Ha') as [d Hd]. exists d.
      apply attach_depth_old, Hd.
    + destruct (inv_depth _ _ HI tp Htp_in) as [d Hd]. exists (S d).
      destruct (attach_old tp x Htp_in Hx) as (x' & Hx' & _ & Hkids).
      eapply (depth_up t' n n' tp x' k);
        [exact Hn'|exact Hn'p|exact Hx'| |apply attach_depth_old, Hd].
      rewrite Hkids. rewrite decide_True by done. reflexivity.
Qed.

Lemma attach_exec left_ :
  k = (if left_ : bool then L else R) ->
  (n0 <- deref (Some n) ;;
   store n0 (set_parent (Some tp)) ;;
   tp0 <- deref (Some tp) ;;
   (if left_ then store tp0 (set_lchild (Some n))
    else store tp0 (set_rchild (Some n))) ;;
   store n0 (set_color RED)) t = Ok tt t'.
Proof.
  intros Hk. pose proof attach_ne as Hne.
  rewrite (bind_Ok (deref (Some n)) _ t n t eq_refl).
  run_store.
  rewrite (bind_Ok (deref (Some tp)) _ _ tp _ eq_refl).
  unfold attached. destruct left_; subst k; run_store; run_store; reflexivity.
Qed.
End attach.

(** Lines 278-296 of [insert] on a tree that is not empty. *)
Lemma insert_attach_inv N fuel t n nd t1 :
  tree_inv N t -> root t <> None -> n ∉ N ->
  heap t !! n = Some nd -> lchild nd = None -> rchild nd = None ->
  insert_attach fuel (Some n) t = Ok tt t1 ->
  tree_inv (N ∪ {[n]}) t1.
Proof.
  intros HI Hroot Hout Hn Hl Hr H. unfold insert_attach in H.
  rewrite (bind_Ok get_root _ t (root t) t eq_refl) in H.
  apply bind_Ok_inv in H as ([tp left_] & t0 & Hdesc & H).
  assert (Hrin : forall a, root t = Some a -> a ∈ N)
    by (intros a Ha; apply (inv_root _ _ HI), Ha).
  destruct (insert_descend_inv N t n HI fuel (root t) None true _ _ Hrin Hdesc)
    as (-> & _ & Hsome).
  destruct (Hsome Hroot) as (a & x & Htp & Ha & Hx & Hfree). cbn [fst snd] in *.
  subst tp.
  rewrite (attach_exec N t n a (if left_ then L else R) nd x Hout Hn Ha Hx Hfree left_ eq_refl)
    in H.
  injection H as <-.
  exact (attached_inv N t n a _ nd x HI Hout Hn Hl Hr Ha Hx Hfree).
Qed.

Lemma reach_childless t n nd :
  root t = Some n -> heap t !! n = Some nd ->
  lchild nd = None -> rchild nd = None ->
  forall a, reach t a <-> a = n.
Proof.
  intros Hroot Hn Hl Hr a. split.
  - induction 1 as [a Ha|a y k c Hreach IH Hy Hk]; [congruence|].
    subst a. assert (y = nd) as -> by congruence.
    destruct k; cbn in Hk; congruence.
  - intros ->. apply reach_root, Hroot.
Qed.

(** X10: [insert] links its argument and nothing else.  For a tree and a
    node that is not in it and has no children: when [insert] returns, the
    nodes that can be reached from the root are the former ones and the new
    node; if the tree was not empty, the result is again a tree. *)
Theorem insert_links_exactly_the_node :
  forall N fuel t n nd t',
    tree_inv N t -> n ∉ N ->
    heap t !! n = Some nd -> lchild nd = None -> rchild nd = None ->
    insert fuel (Some n) t = Ok tt t' ->
    (forall a, reach t' a <-> reach t a \/ a = n) /\
    (root t <> None -> tree_inv (N ∪ {[n]}) t').
Proof.
  intros N fuel t n nd t' HI Hout Hn Hl Hr H. unfold insert in H.
  rewrite (bind_Ok get_root _ t (root t) t eq_refl) in H.
  destruct (root t) as [r|] eqn:Hroot.
  - apply bind_Ok_inv in H as ([] & t1 & Hatt & H).
    assert (Hr' : root t <> None) by congruence.
    pose proof (insert_attach_inv N fuel t n nd t1 HI Hr' Hout Hn Hl Hr Hatt) as HI1.
    assert (Hnew : n ∈ N ∪ {[n]}).
    { apply elem_of_union. right. apply elem_of_singleton. reflexivity. }
    destruct (insert_fixup_maintains _ fuel n Hnew t1 tt t' HI1 H) as [[HI' _] _].
    split; [|intros _; exact HI'].
    intros a. rewrite (reach_iff _ _ a HI'), (reach_iff _ _ a HI).
    rewrite elem_of_union, elem_of_singleton. reflexivity.
  - injection H as <-. split; [|intros Hc; destruct Hc; reflexivity].
    intros a.
    rewrite (reach_childless (mkTree (heap t) (Some n)) n nd eq_refl Hn Hl Hr a).
    split; [auto|]. intros [Ha| ->]; [|reflexivity].
    exfalso. induction Ha as [a' Ha'|a' y k c _ IH _ _]; [congruence|exact IH].
Qed.

(** ** A RED root *)

(** X11: [insert_fixup] takes for granted that a RED parent has a parent
    (line 200).  When the root is RED and the new node lands directly below
    it, the loop dereferences the absent grandparent: [insert] does not
    return.  [insert] itself leaves such a root behind when a RED node is
    inserted into the empty tree. *)
Theorem insert_below_red_root_crashes :
  forall fuel t r rd n nd,
    root t = Some r -> heap t !! r = Some rd ->
    color rd = RED -> parent rd = None ->
    heap t !! n = Some nd -> n <> r ->
    (key nd < key rd -> lchild rd = None) ->
    (~ key nd < key rd -> rchild rd = None) ->
    insert (S fuel) (Some n) t = Crash.
Proof.
  intros fuel t r rd n nd Hroot Hr Hred Hpar Hn Hne Hleft Hright.
  unfold insert. rewrite (bind_Ok get_root _ t (root t) t eq_refl), Hroot.
  set (k := if bool_decide (key nd < key rd) then L else R).
  assert (Hfree : child k rd = None).
  { subst k. destruct (bool_decide (key nd < key rd)) eqn:Hlt.
    - apply bool_decide_eq_true in Hlt. exact (Hleft Hlt).
    - apply bool_decide_eq_false in Hlt. exact (Hright Hlt). }
  assert (Hatt : insert_attach (S fuel) (Some n) t = Ok tt (attached n r k t)).
  { unfold insert_attach.
    rewrite (bind_Ok get_root _ t (root t) t eq_refl), Hroot.
    erewrite (bind_Ok _ _ t (Some r, bool_decide (key nd < key rd)) t).
    2:{ cbn [insert_descend].
        rewrite (bind_Ok (deref (Some n)) _ t n t eq_refl).
        rewrite (bind_Ok _ _ _ _ _ (get_key_Ok _ _ _ Hn)).
        rewrite (bind_Ok _ _ _ _ _ (get_key_Ok _ _ _ Hr)).
        subst k. destruct (bool_decide (key nd < key rd)); cbn [child] in Hfree.
        - rewrite (bind_Ok _ _ _ _ _ (get_lchild_Ok _ _ _ Hr)), Hfree.
          destruct fuel; reflexivity.
        - rewrite (bind_Ok _ _ _ _ _ (get_rchild_Ok _ _ _ Hr)), Hfree.
          destruct fuel; reflexivity. }
    cbv iota beta.
    rewrite (bind_Ok (deref (Some n)) _ t n t eq_refl).
    run_store.
    rewrite (bind_Ok (deref (Some r)) _ _ r _ eq_refl).
    unfold attached. subst k.
    destruct (bool_decide (key nd < key rd)); run_store; run_store; reflexivity. }
  rewrite (bind_Ok _ _ _ _ _ Hatt).
  pose proof (attached_lookup n r k t nd rd Hne Hn Hr) as Hlook.
  assert (Hn' : heap (attached n r k t) !! n
                = Some (set_color RED (set_parent (Some r) nd))).
  { rewrite Hlook. rewrite decide_True by done. reflexivity. }
  assert (Hr' : heap (attached n r k t) !! r = Some (set_child k (Some n) rd)).
  { rewrite Hlook. rewrite decide_False by congruence.
    rewrite decide_True by done. reflexivity. }
  assert (Hpar' : parent (set_child k (Some n) rd) = None)
    by (destruct k; exact Hpar).
  assert (Hcol' : color (set_child k (Some n) rd) = RED)
    by (destruct k; exact Hred).
  unfold insert_fixup.
  rewrite (bind_Ok (deref (Some n)) _ _ n _ eq_refl).
  rewrite (bind_Ok _ _ _ _ _ (get_parent_Ok _ _ _ Hn')). cbn [parent set_color set_parent].
  cbn [insert_fixup_loop].
  rewrite (bind_Ok _ _ _ _ _ (get_color_Ok _ _ _ Hr')), Hcol'.
  rewrite bool_decide_eq_true_2 by reflexivity.
  unfold insert_fixup_body.
  unfold bind at 1. unfold bind at 1.
  rewrite (get_parent_Ok _ _ _ Hr'), Hpar'.
  unfold bind at 1. unfold is_left_child.
  rewrite (bind_Ok _ _ _ _ _ (get_parent_Ok _ _ _ Hr')), Hpar'.
  reflexivity.
Qed.

(** ** [minimum] and [maximum] *)

Lemma minimum_loop_head t : forall f p s cp,
  shape_from f (heap t) p = Some s ->
  minimum_loop f p cp t
  = Ok (match head (addrs s) with Some m => Some m | None => cp end) t.
Proof.
  induction f as [|f IH]; intros p s cp Hs.
  - destruct p; [discriminate|]. injection Hs as <-. reflexivity.
  - destruct p as [a|]; [|injection Hs as <-; reflexivity].
    apply shape_from_Some_inv in Hs as (f' & nd & l & r & [= <-] & Ha & Hl & Hr & ->).
    cbn [minimum_loop]. rewrite (bind_Ok _ _ _ _ _ (get_lchild_Ok _ _ _ Ha)).
    rewrite (IH _ _ (Some a) Hl). cbn [addrs].
    destruct (addrs l) as [|m ms]; reflexivity.
Qed.

Lemma maximum_loop_last t : forall f p s cp,
  shape_from f (heap t) p = Some s ->
  maximum_loop f p cp t
  = Ok (match last (addrs s) with Some m => Some m | None => cp end) t.
Proof.
  induction f as [|f IH]; intros p s cp Hs.
  - destruct p; [discriminate|]. injection Hs as <-. reflexivity.
  - destruct p as [a|]; [|injection Hs as <-; reflexivity].
    apply shape_from_Some_inv in Hs as (f' & nd & l & r & [= <-] & Ha & Hl & Hr & ->).
    cbn [maximum_loop]. rewrite (bind_Ok _ _ _ _ _ (get_rchild_Ok _ _ _ Ha)).
    rewrite (IH _ _ (Some a) Hr). cbn [addrs].
    rewrite last_app, last_cons. destruct (last (addrs r)); reflexivity.
Qed.

(** The keys of a shape are the keys of the records at its addresses. *)
Lemma shape_keys h : forall f p s,
  shape_from f h p = Some s ->
  Forall2 (fun a k => (key <$> h !! a) = Some k) (addrs s) (inorder s).
Proof.
  induction f as [|f IH]; intros p s Hs.
  - destruct p; [discriminate|]. injection Hs as <-. constructor.
  - destruct p as [a|]; [|injection Hs as <-; constructor].
    apply shape_from_Some_inv in Hs as (f' & nd & l & r & [= <-] & Ha & Hl & Hr & ->).
    cbn [addrs inorder]. apply Forall2_app; [exact (IH _ _ Hl)|].
    constructor; [rewrite Ha; reflexivity|exact (IH _ _ Hr)].
Qed.

Lemma nondecreasing_cons x l :
  nondecreasing (x :: l) = true ->
  nondecreasing l = true /\ forall y, y ∈ l -> x <= y.
Proof.
  revert x. induction l as [|z l IH]; intros x H.
  - split; [reflexivity|]. intros y Hy. inversion Hy.
  - cbn [nondecreasing] in H. apply andb_true_iff in H as [Hxz Hrest].
    apply bool_decide_eq_true in Hxz. split; [exact Hrest|].
    destruct (IH z Hrest) as [_ Hz].
    intros y Hy. apply elem_of_cons in Hy as [->|Hy]; [exact Hxz|].
    specialize (Hz y Hy). lia.
Qed.

Lemma nondecreasing_first x l :
  nondecreasing l = true -> head l = Some x -> forall y, y ∈ l -> x <= y.
Proof.
  destruct l as [|z l]; [discriminate|]. intros H [= ->] y Hy.
  apply elem_of_cons in Hy as [->|Hy]; [lia|].
  exact (proj2 (nondecreasing_cons x l H) y Hy).
Qed.

Lemma nondecreasing_last l :
  nondecreasing l = true -> forall x, last l = Some x -> forall y, y ∈ l -> y <= x.
Proof.
  induction l as [|z l IH]; intros H x Hx y Hy; [inversion Hy|].
  destruct (nondecreasing_cons z l H) as [Hl Hz].
  destruct l as [|w l].
  - injection Hx as <-. apply elem_of_cons in Hy as [->|Hy]; [lia|inversion Hy].
  - rewrite last_cons_cons in Hx.
    apply elem_of_cons in Hy as [->|Hy]; [|exact (IH Hl x Hx y Hy)].
    assert (Hxin : x ∈ w :: l) by (apply last_Some_elem_of, Hx).
    exact (Hz x Hxin).
Qed.

Lemma Forall2_head_key (h : gmap ptr Node) la lk m x :
  Forall2 (fun a k => (key <$> h !! a) = Some k) la lk ->
  head la = Some m -> h !! m = Some x -> head lk = Some (key x).
Proof.
  intros HF Hm Hx. destruct HF as [|a k la' lk' Hak _]; [discriminate|].
  injection Hm as ->. rewrite Hx in Hak. injection Hak as <-. reflexivity.
Qed.

Lemma Forall2_last_key (h : gmap ptr Node) la lk m x :
  Forall2 (fun a k => (key <$> h !! a) = Some k) la lk ->
  last la = Some m -> h !! m = Some x -> last lk = Some (key x).
Proof.
  intros HF. induction HF as [|a k la' lk' Hak HF IH]; intros Hm Hx; [discriminate|].
  destruct HF as [|a' k' la'' lk'' Hak' HF'].
  - injection Hm as ->. rewrite Hx in Hak. injection Hak as <-. reflexivity.
  - rewrite last_cons_cons in Hm. rewrite last_cons_cons. exact (IH Hm Hx).
Qed.

Lemma Forall2_elem_key (h : gmap ptr Node) la lk a y :
  Forall2 (fun a k => (key <$> h !! a) = Some k) la lk ->
  a ∈ la -> h !! a = Some y -> key y ∈ lk.
Proof.
  intros HF. induction HF as [|a' k la' lk' Hak HF IH]; intros Ha Hy; [inversion Ha|].
  apply elem_of_cons in Ha as [->|Ha].
  - rewrite Hy in Hak. injection Hak as <-. apply elem_of_cons. left. reflexivity.
  - apply elem_of_cons. right. exact (IH Ha Hy).
Qed.

(** X12: on the empty pointer [minimum] and [maximum] return the empty
    pointer (they do not throw, unlike [successor] and [predecessor]); on
    the top of a subtree of height at most [fuel] they return the first and
    the last node of its in-order sequence, and leave the tree alone.  When
    the keys of the subtree are in nondecreasing order, these hold a least
    and a greatest key of the subtree. *)
Theorem minimum_maximum_spec :
  forall fuel t,
    minimum fuel None t = Ok None t /\ maximum fuel None t = Ok None t /\
    forall r s,
      shape_from fuel (heap t) (Some r) = Some s ->
      exists lo hi,
        head (addrs s) = Some lo /\ last (addrs s) = Some hi /\
        minimum fuel (Some r) t = Ok (Some lo) t /\
        maximum fuel (Some r) t = Ok (Some hi) t /\
        (nondecreasing (inorder s) = true ->
         forall a x xlo xhi,
           a ∈ addrs s -> heap t !! a = Some x ->
           heap t !! lo = Some xlo -> heap t !! hi = Some xhi ->
           key xlo <= key x <= key xhi).
Proof.
  intros fuel t. split; [destruct fuel; reflexivity|].
  split; [destruct fuel; reflexivity|]. intros r s Hs.
  pose proof (minimum_loop_head t fuel (Some r) s None Hs) as Hmin.
  pose proof (maximum_loop_last t fuel (Some r) s None Hs) as Hmax.
  pose proof (shape_keys (heap t) fuel (Some r) s Hs) as Hkeys.
  destruct (shape_from_top _ _ _ _ Hs) as (Hr_in & _).
  destruct (head (addrs s)) as [lo|] eqn:Hlo.
  2:{ apply head_None in Hlo. rewrite Hlo in Hr_in. inversion Hr_in. }
  destruct (last (addrs s)) as [hi|] eqn:Hhi.
  2:{ apply last_None in Hhi. rewrite Hhi in Hr_in. inversion Hr_in. }
  exists lo, hi. split; [reflexivity|]. split; [reflexivity|].
  split; [exact Hmin|]. split; [exact Hmax|].
  intros Hsorted a x xlo xhi Ha Hx Hxlo Hxhi.
  pose proof (Forall2_elem_key _ _ _ a x Hkeys Ha Hx) as Hk.
  split.
  - apply (nondecreasing_first _ (inorder s) Hsorted); [|exact Hk].
    exact (Forall2_head_key _ _ _ lo xlo Hkeys Hlo Hxlo).
  - apply (nondecreasing_last (inorder s) Hsorted (key xhi)); [|exact Hk].
    exact (Forall2_last_key _ _ _ hi xhi Hkeys Hhi Hxhi).
Qed.

(** ** [successor] and [predecessor] undo each other *)

Lemma minimum_loop_more t : forall f c cp res t' g,
  minimum_loop f c cp t = Ok res t' -> minimum_loop (f + g) c cp t = Ok res t'.
Proof.
  induction f as [|f IH]; intros c cp res t' g H.
  - destruct c as [a|]; [discriminate|]. destruct g; exact H.
  - destruct c as [a|]; [|exact H]. cbn [minimum_loop Nat.add] in *.
    apply bind_Ok_inv in H as (l & t0 & Hl & H).
    rewrite (bind_Ok _ _ _ _ _ Hl).
    pose proof (readonly_get_lchild _ _ _ _ Hl) as ->. apply IH, H.
Qed.

Lemma minimum_loop_cp t f a cp cp' :
  minimum_loop f (Some a) cp t = minimum_loop f (Some a) cp' t.
Proof. destruct f; reflexivity. Qed.

Lemma predecessor_climb_more t : forall f c p res t' g,
  predecessor_climb f c p t = Ok res t' -> predecessor_climb (f + g) c p t = Ok res t'.
Proof.
  induction f as [|f IH]; intros c p res t' g H.
  - destruct p as [a|]; [discriminate|]. destruct g; exact H.
  - destruct p as [a|]; [|exact H]. cbn [predecessor_climb Nat.add] in *.
    apply bind_Ok_inv in H as (b & t0 & Hb & H).
    rewrite (bind_Ok _ _ _ _ _ Hb).
    pose proof (readonly_is_left_child _ _ _ _ Hb) as ->.
    destruct b; [|exact H].
    apply bind_Ok_inv in H as (pp & t1 & Hpp & H).
    rewrite (bind_Ok _ _ _ _ _ Hpp).
    pose proof (readonly_get_parent _ _ _ _ Hpp) as ->. apply IH, H.
Qed.


Lemma maximum_loop_more t : forall f c cp res t' g,
  maximum_loop f c cp t = Ok res t' -> maximum_loop (f + g) c cp t = Ok res t'.
Proof.
  induction f as [|f IH]; intros c cp res t' g H.
  - destruct c as [a|]; [discriminate|]. destruct g; exact H.
  - destruct c as [a|]; [|exact H]. cbn [maximum_loop Nat.add] in *.
    apply bind_Ok_inv in H as (l & t0 & Hl & H).
    rewrite (bind_Ok _ _ _ _ _ Hl).
    pose proof (readonly_get_rchild _ _ _ _ Hl) as ->. apply IH, H.
Qed.

Lemma maximum_loop_cp t f a cp cp' :
  maximum_loop f (Some a) cp t = maximum_loop f (Some a) cp' t.
Proof. destruct f; reflexivity. Qed.

Lemma successor_climb_more t : forall f c p res t' g,
  successor_climb f c p t = Ok res t' -> successor_climb (f + g) c p t = Ok res t'.
Proof.
  induction f as [|f IH]; intros c p res t' g H.
  - destruct p as [a|]; [discriminate|]. destruct g; exact H.
  - destruct p as [a|]; [|exact H]. cbn [successor_climb Nat.add] in *.
    apply bind_Ok_inv in H as (b & t0 & Hb & H).
    rewrite (bind_Ok _ _ _ _ _ Hb).
    pose proof (readonly_is_right_child _ _ _ _ Hb) as ->.
    destruct b; [|exact H].
    apply bind_Ok_inv in H as (pp & t1 & Hpp & H).
    rewrite (bind_Ok _ _ _ _ _ Hpp).
    pose proof (readonly_get_parent _ _ _ _ Hpp) as ->. apply IH, H.
Qed.


(** From the end [y] of the spine below [a], the climb of [predecessor]
    comes back up to [a] and goes on as it does from [a]. *)
Lemma minimum_then_predecessor N t res :
  tree_inv N t ->
  forall f a cp y k ad yd,
    minimum_loop f (Some a) cp t = Ok (Some y) t ->
    a ∈ N -> heap t !! a = Some ad -> heap t !! y = Some yd ->
    predecessor_climb k a (parent ad) t = Ok res t ->
    lchild yd = None /\
    predecessor_climb (k + f - 1) y (parent yd) t = Ok res t.
Proof.
  intros HI. induction f as [|f IH]; intros a cp y k ad yd H Ha Had Hyd Hk;
    [discriminate|].
  cbn [minimum_loop] in H.
  rewrite (bind_Ok _ _ _ _ _ (get_lchild_Ok _ _ _ Had)) in H.
  destruct (lchild ad) as [l|] eqn:Hl.
  - destruct (inv_child _ _ HI a ad L l Ha Had Hl) as (Hl_in & Hpl & _).
    destruct (heap t !! l) as [ld|] eqn:Hld; [|discriminate].
    injection Hpl as Hpl.
    assert (Hf : (1 <= f)%nat) by (destruct f; [discriminate|lia]).
    assert (Hstep : predecessor_climb (S k) l (parent ld) t = Ok res t).
    { rewrite Hpl. cbn [predecessor_climb].
      rewrite (bind_Ok _ _ _ _ _ (is_left_child_Ok _ _ _ _ _ Hld Hpl Had)).
      rewrite bool_decide_eq_true_2 by exact Hl.
      rewrite (bind_Ok _ _ _ _ _ (get_parent_Ok _ _ _ Had)). exact Hk. }
    destruct (IH l (Some a) y (S k) ld yd H Hl_in Hld Hyd Hstep) as (Hnone & Hres).
    split; [exact Hnone|].
    replace (k + S f - 1)%nat with (S k + f - 1)%nat by lia. exact Hres.
  - assert (y = a) as ->.
    { destruct f; cbn in H; injection H as <-; reflexivity. }
    assert (yd = ad) as -> by congruence. split; [exact Hl|].
    replace (k + S f - 1)%nat with (k + f)%nat by lia.
    apply predecessor_climb_more, Hk.
Qed.

(** From the node [y] where the climb of [successor] stops, the descent of
    [maximum] goes back down to where the climb started. *)
Lemma successor_then_maximum N t n y :
  tree_inv N t ->
  forall f c cd k cp,
    successor_climb f c (parent cd) t = Ok (Some y) t ->
    c ∈ N -> heap t !! c = Some cd ->
    maximum_loop k (Some c) cp t = Ok (Some n) t ->
    exists yd l,
      heap t !! y = Some yd /\ lchild yd = Some l /\
      maximum_loop (k + f - 1) (Some l) None t = Ok (Some n) t.
Proof.
  intros HI. induction f as [|f IH]; intros c cd k cp H Hc Hcd Hk.
  - destruct (parent cd); discriminate.
  - destruct (parent cd) as [p|] eqn:Hp; [|discriminate].
    destruct (inv_parent_link N t c cd p HI Hc Hcd Hp) as (Hp_in & pd & kp & Hpd & Hkp).
    cbn [successor_climb] in H.
    rewrite (bind_Ok _ _ _ _ _ (is_right_child_Ok _ _ _ _ _ Hcd Hp Hpd)) in H.
    destruct (bool_decide (rchild pd = Some c)) eqn:Hside.
    + apply bool_decide_eq_true in Hside.
      rewrite (bind_Ok _ _ _ _ _ (get_parent_Ok _ _ _ Hpd)) in H.
      assert (Hf : (1 <= f)%nat).
      { destruct f; [|lia]. destruct (parent pd); discriminate. }
      assert (Hstep : maximum_loop (S k) (Some p) None t = Ok (Some n) t).
      { cbn [maximum_loop].
        rewrite (bind_Ok _ _ _ _ _ (get_rchild_Ok _ _ _ Hpd)), Hside.
        rewrite (maximum_loop_cp t k c (Some p) cp). exact Hk. }
      destruct (IH p pd (S k) None H Hp_in Hpd Hstep) as (yd & l & H1 & H2 & H3).
      exists yd, l. split; [exact H1|]. split; [exact H2|].
      replace (k + S f - 1)%nat with (S k + f - 1)%nat by lia. exact H3.
    + apply bool_decide_eq_false in Hside. injection H as <-.
      exists pd, c. split; [exact Hpd|]. split.
      * destruct kp; cbn [child] in Hkp; [exact Hkp|contradiction].
      * replace (k + S f - 1)%nat with (k + f)%nat by lia.
        apply maximum_loop_more. rewrite (maximum_loop_cp t k c None cp). exact Hk.
Qed.

Lemma successor_then_predecessor_back N fuel t n y t1 :
  tree_inv N t -> n ∈ N ->
  successor fuel (Some n) t = Ok (Some y) t1 ->
  predecessor fuel (Some y) t = Ok (Some n) t.
Proof.
  intros HI Hn H. pose proof (readonly_successor _ _ _ _ _ H) as ->.
  destruct (inv_alloc _ _ HI n Hn) as [nd Hnd].
  unfold successor in H.
  rewrite (bind_Ok _ _ _ _ _ (get_rchild_Ok _ _ _ Hnd)) in H.
  destruct (rchild nd) as [r|] eqn:Hr.
  - (* the end of the spine below the child *)
    destruct (inv_child _ _ HI n nd R r Hn Hnd Hr) as (Hr_in & Hpr & Hother).
    destruct (heap t !! r) as [rd|] eqn:Hrd; [|discriminate].
    injection Hpr as Hpr. cbn [opp child] in Hother.
    assert (Hy : exists yd, heap t !! y = Some yd).
    { assert (Hgen : forall f c cp res, minimum_loop f c cp t = Ok (Some res) t ->
                (forall a, cp = Some a -> is_Some (heap t !! a)) ->
                is_Some (heap t !! res)).
      { induction f as [|f IH]; intros c cp res Hrun Hcp.
        - destruct c; [discriminate|]. injection Hrun as ->. apply Hcp. reflexivity.
        - destruct c as [a|]; [|injection Hrun as ->; apply Hcp; reflexivity].
          cbn [minimum_loop] in Hrun.
          apply bind_Ok_inv in Hrun as (l & t0 & Hl & Hrun).
          apply get_lchild_Ok_inv in Hl as (-> & x & Hx & ->).
          apply (IH _ _ _ Hrun). intros a' [= <-]. eauto. }
      destruct (Hgen fuel (Some r) None y H) as [yd Hyd]; [discriminate|eauto]. }
    destruct Hy as [yd Hyd].
    assert (Htop : predecessor_climb 1 r (parent rd) t = Ok (Some n) t).
    { rewrite Hpr. cbn [predecessor_climb].
      rewrite (bind_Ok _ _ _ _ _ (is_left_child_Ok _ _ _ _ _ Hrd Hpr Hnd)).
      rewrite bool_decide_eq_false_2 by exact Hother. reflexivity. }
    destruct (minimum_then_predecessor N t (Some n) HI fuel r None y 1%nat rd yd
                H Hr_in Hrd Hyd Htop) as (Hnone & Hres).
    unfold predecessor.
    rewrite (bind_Ok _ _ _ _ _ (get_lchild_Ok _ _ _ Hyd)), Hnone.
    rewrite (bind_Ok _ _ _ _ _ (get_parent_Ok _ _ _ Hyd)).
    replace (1 + fuel - 1)%nat with fuel in Hres by lia. exact Hres.
  - (* the first ancestor on the other side *)
    rewrite (bind_Ok _ _ _ _ _ (get_parent_Ok _ _ _ Hnd)) in H.
    assert (Hbase : maximum_loop 1 (Some n) None t = Ok (Some n) t).
    { cbn [maximum_loop].
      rewrite (bind_Ok _ _ _ _ _ (get_rchild_Ok _ _ _ Hnd)), Hr. reflexivity. }
    destruct (successor_then_maximum N t n y HI fuel n nd 1%nat None H Hn Hnd Hbase)
      as (yd & l & Hyd & Hl & Hres).
    unfold predecessor.
    rewrite (bind_Ok _ _ _ _ _ (get_lchild_Ok _ _ _ Hyd)), Hl.
    replace (1 + fuel - 1)%nat with fuel in Hres by lia. exact Hres.
Qed.

(** From the end [y] of the spine below [a], the climb of [successor]
    comes back up to [a] and goes on as it does from [a]. *)
Lemma maximum_then_successor N t res :
  tree_inv N t ->
  forall f a cp y k ad yd,
    maximum_loop f (Some a) cp t = Ok (Some y) t ->
    a ∈ N -> heap t !! a = Some ad -> heap t !! y = Some yd ->
    successor_climb k a (parent ad) t = Ok res t ->
    rchild yd = None /\
    successor_climb (k + f - 1) y (parent yd) t = Ok res t.
Proof.
  intros HI. induction f as [|f IH]; intros a cp y k ad yd H Ha Had Hyd Hk;
    [discriminate|].
  cbn [maximum_loop] in H.
  rewrite (bind_Ok _ _ _ _ _ (get_rchild_Ok _ _ _ Had)) in H.
  destruct (rchild ad) as [l|] eqn:Hl.
  - destruct (inv_child _ _ HI a ad R l Ha Had Hl) as (Hl_in & Hpl & _).
    destruct (heap t !! l) as [ld|] eqn:Hld; [|discriminate].
    injection Hpl as Hpl.
    assert (Hf : (1 <= f)%nat) by (destruct f; [discriminate|lia]).
    assert (Hstep : successor_climb (S k) l (parent ld) t = Ok res t).
    { rewrite Hpl. cbn [successor_climb].
      rewrite (bind_Ok _ _ _ _ _ (is_right_child_Ok _ _ _ _ _ Hld Hpl Had)).
      rewrite bool_decide_eq_true_2 by exact Hl.
      rewrite (bind_Ok _ _ _ _ _ (get_parent_Ok _ _ _ Had)). exact Hk. }
    destruct (IH l (Some a) y (S k) ld yd H Hl_in Hld Hyd Hstep) as (Hnone & Hres).
    split; [exact Hnone|].
    replace (k + S f - 1)%nat with (S k + f - 1)%nat by lia. exact Hres.
  - assert (y = a) as ->.
    { destruct f; cbn in H; injection H as <-; reflexivity. }
    assert (yd = ad) as -> by congruence. split; [exact Hl|].
    replace (k + S f - 1)%nat with (k + f)%nat by lia.
    apply successor_climb_more, Hk.
Qed.

(** From the node [y] where the climb of [predecessor] stops, the descent of
    [minimum] goes back down to where the climb started. *)
Lemma predecessor_then_minimum N t n y :
  tree_inv N t ->
  forall f c cd k cp,
    predecessor_climb f c (parent cd) t = Ok (Some y) t ->
    c ∈ N -> heap t !! c = Some cd ->
    minimum_loop k (Some c) cp t = Ok (Some n) t ->
    exists yd l,
      heap t !! y = Some yd /\ rchild yd = Some l /\
      minimum_loop (k + f - 1) (Some l) None t = Ok (Some n) t.
Proof.
  intros HI. induction f as [|f IH]; intros c cd k cp H Hc Hcd Hk.
  - destruct (parent cd); discriminate.
  - destruct (parent cd) as [p|] eqn:Hp; [|discriminate].
    destruct (inv_parent_link N t c cd p HI Hc Hcd Hp) as (Hp_in & pd & kp & Hpd & Hkp).
    cbn [predecessor_climb] in H.
    rewrite (bind_Ok _ _ _ _ _ (is_left_child_Ok _ _ _ _ _ Hcd Hp Hpd)) in H.
    destruct (bool_decide (lchild pd = Some c)) eqn:Hside.
    + apply bool_decide_eq_true in Hside.
      rewrite (bind_Ok _ _ _ _ _ (get_parent_Ok _ _ _ Hpd)) in H.
      assert (Hf : (1 <= f)%nat).
      { destruct f; [|lia]. destruct (parent pd); discriminate. }
      assert (Hstep : minimum_loop (S k) (Some p) None t = Ok (Some n) t).
      { cbn [minimum_loop].
        rewrite (bind_Ok _ _ _ _ _ (get_lchild_Ok _ _ _ Hpd)), Hside.
        rewrite (minimum_loop_cp t k c (Some p) cp). exact Hk. }
      destruct (IH p pd (S k) None H Hp_in Hpd Hstep) as (yd & l & H1 & H2 & H3).
      exists yd, l. split; [exact H1|]. split; [exact H2|].
      replace (k + S f - 1)%nat with (S k + f - 1)%nat by lia. exact H3.
    + apply bool_decide_eq_false in Hside. injection H as <-.
      exists pd, c. split; [exact Hpd|]. split.
      * destruct kp; cbn [child] in Hkp; [contradiction|exact Hkp].
      * replace (k + S f - 1)%nat with (k + f)%nat by lia.
        apply minimum_loop_more. rewrite (minimum_loop_cp t k c None cp). exact Hk.
Qed.

Lemma predecessor_then_successor_back N fuel t n y t1 :
  tree_inv N t -> n ∈ N ->
  predecessor fuel (Some n) t = Ok (Some y) t1 ->
  successor fuel (Some y) t = Ok (Some n) t.
Proof.
  intros HI Hn H. pose proof (readonly_predecessor _ _ _ _ _ H) as ->.
  destruct (inv_alloc _ _ HI n Hn) as [nd Hnd].
  unfold predecessor in H.
  rewrite (bind_Ok _ _ _ _ _ (get_lchild_Ok _ _ _ Hnd)) in H.
  destruct (lchild nd) as [r|] eqn:Hr.
  - (* the end of the spine below the child *)
    destruct (inv_child _ _ HI n nd L r Hn Hnd Hr) as (Hr_in & Hpr & Hother).
    destruct (heap t !! r) as [rd|] eqn:Hrd; [|discriminate].
    injection Hpr as Hpr. cbn [opp child] in Hother.
    assert (Hy : exists yd, heap t !! y = Some yd).
    { assert (Hgen : forall f c cp res, maximum_loop f c cp t = Ok (Some res) t ->
                (forall a, cp = Some a -> is_Some (heap t !! a)) ->
                is_Some (heap t !! res)).
      { induction f as [|f IH]; intros c cp res Hrun Hcp.
        - destruct c; [discriminate|]. injection Hrun as ->. apply Hcp. reflexivity.
        - destruct c as [a|]; [|injection Hrun as ->; apply Hcp; reflexivity].
          cbn [maximum_loop] in Hrun.
          apply bind_Ok_inv in Hrun as (l & t0 & Hl & Hrun).
          apply get_rchild_Ok_inv in Hl as (-> & x & Hx & ->).
          apply (IH _ _ _ Hrun). intros a' [= <-]. eauto. }
      destruct (Hgen fuel (Some r) None y H) as [yd Hyd]; [discriminate|eauto]. }
    destruct Hy as [yd Hyd].
    assert (Htop : successor_climb 1 r (parent rd) t = Ok (Some n) t).
    { rewrite Hpr. cbn [successor_climb].
      rewrite (bind_Ok _ _ _ _ _ (is_right_child_Ok _ _ _ _ _ Hrd Hpr Hnd)).
      rewrite bool_decide_eq_false_2 by exact Hother. reflexivity. }
    destruct (maximum_then_successor N t (Some n) HI fuel r None y 1%nat rd yd
                H Hr_in Hrd Hyd Htop) as (Hnone & Hres).
    unfold successor.
    rewrite (bind_Ok _ _ _ _ _ (get_rchild_Ok _ _ _ Hyd)), Hnone.
    rewrite (bind_Ok _ _ _ _ _ (get_parent_Ok _ _ _ Hyd)).
    replace (1 + fuel - 1)%nat with fuel in Hres by lia. exact Hres.
  - (* the first ancestor on the other side *)
    rewrite (bind_Ok _ _ _ _ _ (get_parent_Ok _ _ _ Hnd)) in H.
    assert (Hbase : minimum_loop 1 (Some n) None t = Ok (Some n) t).
    { cbn [minimum_loop].
      rewrite (bind_Ok _ _ _ _ _ (get_lchild_Ok _ _ _ Hnd)), Hr. reflexivity. }
    destruct (predecessor_then_minimum N t n y HI fuel n nd 1%nat None H Hn Hnd Hbase)
      as (yd & l & Hyd & Hl & Hres).
    unfold successor.
    rewrite (bind_Ok _ _ _ _ _ (get_rchild_Ok _ _ _ Hyd)), Hl.
    replace (1 + fuel - 1)%nat with fuel in Hres by lia. exact Hres.
Qed.

(** X13: in a tree, [predecessor] of the node [successor] returns is the node
    [successor] was called on, and the other way round, with the same loop
    budget. *)
Theorem successor_predecessor_round_trip :
  forall N fuel t n y t1,
    tree_inv N t -> n ∈ N ->
    (successor fuel (Some n) t = Ok (Some y) t1 ->
     predecessor fuel (Some y) t = Ok (Some n) t) /\
    (predecessor fuel (Some n) t = Ok (Some y) t1 ->
     successor fuel (Some y) t = Ok (Some n) t).
Proof.
  intros N fuel t n y t1 HI Hn. split; intros H.
  - exact (successor_then_predecessor_back N fuel t n y t1 HI Hn H).
  - exact (predecessor_then_successor_back N fuel t n y t1 HI Hn H).
Qed.

(** ** The further properties on a concrete tree *)

Lemma red_sibling_tree_inv :
  tree_inv (list_to_set (addrs red_sibling_shape)) red_sibling.
Proof.
  apply (shape_tree_inv 10 red_sibling red_sibling_shape).
  - vm_compute. reflexivity.
  - cbn. repeat split.
  - apply (bool_decide_unpack _). vm_compute. exact I.
Qed.

Lemma red_sibling_nodes a :
  a ∈ addrs red_sibling_shape ->
  a ∈ (list_to_set (addrs red_sibling_shape) : gset ptr).
Proof. intros H. apply elem_of_list_to_set. exact H. Qed.

Lemma keys_never_change_witness :
  exists t',
    remove 10 (Some 2%positive) red_sibling = Ok tt t' /\
    forall i, (key <$> heap t' !! i) = (key <$> heap red_sibling !! i).
Proof.
  assert (exists t', remove 10 (Some 2%positive) red_sibling = Ok tt t') as [t' H]
    by (eexists; vm_compute; reflexivity).
  exists t'. split; [exact H|].
  apply (keys_never_change 10 (Some 2%positive) None None red_sibling t').
  right. left. exact H.
Defined.

Lemma rotations_keep_colors_witness :
  exists t',
    left_rotate (Some 2%positive) red_sibling = Ok tt t' /\
    forall i, (key_color <$> heap t' !! i) = (key_color <$> heap red_sibling !! i).
Proof.
  assert (exists t', left_rotate (Some 2%positive) red_sibling = Ok tt t') as [t' H]
    by (eexists; vm_compute; reflexivity).
  exists t'. split; [exact H|].
  apply (rotations_keep_colors (Some 2%positive) None None red_sibling t').
  left. exact H.
Defined.

Lemma rotation_keeps_the_nodes_witness :
  (exists t', left_rotate (Some 2%positive) red_sibling = Ok tt t' /\
              tree_inv (list_to_set (addrs red_sibling_shape)) t' /\
              forall a, reach t' a <-> reach red_sibling a) /\
  (exists t', right_rotate (Some 2%positive) red_sibling = Ok tt t' /\
              tree_inv (list_to_set (addrs red_sibling_shape)) t' /\
              forall a, reach t' a <-> reach red_sibling a).
Proof.
  apply (rotation_keeps_the_nodes _ red_sibling 2%positive).
  - exact red_sibling_tree_inv.
  - apply red_sibling_nodes. cbn. repeat constructor.
Defined.

Lemma rotation_effect_witness :
  exists rn t',
    heap red_sibling !! 4%positive = Some rn /\
    left_rotate (Some 2%positive) red_sibling = Ok tt t' /\
    root t' = Some 4%positive /\
    forall i, heap t' !! i
              = rot_node L 2%positive 4%positive red_sibling_root rn i
                  <$> heap red_sibling !! i.
Proof.
  apply (proj1 (rotation_effect _ red_sibling 2%positive red_sibling_root 4%positive
                  red_sibling_tree_inv
                  ltac:(apply red_sibling_nodes; cbn; repeat constructor) eq_refl)).
  reflexivity.
Defined.

Lemma rotations_are_inverse_witness :
  exists t1, left_rotate (Some 2%positive) red_sibling = Ok tt t1 /\
             right_rotate (Some 4%positive) t1 = Ok tt red_sibling.
Proof.
  apply (proj1 (rotations_are_inverse _ red_sibling 2%positive red_sibling_root
                  4%positive red_sibling_tree_inv
                  ltac:(apply red_sibling_nodes; cbn; repeat constructor) eq_refl)).
  reflexivity.
Defined.

Lemma remove_unlinks_exactly_the_node_witness :
  exists t',
    remove 10 (Some 2%positive) red_sibling = Ok tt t' /\
    tree_inv (list_to_set (addrs red_sibling_shape) ∖ {[2%positive]}) t' /\
    forall a, reach t' a <-> reach red_sibling a /\ a <> 2%positive.
Proof.
  assert (exists t', remove 10 (Some 2%positive) red_sibling = Ok tt t') as [t' H]
    by (eexists; vm_compute; reflexivity).
  exists t'. split; [exact H|].
  apply (remove_unlinks_exactly_the_node _ 10 red_sibling 2%positive t').
  - exact red_sibling_tree_inv.
  - apply red_sibling_nodes. cbn. repeat constructor.
  - exact H.
Defined.

Lemma transplant_only_child_witness :
  exists t',
    transplant (Some 5%positive) None red_sibling = Ok tt t' /\
    tree_inv (list_to_set (addrs red_sibling_shape) ∖ {[5%positive]}) t' /\
    heap t' !! 5%positive = Some (mkNode 5 BLACK (Some 4%positive) None None) /\
    forall a, reach t' a <-> reach red_sibling a /\ a <> 5%positive.
Proof.
  apply (transplant_only_child _ red_sibling 5%positive
           (mkNode 5 BLACK (Some 4%positive) None None) L).
  - exact red_sibling_tree_inv.
  - apply red_sibling_nodes. cbn. repeat constructor.
  - reflexivity.
  - reflexivity.
Defined.

Lemma delete_fixup_keeps_the_nodes_witness :
  exists t',
    delete_fixup 10 (Some 1%positive) red_sibling = Ok tt t' /\
    tree_inv (list_to_set (addrs red_sibling_shape)) t' /\
    forall a, reach t' a <-> reach red_sibling a.
Proof.
  assert (exists t', delete_fixup 10 (Some 1%positive) red_sibling = Ok tt t')
    as [t' H] by (eexists; vm_compute; reflexivity).
  exists t'. split; [exact H|].
  apply (delete_fixup_keeps_the_nodes _ 10 red_sibling (Some 1%positive) t').
  - exact red_sibling_tree_inv.
  - intros a [= <-]. apply red_sibling_nodes. cbn. repeat constructor.
  - exact H.
Defined.

Lemma red_below_red_tree_inv :
  tree_inv (list_to_set (addrs red_below_red_shape)) red_below_red.
Proof.
  apply (shape_tree_inv 10 red_below_red red_below_red_shape).
  - vm_compute. reflexivity.
  - cbn. repeat split.
  - apply (bool_decide_unpack _). vm_compute. exact I.
Qed.

Lemma insert_fixup_keeps_the_nodes_witness :
  exists t',
    insert_fixup 10 (Some 1%positive) red_below_red = Ok tt t' /\
    shape_of 10 t' =
      Some (Br (Br (Br (Br Leaf 1%positive 1 RED Leaf) 3%positive 3 BLACK Leaf)
                   5%positive 5 RED (Br Leaf 7%positive 7 BLACK Leaf))
               10%positive 10 BLACK
               (Br (Br Leaf 15%positive 15 BLACK Leaf) 20%positive 20 RED
                   (Br Leaf 30%positive 30 BLACK Leaf))) /\
    tree_inv (list_to_set (addrs red_below_red_shape)) t' /\
    forall a, reach t' a <-> reach red_below_red a.
Proof.
  assert (exists t', insert_fixup 10 (Some 1%positive) red_below_red = Ok tt t')
    as [t' H] by (eexists; vm_compute; reflexivity).
  exists t'. split; [exact H|].
  split; [vm_compute in H; injection H as <-; vm_compute; reflexivity|].
  apply (insert_fixup_keeps_the_nodes _ 10 red_below_red 1%positive t').
  - exact red_below_red_tree_inv.
  - apply elem_of_list_to_set. cbn. repeat constructor.
  - exact H.
Defined.

Lemma four_nodes_tree_inv :
  tree_inv (list_to_set (addrs four_nodes_shape)) four_nodes.
Proof.
  apply (shape_tree_inv 10 four_nodes four_nodes_shape).
  - vm_compute. reflexivity.
  - cbn. repeat split.
  - apply (bool_decide_unpack _). vm_compute. exact I.
Qed.

Lemma insert_links_exactly_the_node_witness :
  exists t',
    insert 10 (Some 9%positive) four_nodes = Ok tt t' /\
    (forall a, reach t' a <-> reach four_nodes a \/ a = 9%positive) /\
    (root four_nodes <> None ->
     tree_inv (list_to_set (addrs four_nodes_shape) ∪ {[9%positive]}) t').
Proof.
  assert (exists t', insert 10 (Some 9%positive) four_nodes = Ok tt t') as [t' H]
    by (eexists; vm_compute; reflexivity).
  exists t'. split; [exact H|].
  apply (insert_links_exactly_the_node _ 10 four_nodes 9%positive
           (mkNode 9 RED None None None) t').
  - exact four_nodes_tree_inv.
  - rewrite elem_of_list_to_set. apply (bool_decide_unpack _). vm_compute. exact I.
  - reflexivity.
  - reflexivity.
  - reflexivity.
  - exact H.
Defined.

Lemma insert_below_red_root_crashes_witness :
  insert 3 (Some 2%positive) red_root = Crash.
Proof.
  apply (insert_below_red_root_crashes 2 red_root 1%positive
           (mkNode 5 RED None None None) 2%positive (mkNode 7 BLACK None None None)).
  - reflexivity.
  - reflexivity.
  - reflexivity.
  - reflexivity.
  - reflexivity.
  - discriminate.
  - reflexivity.
  - reflexivity.
Defined.

Lemma minimum_maximum_spec_witness :
  exists lo hi,
    head (addrs red_sibling_shape) = Some lo /\
    last (addrs red_sibling_shape) = Some hi /\
    minimum 10 (Some 2%positive) red_sibling = Ok (Some lo) red_sibling /\
    maximum 10 (Some 2%positive) red_sibling = Ok (Some hi) red_sibling /\
    (nondecreasing (inorder red_sibling_shape) = true ->
     forall a x xlo xhi,
       a ∈ addrs red_sibling_shape -> heap red_sibling !! a = Some x ->
       heap red_sibling !! lo = Some xlo -> heap red_sibling !! hi = Some xhi ->
       key xlo <= key x <= key xhi).
Proof.
  apply (proj2 (proj2 (minimum_maximum_spec 10 red_sibling)) 2%positive
           red_sibling_shape).
  vm_compute. reflexivity.
Defined.

Lemma successor_predecessor_round_trip_witness :
  predecessor 10 (Some 3%positive) red_sibling = Ok (Some 2%positive) red_sibling /\
  successor 10 (Some 1%positive) red_sibling = Ok (Some 2%positive) red_sibling.
Proof.
  split.
  - apply (proj1 (successor_predecessor_round_trip _ 10 red_sibling 2%positive
                    3%positive red_sibling red_sibling_tree_inv
                    ltac:(apply red_sibling_nodes; cbn; repeat constructor))).
    vm_compute. reflexivity.
  - apply (proj2 (successor_predecessor_round_trip _ 10 red_sibling 2%positive
                    1%positive red_sibling red_sibling_tree_inv
                    ltac:(apply red_sibling_nodes; cbn; repeat constructor))).
    vm_compute. reflexivity.
Defined.

(** ** The in-order sequence of the nodes *)

Lemma in_order_fun h : forall p l, in_order h p l -> forall l', in_order h p l' -> l = l'.
Proof.
  induction 1 as [|a nd l r Ha Hl IHl Hr IHr]; intros l' H'.
  - inversion H'. reflexivity.
  - inversion H' as [|a' nd' l2 r2 Ha' Hl' Hr']; subst.
    assert (nd' = nd) as -> by congruence.
    rewrite (IHl _ Hl'), (IHr _ Hr'). reflexivity.
Qed.

Lemma in_order_top h a l : in_order h (Some a) l -> a ∈ l.
Proof.
  inversion 1; subst. apply elem_of_app. right. apply elem_of_cons. left. reflexivity.
Qed.

Lemma in_order_side h d a nd ld lo :
  h !! a = Some nd ->
  in_order h (child d nd) ld -> in_order h (child (opp d) nd) lo ->
  in_order h (Some a) (side_app d a ld lo).
Proof.
  intros Ha Hd Ho. destruct d; cbn in *; eapply in_order_node; eauto.
Qed.

Lemma in_order_side_inv h d a nd l :
  h !! a = Some nd -> in_order h (Some a) l ->
  exists ld lo, l = side_app d a ld lo /\
    in_order h (child d nd) ld /\ in_order h (child (opp d) nd) lo.
Proof.
  intros Ha H. inversion H as [|a' nd' l1 r1 Ha' Hl Hr]; subst.
  assert (nd' = nd) as -> by congruence.
  destruct d; cbn; eauto.
Qed.

Lemma elem_of_side_app d a ld lo x :
  x ∈ side_app d a ld lo <-> x ∈ ld \/ x = a \/ x ∈ lo.
Proof.
  destruct d; cbn; rewrite elem_of_app, elem_of_cons; tauto.
Qed.

Lemma NoDup_side_app d a ld lo :
  NoDup (side_app d a ld lo) <->
  NoDup ld /\ NoDup lo /\ (a ∉ ld) /\ (a ∉ lo) /\ (forall x, x ∈ ld -> x ∉ lo).
Proof.
  destruct d; cbn; rewrite NoDup_app, NoDup_cons.
  - split.
    + intros (H1 & H2 & H3 & H4). repeat split; auto.
      * intros Ha. apply (H2 a Ha). apply elem_of_cons. left. reflexivity.
      * intros x Hx Hx'. apply (H2 x Hx). apply elem_of_cons. right. exact Hx'.
    + intros (H1 & H2 & H3 & H4 & H5). repeat split; auto.
      intros x Hx Hx'. apply elem_of_cons in Hx' as [->|Hx']; [contradiction|].
      exact (H5 x Hx Hx').
  - split.
    + intros (H1 & H2 & H3 & H4). repeat split; auto.
      * intros Ha. apply (H2 a Ha). apply elem_of_cons. left. reflexivity.
      * intros x Hx Hx'. apply (H2 x Hx'). apply elem_of_cons. right. exact Hx.
    + intros (H1 & H2 & H3 & H4 & H5). repeat split; auto.
      intros x Hx Hx'. apply elem_of_cons in Hx' as [->|Hx']; [contradiction|].
      exact (H5 x Hx' Hx).
Qed.

(** The sequence depends on the children of the nodes it holds only. *)
Lemma in_order_ext h h' : forall p l,
  in_order h p l ->
  (forall x, x ∈ l -> (kids <$> h' !! x) = (kids <$> h !! x)) ->
  in_order h' p l.
Proof.
  induction 1 as [|a nd l r Ha Hl IHl Hr IHr]; intros Hsame; [constructor|].
  assert (Hka : (kids <$> h' !! a) = (kids <$> h !! a)).
  { apply Hsame. apply elem_of_app. right. apply elem_of_cons. left. reflexivity. }
  rewrite Ha in Hka. destruct (h' !! a) as [nd'|] eqn:Ha'; [|discriminate].
  injection Hka as Hkl Hkr.
  eapply in_order_node; [exact Ha'| |].
  - rewrite Hkl. apply IHl. intros x Hx. apply Hsame, elem_of_app. left. exact Hx.
  - rewrite Hkr. apply IHr. intros x Hx. apply Hsame, elem_of_app. right.
    apply elem_of_cons. right. exact Hx.
Qed.

Lemma shape_in_order h : forall f p s,
  shape_from f h p = Some s -> in_order h p (addrs s).
Proof.
  induction f as [|f IH]; intros p s Hs.
  - destruct p; [discriminate|]. injection Hs as <-. constructor.
  - destruct p as [a|]; [|injection Hs as <-; constructor].
    apply shape_from_Some_inv in Hs as (f' & nd & l & r & [= <-] & Ha & Hl & Hr & ->).
    cbn [addrs]. eapply in_order_node; eauto.
Qed.

Lemma in_order_shape h : forall p l,
  in_order h p l -> exists f s, shape_from f h p = Some s /\ addrs s = l.
Proof.
  induction 1 as [|a nd l r Ha Hl IHl Hr IHr].
  - exists O, Leaf. split; reflexivity.
  - destruct IHl as (fl & sl & Hsl & <-). destruct IHr as (fr & sr & Hsr & <-).
    exists (S (Nat.max fl fr)), (Br sl a (key nd) (color nd) sr).
    split; [|reflexivity]. cbn [shape_from]. rewrite Ha.
    rewrite (shape_from_mono h fl (Nat.max fl fr) _ _ Hsl) by lia.
    rewrite (shape_from_mono h fr (Nat.max fl fr) _ _ Hsr) by lia. reflexivity.
Qed.

(** The children of the nodes of a sequence are in the sequence. *)
Lemma in_order_closed h : forall p l,
  in_order h p l ->
  forall x xd k c, x ∈ l -> h !! x = Some xd -> child k xd = Some c -> c ∈ l.
Proof.
  induction 1 as [|a nd l r Ha Hl IHl Hr IHr]; intros x xd k c Hx Hxd Hc;
    [inversion Hx|].
  apply elem_of_app in Hx as [Hx|Hx]; [|apply elem_of_cons in Hx as [->|Hx]].
  - apply elem_of_app. left. exact (IHl x xd k c Hx Hxd Hc).
  - assert (xd = nd) as -> by congruence. destruct k; cbn in Hc.
    + rewrite Hc in Hl. apply elem_of_app. left. exact (in_order_top _ _ _ Hl).
    + rewrite Hc in Hr. apply elem_of_app. right. apply elem_of_cons. right.
      exact (in_order_top _ _ _ Hr).
  - apply elem_of_app. right. apply elem_of_cons. right. exact (IHr x xd k c Hx Hxd Hc).
Qed.

Lemma reach_in_order t l a :
  in_order (heap t) (root t) l -> reach t a -> a ∈ l.
Proof.
  intros Hl. induction 1 as [a Hr|a nd k c Hreach IH Hnd Hk].
  - rewrite Hr in Hl. exact (in_order_top _ _ _ Hl).
  - exact (in_order_closed _ _ _ Hl a nd k c IH Hnd Hk).
Qed.

(** The nodes below a node of a tree are at least as deep as the node. *)
Lemma in_order_depth N t :
  tree_inv N t ->
  forall p l, in_order (heap t) p l ->
  forall a da, p = Some a -> a ∈ N -> depth t a da ->
  forall x, x ∈ l -> x ∈ N /\ exists dx, depth t x dx /\ (da <= dx)%nat.
Proof.
  intros HI. induction 1 as [|a nd l r Ha Hl IHl Hr IHr];
    intros a0 da Hp0 Hin Hd x Hx; [discriminate|injection Hp0 as <-].
  assert (Hkid : forall k c, child k nd = Some c -> c ∈ N /\ depth t c (S da)).
  { intros k c Hc. split; [apply (inv_child _ _ HI a nd k c Hin Ha Hc)|].
    exact (depth_child N t a nd k c da HI Hin Ha Hc Hd). }
  apply elem_of_app in Hx as [Hx|Hx]; [|apply elem_of_cons in Hx as [->|Hx]].
  - destruct (lchild nd) as [c|] eqn:Hc; [|inversion Hl; subst; inversion Hx].
    destruct (Hkid L c Hc) as [Hc_in Hdc].
    destruct (IHl c (S da) eq_refl Hc_in Hdc x Hx) as (Hx_in & dx & Hdx & Hle).
    split; [exact Hx_in|]. exists dx. split; [exact Hdx|lia].
  - split; [exact Hin|]. exists da. split; [exact Hd|lia].
  - destruct (rchild nd) as [c|] eqn:Hc; [|inversion Hr; subst; inversion Hx].
    destruct (Hkid R c Hc) as [Hc_in Hdc].
    destruct (IHr c (S da) eq_refl Hc_in Hdc x Hx) as (Hx_in & dx & Hdx & Hle).
    split; [exact Hx_in|]. exists dx. split; [exact Hdx|lia].
Qed.

(** The nodes below a node of a sequence are in the sequence. *)
Lemma in_order_sub h : forall q lq,
  in_order h q lq ->
  forall top ltop, in_order h top ltop ->
  (forall c0, q = Some c0 -> c0 ∈ ltop) ->
  forall x, x ∈ lq -> x ∈ ltop.
Proof.
  induction 1 as [|b bd bl br Hb Hbl IHbl Hbr IHbr];
    intros top ltop Htop Hq x Hx; [inversion Hx|].
  pose proof (Hq b eq_refl) as Hb_in.
  apply elem_of_app in Hx as [Hx|Hx];
    [|apply elem_of_cons in Hx as [->|Hx]; [exact Hb_in|]].
  - apply (IHbl top ltop Htop); [|exact Hx].
    intros c0 Hc0. exact (in_order_closed _ _ _ Htop b bd L c0 Hb_in Hb Hc0).
  - apply (IHbr top ltop Htop); [|exact Hx].
    intros c0 Hc0. exact (in_order_closed _ _ _ Htop b bd R c0 Hb_in Hb Hc0).
Qed.

Lemma in_order_below h top ltop p pd k lold :
  in_order h top ltop -> p ∈ ltop -> h !! p = Some pd ->
  in_order h (child k pd) lold ->
  forall x, x ∈ lold -> x ∈ ltop.
Proof.
  intros Htop Hp Hpd Hold. apply (in_order_sub h _ _ Hold top ltop Htop).
  intros c0 Hc0. exact (in_order_closed _ _ _ Htop p pd k c0 Hp Hpd Hc0).
Qed.

(** The sequence of a tree in which the subtree on the side [k] of the node
    [p] gives way to another one. *)
Lemma in_order_slot h h' p pd pd' k lold lnew :
  h !! p = Some pd -> h' !! p = Some pd' ->
  child (opp k) pd' = child (opp k) pd ->
  in_order h (child k pd) lold -> in_order h' (child k pd') lnew ->
  forall q l,
    in_order h q l -> NoDup l -> p ∈ l ->
    (forall x, x ∈ l -> x ∉ lold -> x <> p ->
       (kids <$> h' !! x) = (kids <$> h !! x)) ->
    exists pre post,
      l = pre ++ lold ++ post /\ in_order h' q (pre ++ lnew ++ post).
Proof.
  intros Hp Hp' Hother Hold Hnew.
  induction 1 as [|a nd l r Ha Hl IHl Hr IHr]; intros Hnd Hin Hsame; [inversion Hin|].
  apply NoDup_app in Hnd as (Hndl & Hdisj & Hndr).
  apply NoDup_cons in Hndr as (Har & Hndr).
  assert (Hal : a ∉ l).
  { intros Hc. apply (Hdisj a Hc). apply elem_of_cons. left. reflexivity. }
  assert (Hlr : forall x, x ∈ l -> x ∉ r).
  { intros x Hx Hx'. apply (Hdisj x Hx). apply elem_of_cons. right. exact Hx'. }
  assert (Htop_in : a ∈ l ++ a :: r).
  { apply elem_of_app. right. apply elem_of_cons. left. reflexivity. }
  destruct (decide (a = p)) as [->|Hap].
  - assert (nd = pd) as -> by congruence.
    destruct (in_order_side_inv h k p pd (l ++ p :: r) Hp
                (in_order_node h p pd l r Hp Hl Hr)) as (ld & lo & Heq & Hd & Ho).
    pose proof (in_order_fun _ _ _ Hd _ Hold) as ->.
    assert (Ho' : in_order h' (child (opp k) pd') lo).
    { rewrite Hother. apply (in_order_ext h h' _ _ Ho). intros x Hx.
      assert (Hnd' : NoDup (side_app k p lold lo)).
      { rewrite <- Heq. apply NoDup_app. split; [exact Hndl|]. split; [exact Hdisj|].
        apply NoDup_cons. auto. }
      apply NoDup_side_app in Hnd' as (_ & _ & _ & Hpo & Hdo).
      apply Hsame.
      - rewrite Heq. apply elem_of_side_app. auto.
      - intros Hc. exact (Hdo x Hc Hx).
      - intros ->. contradiction. }
    pose proof (in_order_side h' k p pd' lnew lo Hp' Hnew Ho') as Hres.
    destruct k; cbn [side_app] in Heq, Hres.
    + exists [], (p :: lo). cbn [app]. split; [exact Heq|exact Hres].
    + exists (lo ++ [p]), []. rewrite !app_nil_r. rewrite <- !app_assoc. cbn [app].
      split; [exact Heq|exact Hres].
  - apply elem_of_app in Hin as [Hin|Hin];
      [|apply elem_of_cons in Hin as [->|Hin]; [contradiction|]].
    + assert (Hsub : forall x, x ∈ lold -> x ∈ l)
        by exact (in_order_below h _ l p pd k lold Hl Hin Hp Hold).
      assert (Hka : (kids <$> h' !! a) = (kids <$> h !! a)).
      { apply Hsame; [exact Htop_in| |exact Hap]. intros Hc. exact (Hal (Hsub a Hc)). }
      rewrite Ha in Hka. destruct (h' !! a) as [nd'|] eqn:Ha'; [|discriminate].
      injection Hka as Hkl Hkr.
      destruct IHl as (pre & post & -> & Hres); [exact Hndl|exact Hin| |].
      { intros x Hx Hxo Hxp. apply Hsame; auto. apply elem_of_app. left. exact Hx. }
      exists pre, (post ++ a :: r). rewrite <- !app_assoc. split; [reflexivity|].
      rewrite !app_assoc. rewrite <- (app_assoc pre lnew post).
      eapply in_order_node; [exact Ha'|rewrite Hkl; exact Hres|].
      rewrite Hkr. apply (in_order_ext h h' _ _ Hr). intros x Hx.
      apply Hsame.
      * apply elem_of_app. right. apply elem_of_cons. right. exact Hx.
      * intros Hc. exact (Hlr x (Hsub x Hc) Hx).
      * intros ->. exact (Hlr p Hin Hx).
    + assert (Hsub : forall x, x ∈ lold -> x ∈ r)
        by exact (in_order_below h _ r p pd k lold Hr Hin Hp Hold).
      assert (Hka : (kids <$> h' !! a) = (kids <$> h !! a)).
      { apply Hsame; [exact Htop_in| |exact Hap]. intros Hc. exact (Har (Hsub a Hc)). }
      rewrite Ha in Hka. destruct (h' !! a) as [nd'|] eqn:Ha'; [|discriminate].
      injection Hka as Hkl Hkr.
      destruct IHr as (pre & post & -> & Hres); [exact Hndr|exact Hin| |].
      { intros x Hx Hxo Hxp. apply Hsame; auto. apply elem_of_app. right.
        apply elem_of_cons. right. exact Hx. }
      exists (l ++ a :: pre), post. rewrite <- !app_assoc. cbn [app].
      split; [reflexivity|].
      eapply in_order_node; [exact Ha'| |rewrite Hkr; exact Hres].
      rewrite Hkl. apply (in_order_ext h h' _ _ Hl). intros x Hx.
      apply Hsame.
      * apply elem_of_app. left. exact Hx.
      * intros Hc. exact (Hlr x Hx (Hsub x Hc)).
      * intros ->. exact (Hlr p Hx Hin).
Qed.

(** *** A rotation keeps the sequence *)

Lemma kids_set_parent p x : kids (set_parent p x) = kids x.
Proof. reflexivity. Qed.
Lemma kids_set_color c x : kids (set_color c x) = kids x.
Proof. reflexivity. Qed.

Lemma side_app_rotate d n r la lb lc :
  side_app (opp d) n (side_app d r lb lc) la
  = side_app d r (side_app (opp d) n lb la) lc.
Proof. destruct d; cbn; rewrite <- !app_assoc; reflexivity. Qed.

Lemma child_set_parent k p x : child k (set_parent p x) = child k x.
Proof. destruct k; reflexivity. Qed.

Lemma rotate_in_order d N t n t' l :
  tree_inv N t -> n ∈ N ->
  in_order (heap t) (root t) l -> NoDup l ->
  rotate d (Some n) t = Ok tt t' ->
  in_order (heap t') (root t') l.
Proof.
  intros HI Hin Hl Hnd H.
  destruct (inv_alloc _ _ HI n Hin) as [nd Hn].
  pose proof (rotate_spec d N t n nd HI Hin Hn) as Hspec.
  destruct (child (opp d) nd) as [r|] eqn:Hr.
  2:{ rewrite Hspec in H. injection H as <-. exact Hl. }
  destruct Hspec as (rn & Hrn & Hex & HI' & Hlook).
  rewrite Hex in H. injection H as <-.
  destruct (rot_r_in d N t n r nd rn HI Hin Hn Hr Hrn) as (Hr_in & Hrp).
  destruct (rot_distinct d N t n r nd rn HI Hin Hn Hr Hrn) as (Hnr & Hdist_b & Hdist_p).
  destruct (inv_depth _ _ HI n Hin) as [dn Hdn].
  assert (Hn_l : n ∈ l).
  { apply (reach_in_order t l n Hl). exact (depth_reach _ _ _ Hdn). }
  (* the sequence below [n] *)
  destruct (in_order_shape _ _ _ Hl) as (f & s & Hs & Hads).
  destruct (shape_from_at (heap t) n f (root t) s Hs ltac:(rewrite Hads; exact Hn_l))
    as (nd0 & sl & sr & Hn0 & Hsl & Hsr).
  assert (nd0 = nd) as -> by congruence.
  assert (Hsub : exists lold, in_order (heap t) (Some n) lold).
  { eexists. eapply in_order_node; [exact Hn|exact (shape_in_order _ _ _ _ Hsl)
                                   |exact (shape_in_order _ _ _ _ Hsr)]. }
  destruct Hsub as [lold Hold].
  destruct (in_order_side_inv _ (opp d) n nd lold Hn Hold) as (lr & la & -> & Hlr & Hla).
  rewrite opp_opp in Hla. rewrite Hr in Hlr.
  destruct (in_order_side_inv _ d r rn lr Hrn Hlr) as (lb & lc & -> & Hlb & Hlc).
  set (lold := side_app (opp d) n (side_app d r lb lc) la) in *.
  (* the nodes below [n] are at least as deep as [n] *)
  pose proof (in_order_depth N t HI _ _ Hold n dn eq_refl Hin Hdn) as Hdeep.
  assert (Hnotp : forall p, parent nd = Some p -> p ∉ lold).
  { intros p Hp Hc. destruct (Hdeep p Hc) as (_ & dx & Hdx & Hle).
    destruct (depth_parent t n nd p dn Hdn Hn Hp) as (dp & -> & Hdp).
    pose proof (depth_fun _ _ _ Hdx _ Hdp). lia. }
  assert (Hnd_old : NoDup lold).
  { destruct (root t) as [q|] eqn:Hroot.
    - destruct (decide (n = q)) as [->|Hnq].
      + rewrite (in_order_fun _ _ _ Hold _ Hl). exact Hnd.
      + (* a sublist of [l] *)
        destruct (parent nd) as [p|] eqn:Hp.
        * destruct (inv_parent_link N t n nd p HI Hin Hn Hp)
            as (Hp_in & pd & kp & Hpd & Hkp).
          assert (Hp_l : p ∈ l).
          { apply (reach_in_order t l p); [rewrite Hroot; exact Hl|].
            apply (reach_iff N t p HI), Hp_in. }
          assert (Hold' : in_order (heap t) (child kp pd) lold)
            by (rewrite Hkp; exact Hold).
          destruct (in_order_slot (heap t) (heap t) p pd pd kp lold lold Hpd Hpd
                      eq_refl Hold' Hold' (Some q) l Hl Hnd Hp_l
                      ltac:(intros; reflexivity)) as (pre & post & -> & _).
          apply NoDup_app in Hnd as (_ & _ & Hnd).
          apply NoDup_app in Hnd as (Hnd & _). exact Hnd.
        * destruct (depth_top N t n nd dn HI Hin Hn Hp Hdn) as (Hrt & _). congruence.
    - pose proof (in_order_fun _ _ _ Hl _ (in_order_nil _)) as Heq.
      rewrite Heq in Hn_l. inversion Hn_l. }
  subst lold.
  apply NoDup_side_app in Hnd_old as (Hnd_r & Hnd_a & Hn_r & Hn_a & Hra).
  apply NoDup_side_app in Hnd_r as (Hnd_b & Hnd_c & Hr_b & Hr_c & Hbc).
  set (h' := heap (rotated d n r nd rn t)) in *.
  (* the records of the subtrees keep their children *)
  assert (Hkeep : forall x,
            x <> n -> x <> r -> parent nd <> Some x ->
            (kids <$> h' !! x) = (kids <$> heap t !! x)).
  { intros x Hxn Hxr Hxp. unfold h'. rewrite Hlook.
    destruct (heap t !! x) as [xd|]; [|reflexivity]. cbn. f_equal.
    unfold rot_node. rewrite decide_False by done. rewrite decide_False by done.
    destruct (decide (child d rn = Some x)); [reflexivity|].
    rewrite decide_False by done. reflexivity. }
  assert (Hin_old : forall x, x ∈ la \/ x ∈ lb \/ x ∈ lc ->
            x ∈ side_app (opp d) n (side_app d r lb lc) la).
  { intros x Hx. apply elem_of_side_app.
    destruct Hx as [Hx|[Hx|Hx]]; [auto| |]; left; apply elem_of_side_app; auto. }
  assert (Hsubtree : forall q lq,
            in_order (heap t) q lq ->
            (forall x, x ∈ lq -> x ∈ la \/ x ∈ lb \/ x ∈ lc) ->
            in_order h' q lq).
  { intros q lq Hq Hsubq. apply (in_order_ext _ _ _ _ Hq). intros x Hx.
    pose proof (Hsubq x Hx) as Hcase. apply Hkeep.
    - intros ->. destruct Hcase as [Hc|[Hc|Hc]]; [contradiction| |].
      + apply Hn_r. apply elem_of_side_app. auto.
      + apply Hn_r. apply elem_of_side_app. auto.
    - intros ->. destruct Hcase as [Hc|[Hc|Hc]]; [|contradiction|contradiction].
      apply (Hra r); [apply elem_of_side_app; auto|exact Hc].
    - intros Hp. exact (Hnotp x Hp (Hin_old x Hcase)). }
  (* the new records of [n] and [r] *)
  assert (Hn' : h' !! n = Some (set_parent (Some r) (set_child (opp d) (child d rn) nd))).
  { unfold h'. rewrite Hlook, Hn. cbn. unfold rot_node.
    rewrite decide_False by done. rewrite decide_True by done. reflexivity. }
  assert (Hr' : h' !! r = Some (set_child d (Some n) (set_parent (parent nd) rn))).
  { unfold h'. rewrite Hlook, Hrn. cbn. unfold rot_node.
    rewrite decide_True by done. reflexivity. }
  assert (Hnew_n : in_order h' (Some n) (side_app (opp d) n lb la)).
  { apply (in_order_side h' (opp d) n _ lb la Hn').
    - rewrite child_set_parent, child_set_child. rewrite decide_True by done.
      apply (Hsubtree _ _ Hlb). auto.
    - rewrite opp_opp, child_set_parent, child_set_child.
      rewrite decide_False by (intros Hc; symmetry in Hc; exact (opp_ne _ Hc)).
      apply (Hsubtree _ _ Hla). auto. }
  assert (Hnew_r : in_order h' (Some r)
                     (side_app (opp d) n (side_app d r lb lc) la)).
  { rewrite side_app_rotate.
    apply (in_order_side h' d r _ _ lc Hr').
    - rewrite child_set_child. rewrite decide_True by done. exact Hnew_n.
    - rewrite child_set_child. rewrite decide_False by apply opp_ne.
      rewrite child_set_parent. apply (Hsubtree _ _ Hlc). auto. }
  (* the place of [n] *)
  unfold rotated at 1. cbn [root]. fold h'.
  destruct (parent nd) as [p|] eqn:Hp.
  - destruct (inv_parent_link N t n nd p HI Hin Hn Hp) as (Hp_in & pd & kp & Hpd & Hkp).
    destruct (inv_child _ _ HI p pd kp n Hp_in Hpd Hkp) as (_ & _ & Hother).
    destruct (Hdist_p p eq_refl) as (Hpn & Hpr & Hpb).
    assert (Hp_l : p ∈ l).
    { apply (reach_in_order t l p Hl). apply (reach_iff N t p HI), Hp_in. }
    assert (Hp' : h' !! p = Some (repoint n r pd)).
    { unfold h'. rewrite Hlook, Hpd. cbn. unfold rot_node.
      rewrite decide_False by done. rewrite decide_False by done.
      rewrite decide_False by done. rewrite decide_True by done. reflexivity. }
    assert (Hkid_new : child kp (repoint n r pd) = Some r).
    { unfold repoint. destruct kp; cbn in *;
        rewrite bool_decide_eq_true_2 by exact Hkp; reflexivity. }
    assert (Hkid_other : child (opp kp) (repoint n r pd) = child (opp kp) pd).
    { unfold repoint. destruct kp; cbn in *;
        rewrite bool_decide_eq_false_2 by exact Hother; reflexivity. }
    assert (Hold' : in_order (heap t) (child kp pd)
                      (side_app (opp d) n (side_app d r lb lc) la)).
    { rewrite Hkp. eapply in_order_side; [exact Hn| |].
      - rewrite Hr. eapply in_order_side; [exact Hrn|exact Hlb|exact Hlc].
      - rewrite opp_opp. exact Hla. }
    assert (Hnew' : in_order h' (child kp (repoint n r pd))
                      (side_app (opp d) n (side_app d r lb lc) la))
      by (rewrite Hkid_new; exact Hnew_r).
    destruct (in_order_slot (heap t) h' p pd _ kp _ _ Hpd Hp' Hkid_other Hold' Hnew'
                (root t) l Hl Hnd Hp_l) as (pre & post & Heq & Hres).
    + intros x Hx Hxo Hxp. apply Hkeep.
      * intros ->. apply Hxo. apply elem_of_side_app. auto.
      * intros ->. apply Hxo. apply elem_of_side_app. left.
        apply elem_of_side_app. auto.
      * congruence.
    + rewrite Heq. exact Hres.
  - destruct (depth_top N t n nd dn HI Hin Hn Hp Hdn) as (Hrt & _).
    rewrite Hrt in Hl.
    assert (Hold' : in_order (heap t) (Some n)
                      (side_app (opp d) n (side_app d r lb lc) la)).
    { eapply in_order_side; [exact Hn| |].
      - rewrite Hr. eapply in_order_side; [exact Hrn|exact Hlb|exact Hlc].
      - rewrite opp_opp. exact Hla. }
    rewrite (in_order_fun _ _ _ Hl _ Hold'). exact Hnew_r.
Qed.

(** *** The fixups keep the sequence *)

Section keeps_order.
Context (N : gset ptr) (l : list ptr).

Lemma keeps_order_bind {A B} (m : M A) (k : A -> M B) Q Q' :
  keeps_order N l m Q -> (forall a, Q a -> keeps_order N l (k a) Q') ->
  keeps_order N l (bind m k) Q'.
Proof.
  intros Hm Hk t b t' HO H. apply bind_Ok_inv in H as (a & t1 & H1 & H2).
  destruct (Hm _ _ _ HO H1) as [HO1 Ha]. exact (Hk a Ha _ _ _ HO1 H2).
Qed.

Lemma keeps_order_ret {A} (a : A) (Q : A -> Prop) : Q a -> keeps_order N l (ret a) Q.
Proof. intros Ha t b t' HO [= <- <-]. auto. Qed.

Lemma keeps_order_readonly {A} (m : M A) :
  readonly m -> keeps_order N l m (fun _ => True).
Proof. intros Hm t a t' HO H. apply Hm in H. subst. auto. Qed.

Lemma keeps_order_get_parent a :
  a ∈ N -> keeps_order N l (get_parent a) (fun p => forall q, p = Some q -> q ∈ N).
Proof.
  intros Ha t p t' HO H. pose proof (readonly_get_parent _ _ _ _ H) as ->.
  split; [exact HO|]. intros q ->. exact (parent_in N t a q t (proj1 HO) Ha H).
Qed.

Lemma keeps_order_get_lchild a :
  a ∈ N -> keeps_order N l (get_lchild a) (fun p => forall q, p = Some q -> q ∈ N).
Proof.
  intros Ha t p t' HO H. apply get_lchild_Ok_inv in H as (-> & x & Hx & ->).
  split; [exact HO|]. intros q Hq.
  apply (inv_child _ _ (proj1 HO) a x L q Ha Hx Hq).
Qed.

Lemma keeps_order_get_rchild a :
  a ∈ N -> keeps_order N l (get_rchild a) (fun p => forall q, p = Some q -> q ∈ N).
Proof.
  intros Ha t p t' HO H. apply get_rchild_Ok_inv in H as (-> & x & Hx & ->).
  split; [exact HO|]. intros q Hq.
  apply (inv_child _ _ (proj1 HO) a x R q Ha Hx Hq).
Qed.

Lemma keeps_order_get_root :
  keeps_order N l get_root (fun p => forall q, p = Some q -> q ∈ N).
Proof.
  intros t p t' HO [= <- <-]. split; [exact HO|].
  intros q Hq. exact (inv_root _ _ (proj1 HO) q Hq).
Qed.

Lemma keeps_order_deref p : keeps_order N l (deref p) (fun a => p = Some a).
Proof.
  intros t a t' HO H. destruct p as [x|]; [|discriminate]. injection H as <- <-.
  auto.
Qed.

Lemma keeps_order_store_color a c :
  keeps_order N l (store a (set_color c)) (fun _ => True).
Proof.
  intros t [] t' (HI & Hl & Hnd) H.
  split; [|exact I]. split; [exact (proj1 (keeps_store_color N t a c t' HI H))|].
  split; [|exact Hnd].
  unfold store in H. destruct (heap t !! a) as [x|] eqn:Hx; [|discriminate].
  injection H as <-. cbn [heap root].
  apply (in_order_ext _ _ _ _ Hl). intros i _.
  destruct (decide (i = a)) as [->|Hne].
  - rewrite lookup_insert_eq, Hx. reflexivity.
  - rewrite lookup_insert_ne by congruence. reflexivity.
Qed.

Lemma keeps_order_rotate d a :
  a ∈ N -> keeps_order N l (rotate d (Some a)) (fun _ => True).
Proof.
  intros Ha t [] t' (HI & Hl & Hnd) H.
  split; [|exact I]. split; [exact (proj1 (keeps_rotate d N t a t' HI Ha H))|].
  split; [|exact Hnd]. exact (rotate_in_order d N t a t' l HI Ha Hl Hnd H).
Qed.

Lemma keeps_order_set_root n :
  n ∈ N ->
  keeps_order N l (p <- get_parent n ;;
                   match p with
                   | None => set_root (Some n) ;; store n (set_color BLACK)
                   | Some _ => ret tt
                   end) (fun _ => True).
Proof.
  intros Hn t [] t' HO H. pose proof HO as (HI & _).
  apply bind_Ok_inv in H as (p & t0 & Hp & H).
  apply get_parent_Ok_inv in Hp as (-> & nd & Hnd & ->).
  destruct (parent nd) as [q|] eqn:Hq.
  - injection H as <-. auto.
  - apply bind_Ok_inv in H as ([] & t1 & Hroot & H). injection Hroot as <-.
    destruct (inv_depth _ _ HI n Hn) as [d Hd].
    destruct (depth_top N t n nd d HI Hn Hnd Hq Hd) as (Hr & _).
    assert (mkTree (heap t) (Some n) = t) as Ht.
    { destruct t as [h rt]. cbn in *. rewrite Hr. reflexivity. }
    rewrite Ht in H. exact (keeps_order_store_color n BLACK t tt t' HO H).
Qed.

Local Ltac ko_bind lem := apply (keeps_order_bind _ _ _ _ lem).
Local Ltac ko_read lem :=
  eapply keeps_order_bind; [apply keeps_order_readonly, lem|intros ? _].
Local Ltac ko_color :=
  eapply keeps_order_bind; [apply keeps_order_store_color|intros _ _].

Lemma insert_fixup_body_keeps_order node node_p :
  node_p ∈ N ->
  keeps_order N l (insert_fixup_body node node_p)
    (fun next => forall q, next.2 = Some q -> q ∈ N).
Proof.
  intros Hp. unfold insert_fixup_body.
  ko_bind (keeps_order_get_parent node_p Hp). intros node_p_p Hpp.
  ko_read (readonly_is_left_child node_p). destruct a.
  - ko_bind (keeps_order_deref node_p_p). intros g ->.
    pose proof (Hpp g eq_refl) as Hg.
    ko_read (readonly_get_rchild g). rename a into uncle.
    ko_read (readonly_has_color uncle RED). destruct a.
    + ko_color. ko_bind (keeps_order_deref uncle). intros u _.
      ko_color. ko_color.
      ko_bind (keeps_order_get_parent g Hg). intros node_p' Hnp'.
      apply (keeps_order_bind _ _ (fun _ => True)).
      { destruct node_p'; [apply keeps_order_ret; exact I
                          |apply keeps_order_store_color]. }
      intros _ _. apply keeps_order_ret. exact Hnp'.
    + ko_read (readonly_is_right_child node). destruct a.
      * ko_bind (keeps_order_rotate L node_p Hp). intros _ _.
        ko_bind (keeps_order_get_parent node_p Hp). intros node_p' Hnp'.
        ko_bind (keeps_order_deref node_p'). intros q ->.
        pose proof (Hnp' q eq_refl) as Hq.
        ko_bind (keeps_order_get_parent q Hq). intros node_p_p' Hpp'.
        ko_color. ko_bind (keeps_order_deref node_p_p'). intros g' ->.
        pose proof (Hpp' g' eq_refl) as Hg'.
        ko_color. ko_bind (keeps_order_rotate R g' Hg'). intros _ _.
        apply keeps_order_ret. exact Hnp'.
      * ko_color. ko_color. ko_bind (keeps_order_rotate R g Hg). intros _ _.
        apply keeps_order_ret. intros q [= <-]. exact Hp.
  - ko_bind (keeps_order_deref node_p_p). intros g ->.
    pose proof (Hpp g eq_refl) as Hg.
    ko_read (readonly_get_lchild g). rename a into uncle.
    ko_read (readonly_has_color uncle RED). destruct a.
    + ko_color. ko_bind (keeps_order_deref uncle). intros u _.
      ko_color. ko_color.
      ko_bind (keeps_order_get_parent g Hg). intros node_p' Hnp'.
      apply (keeps_order_bind _ _ (fun _ => True)).
      { destruct node_p'; [apply keeps_order_ret; exact I
                          |apply keeps_order_store_color]. }
      intros _ _. apply keeps_order_ret. exact Hnp'.
    + ko_read (readonly_is_left_child node). destruct a.
      * ko_bind (keeps_order_rotate R node_p Hp). intros _ _.
        ko_bind (keeps_order_get_parent node_p Hp). intros node_p' Hnp'.
        ko_bind (keeps_order_deref node_p'). intros q ->.
        pose proof (Hnp' q eq_refl) as Hq.
        ko_bind (keeps_order_get_parent q Hq). intros node_p_p' Hpp'.
        ko_color. ko_bind (keeps_order_deref node_p_p'). intros g' ->.
        pose proof (Hpp' g' eq_refl) as Hg'.
        ko_color. ko_bind (keeps_order_rotate L g' Hg'). intros _ _.
        apply keeps_order_ret. exact Hnp'.
      * ko_color. ko_color. ko_bind (keeps_order_rotate L g Hg). intros _ _.
        apply keeps_order_ret. intros q [= <-]. exact Hp.
Qed.

Lemma insert_fixup_loop_keeps_order fuel :
  forall node node_p,
    node_p ∈ N ->
    keeps_order N l (insert_fixup_loop fuel node node_p) (fun _ => True).
Proof.
  induction fuel as [|fl IH]; intros node node_p Hp; cbn [insert_fixup_loop].
  - intros t a t' _ [=].
  - ko_read (readonly_get_color node_p).
    destruct (bool_decide (a = RED)); [|apply keeps_order_ret; exact I].
    ko_bind (insert_fixup_body_keeps_order node node_p Hp).
    intros [node' [q|]] Hq; cbn [snd] in Hq.
    + apply IH. apply Hq. reflexivity.
    + apply keeps_order_ret. exact I.
Qed.

Lemma insert_fixup_keeps_order fuel n :
  n ∈ N -> keeps_order N l (insert_fixup fuel (Some n)) (fun _ => True).
Proof.
  intros Hn t [] t' HO H. pose proof HO as (HI & _). unfold insert_fixup in H.
  rewrite (bind_Ok (deref (Some n)) _ t n t eq_refl) in H.
  pose proof H as H'.
  apply bind_Ok_inv in H' as (p & t0 & Hp & _).
  pose proof (keeps_order_get_parent n Hn _ _ _ HO Hp) as [_ Hpin].
  apply get_parent_Ok_inv in Hp as (-> & nd & Hnd & ->).
  destruct (parent nd) as [q|] eqn:Hq.
  - rewrite (bind_Ok _ _ _ _ _ (get_parent_Ok _ _ _ Hnd)), Hq in H.
    exact (insert_fixup_loop_keeps_order fuel n q (Hpin q eq_refl) t tt t' HO H).
  - apply (keeps_order_set_root n Hn t tt t' HO).
    rewrite (bind_Ok _ _ _ _ _ (get_parent_Ok _ _ _ Hnd)), Hq.
    rewrite (bind_Ok _ _ _ _ _ (get_parent_Ok _ _ _ Hnd)), Hq in H. exact H.
Qed.

Local Ltac ko_test :=
  apply (keeps_order_bind _ _ (fun _ => True));
  [apply keeps_order_readonly;
   repeat first [ apply readonly_andM | apply readonly_orM
                | apply readonly_has_color | apply readonly_ret
                | apply (proj1 (readonly_child_tests _ _))
                | apply (proj1 (proj2 (readonly_child_tests _ _)))
                | apply (proj1 (proj2 (proj2 (readonly_child_tests _ RED))))
                | apply (proj2 (proj2 (proj2 (readonly_child_tests _ RED)))) ]
  |intros ? _].

Lemma delete_fixup_left_case1_keeps_order np w :
  np ∈ N -> (forall a, w = Some a -> a ∈ N) ->
  keeps_order N l (delete_fixup_left_case1 np w)
    (fun res => forall a, res.2 = Some a -> a ∈ N).
Proof.
  intros Hnp Hw. unfold delete_fixup_left_case1.
  ko_read (readonly_has_color w RED). destruct a.
  - ko_bind (keeps_order_deref w). intros a _.
    ko_color. ko_color. ko_bind (keeps_order_rotate L np Hnp). intros _ _.
    ko_bind (keeps_order_get_rchild np Hnp). intros w' Hw'.
    apply keeps_order_ret. exact Hw'.
  - apply keeps_order_ret. exact Hw.
Qed.

Lemma delete_fixup_right_case1_keeps_order np w :
  np ∈ N -> (forall a, w = Some a -> a ∈ N) ->
  keeps_order N l (delete_fixup_right_case1 np w)
    (fun res => forall a, res.2 = Some a -> a ∈ N).
Proof.
  intros Hnp Hw. unfold delete_fixup_right_case1.
  ko_read (readonly_has_color w RED). destruct a.
  - ko_bind (keeps_order_deref w). intros a _.
    ko_color. ko_color. ko_bind (keeps_order_rotate R np Hnp). intros _ _.
    apply keeps_order_ret. exact Hw.
  - apply keeps_order_ret. exact Hw.
Qed.

Lemma delete_fixup_left_rest_keeps_order node w :
  node ∈ N -> (forall a, w = Some a -> a ∈ N) ->
  keeps_order N l (delete_fixup_left_rest node w)
    (fun res => forall a, res.2 = Some a -> a ∈ N).
Proof.
  intros Hnode Hw. unfold delete_fixup_left_rest.
  ko_read (readonly_has_color w BLACK). destruct a.
  - ko_bind (keeps_order_deref w). intros a _. ko_color.
    ko_bind (keeps_order_get_parent node Hnode). intros node' Hnode'.
    apply keeps_order_ret. exact Hnode'.
  - ko_test. destruct a.
    + ko_bind (keeps_order_deref w). intros a ->.
      pose proof (Hw a eq_refl) as Ha.
      ko_read (readonly_get_lchild a). ko_read (readonly_deref a0).
      ko_color. ko_color. ko_bind (keeps_order_rotate R a Ha). intros _ _.
      ko_read (readonly_get_parent node). ko_read (readonly_deref a2).
      ko_read (readonly_get_rchild a3).
      apply keeps_order_ret. intros q [= <-]. exact Hnode.
    + ko_test. destruct a.
      * ko_bind (keeps_order_get_parent node Hnode). intros node_p Hnp.
        ko_read (readonly_deref w).
        ko_bind (keeps_order_deref node_p). intros np ->.
        pose proof (Hnp np eq_refl) as Hnp'.
        ko_read (readonly_get_color np). ko_color. ko_color.
        ko_read (readonly_get_rchild a). ko_read (readonly_deref a1).
        ko_color. ko_bind (keeps_order_rotate L np Hnp'). intros _ _.
        ko_bind keeps_order_get_root. intros rt Hrt.
        apply keeps_order_ret. exact Hrt.
      * apply keeps_order_ret. intros q [= <-]. exact Hnode.
Qed.

Lemma delete_fixup_right_rest_keeps_order node w :
  node ∈ N -> (forall a, w = Some a -> a ∈ N) ->
  keeps_order N l (delete_fixup_right_rest node w)
    (fun res => forall a, res.2 = Some a -> a ∈ N).
Proof.
  intros Hnode Hw. unfold delete_fixup_right_rest.
  ko_read (readonly_has_color w BLACK). destruct a.
  - ko_bind (keeps_order_deref w). intros a _. ko_color.
    ko_bind (keeps_order_get_parent node Hnode). intros node' Hnode'.
    apply keeps_order_ret. exact Hnode'.
  - ko_test. destruct a.
    + ko_bind (keeps_order_deref w). intros a ->.
      pose proof (Hw a eq_refl) as Ha.
      ko_read (readonly_get_rchild a). ko_read (readonly_deref a0).
      ko_color. ko_color. ko_bind (keeps_order_rotate L a Ha). intros _ _.
      ko_read (readonly_get_parent node). ko_read (readonly_deref a2).
      ko_read (readonly_get_lchild a3).
      apply keeps_order_ret. intros q [= <-]. exact Hnode.
    + ko_test. destruct a.
      * ko_bind (keeps_order_get_parent node Hnode). intros node_p Hnp.
        ko_read (readonly_deref w).
        ko_bind (keeps_order_deref node_p). intros np ->.
        pose proof (Hnp np eq_refl) as Hnp'.
        ko_read (readonly_get_color np). ko_color. ko_color.
        ko_read (readonly_get_lchild a). ko_read (readonly_deref a1).
        ko_color. ko_bind (keeps_order_rotate R np Hnp'). intros _ _.
        ko_bind keeps_order_get_root. intros rt Hrt.
        apply keeps_order_ret. exact Hrt.
      * apply keeps_order_ret. intros q [= <-]. exact Hnode.
Qed.

Lemma delete_fixup_body_keeps_order node :
  node ∈ N ->
  keeps_order N l (delete_fixup_body node)
    (fun res => forall a, res.2 = Some a -> a ∈ N).
Proof.
  intros Hnode. unfold delete_fixup_body.
  ko_read (readonly_is_left_child node). destruct a.
  - ko_bind (keeps_order_get_parent node Hnode). intros node_p Hnp.
    ko_bind (keeps_order_deref node_p). intros np ->.
    pose proof (Hnp np eq_refl) as Hnp'.
    ko_bind (keeps_order_get_rchild np Hnp'). intros w Hw.
    ko_bind (delete_fixup_left_case1_keeps_order np w Hnp' Hw). intros first_ Hf.
    ko_bind (delete_fixup_left_rest_keeps_order node first_.2 Hnode Hf).
    intros second_ Hs. apply keeps_order_ret. exact Hs.
  - ko_bind (keeps_order_get_parent node Hnode). intros node_p Hnp.
    ko_bind (keeps_order_deref node_p). intros np ->.
    pose proof (Hnp np eq_refl) as Hnp'.
    ko_bind (keeps_order_get_lchild np Hnp'). intros w Hw.
    ko_bind (delete_fixup_right_case1_keeps_order np w Hnp' Hw). intros first_ Hf.
    ko_bind (delete_fixup_right_rest_keeps_order node first_.2 Hnode Hf).
    intros second_ Hs. apply keeps_order_ret. exact Hs.
Qed.

Lemma delete_fixup_loop_keeps_order fuel :
  forall node,
    (forall a, node = Some a -> a ∈ N) ->
    keeps_order N l (delete_fixup_loop fuel node) (fun _ => True).
Proof.
  induction fuel as [|fl IH]; intros node Hnode; cbn [delete_fixup_loop].
  - intros t a t' _ [=].
  - ko_read readonly_get_root. ko_test. destruct a0.
    + ko_bind (keeps_order_deref node). intros n ->.
      ko_bind (delete_fixup_body_keeps_order n (Hnode n eq_refl)).
      intros next Hnext. apply IH. exact Hnext.
    + apply keeps_order_ret. exact I.
Qed.

Lemma delete_fixup_keeps_order fuel node :
  (forall a, node = Some a -> a ∈ N) ->
  keeps_order N l (delete_fixup fuel node) (fun _ => True).
Proof.
  intros Hnode. unfold delete_fixup.
  ko_bind (delete_fixup_loop_keeps_order fuel node Hnode). intros node' _.
  destruct node'; [apply keeps_order_store_color|apply keeps_order_ret; exact I].
Qed.
End keeps_order.

(** *** [insert] puts the node in its place *)

(** The descent of [insert] ends at a free place; in the in-order sequence
    the place is between [pre] and [post]: the new node is not smaller than
    the node before the place and smaller than the node after it. *)
Lemma insert_descend_place N t n nd :
  tree_inv N t -> heap t !! n = Some nd ->
  forall fuel a lq tp0 l0 res t',
    in_order (heap t) (Some a) lq -> NoDup lq -> a ∈ N ->
    insert_descend fuel (Some n) (Some a) tp0 l0 t = Ok res t' ->
    exists tp x k pre post,
      res = (Some tp, match k with L => true | R => false end) /\
      tp ∈ N /\ tp ∈ lq /\ heap t !! tp = Some x /\ child k x = None /\
      lq = pre ++ post /\
      (forall b, last pre = Some b ->
         exists xb, heap t !! b = Some xb /\ ~ key nd < key xb) /\
      (forall c, head post = Some c ->
         exists xc, heap t !! c = Some xc /\ key nd < key xc) /\
      forall h' n' x',
        h' !! n = Some n' -> kids n' = (None, None) ->
        h' !! tp = Some x' -> child k x' = Some n ->
        child (opp k) x' = child (opp k) x ->
        (forall y, y ∈ lq -> y <> tp -> (kids <$> h' !! y) = (kids <$> heap t !! y)) ->
        in_order h' (Some a) (pre ++ n :: post).
Proof.
  intros HI Hn. induction fuel as [|fl IH]; intros a lq tp0 l0 res t' Hlq Hnd Ha H;
    [discriminate|].
  cbn [insert_descend] in H.
  rewrite (bind_Ok (deref (Some n)) _ t n t eq_refl) in H.
  rewrite (bind_Ok _ _ _ _ _ (get_key_Ok _ _ _ Hn)) in H.
  inversion Hlq as [|a' x ll lr Hx Hll Hlr]; subst.
  rewrite (bind_Ok _ _ _ _ _ (get_key_Ok _ _ _ Hx)) in H.
  apply NoDup_app in Hnd as (Hndl & Hdisj & Hndr).
  apply NoDup_cons in Hndr as (Har & Hndr).
  assert (Hal : a ∉ ll).
  { intros Hc. apply (Hdisj a Hc). apply elem_of_cons. left. reflexivity. }
  assert (Hlr' : forall y, y ∈ ll -> y ∉ lr).
  { intros y Hy Hy'. apply (Hdisj y Hy). apply elem_of_cons. right. exact Hy'. }
  assert (Hnew_leaf : forall h' n', h' !! n = Some n' -> kids n' = (None, None) ->
            in_order h' (Some n) [n]).
  { intros h' n' Hn' Hk. injection Hk as Hkl Hkr.
    change [n] with ([] ++ n :: []).
    eapply in_order_node; [exact Hn'|rewrite Hkl; constructor|rewrite Hkr; constructor]. }
  destruct (bool_decide (key nd < key x)) eqn:Hlt.
  - apply bool_decide_eq_true in Hlt.
    rewrite (bind_Ok _ _ _ _ _ (get_lchild_Ok _ _ _ Hx)) in H.
    destruct (lchild x) as [c|] eqn:Hc.
    + destruct (inv_child _ _ HI a x L c Ha Hx Hc) as (Hc_in & _ & _).
      destruct (IH c ll (Some a) true res t' Hll Hndl Hc_in H)
        as (tp & y & k & pre & post & Hres & Htp_in & Htp_l & Hy & Hfree & Heq &
            Hpre & Hpost & Hnew).
      exists tp, y, k, pre, (post ++ a :: lr).
      split; [exact Hres|]. split; [exact Htp_in|].
      split; [apply elem_of_app; left; exact Htp_l|]. split; [exact Hy|].
      split; [exact Hfree|]. split; [rewrite Heq, <- app_assoc; reflexivity|].
      split; [exact Hpre|]. split.
      * intros c0 Hc0. destruct post as [|p0 post].
        -- injection Hc0 as <-. exists x. auto.
        -- apply Hpost. exact Hc0.
      * intros h' n' x' Hn' Hkn Hx' Hk' Hko Hsame.
        assert (Hatp : a <> tp) by (intros ->; contradiction).
        pose proof (Hsame a ltac:(apply elem_of_app; right; apply elem_of_cons; left;
                                  reflexivity) Hatp) as Hka.
        rewrite Hx in Hka. destruct (h' !! a) as [xa'|] eqn:Ha'; [|discriminate].
        injection Hka as Hkl Hkr.
        replace (pre ++ n :: post ++ a :: lr) with ((pre ++ n :: post) ++ a :: lr)
          by (rewrite <- app_assoc; reflexivity).
        eapply in_order_node; [exact Ha'| |].
        -- rewrite Hkl, Hc. apply (Hnew h' n' x' Hn' Hkn Hx' Hk' Hko).
           intros y0 Hy0 Hne. apply Hsame; [|exact Hne].
           apply elem_of_app. left. exact Hy0.
        -- rewrite Hkr. apply (in_order_ext _ _ _ _ Hlr). intros y0 Hy0.
           apply Hsame.
           ++ apply elem_of_app. right. apply elem_of_cons. right. exact Hy0.
           ++ intros ->. exact (Hlr' tp Htp_l Hy0).
    + assert (res = (Some a, true)) as ->.
      { destruct fl; cbn in H; injection H as <- _; reflexivity. }
      inversion Hll; subst.
      exists a, x, L, [], (a :: lr). cbn [app].
      split; [reflexivity|]. split; [exact Ha|].
      split; [apply elem_of_cons; left; reflexivity|]. split; [exact Hx|].
      split; [exact Hc|]. split; [reflexivity|].
      split; [intros b Hb; discriminate|]. split.
      * intros c0 [= <-]. exists x. auto.
      * intros h' n' x' Hn' Hkn Hx' Hk' Hko Hsame. cbn [child opp] in Hk', Hko.
        change (n :: a :: lr) with ([n] ++ a :: lr).
        eapply in_order_node; [exact Hx'|rewrite Hk'; exact (Hnew_leaf h' n' Hn' Hkn)|].
        rewrite Hko. apply (in_order_ext _ _ _ _ Hlr). intros y0 Hy0.
        apply Hsame; [apply elem_of_cons; right; exact Hy0|].
        intros ->. contradiction.
  - apply bool_decide_eq_false in Hlt.
    rewrite (bind_Ok _ _ _ _ _ (get_rchild_Ok _ _ _ Hx)) in H.
    destruct (rchild x) as [c|] eqn:Hc.
    + destruct (inv_child _ _ HI a x R c Ha Hx Hc) as (Hc_in & _ & _).
      destruct (IH c lr (Some a) false res t' Hlr Hndr Hc_in H)
        as (tp & y & k & pre & post & Hres & Htp_in & Htp_l & Hy & Hfree & Heq &
            Hpre & Hpost & Hnew).
      exists tp, y, k, (ll ++ a :: pre), post.
      split; [exact Hres|]. split; [exact Htp_in|].
      split; [apply elem_of_app; right; apply elem_of_cons; right; exact Htp_l|].
      split; [exact Hy|]. split; [exact Hfree|].
      split; [rewrite Heq, <- app_assoc; reflexivity|]. split; [|split; [exact Hpost|]].
      * intros b Hb. rewrite last_app, last_cons in Hb.
        destruct (last pre) as [b0|] eqn:Hlast.
        -- injection Hb as <-. apply Hpre. reflexivity.
        -- injection Hb as <-. exists x. auto.
      * intros h' n' x' Hn' Hkn Hx' Hk' Hko Hsame.
        assert (Hatp : a <> tp) by (intros ->; contradiction).
        pose proof (Hsame a ltac:(apply elem_of_app; right; apply elem_of_cons; left;
                                  reflexivity) Hatp) as Hka.
        rewrite Hx in Hka. destruct (h' !! a) as [xa'|] eqn:Ha'; [|discriminate].
        injection Hka as Hkl Hkr.
        rewrite <- app_assoc. cbn [app].
        eapply in_order_node; [exact Ha'| |].
        -- rewrite Hkl. apply (in_order_ext _ _ _ _ Hll). intros y0 Hy0.
           apply Hsame.
           ++ apply elem_of_app. left. exact Hy0.
           ++ intros ->. exact (Hlr' tp Hy0 Htp_l).
        -- rewrite Hkr, Hc. apply (Hnew h' n' x' Hn' Hkn Hx' Hk' Hko).
           intros y0 Hy0 Hne. apply Hsame; [|exact Hne].
           apply elem_of_app. right. apply elem_of_cons. right. exact Hy0.
    + assert (res = (Some a, false)) as ->.
      { destruct fl; cbn in H; injection H as <- _; reflexivity. }
      inversion Hlr; subst.
      exists a, x, R, (ll ++ [a]), [].
      split; [reflexivity|]. split; [exact Ha|].
      split; [apply elem_of_app; right; apply elem_of_cons; left; reflexivity|].
      split; [exact Hx|]. split; [exact Hc|].
      split; [rewrite <- app_assoc; reflexivity|]. split; [|split; [intros c0 Hc0; discriminate|]].
      * intros b Hb. rewrite last_snoc in Hb. injection Hb as <-. exists x. auto.
      * intros h' n' x' Hn' Hkn Hx' Hk' Hko Hsame. cbn [child opp] in Hk', Hko.
        rewrite <- app_assoc. cbn [app].
        eapply in_order_node; [exact Hx'| |rewrite Hk'; exact (Hnew_leaf h' n' Hn' Hkn)].
        rewrite Hko. apply (in_order_ext _ _ _ _ Hll). intros y0 Hy0.
        apply Hsame; [apply elem_of_app; left; exact Hy0|].
        intros ->. contradiction.
Qed.

Lemma Forall2_keys_fun (h : gmap ptr Node) l : forall ks ks',
  Forall2 (fun a k => (key <$> h !! a) = Some k) l ks ->
  Forall2 (fun a k => (key <$> h !! a) = Some k) l ks' -> ks = ks'.
Proof.
  induction l as [|a l IH]; intros ks ks' H H'.
  - inversion H; inversion H'; reflexivity.
  - inversion H as [|a1 k1 l1 ks1 Hk1 HF1]; subst.
    inversion H' as [|a2 k2 l2 ks2 Hk2 HF2]; subst.
    rewrite (IH _ _ HF1 HF2). congruence.
Qed.

(** For the shape of a tree, the keys along the in-order sequence never
    decrease exactly when I6 holds. *)
Lemma keys_in_order_shape f t s l :
  shape_of f t = Some s -> in_order (heap t) (root t) l ->
  (keys_in_order (heap t) l <-> nondecreasing (inorder s) = true).
Proof.
  intros Hs Hl. unfold shape_of in Hs.
  pose proof (in_order_fun _ _ _ (shape_in_order _ _ _ _ Hs) _ Hl) as <-.
  pose proof (shape_keys _ _ _ _ Hs) as HF. split.
  - intros (ks & HF' & Hnd). rewrite (Forall2_keys_fun _ _ _ _ HF HF'). exact Hnd.
  - intros Hnd. exists (inorder s). auto.
Qed.

(** A shape without a repeated address whose nodes name their parents is a
    tree with the in-order sequence of the shape. *)
Lemma shape_ordered fuel t s :
  shape_of fuel t = Some s -> parents_ok (heap t) None s -> NoDup (addrs s) ->
  ordered (list_to_set (addrs s)) (addrs s) t.
Proof.
  intros Hs Hp Hnd. split; [exact (shape_tree_inv fuel t s Hs Hp Hnd)|].
  split; [exact (shape_in_order _ _ _ _ Hs)|exact Hnd].
Qed.

Lemma ordered_nodes N l t : ordered N l t -> forall x, x ∈ l -> x ∈ N.
Proof.
  intros (HI & Hl & _) x Hx. destruct (root t) as [r|] eqn:Hr.
  - pose proof (inv_root _ _ HI r Hr) as Hr_in.
    destruct (inv_depth _ _ HI r Hr_in) as [d Hd].
    apply (in_order_depth N t HI _ _ Hl r d eq_refl Hr_in Hd x Hx).
  - inversion Hl; subst. inversion Hx.
Qed.

Lemma nondecreasing_cons_cons x y l :
  nondecreasing (x :: y :: l) = true <-> x <= y /\ nondecreasing (y :: l) = true.
Proof.
  cbn [nondecreasing]. rewrite andb_true_iff, bool_decide_eq_true. reflexivity.
Qed.

Lemma nondecreasing_insert k : forall k1 k2,
  nondecreasing (k1 ++ k2) = true ->
  (forall b, last k1 = Some b -> b <= k) ->
  (forall c, head k2 = Some c -> k <= c) ->
  nondecreasing (k1 ++ k :: k2) = true.
Proof.
  induction k1 as [|x k1 IH]; intros k2 Hs Hb Hc; cbn [app] in *.
  - destruct k2 as [|c k2]; [reflexivity|].
    apply nondecreasing_cons_cons. split; [apply Hc; reflexivity|exact Hs].
  - destruct k1 as [|y k1]; cbn [app] in *.
    + apply nondecreasing_cons_cons. split; [apply Hb; reflexivity|].
      apply (IH k2); [|intros b [=]|exact Hc].
      destruct k2 as [|c k2]; [reflexivity|].
      apply nondecreasing_cons_cons in Hs. tauto.
    + apply nondecreasing_cons_cons in Hs as [Hxy Hs].
      apply nondecreasing_cons_cons. split; [exact Hxy|].
      apply (IH k2 Hs); [|exact Hc].
      intros b Hlast. apply Hb. rewrite last_cons_cons. exact Hlast.
Qed.

Lemma keys_in_order_insert h h' pre post n nd :
  (forall i, (key <$> h' !! i) = (key <$> h !! i)) ->
  h !! n = Some nd ->
  (forall b, last pre = Some b -> exists xb, h !! b = Some xb /\ ~ key nd < key xb) ->
  (forall c, head post = Some c -> exists xc, h !! c = Some xc /\ key nd < key xc) ->
  keys_in_order h (pre ++ post) -> keys_in_order h' (pre ++ n :: post).
Proof.
  intros Hkeys Hn Hpre Hpost (ks & HF & Hs).
  apply Forall2_app_inv_l in HF as (k1 & k2 & HF1 & HF2 & ->).
  exists (k1 ++ key nd :: k2). split.
  - apply Forall2_app.
    + eapply Forall2_impl; [exact HF1|]. intros a k Hak. rewrite Hkeys. exact Hak.
    + constructor; [rewrite Hkeys, Hn; reflexivity|].
      eapply Forall2_impl; [exact HF2|]. intros a k Hak. rewrite Hkeys. exact Hak.
  - apply nondecreasing_insert; [exact Hs| |].
    + intros b Hb.
      destruct (last pre) as [a|] eqn:Hlast.
      * destruct (Hpre a eq_refl) as (xa & Hxa & Hle).
        pose proof (Forall2_last_key h pre k1 a xa HF1 Hlast Hxa) as Hk.
        rewrite Hb in Hk. injection Hk as ->. lia.
      * apply last_None in Hlast. subst pre. inversion HF1; subst. discriminate.
    + intros c Hc.
      destruct (head post) as [a|] eqn:Hhead.
      * destruct (Hpost a eq_refl) as (xa & Hxa & Hle).
        pose proof (Forall2_head_key h post k2 a xa HF2 Hhead Hxa) as Hk.
        rewrite Hc in Hk. injection Hk as ->. lia.
      * apply head_None in Hhead. subst post. inversion HF2; subst. discriminate.
Qed.

(** Lines 278-296 of [insert] on a tree that is not empty: the node is hung
    on a free side of a node of the tree, at a place of the in-order
    sequence where its key fits. *)
Lemma insert_attach_ordered N l fuel t n nd t1 :
  ordered N l t -> root t <> None -> n ∉ N ->
  heap t !! n = Some nd -> lchild nd = None -> rchild nd = None ->
  insert_attach fuel (Some n) t = Ok tt t1 ->
  exists tp x k pre post,
    t1 = attached n tp k t /\ tp ∈ N /\ heap t !! tp = Some x /\
    child k x = None /\ l = pre ++ post /\
    ordered (N ∪ {[n]}) (pre ++ n :: post) t1 /\
    (forall b, last pre = Some b ->
       exists xb, heap t !! b = Some xb /\ ~ key nd < key xb) /\
    (forall c, head post = Some c ->
       exists xc, heap t !! c = Some xc /\ key nd < key xc).
Proof.
  intros HO Hroot Hout Hn Hnl Hnr Hatt.
  pose proof HO as (HI & Hl & Hnd).
  destruct (root t) as [r|] eqn:Hr; [|destruct Hroot; reflexivity].
  unfold insert_attach in Hatt.
  rewrite (bind_Ok get_root _ t (root t) t eq_refl), Hr in Hatt.
  apply bind_Ok_inv in Hatt as (res & t0 & Hdesc & Hatt).
  pose proof (inv_root _ _ HI r Hr) as Hr_in.
  assert (t0 = t) as ->.
  { assert (Hrin : forall a, Some r = Some a -> a ∈ N) by (intros a [= <-]; exact Hr_in).
    exact (proj1 (insert_descend_inv N t n HI fuel (Some r) None true _ _ Hrin Hdesc)). }
  destruct (insert_descend_place N t n nd HI Hn fuel r l None true res t Hl Hnd Hr_in Hdesc)
    as (tp & x & k & pre & post & -> & Htp_in & Htp_l & Hx & Hfree & Heq &
        Hpre & Hpost & Hnew).
  assert (Hk : k = (if (match k with L => true | R => false end) then L else R))
    by (destruct k; reflexivity).
  cbv iota beta in Hatt.
  rewrite (attach_exec N t n tp k nd x Hout Hn Htp_in Hx Hfree _ Hk) in Hatt.
  injection Hatt as <-.
  pose proof (attached_inv N t n tp k nd x HI Hout Hn Hnl Hnr Htp_in Hx Hfree) as HI1.
  assert (Hn_l : n ∉ l).
  { intros Hc. apply Hout. exact (ordered_nodes N l t HO n Hc). }
  assert (Hne : n <> tp) by (intros ->; contradiction).
  pose proof (attached_lookup n tp k t nd x Hne Hn Hx) as Hlook.
  assert (Hl1 : in_order (heap (attached n tp k t)) (root (attached n tp k t))
                  (pre ++ n :: post)).
  { cbn [root attached]. rewrite Hr.
    apply (Hnew _ (set_color RED (set_parent (Some tp) nd)) (set_child k (Some n) x)).
    - rewrite Hlook. rewrite decide_True by done. reflexivity.
    - unfold kids. cbn. rewrite Hnl, Hnr. reflexivity.
    - rewrite Hlook. rewrite decide_False by congruence.
      rewrite decide_True by done. reflexivity.
    - rewrite child_set_child. rewrite decide_True by done. reflexivity.
    - rewrite child_set_child. rewrite decide_False by apply opp_ne. reflexivity.
    - intros y Hy Hytp. rewrite Hlook.
      rewrite decide_False by (intros ->; contradiction).
      rewrite decide_False by done. reflexivity. }
  assert (Hnd1 : NoDup (pre ++ n :: post)).
  { rewrite Heq in Hnd, Hn_l. apply NoDup_app in Hnd as (H1 & H2 & H3).
    apply NoDup_app. split; [exact H1|]. split.
    - intros y Hy Hy'. apply elem_of_cons in Hy' as [->|Hy'].
      + apply Hn_l. apply elem_of_app. left. exact Hy.
      + exact (H2 y Hy Hy').
    - apply NoDup_cons. split; [|exact H3].
      intros Hc. apply Hn_l. apply elem_of_app. right. exact Hc. }
  exists tp, x, k, pre, post. split; [reflexivity|].
  split; [exact Htp_in|]. split; [exact Hx|]. split; [exact Hfree|].
  split; [exact Heq|]. split; [exact (conj HI1 (conj Hl1 Hnd1))|].
  split; [exact Hpre|exact Hpost].
Qed.

(** X14: [insert] keeps the search order.  For a tree that is not empty,
    with the in-order sequence [l], and a node that is not in it and has no
    children: when [insert] returns, the result is a tree whose in-order
    sequence is [l] with the new node put in at one place, and if I6 held
    (the keys in in-order never decrease) it holds again. *)
Theorem insert_keeps_the_order :
  forall N l fuel t n nd t',
    ordered N l t -> root t <> None -> n ∉ N ->
    heap t !! n = Some nd -> lchild nd = None -> rchild nd = None ->
    insert fuel (Some n) t = Ok tt t' ->
    exists pre post,
      l = pre ++ post /\
      ordered (N ∪ {[n]}) (pre ++ n :: post) t' /\
      forall f s f' s',
        shape_of f t = Some s -> shape_of f' t' = Some s' ->
        nondecreasing (inorder s) = true -> nondecreasing (inorder s') = true.
Proof.
  intros N l fuel t n nd t' HO Hroot Hout Hn Hnl Hnr H.
  pose proof HO as (HI & Hl & Hnd).
  pose proof (keeps_field_insert key key_ignores_links key_ignores_color
                fuel (Some n) t tt t' H) as Hkeys.
  unfold insert in H.
  rewrite (bind_Ok get_root _ t (root t) t eq_refl) in H.
  destruct (root t) as [r|] eqn:Hr; [|destruct Hroot; reflexivity].
  apply bind_Ok_inv in H as ([] & t1 & Hatt & H).
  assert (Hroot' : root t <> None) by congruence.
  destruct (insert_attach_ordered N l fuel t n nd t1 HO Hroot' Hout Hn Hnl Hnr Hatt)
    as (tp & x & k & pre & post & -> & Htp_in & Hx & Hfree & Heq & HO1 &
        Hpre & Hpost).
  assert (Hnew_in : n ∈ N ∪ {[n]}).
  { apply elem_of_union. right. apply elem_of_singleton. reflexivity. }
  destruct (insert_fixup_keeps_order (N ∪ {[n]}) (pre ++ n :: post) fuel n Hnew_in
              (attached n tp k t) tt t' HO1 H) as [HO' _].
  exists pre, post. split; [exact Heq|]. split; [exact HO'|].
  intros f s f' s' Hs Hs' Hsorted.
  assert (Hlt : in_order (heap t) (root t) l) by (rewrite Hr; exact Hl).
  apply (keys_in_order_shape f' t' s' _ Hs' (proj1 (proj2 HO'))).
  apply (keys_in_order_shape f t s l Hs Hlt) in Hsorted. rewrite Heq in Hsorted.
  exact (keys_in_order_insert (heap t) (heap t') pre post n nd Hkeys Hn Hpre Hpost Hsorted).
Qed.

(** *** [remove] takes the node out of the sequence *)

(** The sequence below a node of a sequence is a segment of it. *)
Lemma in_order_infix h : forall q l,
  in_order h q l ->
  forall x, x ∈ l ->
  exists lx pre post, in_order h (Some x) lx /\ l = pre ++ lx ++ post.
Proof.
  induction 1 as [|a nd l r Ha Hl IHl Hr IHr]; intros x Hx; [inversion Hx|].
  apply elem_of_app in Hx as [Hx|Hx]; [|apply elem_of_cons in Hx as [->|Hx]].
  - destruct (IHl x Hx) as (lx & pre & post & Hlx & ->).
    exists lx, pre, (post ++ a :: r). split; [exact Hlx|].
    rewrite <- !app_assoc. reflexivity.
  - exists (l ++ a :: r), [], []. split; [eapply in_order_node; eauto|].
    rewrite app_nil_r. reflexivity.
  - destruct (IHr x Hx) as (lx & pre & post & Hlx & ->).
    exists lx, (l ++ a :: pre), post. split; [exact Hlx|].
    rewrite <- !app_assoc. reflexivity.
Qed.

Lemma NoDup_split_unique (x : ptr) : forall a1 b1 a2 b2,
  NoDup (a1 ++ x :: b1) -> a1 ++ x :: b1 = a2 ++ x :: b2 -> a1 = a2 /\ b1 = b2.
Proof.
  induction a1 as [|y a1 IH]; intros b1 a2 b2 Hnd Heq.
  - destruct a2 as [|z a2]; cbn in Heq.
    + injection Heq as ->. auto.
    + injection Heq as <- ->. apply NoDup_cons in Hnd as [Hc _]. destruct Hc.
      apply elem_of_app. right. apply elem_of_cons. left. reflexivity.
  - destruct a2 as [|z a2]; cbn in Heq.
    + injection Heq as -> <-. cbn in Hnd. apply NoDup_cons in Hnd as [Hc _]. destruct Hc.
      apply elem_of_app. right. apply elem_of_cons. left. reflexivity.
    + injection Heq as <- Heq. cbn in Hnd. apply NoDup_cons in Hnd as [_ Hnd].
      destruct (IH _ _ _ Hnd Heq) as [-> ->]. auto.
Qed.

Lemma leftmost_head h r y :
  leftmost h r y -> forall lr, in_order h (Some r) lr -> exists rest, lr = y :: rest.
Proof.
  induction 1 as [a x Ha Hl|a x c m Ha Hl Hm IH]; intros lr Hlr;
    inversion Hlr as [|a' x' ll lrr Hx' Hll Hlrr]; subst;
    assert (x' = x) as -> by congruence.
  - rewrite Hl in Hll. inversion Hll; subst. exists lrr. reflexivity.
  - rewrite Hl in Hll. destruct (IH ll Hll) as (rest & ->).
    exists (rest ++ a :: lrr). reflexivity.
Qed.

Lemma in_order_rename (f : ptr -> ptr) (S : gset ptr) h1 h2 :
  (forall a x, a ∈ S -> h1 !! a = Some x ->
     exists x', h2 !! f a = Some x' /\ forall k, child k x' = f <$> child k x) ->
  forall q lq, in_order h1 q lq -> (forall a, a ∈ lq -> a ∈ S) ->
  in_order h2 (f <$> q) (f <$> lq).
Proof.
  intros Hrec. induction 1 as [|a nd l r Ha Hl IHl Hr IHr]; intros Hin; [constructor|].
  destruct (Hrec a nd) as (x' & Hx' & Hkids); [|exact Ha|].
  { apply Hin. apply elem_of_app. right. apply elem_of_cons. left. reflexivity. }
  rewrite fmap_app, fmap_cons. cbn [fmap option_fmap option_map].
  eapply in_order_node; [exact Hx'| |].
  - change (lchild x') with (child L x'). rewrite (Hkids L). apply IHl. intros b Hb. apply Hin, elem_of_app. left. exact Hb.
  - change (rchild x') with (child R x'). rewrite (Hkids R). apply IHr. intros b Hb. apply Hin, elem_of_app. right.
    apply elem_of_cons. right. exact Hb.
Qed.

Lemma kids_repoint1_other u v x :
  lchild x <> Some u -> rchild x <> Some u -> repoint1 u v x = x.
Proof.
  intros Hl Hr. unfold repoint1.
  rewrite bool_decide_eq_false_2 by exact Hl.
  rewrite bool_decide_eq_false_2 by exact Hr. reflexivity.
Qed.

(** [transplant(u, v)] on a node whose only child, if any, is [v] takes [u]
    out of the sequence. *)
Lemma transplanted_in_order N l t u ud k :
  ordered N l t -> u ∈ N -> heap t !! u = Some ud ->
  child (opp k) ud = None ->
  exists pre post,
    l = pre ++ u :: post /\
    ordered (N ∖ {[u]}) (pre ++ post) (transplanted u (child k ud) ud t).
Proof.
  intros (HI & Hl & Hnd) Hu_in Hu Hnone.
  pose proof (transplanted_inv N t u ud k HI Hu_in Hu Hnone) as HI'.
  pose proof (transplanted_lookup N t u ud k HI Hu_in Hu) as Hlook.
  set (t' := transplanted u (child k ud) ud t) in *.
  destruct (inv_depth _ _ HI u Hu_in) as [du Hdu].
  assert (Hu_l : u ∈ l).
  { apply (reach_in_order t l u Hl). exact (depth_reach _ _ _ Hdu). }
  destruct (in_order_infix _ _ _ Hl u Hu_l) as (lu & pre0 & post0 & Hlu & Heq).
  destruct (in_order_side_inv _ k u ud lu Hu Hlu) as (lv & lo & -> & Hlv & Hlo).
  rewrite Hnone in Hlo. inversion Hlo; subst lo.
  pose proof (in_order_depth N t HI _ _ Hlu u du eq_refl Hu_in Hdu) as Hdeep.
  assert (Hlv_sub : forall x, x ∈ lv -> x ∈ side_app k u lv [])
    by (intros x Hx; apply elem_of_side_app; auto).
  assert (Hnotp : forall p, parent ud = Some p -> p ∉ side_app k u lv []).
  { intros p Hp Hc. destruct (Hdeep p Hc) as (_ & dx & Hdx & Hle).
    destruct (depth_parent t u ud p du Hdu Hu Hp) as (dp & -> & Hdp).
    pose proof (depth_fun _ _ _ Hdx _ Hdp). lia. }
  assert (Hlv' : in_order (heap t') (child k ud) lv).
  { apply (in_order_ext _ _ _ _ Hlv). intros x Hx. rewrite Hlook.
    destruct (heap t !! x) as [xd|]; [|reflexivity]. cbn. f_equal.
    unfold tp_node. destruct (decide (child k ud = Some x)); [reflexivity|].
    rewrite decide_False; [reflexivity|].
    intros Hp. exact (Hnotp x Hp (Hlv_sub x Hx)). }
  assert (Hsplit : exists a b, side_app k u lv [] = a ++ u :: b /\ lv = a ++ b).
  { destruct k; cbn.
    - exists lv, []. rewrite app_nil_r. auto.
    - exists [], lv. auto. }
  destruct Hsplit as (a & b & Hsa & Hsb).
  assert (Hres : in_order (heap t') (root t') (pre0 ++ lv ++ post0)).
  { destruct (parent ud) as [p|] eqn:Hp.
    - destruct (inv_parent_link N t u ud p HI Hu_in Hu Hp)
        as (Hp_in & pd & kp & Hpd & Hkp).
      destruct (inv_child _ _ HI p pd kp u Hp_in Hpd Hkp) as (_ & _ & Hother).
      assert (Hp_l : p ∈ l).
      { apply (reach_in_order t l p Hl). apply (reach_iff N t p HI), Hp_in. }
      assert (Hpu : p <> u).
      { intros ->. exact (inv_not_own_parent N t u ud HI Hu_in Hu Hp). }
      assert (Hpv : child k ud <> Some p).
      { intros Hc. apply (Hnotp p eq_refl). apply Hlv_sub.
        rewrite Hc in Hlv. exact (in_order_top _ _ _ Hlv). }
      assert (Hdiff : child L pd = Some u -> child R pd <> Some u).
      { intros HcL. destruct kp; cbn [opp] in Hother; [exact Hother|].
        intros _. exact (Hother HcL). }
      assert (Hp' : heap t' !! p = Some (repoint1 u (child k ud) pd)).
      { rewrite Hlook, Hpd. cbn. unfold tp_node.
        rewrite decide_False by exact Hpv. rewrite decide_True by exact Hp.
        reflexivity. }
      assert (Hkid_new : child kp (repoint1 u (child k ud) pd) = child k ud).
      { rewrite (child_repoint1 kp u _ pd Hdiff). rewrite decide_True by exact Hkp.
        reflexivity. }
      assert (Hkid_other : child (opp kp) (repoint1 u (child k ud) pd)
                           = child (opp kp) pd).
      { rewrite (child_repoint1 (opp kp) u _ pd Hdiff).
        rewrite decide_False by exact Hother. reflexivity. }
      assert (Hold' : in_order (heap t) (child kp pd) (side_app k u lv []))
        by (rewrite Hkp; exact Hlu).
      assert (Hnew' : in_order (heap t') (child kp (repoint1 u (child k ud) pd)) lv)
        by (rewrite Hkid_new; exact Hlv').
      destruct (in_order_slot (heap t) (heap t') p pd _ kp _ _ Hpd Hp' Hkid_other
                  Hold' Hnew' (root t) l Hl Hnd Hp_l) as (pre & post & Heq' & Hres).
      + intros x Hx Hxo Hxp. rewrite Hlook.
        destruct (heap t !! x) as [xd|]; [|reflexivity]. cbn. f_equal.
        unfold tp_node. destruct (decide (child k ud = Some x)); [reflexivity|].
        rewrite decide_False by congruence. reflexivity.
      + (* the two decompositions of [l] around [u] agree *)
        assert (E1 : l = (pre0 ++ a) ++ u :: (b ++ post0))
          by (rewrite Heq, Hsa; rewrite <- !app_assoc; reflexivity).
        assert (E2 : l = (pre ++ a) ++ u :: (b ++ post))
          by (rewrite Heq', Hsa; rewrite <- !app_assoc; reflexivity).
        assert (Hnd' : NoDup ((pre0 ++ a) ++ u :: (b ++ post0)))
          by (rewrite <- E1; exact Hnd).
        destruct (NoDup_split_unique u _ _ _ _ Hnd' (eq_trans (eq_sym E1) E2))
          as [Ha Hb].
        apply app_inv_tail in Ha. apply app_inv_head in Hb. subst pre0 post0.
        unfold t' at 2. unfold transplanted. cbn [root]. rewrite Hp. exact Hres.
    - destruct (depth_top N t u ud du HI Hu_in Hu Hp Hdu) as (Hrt & _).
      rewrite Hrt in Hl. pose proof (in_order_fun _ _ _ Hl _ Hlu) as Hlu'.
      rewrite Hlu' in Heq.
      assert (pre0 = [] /\ post0 = []) as [-> ->].
      { apply (f_equal length) in Heq. rewrite !length_app in Heq.
        destruct pre0, post0; cbn in Heq; try lia. auto. }
      cbn [app]. rewrite app_nil_r.
      unfold t' at 2. unfold transplanted. cbn [root]. rewrite Hp. exact Hlv'. }
  exists (pre0 ++ a), (b ++ post0).
  assert (Heq2 : l = (pre0 ++ a) ++ u :: b ++ post0).
  { rewrite Heq, Hsa. rewrite <- !app_assoc. reflexivity. }
  split; [exact Heq2|]. split; [exact HI'|]. split.
  - rewrite Hsb in Hres. rewrite <- !app_assoc. rewrite <- !app_assoc in Hres.
    exact Hres.
  - rewrite Heq2 in Hnd. apply NoDup_app in Hnd as (H1 & H2 & H3).
    apply NoDup_cons in H3 as (H3 & H4). apply NoDup_app.
    split; [exact H1|]. split; [|exact H4].
    intros x Hx Hx'. apply (H2 x Hx). apply elem_of_cons. right. exact Hx'.
Qed.

Lemma nondecreasing_tail x l : nondecreasing (x :: l) = true -> nondecreasing l = true.
Proof. intros H. exact (proj1 (nondecreasing_cons x l H)). Qed.

Lemma nondecreasing_delete k : forall k1 k2,
  nondecreasing (k1 ++ k :: k2) = true -> nondecreasing (k1 ++ k2) = true.
Proof.
  induction k1 as [|x k1 IH]; intros k2 H; cbn [app] in *.
  - exact (nondecreasing_tail _ _ H).
  - destruct (nondecreasing_cons x _ H) as [Hrest Hle].
    specialize (IH k2 Hrest).
    destruct (k1 ++ k2) as [|y rest] eqn:Heq; [reflexivity|].
    apply nondecreasing_cons_cons. split; [|exact IH].
    apply Hle. assert (Hy : y ∈ k1 ++ k2) by (rewrite Heq; apply elem_of_cons; auto).
    apply elem_of_app in Hy as [Hy|Hy]; apply elem_of_app; [left; exact Hy|].
    right. apply elem_of_cons. right. exact Hy.
Qed.

Lemma keys_in_order_delete h h' pre post n :
  (forall i, (key <$> h' !! i) = (key <$> h !! i)) ->
  keys_in_order h (pre ++ n :: post) -> keys_in_order h' (pre ++ post).
Proof.
  intros Hkeys (ks & HF & Hs).
  apply Forall2_app_inv_l in HF as (k1 & k2 & HF1 & HF2 & ->).
  apply Forall2_cons_inv_l in HF2 as (k & k2' & Hk & HF2 & ->).
  exists (k1 ++ k2'). split.
  - apply Forall2_app.
    + eapply Forall2_impl; [exact HF1|]. intros a k0 Hak. rewrite Hkeys. exact Hak.
    + eapply Forall2_impl; [exact HF2|]. intros a k0 Hak. rewrite Hkeys. exact Hak.
  - exact (nondecreasing_delete k k1 k2' Hs).
Qed.

Lemma fmap_renamed_id n y (s : list ptr) : n ∉ s -> renamed_ptr n y <$> s = s.
Proof.
  induction s as [|a s IH]; intros Hn; [reflexivity|].
  rewrite fmap_cons. rewrite IH.
  - unfold renamed_ptr. rewrite decide_False; [reflexivity|].
    intros ->. apply Hn. apply elem_of_cons. left. reflexivity.
  - intros Hc. apply Hn. apply elem_of_cons. right. exact Hc.
Qed.

(** The structural phase of [remove] on a node with two children. *)
Lemma spliced2_in_order N l t n l0 r y nd yd :
  ordered N l t -> n ∈ N -> heap t !! n = Some nd ->
  lchild nd = Some l0 -> rchild nd = Some r ->
  leftmost (heap t) r y -> heap t !! y = Some yd ->
  exists pre post,
    l = pre ++ n :: post /\
    ordered (N ∖ {[n]}) (pre ++ post) (spliced2 n y l0 r nd yd t).
Proof.
  intros HO Hin Hn Hl0 Hr Hlm Hy. pose proof HO as (HI & Hl & Hnd).
  pose proof (spliced2_inv N t n l0 r y nd yd HI Hin Hn Hl0 Hr Hlm Hy) as HI1.
  destruct (splice2_facts N t n l0 r y nd yd HI Hin Hn Hl0 Hr Hlm Hy)
    as (dn & dy & Hdn & _ & _ & _ & _ & _ & Hr_in & Hy_in & _ & Hyl & _).
  destruct (splice2_distinct N t n l0 r y nd yd HI Hin Hn Hl0 Hr Hlm Hy)
    as (Hny & _).
  (* [y] leaves the sequence *)
  destruct (transplanted_in_order N l t y yd R HO Hy_in Hy Hyl)
    as (pre2 & post2 & Heq2 & HOmid).
  cbn [child] in HOmid.
  set (t_mid := transplanted y (rchild yd) yd t) in *.
  set (t_fin := spliced2 n y l0 r nd yd t) in *.
  (* [n] gives its name to [y] *)
  assert (Hfin : in_order (heap t_fin) (root t_fin)
                   (renamed_ptr n y <$> (pre2 ++ post2))).
  { unfold t_fin.
    rewrite (splice2_root N t n l0 r y nd yd HI Hin Hn Hl0 Hr Hlm Hy).
    apply (in_order_rename (renamed_ptr n y) (N ∖ {[y]}) (heap t_mid)).
    - intros a x Ha Hx. destruct (decide (y = r)) as [Hyr|Hyr].
      + destruct (splice2_rec_adjacent N t n l0 r y nd yd HI Hin Hn Hl0 Hr Hlm Hy
                    Hyr a x Ha Hx) as (x' & H1 & _ & H3). eauto.
      + destruct (splice2_rec_far N t n l0 r y nd yd HI Hin Hn Hl0 Hr Hlm Hy
                    Hyr a x Ha Hx) as (x' & H1 & _ & H3). eauto.
    - exact (proj1 (proj2 HOmid)).
    - exact (ordered_nodes _ _ _ HOmid). }
  (* in [l] the node [y] comes right after [n] *)
  assert (Hn_l : n ∈ l).
  { apply (reach_in_order t l n Hl). exact (depth_reach _ _ _ Hdn). }
  destruct (in_order_infix _ _ _ Hl n Hn_l) as (ln & pre0 & post0 & Hln & Heq).
  inversion Hln as [|n' nd' la lr Hn' Hla Hlr]; subst n' ln.
  assert (nd' = nd) as -> by congruence.
  rewrite Hr in Hlr. destruct (leftmost_head _ r y Hlm lr Hlr) as (rest & ->).
  assert (E1 : l = (pre0 ++ la ++ [n]) ++ y :: (rest ++ post0))
    by (rewrite Heq; rewrite <- !app_assoc; reflexivity).
  assert (Hnd' : NoDup ((pre0 ++ la ++ [n]) ++ y :: (rest ++ post0)))
    by (rewrite <- E1; exact Hnd).
  destruct (NoDup_split_unique y _ _ _ _ Hnd' (eq_trans (eq_sym E1) Heq2))
    as [<- <-].
  assert (E2 : l = (pre0 ++ la) ++ n :: (y :: rest ++ post0))
    by (rewrite Heq; rewrite <- !app_assoc; reflexivity).
  assert (Hnd2 : NoDup ((pre0 ++ la) ++ n :: (y :: rest ++ post0)))
    by (rewrite <- E2; exact Hnd).
  apply NoDup_app in Hnd2 as (Hnd_a & Hdisj & Hnd_b).
  apply NoDup_cons in Hnd_b as (Hn_b & Hnd_b).
  assert (Hn_a : n ∉ pre0 ++ la).
  { intros Hc. apply (Hdisj n Hc). apply elem_of_cons. left. reflexivity. }
  assert (Hn_rest : n ∉ rest ++ post0).
  { intros Hc. apply Hn_b. apply elem_of_cons. right. exact Hc. }
  assert (Hlist : renamed_ptr n y <$> ((pre0 ++ la ++ [n]) ++ rest ++ post0)
                  = (pre0 ++ la) ++ y :: rest ++ post0).
  { rewrite (app_assoc pre0 la [n]). rewrite !fmap_app.
    rewrite <- (fmap_app _ pre0 la), <- (fmap_app _ rest post0).
    rewrite (fmap_renamed_id n y _ Hn_a), (fmap_renamed_id n y _ Hn_rest).
    cbn. unfold renamed_ptr at 1. rewrite decide_True by reflexivity.
    rewrite <- !app_assoc. reflexivity. }
  rewrite Hlist in Hfin.
  exists (pre0 ++ la), (y :: rest ++ post0). split; [exact E2|].
  split; [exact HI1|]. split; [exact Hfin|].
  apply NoDup_app. split; [exact Hnd_a|]. split; [|exact Hnd_b].
  intros x Hx Hx'. apply (Hdisj x Hx). apply elem_of_cons. right. exact Hx'.
Qed.

(** X16: [remove] keeps the search order.  When it returns on a node of a
    tree with the in-order sequence [l], the result is a tree whose in-order
    sequence is [l] without the removed node, and if I6 held (the keys in
    in-order never decrease) it holds again. *)
Theorem remove_keeps_the_order :
  forall N l fuel t n t',
    ordered N l t -> n ∈ N ->
    remove fuel (Some n) t = Ok tt t' ->
    exists pre post,
      l = pre ++ n :: post /\
      ordered (N ∖ {[n]}) (pre ++ post) t' /\
      forall f s f' s',
        shape_of f t = Some s -> shape_of f' t' = Some s' ->
        nondecreasing (inorder s) = true -> nondecreasing (inorder s') = true.
Proof.
  intros N l fuel t n t' HO Hin H. pose proof HO as (HI & Hl & Hnd).
  pose proof (keeps_field_remove key key_ignores_links key_ignores_color
                fuel (Some n) t tt t' H) as Hkeys.
  destruct (inv_alloc _ _ HI n Hin) as [nd Hn].
  assert (Hmain : exists pre post,
            l = pre ++ n :: post /\ ordered (N ∖ {[n]}) (pre ++ post) t').
  { unfold remove in H.
    apply bind_Ok_inv in H as (r0 & t0 & Hroot & H).
    apply readonly_get_root in Hroot. subst t0.
    apply bind_Ok_inv in H as (temp & t0 & Hdesc & H).
    apply readonly_remove_descend in Hdesc. subst t0.
    destruct (bool_decide (temp <> Some n)); [discriminate|].
    apply bind_Ok_inv in H as (spliced & t1 & Hsp & H).
    assert (Hfew : forall k, child (opp k) nd = None ->
              exists pre post,
                l = pre ++ n :: post /\ ordered (N ∖ {[n]}) (pre ++ post) t').
    { intros k Hnone.
      rewrite (remove_splice_few_exec N fuel t n nd k HI Hin Hn Hnone) in Hsp.
      injection Hsp as <- <-. cbn [snd] in H.
      rewrite bool_decide_eq_false_2 in H by discriminate. injection H as <-.
      exact (transplanted_in_order N l t n nd k HO Hin Hn Hnone). }
    destruct (lchild nd) as [l0|] eqn:Hl0; [|exact (Hfew R Hl0)].
    destruct (rchild nd) as [r|] eqn:Hr; [|exact (Hfew L Hr)].
    clear Hfew.
    assert (Hsucc : exists y, successor fuel (Some n) t = Ok (Some y) t /\
                              leftmost (heap t) r y).
    { pose proof Hsp as Hsp'. unfold remove_splice in Hsp'.
      rewrite (bind_Ok _ _ _ _ _ (get_lchild_Ok _ _ _ Hn)) in Hsp'.
      rewrite (bind_Ok _ _ _ _ _ (get_rchild_Ok _ _ _ Hn)) in Hsp'.
      rewrite Hl0, Hr in Hsp'.
      apply bind_Ok_inv in Hsp' as (yo & t2 & Hs & _).
      destruct (successor_right_inv _ _ _ _ _ _ _ Hn Hr Hs) as (-> & y & -> & Hlm).
      exists y. auto. }
    destruct Hsucc as (y & Hsucc & Hlm).
    destruct (inv_child _ _ HI n nd R r Hin Hn Hr) as (Hr_in & _ & _).
    destruct (inv_depth _ _ HI r Hr_in) as [dr Hdr].
    destruct (leftmost_facts N t r y HI Hlm dr Hr_in Hdr)
      as (Hy_in & yd & dy & Hy & _).
    rewrite (splice2_exec N t n l0 r y nd yd HI Hin Hn Hl0 Hr Hlm Hy fuel Hsucc) in Hsp.
    injection Hsp as <- <-.
    destruct (spliced2_in_order N l t n l0 r y nd yd HO Hin Hn Hl0 Hr Hlm Hy)
      as (pre & post & Heq & HO1).
    destruct (splice2_facts N t n l0 r y nd yd HI Hin Hn Hl0 Hr Hlm Hy)
      as (dn & dy' & _ & _ & _ & _ & _ & _ & _ & _ & _ & _ & _ & _ & Hxf & _ & _).
    destruct (splice2_distinct N t n l0 r y nd yd HI Hin Hn Hl0 Hr Hlm Hy)
      as (_ & _ & _ & _ & _ & _ & _ & _ & _ & HXn & _).
    exists pre, post. split; [exact Heq|].
    cbn [fst snd] in H. destruct (bool_decide (color yd = BLACK)).
    - apply (delete_fixup_keeps_order (N ∖ {[n]}) (pre ++ post) fuel (rchild yd))
        with (t := spliced2 n y l0 r nd yd t) (a := tt); [|exact HO1|exact H].
      intros a Ha. apply elem_of_difference. split; [apply (Hxf a Ha)|].
      rewrite not_elem_of_singleton. congruence.
    - injection H as <-. exact HO1. }
  destruct Hmain as (pre & post & Heq & HO').
  exists pre, post. split; [exact Heq|]. split; [exact HO'|].
  intros f s f' s' Hs Hs' Hsorted.
  apply (keys_in_order_shape f' t' s' _ Hs' (proj1 (proj2 HO'))).
  apply (keys_in_order_shape f t s l Hs Hl) in Hsorted. rewrite Heq in Hsorted.
  exact (keys_in_order_delete (heap t) (heap t') pre post n Hkeys Hsorted).
Qed.

(** X15: the rotations and the two fixups keep the in-order sequence of the
    nodes: when one of them returns on a node of a tree, the result is a
    tree with the same sequence. *)
Theorem fixups_keep_the_order :
  forall N l fuel t n node t',
    ordered N l t -> n ∈ N -> (forall a, node = Some a -> a ∈ N) ->
    left_rotate (Some n) t = Ok tt t' \/ right_rotate (Some n) t = Ok tt t' \/
    insert_fixup fuel (Some n) t = Ok tt t' \/ delete_fixup fuel node t = Ok tt t' ->
    ordered N l t'.
Proof.
  intros N l fuel t n node t' HO Hn Hnode [H|[H|[H|H]]].
  - exact (proj1 (keeps_order_rotate N l L n Hn t tt t' HO H)).
  - exact (proj1 (keeps_order_rotate N l R n Hn t tt t' HO H)).
  - exact (proj1 (insert_fixup_keeps_order N l fuel n Hn t tt t' HO H)).
  - exact (proj1 (delete_fixup_keeps_order N l fuel node Hnode t tt t' HO H)).
Qed.

(** ** [successor] and [predecessor] in the in-order sequence *)

Lemma minimum_loop_first t : forall f a cp res t' la,
  minimum_loop f (Some a) cp t = Ok res t' ->
  in_order (heap t) (Some a) la ->
  exists y rest, res = Some y /\ la = y :: rest.
Proof.
  induction f as [|f IH]; intros a cp res t' la H Hla; [discriminate|].
  cbn [minimum_loop] in H. apply bind_Ok_inv in H as (c & t0 & Hc & H).
  apply get_lchild_Ok_inv in Hc as (-> & x & Hx & ->).
  inversion Hla as [|a' x' ll lr Hx' Hll Hlr]; subst.
  assert (x' = x) as -> by congruence.
  destruct (lchild x) as [c|] eqn:Hc.
  - destruct (IH c (Some a) res t' ll H Hll) as (y & rest & -> & ->).
    exists y, (rest ++ a :: lr). auto.
  - inversion Hll; subst. exists a, lr.
    split; [destruct f; cbn in H; injection H as <- _; reflexivity|reflexivity].
Qed.

Lemma maximum_loop_final t : forall f a cp res t' la,
  maximum_loop f (Some a) cp t = Ok res t' ->
  in_order (heap t) (Some a) la ->
  exists y pre, res = Some y /\ la = pre ++ [y].
Proof.
  induction f as [|f IH]; intros a cp res t' la H Hla; [discriminate|].
  cbn [maximum_loop] in H. apply bind_Ok_inv in H as (c & t0 & Hc & H).
  apply get_rchild_Ok_inv in Hc as (-> & x & Hx & ->).
  inversion Hla as [|a' x' ll lr Hx' Hll Hlr]; subst.
  assert (x' = x) as -> by congruence.
  destruct (rchild x) as [c|] eqn:Hc.
  - destruct (IH c (Some a) res t' lr H Hlr) as (y & pre & -> & ->).
    exists y, (ll ++ a :: pre). split; [reflexivity|].
    rewrite <- app_assoc. reflexivity.
  - inversion Hlr; subst. exists a, ll.
    split; [destruct f; cbn in H; injection H as <- _; reflexivity|reflexivity].
Qed.

Section in_order_neighbours.
Context (N : gset ptr) (l : list ptr) (t : Tree) (n : ptr).
Hypothesis HO : ordered N l t.

Lemma ordered_subtree a :
  a ∈ N -> exists ad la pre post,
    heap t !! a = Some ad /\ in_order (heap t) (Some a) la /\ l = pre ++ la ++ post.
Proof.
  intros Ha. destruct HO as (HI & Hl & _).
  destruct (inv_alloc _ _ HI a Ha) as [ad Had].
  assert (Ha_l : a ∈ l).
  { apply (reach_in_order t l a Hl). apply (reach_iff N t a HI), Ha. }
  destruct (in_order_infix _ _ _ Hl a Ha_l) as (la & pre & post & Hla & Heq).
  exists ad, la, pre, post. auto.
Qed.

(** The climb of [successor] from a node below which [n] comes last. *)
Lemma successor_climb_next : forall f c cd lc res t1 pre,
  successor_climb f c (parent cd) t = Ok res t1 ->
  c ∈ N -> heap t !! c = Some cd ->
  in_order (heap t) (Some c) lc -> lc = pre ++ [n] ->
  exists pre' post', l = pre' ++ n :: post' /\ res = head post'.
Proof.
  destruct HO as (HI & Hl & Hnd).
  induction f as [|f IH]; intros c cd lc res t1 pre H Hc Hcd Hlc Hlast.
  - destruct (parent cd) as [p|] eqn:Hp; [discriminate|]. injection H as <- _.
    destruct (inv_depth _ _ HI c Hc) as [d Hd].
    destruct (depth_top N t c cd d HI Hc Hcd Hp Hd) as (Hrt & _).
    rewrite Hrt in Hl. rewrite (in_order_fun _ _ _ Hl _ Hlc), Hlast.
    exists pre, []. auto.
  - destruct (parent cd) as [p|] eqn:Hp.
    + destruct (inv_parent_link N t c cd p HI Hc Hcd Hp) as (Hp_in & pd & kp & Hpd & Hkp).
      destruct (inv_child _ _ HI p pd kp c Hp_in Hpd Hkp) as (_ & _ & Hother).
      destruct (ordered_subtree p Hp_in) as (pd' & lp & pre0 & post0 & Hpd' & Hlp & Heq).
      assert (pd' = pd) as -> by congruence.
      inversion Hlp as [|p' pd' ll lr Hpd'' Hll Hlr]; subst p' lp.
      assert (pd' = pd) as -> by congruence.
      cbn [successor_climb] in H.
      rewrite (bind_Ok _ _ _ _ _ (is_right_child_Ok _ _ _ _ _ Hcd Hp Hpd)) in H.
      destruct (bool_decide (rchild pd = Some c)) eqn:Hside.
      * apply bool_decide_eq_true in Hside.
        rewrite (bind_Ok _ _ _ _ _ (get_parent_Ok _ _ _ Hpd)) in H.
        rewrite Hside in Hlr. pose proof (in_order_fun _ _ _ Hlr _ Hlc) as ->.
        apply (IH p pd (ll ++ p :: lc) res t1 (ll ++ p :: pre) H Hp_in Hpd).
        -- eapply in_order_node; [exact Hpd|exact Hll|rewrite Hside; exact Hlc].
        -- rewrite Hlast, <- app_assoc. reflexivity.
      * apply bool_decide_eq_false in Hside. injection H as <- _.
        assert (Hleft : lchild pd = Some c).
        { destruct kp; cbn [child] in Hkp; [exact Hkp|contradiction]. }
        rewrite Hleft in Hll. pose proof (in_order_fun _ _ _ Hll _ Hlc) as ->.
        exists (pre0 ++ pre), (p :: lr ++ post0). split; [|reflexivity].
        rewrite Heq, Hlast. rewrite <- !app_assoc. reflexivity.
    + injection H as <- _.
      destruct (inv_depth _ _ HI c Hc) as [d Hd].
      destruct (depth_top N t c cd d HI Hc Hcd Hp Hd) as (Hrt & _).
      rewrite Hrt in Hl. rewrite (in_order_fun _ _ _ Hl _ Hlc), Hlast.
      exists pre, []. auto.
Qed.

(** The climb of [predecessor] from a node below which [n] comes first. *)
Lemma predecessor_climb_previous : forall f c cd lc res t1 post,
  predecessor_climb f c (parent cd) t = Ok res t1 ->
  c ∈ N -> heap t !! c = Some cd ->
  in_order (heap t) (Some c) lc -> lc = n :: post ->
  exists pre' post', l = pre' ++ n :: post' /\ res = last pre'.
Proof.
  destruct HO as (HI & Hl & Hnd).
  induction f as [|f IH]; intros c cd lc res t1 post H Hc Hcd Hlc Hfirst.
  - destruct (parent cd) as [p|] eqn:Hp; [discriminate|]. injection H as <- _.
    destruct (inv_depth _ _ HI c Hc) as [d Hd].
    destruct (depth_top N t c cd d HI Hc Hcd Hp Hd) as (Hrt & _).
    rewrite Hrt in Hl. rewrite (in_order_fun _ _ _ Hl _ Hlc), Hfirst.
    exists [], post. auto.
  - destruct (parent cd) as [p|] eqn:Hp.
    + destruct (inv_parent_link N t c cd p HI Hc Hcd Hp) as (Hp_in & pd & kp & Hpd & Hkp).
      destruct (inv_child _ _ HI p pd kp c Hp_in Hpd Hkp) as (_ & _ & Hother).
      destruct (ordered_subtree p Hp_in) as (pd' & lp & pre0 & post0 & Hpd' & Hlp & Heq).
      assert (pd' = pd) as -> by congruence.
      inversion Hlp as [|p' pd' ll lr Hpd'' Hll Hlr]; subst p' lp.
      assert (pd' = pd) as -> by congruence.
      cbn [predecessor_climb] in H.
      rewrite (bind_Ok _ _ _ _ _ (is_left_child_Ok _ _ _ _ _ Hcd Hp Hpd)) in H.
      destruct (bool_decide (lchild pd = Some c)) eqn:Hside.
      * apply bool_decide_eq_true in Hside.
        rewrite (bind_Ok _ _ _ _ _ (get_parent_Ok _ _ _ Hpd)) in H.
        rewrite Hside in Hll. pose proof (in_order_fun _ _ _ Hll _ Hlc) as ->.
        apply (IH p pd (lc ++ p :: lr) res t1 (post ++ p :: lr) H Hp_in Hpd).
        -- eapply in_order_node; [exact Hpd|rewrite Hside; exact Hlc|exact Hlr].
        -- rewrite Hfirst. reflexivity.
      * apply bool_decide_eq_false in Hside. injection H as <- _.
        assert (Hright : rchild pd = Some c).
        { destruct kp; cbn [child] in Hkp; [contradiction|exact Hkp]. }
        rewrite Hright in Hlr. pose proof (in_order_fun _ _ _ Hlr _ Hlc) as ->.
        exists (pre0 ++ ll ++ [p]), (post ++ post0). split.
        -- rewrite Heq, Hfirst. rewrite <- !app_assoc. reflexivity.
        -- rewrite !app_assoc. rewrite last_snoc. reflexivity.
    + injection H as <- _.
      destruct (inv_depth _ _ HI c Hc) as [d Hd].
      destruct (depth_top N t c cd d HI Hc Hcd Hp Hd) as (Hrt & _).
      rewrite Hrt in Hl. rewrite (in_order_fun _ _ _ Hl _ Hlc), Hfirst.
      exists [], post. auto.
Qed.

Lemma successor_next fuel res t1 :
  n ∈ N -> successor fuel (Some n) t = Ok res t1 ->
  exists pre post, l = pre ++ n :: post /\ res = head post.
Proof.
  intros Hn H.
  destruct (ordered_subtree n Hn) as (nd & ln & pre0 & post0 & Hnd & Hln & Heq).
  inversion Hln as [|n' nd' la lr Hnd' Hla Hlr]; subst n' ln.
  assert (nd' = nd) as -> by congruence.
  unfold successor in H.
  rewrite (bind_Ok _ _ _ _ _ (get_rchild_Ok _ _ _ Hnd)) in H.
  destruct (rchild nd) as [r|] eqn:Hr.
  - destruct (minimum_loop_first t fuel r None res t1 lr H Hlr) as (y & rest & -> & ->).
    exists (pre0 ++ la), (y :: rest ++ post0). split; [|reflexivity].
    rewrite Heq. rewrite <- !app_assoc. reflexivity.
  - inversion Hlr; subst lr.
    rewrite (bind_Ok _ _ _ _ _ (get_parent_Ok _ _ _ Hnd)) in H.
    apply (successor_climb_next fuel n nd (la ++ [n]) res t1 la H Hn Hnd); [|reflexivity].
    eapply in_order_node; [exact Hnd|exact Hla|rewrite Hr; constructor].
Qed.

Lemma predecessor_previous fuel res t1 :
  n ∈ N -> predecessor fuel (Some n) t = Ok res t1 ->
  exists pre post, l = pre ++ n :: post /\ res = last pre.
Proof.
  intros Hn H.
  destruct (ordered_subtree n Hn) as (nd & ln & pre0 & post0 & Hnd & Hln & Heq).
  inversion Hln as [|n' nd' la lr Hnd' Hla Hlr]; subst n' ln.
  assert (nd' = nd) as -> by congruence.
  unfold predecessor in H.
  rewrite (bind_Ok _ _ _ _ _ (get_lchild_Ok _ _ _ Hnd)) in H.
  destruct (lchild nd) as [c|] eqn:Hc.
  - destruct (maximum_loop_final t fuel c None res t1 la H Hla) as (y & pre & -> & ->).
    exists (pre0 ++ pre ++ [y]), (lr ++ post0). split.
    + rewrite Heq. rewrite <- !app_assoc. reflexivity.
    + rewrite !app_assoc. rewrite last_snoc. reflexivity.
  - inversion Hla; subst la.
    rewrite (bind_Ok _ _ _ _ _ (get_parent_Ok _ _ _ Hnd)) in H.
    apply (predecessor_climb_previous fuel n nd (n :: lr) res t1 lr H Hn Hnd);
      [|reflexivity].
    change (n :: lr) with ([] ++ n :: lr).
    eapply in_order_node; [exact Hnd|rewrite Hc; constructor|exact Hlr].
Qed.
End in_order_neighbours.

(** With a loop budget that covers the height of the tree, [successor] and
    [predecessor] return on every node of the tree. *)
Lemma successor_predecessor_return fuel t s n :
  shape_of fuel t = Some s -> parents_ok (heap t) None s -> n ∈ addrs s ->
  (exists res, successor fuel (Some n) t = Ok res t) /\
  (exists res, predecessor fuel (Some n) t = Ok res t).
Proof.
  intros Hs Hp Hin.
  destruct (shape_from_at _ n _ _ _ Hs Hin) as (nd & sl & sr & Hn & Hl & Hr).
  destruct (parent_chain_in_tree _ _ _ _ Hs Hp Hin) as (d & Hd & Hlt).
  split.
  - unfold successor. rewrite (bind_Ok _ _ _ _ _ (get_rchild_Ok _ _ _ Hn)).
    destruct (rchild nd) as [r|] eqn:Hrc.
    + destruct (minimum_loop_leftmost t fuel r sr None Hr) as (m & Hm & _).
      exists (Some m). exact Hm.
    + rewrite (bind_Ok _ _ _ _ _ (get_parent_Ok _ _ _ Hn)).
      destruct (successor_climb_chain t n d Hd fuel nd ltac:(lia) Hn) as (res & Hres & _).
      exists res. exact Hres.
  - unfold predecessor. rewrite (bind_Ok _ _ _ _ _ (get_lchild_Ok _ _ _ Hn)).
    destruct (lchild nd) as [c|] eqn:Hlc.
    + destruct (maximum_loop_rightmost t fuel c sl None Hl) as (m & Hm & _).
      exists (Some m). exact Hm.
    + rewrite (bind_Ok _ _ _ _ _ (get_parent_Ok _ _ _ Hn)).
      destruct (predecessor_climb_chain t n d Hd fuel nd ltac:(lia) Hn) as (res & Hres & _).
      exists res. exact Hres.
Qed.

(** X17: [successor] and [predecessor] walk the in-order sequence.  In a
    tree of height at most [fuel] whose nodes name their parents and are
    pairwise distinct, for every node [n]: [successor] returns the node that
    follows [n] in the in-order sequence of the nodes, and the empty pointer
    when [n] is the last one; [predecessor] returns the node before [n], and
    the empty pointer when [n] is the first one.  Both leave the tree as it
    is. *)
Theorem successor_predecessor_in_order :
  forall fuel t s n,
    shape_of fuel t = Some s -> parents_ok (heap t) None s -> NoDup (addrs s) ->
    n ∈ addrs s ->
    exists pre post,
      addrs s = pre ++ n :: post /\
      successor fuel (Some n) t = Ok (head post) t /\
      predecessor fuel (Some n) t = Ok (last pre) t.
Proof.
  intros fuel t s n Hs Hp Hnd Hin.
  pose proof (shape_ordered fuel t s Hs Hp Hnd) as HO.
  assert (Hn : n ∈ (list_to_set (addrs s) : gset ptr))
    by (apply elem_of_list_to_set; exact Hin).
  destruct (successor_predecessor_return fuel t s n Hs Hp Hin)
    as ((rs & Hsucc) & (rp & Hpred)).
  destruct (successor_next _ _ t n HO fuel rs t Hn Hsucc) as (pre & post & Heq & ->).
  destruct (predecessor_previous _ _ t n HO fuel rp t Hn Hpred)
    as (pre' & post' & Heq' & ->).
  exists pre, post. split; [exact Heq|]. split; [exact Hsucc|].
  assert (Hnd' : NoDup (pre ++ n :: post)) by (rewrite <- Heq; exact Hnd).
  assert (pre' = pre) as <-; [|exact Hpred].
  rewrite Heq in Heq'.
  destruct (NoDup_split_unique _ _ _ _ _ Hnd' Heq') as [E _]. symmetry. exact E.
Qed.

(** ** The colors after an insertion *)

Lemma insert_fixup_body_side node node_p t :
  insert_fixup_body node node_p t =
  (node_p_p <- get_parent node_p ;;
   il <- is_left_child node_p ;;
   insert_fixup_side (if il : bool then L else R) node node_p node_p_p) t.
Proof.
  unfold insert_fixup_body, bind.
  destruct (get_parent node_p t) as [node_p_p t1| | |]; try reflexivity.
  destruct (is_left_child node_p t1) as [il t2| | |]; try reflexivity.
  destruct il; reflexivity.
Qed.

Lemma color_at_Some h a nd : h !! a = Some nd -> color_at h (Some a) = color nd.
Proof. intros H. cbn. rewrite H. reflexivity. Qed.

Lemma color_set_child d v x : color (set_child d v x) = color x.
Proof. destruct d; reflexivity. Qed.

Lemma child_set_color k c x : child k (set_color c x) = child k x.
Proof. destruct k; reflexivity. Qed.

Lemma rot_color d n r nd rn i x : color (rot_node d n r nd rn i x) = color x.
Proof. unfold rot_node, repoint. repeat case_decide; destruct d; reflexivity. Qed.

(** *** The nodes around a node of a tree *)

Section kin.
Context (N : gset ptr) (t : Tree).
Hypothesis HI : tree_inv N t.

Lemma kid_in a x k c :
  a ∈ N -> heap t !! a = Some x -> child k x = Some c ->
  c ∈ N /\ exists cd, heap t !! c = Some cd /\ parent cd = Some a.
Proof.
  intros Ha Hx Hk. destruct (inv_child _ _ HI a x k c Ha Hx Hk) as (Hc & Hp & _).
  split; [exact Hc|]. destruct (heap t !! c) as [cd|]; [|discriminate].
  injection Hp as Hp. eauto.
Qed.

Lemma kid_ne a x k c :
  a ∈ N -> heap t !! a = Some x -> child k x = Some c -> c <> a.
Proof.
  intros Ha Hx Hk. destruct (inv_depth _ _ HI a Ha) as [da Hd].
  pose proof (depth_child N t a x k c da HI Ha Hx Hk Hd) as Hdc.
  eapply depth_neq; eauto; lia.
Qed.

Lemma kid_parent a x k c a' x' k' :
  a ∈ N -> heap t !! a = Some x -> child k x = Some c ->
  a' ∈ N -> heap t !! a' = Some x' -> child k' x' = Some c -> a' = a.
Proof.
  intros Ha Hx Hk Ha' Hx' Hk'.
  destruct (kid_in a x k c Ha Hx Hk) as (_ & cd & Hcd & Hp).
  destruct (kid_in a' x' k' c Ha' Hx' Hk') as (_ & cd' & Hcd' & Hp').
  congruence.
Qed.

Lemma kid_side a x k k' c :
  a ∈ N -> heap t !! a = Some x -> child k x = Some c -> child k' x = Some c ->
  k' = k.
Proof.
  intros Ha Hx Hk Hk'. destruct (decide (k' = k)) as [E|E]; [exact E|].
  apply side_ne_opp in E. subst k'.
  destruct (inv_child _ _ HI a x k c Ha Hx Hk) as (_ & _ & Hne). contradiction.
Qed.

(** A node without a parent is the root. *)
Lemma orphan_root a x :
  a ∈ N -> heap t !! a = Some x -> parent x = None -> root t = Some a.
Proof.
  intros Ha Hx Hp. destruct (inv_depth _ _ HI a Ha) as [da Hd].
  exact (proj1 (depth_top N t a x da HI Ha Hx Hp Hd)).
Qed.

(** In a tree with a BLACK root, a RED node has a parent. *)
Lemma red_has_parent a x :
  black_root t -> a ∈ N -> heap t !! a = Some x -> color x = RED ->
  exists g gd k, parent x = Some g /\ g ∈ N /\ heap t !! g = Some gd /\
                 child k gd = Some a.
Proof.
  intros Hroot Ha Hx Hc. destruct (parent x) as [g|] eqn:Hp.
  - destruct (inv_parent_link N t a x g HI Ha Hx Hp) as (Hg & gd & k & Hgd & Hk).
    exists g, gd, k. auto.
  - pose proof (orphan_root a x Ha Hx Hp) as Hr. unfold black_root in Hroot.
    rewrite Hr, (color_at_Some _ _ _ Hx), Hc in Hroot. discriminate.
Qed.
End kin.

(** *** The colors after a rotation *)

Section rotation_colors.
Context (d : side) (N : gset ptr) (t : Tree) (n r : ptr) (nd rn : Node).
Hypothesis HI : tree_inv N t.
Hypothesis Hn_in : n ∈ N.
Hypothesis Hn : heap t !! n = Some nd.
Hypothesis Hr : child (opp d) nd = Some r.
Hypothesis Hrn : heap t !! r = Some rn.

Lemma rotated_color_at p :
  color_at (heap (rotated d n r nd rn t)) p = color_at (heap t) p.
Proof.
  destruct p as [a|]; [|reflexivity]. cbn [color_at].
  rewrite (rotated_lookup d N t n r nd rn HI Hn_in Hn Hr Hrn a).
  destruct (heap t !! a) as [x|]; [|reflexivity]. cbn. apply rot_color.
Qed.

Lemma rotated_node a x :
  heap t !! a = Some x ->
  heap (rotated d n r nd rn t) !! a = Some (rot_node d n r nd rn a x).
Proof.
  intros Hx. rewrite (rotated_lookup d N t n r nd rn HI Hn_in Hn Hr Hrn a), Hx.
  reflexivity.
Qed.
End rotation_colors.

(** *** A rotation on a RED node with a RED child

    The black heights stay as they are, and the RED child with a RED parent
    is now the node the rotation was called on. *)

Section rotate_two_red.
Context (d : side) (N : gset ptr) (t : Tree) (n r : ptr) (nd rn : Node)
        (b : ptr -> nat).
Hypothesis HI : tree_inv N t.
Hypothesis Hn_in : n ∈ N.
Hypothesis Hn : heap t !! n = Some nd.
Hypothesis Hr : child (opp d) nd = Some r.
Hypothesis Hrn : heap t !! r = Some rn.
Hypothesis HB : balanced N t b.
Hypothesis HR : red_ok N t (Some r).
Hypothesis Hroot : black_root t.
Hypothesis Hnc : color nd = RED.
Hypothesis Hrc : color rn = RED.

Lemma rotate_red_balanced : balanced N (rotated d n r nd rn t) b.
Proof.
  destruct (rot_r_in d N t n r nd rn HI Hn_in Hn Hr Hrn) as [Hr_in Hrp].
  pose proof (HB n nd (opp d) Hn_in Hn) as Hbn. rewrite Hr, Hnc in Hbn.
  cbn in Hbn.
  intros a x' k Ha Hx'.
  apply (rotated_Some d N t n r nd rn HI Hn_in Hn Hr Hrn) in Hx' as (x & Hx & ->).
  rewrite rot_color, (rot_child d n r nd rn Hr k a x).
  pose proof (HB a x k Ha Hx) as Hba.
  destruct (decide (a = r)) as [->|Har].
  { assert (x = rn) as -> by congruence.
    destruct (decide (k = d)) as [->|Hk]; [|exact Hba].
    cbn [bh_at]. rewrite Hrc. cbn. lia. }
  destruct (decide (a = n)) as [->|Han].
  { assert (x = nd) as -> by congruence.
    destruct (decide (k = opp d)) as [->|Hk]; [|exact Hba].
    pose proof (HB r rn d Hr_in Hrn) as Hbr. rewrite Hrc in Hbr. rewrite Hnc.
    cbn in *. lia. }
  destruct (decide (child d rn = Some a)); [exact Hba|].
  destruct (decide (parent nd = Some a)); [|exact Hba].
  destruct (decide (child k x = Some n)) as [Hkn|]; [|exact Hba].
  rewrite Hkn in Hba. cbn [bh_at] in *. lia.
Qed.

Lemma rotate_red_red_ok : red_ok N (rotated d n r nd rn t) (Some n).
Proof.
  destruct (rot_r_in d N t n r nd rn HI Hn_in Hn Hr Hrn) as [Hr_in Hrp].
  destruct (rot_distinct d N t n r nd rn HI Hn_in Hn Hr Hrn) as (Hnr & _ & _).
  intros a x' k c Ha Hx' Hc Hk Hne.
  apply (rotated_Some d N t n r nd rn HI Hn_in Hn Hr Hrn) in Hx' as (x & Hx & ->).
  rewrite rot_color in Hc. rewrite (rot_child d n r nd rn Hr k a x) in Hk.
  rewrite (rotated_color_at d N t n r nd rn HI Hn_in Hn Hr Hrn).
  assert (Hold : forall k0, child k0 x = Some c -> c <> r ->
                   color_at (heap t) (Some c) = BLACK).
  { intros k0 Hk0 Hcr. apply (HR a x k0 c Ha Hx Hc Hk0). congruence. }
  assert (Hnot_r : a <> n -> forall k0, child k0 x = Some c -> c <> r).
  { intros Han k0 Hk0 ->. apply Han.
    exact (kid_parent N t HI n nd (opp d) r a x k0 Hn_in Hn Hr Ha Hx Hk0). }
  destruct (decide (a = r)) as [->|Har].
  { assert (x = rn) as -> by congruence. destruct (decide (k = d)) as [->|Hkd].
    - congruence.
    - apply (Hold k Hk). exact (kid_ne N t HI r rn k c Hr_in Hrn Hk). }
  destruct (decide (a = n)) as [->|Han].
  { assert (x = nd) as -> by congruence.
    destruct (decide (k = opp d)) as [->|Hkd].
    - apply (HR r rn d c Hr_in Hrn Hrc Hk). intros [= ->].
      exact (kid_ne N t HI r rn d r Hr_in Hrn Hk eq_refl).
    - apply (Hold k Hk). intros ->. apply Hkd.
      exact (kid_side N t HI n nd (opp d) k r Hn_in Hn Hr Hk). }
  destruct (decide (child d rn = Some a)) as [_|_];
    [exact (Hold k Hk (Hnot_r Han k Hk))|].
  destruct (decide (parent nd = Some a)) as [Hpa|_];
    [|exact (Hold k Hk (Hnot_r Han k Hk))].
  destruct (decide (child k x = Some n)) as [Hkn|_];
    [|exact (Hold k Hk (Hnot_r Han k Hk))].
  exfalso. assert (Hne' : Some n <> Some r) by congruence.
  pose proof (HR a x k n Ha Hx Hc Hkn Hne') as Hbad.
  rewrite (color_at_Some _ _ _ Hn), Hnc in Hbad. discriminate.
Qed.

Lemma rotate_red_root : black_root (rotated d n r nd rn t).
Proof.
  unfold black_root.
  rewrite (rotated_color_at d N t n r nd rn HI Hn_in Hn Hr Hrn).
  unfold rotated. cbn [root].
  destruct (parent nd) as [p|] eqn:Hp; [exact Hroot|].
  exfalso. pose proof (orphan_root N t HI n nd Hn_in Hn Hp) as Hrt.
  unfold black_root in Hroot.
  rewrite Hrt, (color_at_Some _ _ _ Hn), Hnc in Hroot. discriminate.
Qed.
End rotate_two_red.

(** *** Recoloring and rotating: Case 3 of [insert_fixup]

    The node [n] is BLACK, its child [r] on the side opposite to [e] is RED
    and has the RED child [x] on the same side; the other child of [n] is
    BLACK.  After [r] is colored BLACK, [n] RED and [n] rotated towards [e],
    no RED node has a RED child. *)

Lemma recolored_lookup n r t i :
  n <> r ->
  heap (recolored n r t) !! i =
  (if decide (i = n) then set_color RED
   else if decide (i = r) then set_color BLACK else id) <$> heap t !! i.
Proof.
  intros Hnr. unfold recolored. cbn [heap].
  destruct (decide (i = n)) as [->|Hin].
  - rewrite lookup_alter_eq, lookup_alter_ne by done. reflexivity.
  - rewrite lookup_alter_ne by done. destruct (decide (i = r)) as [->|Hir].
    + rewrite lookup_alter_eq. reflexivity.
    + rewrite lookup_alter_ne by done. rewrite option_fmap_id. reflexivity.
Qed.

Lemma recolored_same_links n r t : n <> r -> same_links t (recolored n r t).
Proof.
  intros Hnr. split; [reflexivity|]. intros i. rewrite (recolored_lookup n r t i Hnr).
  destruct (heap t !! i) as [x|]; [|reflexivity]. cbn.
  repeat case_decide; reflexivity.
Qed.

Lemma root_no_parent N t a x :
  tree_inv N t -> root t = Some a -> heap t !! a = Some x -> parent x = None.
Proof.
  intros HI Hr Hx.
  assert (Hup : forall c dc, depth t c dc ->
            exists a0 x0, root t = Some a0 /\ heap t !! a0 = Some x0 /\
                          parent x0 = None).
  { induction 1 as [c y Hc Hy Hp|c y p py k dc Hc Hp Hpy Hk Hd IH]; eauto. }
  destruct (inv_depth _ _ HI a (inv_root _ _ HI a Hr)) as [da Hd].
  destruct (Hup a da Hd) as (a0 & x0 & Hr0 & Hx0 & Hp0). congruence.
Qed.

Section promote.
Context (e : side) (N : gset ptr) (t : Tree) (n r x : ptr) (nd rn xd : Node)
        (b : ptr -> nat).
Hypothesis HI : tree_inv N t.
Hypothesis Hn_in : n ∈ N.
Hypothesis Hn : heap t !! n = Some nd.
Hypothesis Hr : child (opp e) nd = Some r.
Hypothesis Hrn : heap t !! r = Some rn.
Hypothesis HB : balanced N t b.
Hypothesis HR : red_ok N t (Some x).
Hypothesis Hroot : black_root t.
Hypothesis Hrc : color rn = RED.
Hypothesis Hx : child (opp e) rn = Some x.
Hypothesis Hxd : heap t !! x = Some xd.
Hypothesis Hxc : color xd = RED.
Hypothesis Hu : color_at (heap t) (child e nd) = BLACK.

Local Abbreviation t2 := (recolored n r t).
Local Abbreviation nd2 := (set_color RED nd).
Local Abbreviation rn2 := (set_color BLACK rn).
Local Abbreviation t' := (rotated e n r nd2 rn2 t2).

(** The numbers of BLACK nodes below the nodes after the step. *)
Local Abbreviation b' :=
  (fun i => if decide (i = r) then S (b r) else if decide (i = n) then b r else b i).

Lemma promote_r_in : r ∈ N.
Proof. exact (proj1 (kid_in N t HI n nd (opp e) r Hn_in Hn Hr)). Qed.

Lemma promote_ne : n <> r.
Proof. intros E. exact (kid_ne N t HI n nd (opp e) r Hn_in Hn Hr (eq_sym E)). Qed.

Lemma promote_x_ne : x <> r /\ x <> n.
Proof.
  pose proof promote_r_in as Hr_in. split.
  - exact (kid_ne N t HI r rn (opp e) x Hr_in Hrn Hx).
  - intros ->.
    destruct (inv_depth _ _ HI n Hn_in) as [dn Hd].
    pose proof (depth_child N t n nd (opp e) r dn HI Hn_in Hn Hr Hd) as Hdr.
    pose proof (depth_child N t r rn (opp e) n (S dn) HI Hr_in Hrn Hx Hdr) as Hdn.
    pose proof (depth_fun _ _ _ Hd _ Hdn). lia.
Qed.

Lemma promote_black : color nd = BLACK.
Proof.
  destruct (color nd) eqn:Hc; [exfalso|reflexivity].
  assert (Hne : Some r <> Some x).
  { intros [= E]. destruct promote_x_ne as [Hxr _]. congruence. }
  pose proof (HR n nd (opp e) r Hn_in Hn Hc Hr Hne) as Hbad.
  rewrite (color_at_Some _ _ _ Hrn), Hrc in Hbad. discriminate.
Qed.

Lemma recolored_inv : tree_inv N t2.
Proof. exact (same_links_inv N t t2 HI (recolored_same_links n r t promote_ne)). Qed.

Lemma recolored_n : heap t2 !! n = Some nd2.
Proof.
  rewrite (recolored_lookup n r t n promote_ne), Hn. cbn.
  rewrite decide_True by reflexivity. reflexivity.
Qed.

Lemma recolored_r : heap t2 !! r = Some rn2.
Proof.
  rewrite (recolored_lookup n r t r promote_ne), Hrn. cbn.
  rewrite decide_False by (intros E; exact (promote_ne (eq_sym E))).
  rewrite decide_True by reflexivity. reflexivity.
Qed.

Lemma recolored_child : child (opp e) nd2 = Some r.
Proof. rewrite child_set_color. exact Hr. Qed.

Lemma promote_exec : rotate e (Some n) t2 = Ok tt t'.
Proof.
  exact (rotate_inv_exec e N t2 n r nd2 rn2 recolored_inv Hn_in recolored_n
           recolored_child recolored_r).
Qed.

Lemma promoted_inv : tree_inv N t'.
Proof.
  exact (rotated_inv e N t2 n r nd2 rn2 recolored_inv Hn_in recolored_n
           recolored_child recolored_r).
Qed.

(** The record of a node after the step, from its record before. *)
Lemma promoted_Some a y' :
  heap t' !! a = Some y' ->
  exists y, heap t !! a = Some y /\
    color y' = (if decide (a = n) then RED
                else if decide (a = r) then BLACK else color y) /\
    forall k, child k y' =
      if decide (a = r) then (if decide (k = e) then Some n else child k y)
      else if decide (a = n)
      then (if decide (k = opp e) then child e rn else child k y)
      else if decide (child e rn = Some a) then child k y
      else if decide (parent nd = Some a)
      then (if decide (child k y = Some n) then Some r else child k y)
      else child k y.
Proof.
  intros Hy'.
  apply (rotated_Some e N t2 n r nd2 rn2 recolored_inv Hn_in recolored_n
           recolored_child recolored_r) in Hy' as (y2 & Hy2 & ->).
  rewrite (recolored_lookup n r t a promote_ne) in Hy2.
  destruct (heap t !! a) as [y|]; [|discriminate]. injection Hy2 as <-.
  exists y. split; [reflexivity|].
  assert (Hck : forall k, child k ((if decide (a = n) then set_color RED
                  else if decide (a = r) then set_color BLACK else id) y)
                = child k y).
  { intros k. repeat case_decide; try apply child_set_color; reflexivity. }
  split.
  - rewrite rot_color. repeat case_decide; reflexivity.
  - intros k. rewrite (rot_child e n r nd2 rn2 recolored_child k a).
    rewrite !Hck, child_set_color. reflexivity.
Qed.

Lemma promoted_black c :
  c <> n -> (c <> r -> color_at (heap t) (Some c) = BLACK) ->
  color_at (heap t') (Some c) = BLACK.
Proof.
  intros Hcn Hc. cbn [color_at].
  destruct (heap t' !! c) as [y'|] eqn:Hy'; [|reflexivity].
  destruct (promoted_Some c y' Hy') as (y & Hy & Hcol & _). rewrite Hcol.
  rewrite decide_False by exact Hcn.
  destruct (decide (c = r)) as [_|Hcr]; [reflexivity|].
  rewrite <- (color_at_Some _ _ _ Hy). exact (Hc Hcr).
Qed.

Lemma promoted_bh c : c <> Some n -> c <> Some r -> bh_at b' c = bh_at b c.
Proof.
  intros Hcn Hcr. destruct c as [c|]; [|reflexivity]. cbn [bh_at].
  rewrite decide_False by congruence. rewrite decide_False by congruence.
  reflexivity.
Qed.

(** No child of a node other than [n] is [r], and only the parent of [n]
    has [n] as a child. *)
Lemma promote_kid a y k c :
  a ∈ N -> heap t !! a = Some y -> child k y = Some c ->
  (a <> n -> c <> r) /\ (parent nd <> Some a -> c <> n).
Proof.
  intros Ha Hy Hk. split.
  - intros Han ->. apply Han.
    exact (kid_parent N t HI n nd (opp e) r a y k Hn_in Hn Hr Ha Hy Hk).
  - intros Hpa ->. apply Hpa.
    destruct (kid_in N t HI a y k n Ha Hy Hk) as (_ & cd & Hcd & Hp). congruence.
Qed.

Lemma promoted_balanced : balanced N t' b'.
Proof.
  pose proof promote_r_in as Hr_in. pose proof promote_ne as Hnr.
  pose proof promote_black as Hnc.
  assert (Hbn : forall k, b n = S (bh_at b (child k nd))).
  { intros k. rewrite (HB n nd k Hn_in Hn), Hnc. cbn. lia. }
  assert (Hbr : forall k, b r = bh_at b (child k rn)).
  { intros k. rewrite (HB r rn k Hr_in Hrn), Hrc. cbn. lia. }
  pose proof (Hbn (opp e)) as Hbnr. rewrite Hr in Hbnr. cbn [bh_at] in Hbnr.
  intros a y' k Ha Hy'.
  destruct (promoted_Some a y' Hy') as (y & Hy & -> & Hkid). rewrite Hkid.
  pose proof (HB a y k Ha Hy) as Hba.
  destruct (decide (a = r)) as [->|Har].
  { assert (y = rn) as -> by congruence.
    rewrite (decide_False (P := r = n)) by (intros E; exact (Hnr (eq_sym E))).
    cbn [blacks]. destruct (decide (k = e)) as [->|Hk].
    - cbn [bh_at]. rewrite (decide_False (P := n = r)) by exact Hnr.
      rewrite (decide_True (P := n = n)) by reflexivity. lia.
    - rewrite promoted_bh; [rewrite <- Hbr; lia| |].
      + intros Hc.
        destruct (kid_in N t HI r rn k n Hr_in Hrn Hc) as (_ & cd & Hcd & Hp).
        assert (cd = nd) as -> by congruence.
        destruct (kid_in N t HI n nd (opp e) r Hn_in Hn Hr) as (_ & rd & Hrd & Hpr).
        destruct (inv_depth _ _ HI n Hn_in) as [dn Hd].
        pose proof (depth_child N t n nd (opp e) r dn HI Hn_in Hn Hr Hd) as Hdr.
        pose proof (depth_child N t r rn k n (S dn) HI Hr_in Hrn Hc Hdr) as Hdn.
        pose proof (depth_fun _ _ _ Hd _ Hdn). lia.
      + intros Hc. exact (kid_ne N t HI r rn k r Hr_in Hrn Hc eq_refl). }
  destruct (decide (a = n)) as [->|Han].
  { assert (y = nd) as -> by congruence. cbn [blacks].
    destruct (decide (k = opp e)) as [->|Hk].
    - rewrite promoted_bh; [rewrite <- Hbr; lia| |].
      + intros Hc.
        destruct (rot_distinct e N t n r nd rn HI Hn_in Hn Hr Hrn) as (_ & Hb & _).
        destruct (Hb n Hc) as [E _]. exact (E eq_refl).
      + intros Hc. exact (kid_ne N t HI r rn e r Hr_in Hrn Hc eq_refl).
    - rewrite promoted_bh; [specialize (Hbn k); lia| |].
      + intros Hc. exact (kid_ne N t HI n nd k n Hn_in Hn Hc eq_refl).
      + intros Hc. apply Hk. exact (kid_side N t HI n nd (opp e) k r Hn_in Hn Hr Hc). }
  assert (Hsame : forall c, child k y = Some c -> c <> n ->
            bh_at b' (child k y) = bh_at b (child k y)).
  { intros c Hc Hcn. apply promoted_bh; rewrite Hc; intros [= ->].
    - exact (Hcn eq_refl).
    - exact (proj1 (promote_kid a y k r Ha Hy Hc) Han eq_refl). }
  assert (Hsame' : child k y <> Some n ->
            b a = (bh_at b' (child k y) + blacks (color y))%nat).
  { intros Hkn. destruct (child k y) as [c|] eqn:Hc; [|exact Hba].
    rewrite (Hsame c eq_refl) by congruence. exact Hba. }
  destruct (decide (parent nd = Some a)) as [Hpa|Hpa].
  - destruct (decide (child k y = Some n)) as [Hkn|Hkn].
    + rewrite Hkn in Hba. cbn [bh_at] in Hba.
      destruct (decide (child e rn = Some a)) as [Hbad|_].
      * exfalso.
        destruct (rot_distinct e N t n r nd rn HI Hn_in Hn Hr Hrn) as (_ & _ & Hp).
        destruct (Hp a Hpa) as (_ & _ & E). exact (E Hbad).
      * cbn [bh_at]. rewrite decide_True by reflexivity. lia.
    + destruct (decide (child e rn = Some a)); exact (Hsame' Hkn).
  - assert (Hkn : child k y <> Some n).
    { intros Hc. exact (proj2 (promote_kid a y k n Ha Hy Hc) Hpa eq_refl). }
    destruct (decide (child e rn = Some a)); exact (Hsame' Hkn).
Qed.

Lemma promoted_red_ok : red_ok N t' None.
Proof.
  pose proof promote_r_in as Hr_in. pose proof promote_ne as Hnr.
  destruct promote_x_ne as [Hxr Hxn].
  intros a y' k c Ha Hy' Hc Hk _.
  destruct (promoted_Some a y' Hy') as (y & Hy & Hcol & Hkid).
  rewrite Hcol in Hc. rewrite Hkid in Hk.
  destruct (decide (a = r)) as [->|Har].
  { rewrite decide_False in Hc by (intros E; exact (Hnr (eq_sym E))). discriminate. }
  destruct (decide (a = n)) as [->|Han].
  { assert (y = nd) as -> by congruence.
    destruct (decide (k = opp e)) as [->|Hke].
    - apply promoted_black.
      + destruct (rot_distinct e N t n r nd rn HI Hn_in Hn Hr Hrn) as (_ & Hb & _).
        exact (proj1 (Hb c Hk)).
      + intros _. apply (HR r rn e c Hr_in Hrn Hrc Hk). intros [= ->].
        pose proof (kid_side N t HI r rn (opp e) e x Hr_in Hrn Hx Hk) as E.
        exact (opp_ne e (eq_sym E)).
    - apply side_ne_opp' in Hke. subst k. apply promoted_black.
      + exact (kid_ne N t HI n nd e c Hn_in Hn Hk).
      + intros _. rewrite <- Hk. exact Hu. }
  assert (Hold : child k y = Some c -> c <> n -> color_at (heap t') (Some c) = BLACK).
  { intros Hkc Hcn. apply promoted_black; [exact Hcn|]. intros Hcr.
    apply (HR a y k c Ha Hy Hc Hkc). intros [= ->]. apply Har.
    exact (kid_parent N t HI r rn (opp e) x a y k Hr_in Hrn Hx Ha Hy Hkc). }
  destruct (decide (parent nd = Some a)) as [Hpa|Hpa].
  - destruct (decide (child k y = Some n)) as [Hkn|Hkn].
    + destruct (decide (child e rn = Some a)) as [Hbad|_].
      * exfalso.
        destruct (rot_distinct e N t n r nd rn HI Hn_in Hn Hr Hrn) as (_ & _ & Hp).
        destruct (Hp a Hpa) as (_ & _ & E). exact (E Hbad).
      * injection Hk as <-. apply promoted_black; [exact (not_eq_sym Hnr)|].
        intros E. destruct (E eq_refl).
    + destruct (decide (child e rn = Some a)); apply Hold; congruence.
  - assert (Hcn : child k y = Some c -> c <> n).
    { intros Hkc. exact (proj2 (promote_kid a y k c Ha Hy Hkc) Hpa). }
    destruct (decide (child e rn = Some a)); apply Hold; auto.
Qed.

Lemma promoted_root : black_root t'.
Proof.
  pose proof promote_ne as Hnr.
  assert (Hrt' : root t' = match parent nd with None => Some r | Some _ => root t end)
    by reflexivity.
  unfold black_root. rewrite Hrt'.
  destruct (parent nd) as [p|] eqn:Hp.
  - destruct (root t) as [rt|] eqn:Hrt; [|reflexivity].
    apply promoted_black.
    + intros ->. pose proof (root_no_parent N t n nd HI Hrt Hn). congruence.
    + intros _. unfold black_root in Hroot. rewrite Hrt in Hroot. exact Hroot.
  - apply promoted_black; [exact (not_eq_sym Hnr)|]. intros E. destruct (E eq_refl).
Qed.
End promote.

(** *** Recoloring: Case 1 of [insert_fixup]

    The RED node [p] with the RED child [node] is the child of [g] on the
    side [d], and the other child [u] of [g] is RED.  After [p] and [u] are
    colored BLACK and [g] RED, the only RED node that may have a RED parent
    is [g]; when [g] has no parent and is colored BLACK again, there is
    none. *)

Section repaint.
Context (d : side) (N : gset ptr) (t : Tree) (node p g u : ptr)
        (xd pd gd ud : Node) (b : ptr -> nat) (cg : COLOR).
Hypothesis HI : tree_inv N t.
Hypothesis HB : balanced N t b.
Hypothesis HR : red_ok N t (Some node).
Hypothesis Hroot : black_root t.
Hypothesis Hnode_in : node ∈ N.
Hypothesis Hnode : heap t !! node = Some xd.
Hypothesis Hxp : parent xd = Some p.
Hypothesis Hg_in : g ∈ N.
Hypothesis Hg : heap t !! g = Some gd.
Hypothesis Hgp : child d gd = Some p.
Hypothesis Hp : heap t !! p = Some pd.
Hypothesis Hpc : color pd = RED.
Hypothesis Hgu : child (opp d) gd = Some u.
Hypothesis Hu : heap t !! u = Some ud.
Hypothesis Huc : color ud = RED.
Hypothesis Hcg : cg = match parent gd with Some _ => RED | None => BLACK end.

Local Abbreviation tf := (repainted cg g u p t).

(** The numbers of BLACK nodes below the nodes after the step. *)
Local Abbreviation bf :=
  (fun i => if decide (i = g) then (S (b p) + blacks cg)%nat
            else if decide (i = u) then S (b u)
            else if decide (i = p) then S (b p) else b i).

Lemma repaint_in : p ∈ N /\ u ∈ N.
Proof.
  split; [exact (proj1 (kid_in N t HI g gd d p Hg_in Hg Hgp))|].
  exact (proj1 (kid_in N t HI g gd (opp d) u Hg_in Hg Hgu)).
Qed.

Lemma repaint_ne : p <> g /\ u <> g /\ u <> p /\ node <> p /\ node <> g /\ node <> u.
Proof.
  destruct repaint_in as [Hp_in Hu_in].
  destruct (inv_parent_link N t node xd p HI Hnode_in Hnode Hxp)
    as (_ & pd' & kx & Hpd' & Hkx).
  assert (pd' = pd) as -> by congruence.
  destruct (inv_depth _ _ HI g Hg_in) as [dg Hdg].
  pose proof (depth_child N t g gd d p dg HI Hg_in Hg Hgp Hdg) as Hdp.
  pose proof (depth_child N t g gd (opp d) u dg HI Hg_in Hg Hgu Hdg) as Hdu.
  pose proof (depth_child N t p pd kx node (S dg) HI Hp_in Hp Hkx Hdp) as Hdn.
  split; [eapply depth_neq; eauto; lia|].
  split; [eapply depth_neq; eauto; lia|].
  split.
  { intros E. rewrite E in Hgu.
    pose proof (kid_side N t HI g gd d (opp d) p Hg_in Hg Hgp Hgu) as Hk.
    exact (opp_ne d Hk). }
  split; [eapply depth_neq; eauto; lia|].
  split; eapply depth_neq; eauto; lia.
Qed.

Lemma repaint_black : color gd = BLACK.
Proof.
  destruct repaint_ne as (_ & _ & _ & Hnp & _).
  destruct (color gd) eqn:Hc; [exfalso|reflexivity].
  assert (Hne : Some p <> Some node) by congruence.
  pose proof (HR g gd d p Hg_in Hg Hc Hgp Hne) as Hbad.
  rewrite (color_at_Some _ _ _ Hp), Hpc in Hbad. discriminate.
Qed.

Lemma repainted_lookup i :
  heap tf !! i =
  (if decide (i = g) then set_color cg
   else if decide (i = u) then set_color BLACK
   else if decide (i = p) then set_color BLACK else id) <$> heap t !! i.
Proof.
  destruct repaint_ne as (Hpg & Hug & Hup & _).
  unfold repainted. cbn [heap].
  destruct (decide (i = g)) as [->|Hig].
  - rewrite lookup_alter_eq. rewrite lookup_alter_ne by done.
    rewrite lookup_alter_ne by done. reflexivity.
  - rewrite lookup_alter_ne by done. destruct (decide (i = u)) as [->|Hiu].
    + rewrite lookup_alter_eq. rewrite lookup_alter_ne by done. reflexivity.
    + rewrite lookup_alter_ne by done. destruct (decide (i = p)) as [->|Hip].
      * rewrite lookup_alter_eq. reflexivity.
      * rewrite lookup_alter_ne by done. rewrite option_fmap_id. reflexivity.
Qed.

Lemma repainted_same_links : same_links t tf.
Proof.
  split; [reflexivity|]. intros i. rewrite repainted_lookup.
  destruct (heap t !! i) as [y|]; [|reflexivity]. cbn.
  repeat case_decide; reflexivity.
Qed.

Lemma repainted_inv : tree_inv N tf.
Proof. exact (same_links_inv N t tf HI repainted_same_links). Qed.

Lemma repainted_Some a y' :
  heap tf !! a = Some y' ->
  exists y, heap t !! a = Some y /\
    color y' = (if decide (a = g) then cg
                else if decide (a = u) then BLACK
                else if decide (a = p) then BLACK else color y) /\
    (forall k, child k y' = child k y) /\ parent y' = parent y.
Proof.
  rewrite repainted_lookup. destruct (heap t !! a) as [y|]; [|discriminate].
  intros [= <-]. exists y. split; [reflexivity|].
  repeat split; repeat case_decide; try reflexivity; intros; apply child_set_color.
Qed.

Lemma repainted_color c :
  (c = g -> cg = BLACK) -> (c <> u -> c <> p -> color_at (heap t) (Some c) = BLACK) ->
  color_at (heap tf) (Some c) = BLACK.
Proof.
  intros Hcg' Hc. cbn [color_at].
  destruct (heap tf !! c) as [y'|] eqn:Hy'; [|reflexivity].
  destruct (repainted_Some c y' Hy') as (y & Hy & -> & _).
  destruct (decide (c = g)) as [E|_]; [exact (Hcg' E)|].
  destruct (decide (c = u)) as [_|Hcu]; [reflexivity|].
  destruct (decide (c = p)) as [_|Hcp]; [reflexivity|].
  rewrite <- (color_at_Some _ _ _ Hy). exact (Hc Hcu Hcp).
Qed.

(** Only [g] has [p] and [u] as children, and [g] is a child of its parent
    only. *)
Lemma repaint_kid a y k c :
  a ∈ N -> heap t !! a = Some y -> child k y = Some c ->
  (a <> g -> c <> p /\ c <> u) /\ (parent gd <> Some a -> c <> g).
Proof.
  intros Ha Hy Hk. split.
  - intros Hag. split; intros ->; apply Hag.
    + exact (kid_parent N t HI g gd d p a y k Hg_in Hg Hgp Ha Hy Hk).
    + exact (kid_parent N t HI g gd (opp d) u a y k Hg_in Hg Hgu Ha Hy Hk).
  - intros Hpa ->. apply Hpa.
    destruct (kid_in N t HI a y k g Ha Hy Hk) as (_ & cd & Hcd & Hpar). congruence.
Qed.

Lemma repainted_balanced : balanced N tf bf.
Proof.
  destruct repaint_in as [Hp_in Hu_in].
  destruct repaint_ne as (Hpg & Hug & Hup & Hnp & Hng & Hnu).
  pose proof repaint_black as Hgc.
  assert (Hbg : forall k, b g = S (bh_at b (child k gd))).
  { intros k. rewrite (HB g gd k Hg_in Hg), Hgc. cbn. lia. }
  pose proof (Hbg d) as Hbgp. rewrite Hgp in Hbgp. cbn [bh_at] in Hbgp.
  pose proof (Hbg (opp d)) as Hbgu. rewrite Hgu in Hbgu. cbn [bh_at] in Hbgu.
  intros a y' k Ha Hy'.
  destruct (repainted_Some a y' Hy') as (y & Hy & -> & Hkid & _). rewrite Hkid.
  pose proof (HB a y k Ha Hy) as Hba.
  destruct (decide (a = g)) as [->|Hag].
  { assert (y = gd) as -> by congruence.
    destruct (decide (k = d)) as [->|Hk].
    - rewrite Hgp. cbn [bh_at].
      rewrite (decide_False (P := p = g)) by exact Hpg.
      rewrite (decide_False (P := p = u)) by (intros E; exact (Hup (eq_sym E))).
      rewrite (decide_True (P := p = p)) by reflexivity. lia.
    - apply side_ne_opp in Hk. subst k. rewrite Hgu. cbn [bh_at].
      rewrite (decide_False (P := u = g)) by exact Hug.
      rewrite (decide_True (P := u = u)) by reflexivity. lia. }
  assert (Hkids : bh_at bf (child k y) = bh_at b (child k y)).
  { destruct (child k y) as [c|] eqn:Hc; [|reflexivity]. cbn [bh_at].
    destruct (repaint_kid a y k c Ha Hy Hc) as [H1 H2].
    destruct (H1 Hag) as [Hcp Hcu].
    destruct (decide (c = g)) as [->|Hcg'].
    - destruct (kid_in N t HI a y k g Ha Hy Hc) as (_ & cd & Hcd & Hpar).
      assert (cd = gd) as -> by congruence. rewrite Hpar in Hcg. rewrite Hcg.
      cbn [blacks]. lia.
    - rewrite (decide_False (P := c = u)) by exact Hcu.
      rewrite (decide_False (P := c = p)) by exact Hcp. reflexivity. }
  rewrite Hkids.
  destruct (decide (a = u)) as [->|Hau].
  { assert (y = ud) as -> by congruence. rewrite Huc in Hba. cbn in *. lia. }
  destruct (decide (a = p)) as [->|Hap].
  { assert (y = pd) as -> by congruence. rewrite Hpc in Hba. cbn in *. lia. }
  exact Hba.
Qed.

Lemma repainted_red_ok :
  red_ok N tf (match cg with RED => Some g | BLACK => None end).
Proof.
  destruct repaint_in as [Hp_in Hu_in].
  destruct repaint_ne as (Hpg & Hug & Hup & Hnp & Hng & Hnu).
  intros a y' k c Ha Hy' Hc Hk Hne.
  destruct (repainted_Some a y' Hy') as (y & Hy & Hcol & Hkid & _).
  rewrite Hcol in Hc. rewrite Hkid in Hk.
  apply repainted_color.
  { intros ->. destruct cg; [destruct Hne; reflexivity|reflexivity]. }
  intros Hcu Hcp.
  destruct (decide (a = g)) as [->|Hag].
  { assert (y = gd) as -> by congruence. exfalso.
    destruct (decide (k = d)) as [->|Hkd]; [congruence|].
    apply side_ne_opp in Hkd. subst k. congruence. }
  destruct (decide (a = u)) as [_|Hau]; [discriminate|].
  destruct (decide (a = p)) as [_|Hap]; [discriminate|].
  apply (HR a y k c Ha Hy Hc Hk). intros [= ->]. apply Hap.
  destruct (kid_in N t HI a y k node Ha Hy Hk) as (_ & cd & Hcd & Hpar). congruence.
Qed.

Lemma repainted_root : black_root tf.
Proof.
  unfold black_root.
  assert (Hrt : root tf = root t) by reflexivity. rewrite Hrt.
  destruct (root t) as [rt|] eqn:Hr; [|reflexivity].
  apply repainted_color.
  - intros ->. rewrite (root_no_parent N t g gd HI Hr Hg) in Hcg. exact Hcg.
  - intros _ _. unfold black_root in Hroot. rewrite Hr in Hroot. exact Hroot.
Qed.
End repaint.

(** *** One pass through the loop of [insert_fixup] *)

Lemma has_color_at p t :
  (forall a, p = Some a -> is_Some (heap t !! a)) ->
  has_color p RED t = Ok (bool_decide (color_at (heap t) p = RED)) t.
Proof.
  intros Hp. destruct p as [a|]; [|reflexivity].
  destruct (Hp a eq_refl) as [x Hx]. unfold has_color.
  rewrite (bind_Ok _ _ _ _ _ (get_color_Ok _ _ _ Hx)).
  rewrite (color_at_Some _ _ _ Hx). reflexivity.
Qed.

Lemma is_child_Ok k t c nd p pn :
  heap t !! c = Some nd -> parent nd = Some p -> heap t !! p = Some pn ->
  is_child k c t = Ok (bool_decide (child k pn = Some c)) t.
Proof. destruct k; [apply is_left_child_Ok|apply is_right_child_Ok]. Qed.

(** Case 3 on either side: the RED node [r] is the child of [n] on the side
    [d] and has the RED child [x] on that side; the other child of [n] is
    BLACK. *)
Lemma promote_step d N t n r x nd rn xd b :
  tree_inv N t -> n ∈ N -> heap t !! n = Some nd -> child d nd = Some r ->
  heap t !! r = Some rn -> balanced N t b -> red_ok N t (Some x) ->
  black_root t -> color rn = RED -> child d rn = Some x ->
  heap t !! x = Some xd -> color xd = RED ->
  color_at (heap t) (child (opp d) nd) = BLACK ->
  exists t', rotate (opp d) (Some n) (recolored n r t) = Ok tt t' /\
             rb_inv N t' None /\ (color <$> heap t' !! r) = Some BLACK.
Proof.
  intros HI Hn_in Hn Hr Hrn HB HR Hroot Hrc Hx Hxd Hxc Hu.
  rewrite <- (opp_opp d) in Hr, Hx.
  pose proof (promote_ne (opp d) N t n r nd HI Hn_in Hn Hr) as Hnr.
  eexists. split;
    [exact (promote_exec (opp d) N t n r nd rn HI Hn_in Hn Hr Hrn)|].
  pose proof (promoted_inv (opp d) N t n r nd rn HI Hn_in Hn Hr Hrn) as HI'.
  split.
  - split; [exact HI'|].
    split; [exact (promoted_root (opp d) N t n r nd rn HI Hn_in Hn Hr Hrn Hroot)|].
    split; [exact (promoted_red_ok (opp d) N t n r x nd rn xd HI Hn_in Hn Hr Hrn HR
                     Hrc Hx Hxd Hu)|].
    eexists.
    exact (promoted_balanced (opp d) N t n r x nd rn xd b HI Hn_in Hn Hr Hrn HB HR
             Hrc Hx Hxd).
  - pose proof (promote_r_in (opp d) N t n r nd HI Hn_in Hn Hr) as Hr_in.
    destruct (inv_alloc _ _ HI' r Hr_in) as [y' Hy'].
    destruct (promoted_Some (opp d) N t n r nd rn HI Hn_in Hn Hr Hrn r y' Hy')
      as (y & Hy & Hcol & _).
    rewrite Hy'. cbn. rewrite Hcol.
    rewrite decide_False by (intros E; exact (Hnr (eq_sym E))).
    rewrite decide_True by reflexivity. reflexivity.
Qed.

Section fixup_side.
Context (d : side) (N : gset ptr) (t : Tree) (node p g : ptr)
        (xd pd gd : Node) (b : ptr -> nat) (dn : nat).
Hypothesis HI : tree_inv N t.
Hypothesis HB : balanced N t b.
Hypothesis HR : red_ok N t (Some node).
Hypothesis Hroot : black_root t.
Hypothesis Hnode_in : node ∈ N.
Hypothesis Hnode : heap t !! node = Some xd.
Hypothesis Hxc : color xd = RED.
Hypothesis Hxp : parent xd = Some p.
Hypothesis Hp_in : p ∈ N.
Hypothesis Hp : heap t !! p = Some pd.
Hypothesis Hpc : color pd = RED.
Hypothesis Hpg : parent pd = Some g.
Hypothesis Hg_in : g ∈ N.
Hypothesis Hg : heap t !! g = Some gd.
Hypothesis Hgp : child d gd = Some p.
Hypothesis Hdn : depth t node dn.

Lemma side_depths : exists dg, dn = S (S dg) /\ depth t g dg /\ depth t p (S dg).
Proof.
  destruct (depth_parent t node xd p dn Hdn Hnode Hxp) as (dp & -> & Hdp).
  destruct (depth_parent t p pd g dp Hdp Hp Hpg) as (dg & -> & Hdg).
  exists dg. auto.
Qed.

Lemma side_uncle_alloc a :
  child (opp d) gd = Some a -> is_Some (heap t !! a).
Proof.
  intros Ha. destruct (kid_in N t HI g gd (opp d) a Hg_in Hg Ha) as (_ & ad & Had & _).
  eauto.
Qed.

(** The tests at the head of the branch. *)
Lemma side_head :
  insert_fixup_side d node p (Some g) t =
  (if bool_decide (color_at (heap t) (child (opp d) gd) = RED) then
     store p (set_color BLACK) ;;
     u <- deref (child (opp d) gd) ;;
     store u (set_color BLACK) ;;
     store g (set_color RED) ;;
     node_p' <- get_parent g ;;
     match node_p' with
     | None => store g (set_color BLACK)
     | Some _ => ret tt
     end ;;
     ret (g, node_p')
   else if bool_decide (child (opp d) pd = Some node) then
     rotate d (Some p) ;;
     node_p' <- get_parent p ;;
     q <- deref node_p' ;;
     node_p_p' <- get_parent q ;;
     store q (set_color BLACK) ;;
     g' <- deref node_p_p' ;;
     store g' (set_color RED) ;;
     rotate (opp d) node_p_p' ;;
     ret (p, node_p')
   else
     store p (set_color BLACK) ;;
     store g (set_color RED) ;;
     rotate (opp d) (Some g) ;;
     ret (node, Some p)) t.
Proof.
  unfold insert_fixup_side.
  rewrite (bind_Ok (deref (Some g)) _ t g t eq_refl).
  rewrite (bind_Ok _ _ _ _ _ (get_child_look (opp d) g t (child (opp d) gd)
                               ltac:(rewrite Hg; reflexivity))).
  rewrite (bind_Ok _ _ _ _ _ (has_color_at (child (opp d) gd) t side_uncle_alloc)).
  destruct (bool_decide (color_at (heap t) (child (opp d) gd) = RED)); [reflexivity|].
  rewrite (bind_Ok _ _ _ _ _ (is_child_Ok (opp d) t node xd p pd Hnode Hxp Hp)).
  reflexivity.
Qed.

Lemma side_case1 u ud :
  child (opp d) gd = Some u -> heap t !! u = Some ud -> color ud = RED ->
  exists res t', insert_fixup_side d node p (Some g) t = Ok res t' /\
                 fixup_pass N dn res t'.
Proof.
  intros Hgu Hu Huc.
  destruct (repaint_ne d N t node p g u xd pd gd HI Hnode_in Hnode Hxp Hg_in Hg
              Hgp Hp Hgu) as (Hpg' & Hug & Hup & Hnp & Hng & Hnu).
  destruct side_depths as (dg & Hdn' & Hdg & Hdp).
  set (cg := match parent gd with Some _ => RED | None => BLACK end).
  assert (Hcg : cg = match parent gd with Some _ => RED | None => BLACK end)
    by reflexivity.
  assert (Hlook : forall i, heap (repainted cg g u p t) !! i =
            (if decide (i = g) then set_color cg
             else if decide (i = u) then set_color BLACK
             else if decide (i = p) then set_color BLACK else id) <$> heap t !! i)
    by exact (repainted_lookup d N t node p g u xd pd gd cg HI Hnode_in Hnode Hxp
                Hg_in Hg Hgp Hp Hgu).
  assert (Hrb : rb_inv N (repainted cg g u p t)
                  (match cg with RED => Some g | BLACK => None end)).
  { split; [exact (repainted_inv d N t node p g u xd pd gd cg HI Hnode_in Hnode Hxp
                     Hg_in Hg Hgp Hp Hgu)|].
    split; [exact (repainted_root d N t node p g u xd pd gd cg HI Hroot Hnode_in
                     Hnode Hxp Hg_in Hg Hgp Hp Hgu Hcg)|].
    split; [exact (repainted_red_ok d N t node p g u xd pd gd cg HI HR Hnode_in
                     Hnode Hxp Hg_in Hg Hgp Hp Hgu Hcg)|].
    eexists.
    exact (repainted_balanced d N t node p g u xd pd gd ud b cg HI HB HR Hnode_in
             Hnode Hxp Hg_in Hg Hgp Hp Hpc Hgu Hu Huc Hcg). }
  exists (g, parent gd), (repainted cg g u p t). split.
  - rewrite side_head, Hgu.
    rewrite bool_decide_eq_true_2 by (rewrite (color_at_Some _ _ _ Hu); exact Huc).
    run_store. rewrite (bind_Ok (deref (Some u)) _ _ u _ eq_refl).
    run_store. run_store. cbn [heap root].
    change (mkTree (alter (set_color RED) g
                      (alter (set_color BLACK) u
                         (alter (set_color BLACK) p (heap t)))) (root t))
      with (repainted RED g u p t).
    assert (Hpar : (parent <$> heap (repainted RED g u p t) !! g) = Some (parent gd)).
    { rewrite (repainted_lookup d N t node p g u xd pd gd RED HI Hnode_in Hnode Hxp
                 Hg_in Hg Hgp Hp Hgu), Hg. cbn.
      rewrite decide_True by reflexivity. reflexivity. }
    rewrite (bind_Ok _ _ _ _ _ (get_parent_look g _ (parent gd) Hpar)).
    unfold repainted, cg. destruct (parent gd) as [gp|].
    + reflexivity.
    + run_store. cbn [heap root]. f_equal. apply mkTree_eq; [|reflexivity].
      apply map_eq. intros i. destruct (decide (i = g)) as [->|Hig].
      * rewrite !lookup_alter_eq. rewrite <- option_fmap_compose.
        apply option_fmap_ext. reflexivity.
      * rewrite !(lookup_alter_ne _ _ g i) by done. reflexivity.
  - unfold fixup_pass. cbn [fst snd]. destruct (parent gd) as [gp|] eqn:Hgpar.
    + right. split; [exact Hrb|]. split; [exact Hg_in|]. split.
      * exists (set_color RED gd). rewrite Hlook, Hg. cbn.
        rewrite decide_True by reflexivity. auto.
      * exists dg. split; [|lia].
        eapply same_links_depth; [|exact Hdg].
        exact (repainted_same_links d N t node p g u xd pd gd cg HI Hnode_in Hnode
                 Hxp Hg_in Hg Hgp Hp Hgu).
    + exact Hrb.
Qed.

Lemma side_case3 :
  color_at (heap t) (child (opp d) gd) = BLACK -> child d pd = Some node ->
  exists res t', insert_fixup_side d node p (Some g) t = Ok res t' /\
                 fixup_pass N dn res t'.
Proof.
  intros Hu Hpx.
  destruct side_depths as (dg & Hdn' & Hdg & Hdp).
  destruct (promote_step d N t g p node gd pd xd b HI Hg_in Hg Hgp Hp HB HR Hroot
              Hpc Hpx Hnode Hxc Hu) as (t' & Hexec & Hrb & Hcol).
  exists (node, Some p), t'. split.
  - rewrite side_head.
    rewrite bool_decide_eq_false_2 by (rewrite Hu; discriminate).
    rewrite bool_decide_eq_false_2.
    2:{ intros Hc.
        pose proof (kid_side N t HI p pd d (opp d) node Hp_in Hp Hpx Hc) as E.
        exact (opp_ne d E). }
    run_store. run_store. cbn [heap root].
    change (mkTree (alter (set_color RED) g (alter (set_color BLACK) p (heap t)))
              (root t)) with (recolored g p t).
    rewrite (bind_Ok _ _ _ _ _ Hexec). reflexivity.
  - unfold fixup_pass. cbn [fst snd]. left.
    split; [exact Hrb|]. split; [exact Hcol|]. lia.
Qed.

Lemma side_case2 :
  color_at (heap t) (child (opp d) gd) = BLACK -> child (opp d) pd = Some node ->
  exists res t', insert_fixup_side d node p (Some g) t = Ok res t' /\
                 fixup_pass N dn res t'.
Proof.
  intros Hu Hpx.
  destruct side_depths as (dg & Hdn' & Hdg & Hdp).
  destruct (rot_distinct d N t p node pd xd HI Hp_in Hp Hpx Hnode)
    as (Hpn & Hinner & Hup).
  destruct (Hup g Hpg) as (Hgp' & Hgn & Hxg).
  pose proof (rotate_inv_exec d N t p node pd xd HI Hp_in Hp Hpx Hnode) as Hex1.
  pose proof (rotated_inv d N t p node pd xd HI Hp_in Hp Hpx Hnode) as HI1.
  set (t1 := rotated d p node pd xd t) in *.
  assert (HB1 : balanced N t1 b)
    by exact (rotate_red_balanced d N t p node pd xd b HI Hp_in Hp Hpx Hnode HB
                Hpc Hxc).
  assert (HR1 : red_ok N t1 (Some p))
    by exact (rotate_red_red_ok d N t p node pd xd HI Hp_in Hp Hpx Hnode HR Hpc
                Hxc).
  assert (Hroot1 : black_root t1)
    by exact (rotate_red_root d N t p node pd xd HI Hp_in Hp Hpx Hnode Hroot Hpc).
  pose proof (rotated_node d N t p node pd xd HI Hp_in Hp Hpx Hnode g gd Hg) as Hg1.
  pose proof (rotated_node d N t p node pd xd HI Hp_in Hp Hpx Hnode node xd Hnode)
    as Hx1.
  pose proof (rotated_node d N t p node pd xd HI Hp_in Hp Hpx Hnode p pd Hp) as Hp1.
  fold t1 in Hg1, Hx1, Hp1.
  set (gd1 := rot_node d p node pd xd g gd) in *.
  set (xd1 := rot_node d p node pd xd node xd) in *.
  set (pd1 := rot_node d p node pd xd p pd) in *.
  assert (Hgk : forall k, child k gd1 = if decide (k = d) then Some node else child k gd).
  { intros k. unfold gd1. rewrite (rot_child d p node pd xd Hpx k g gd).
    rewrite decide_False by exact Hgn. rewrite decide_False by exact Hgp'.
    rewrite decide_False by exact Hxg. rewrite decide_True by exact Hpg.
    destruct (decide (k = d)) as [->|Hk].
    - rewrite decide_True by exact Hgp. reflexivity.
    - rewrite decide_False; [reflexivity|]. intros Hc. apply Hk.
      exact (kid_side N t HI g gd d k p Hg_in Hg Hgp Hc). }
  assert (Hxk : child d xd1 = Some p).
  { unfold xd1. rewrite (rot_child d p node pd xd Hpx d node xd).
    rewrite decide_True by reflexivity. rewrite decide_True by reflexivity.
    reflexivity. }
  assert (Hxc1 : color xd1 = RED) by (unfold xd1; rewrite rot_color; exact Hxc).
  assert (Hpc1 : color pd1 = RED) by (unfold pd1; rewrite rot_color; exact Hpc).
  assert (Hgd : child d gd1 = Some node).
  { rewrite Hgk. rewrite decide_True by reflexivity. reflexivity. }
  assert (Hu1 : color_at (heap t1) (child (opp d) gd1) = BLACK).
  { rewrite Hgk. rewrite decide_False by exact (opp_ne d). unfold t1.
    rewrite (rotated_color_at d N t p node pd xd HI Hp_in Hp Hpx Hnode). exact Hu. }
  destruct (promote_step d N t1 g node p gd1 xd1 pd1 b HI1 Hg_in Hg1 Hgd Hx1 HB1 HR1
              Hroot1 Hxc1 Hxk Hp1 Hpc1 Hu1) as (t' & Hexec & Hrb & Hcol).
  assert (Hpar_p : (parent <$> heap t1 !! p) = Some (Some node)).
  { unfold t1. rewrite (rotated_parent d N t p node pd xd HI Hp_in Hp Hpx Hnode p Hp_in).
    rewrite decide_False by exact Hpn. rewrite decide_True by reflexivity.
    reflexivity. }
  assert (Hpar_x : (parent <$> heap t1 !! node) = Some (Some g)).
  { unfold t1.
    rewrite (rotated_parent d N t p node pd xd HI Hp_in Hp Hpx Hnode node Hnode_in).
    rewrite decide_True by reflexivity. rewrite Hpg. reflexivity. }
  exists (p, Some node), t'. split.
  - rewrite side_head.
    rewrite bool_decide_eq_false_2 by (rewrite Hu; discriminate).
    rewrite bool_decide_eq_true_2 by exact Hpx.
    rewrite (bind_Ok _ _ _ _ _ Hex1). fold t1.
    rewrite (bind_Ok _ _ _ _ _ (get_parent_look p t1 _ Hpar_p)).
    rewrite (bind_Ok (deref (Some node)) _ t1 node t1 eq_refl).
    rewrite (bind_Ok _ _ _ _ _ (get_parent_look node t1 _ Hpar_x)).
    run_store.
    rewrite (bind_Ok (deref (Some g)) _ _ g _ eq_refl).
    run_store. cbn [heap root].
    change (mkTree (alter (set_color RED) g (alter (set_color BLACK) node (heap t1)))
              (root t1)) with (recolored g node t1).
    rewrite (bind_Ok _ _ _ _ _ Hexec). reflexivity.
  - unfold fixup_pass. cbn [fst snd]. left.
    split; [exact Hrb|]. split; [exact Hcol|]. lia.
Qed.

Lemma insert_fixup_side_pass :
  exists res t', insert_fixup_side d node p (Some g) t = Ok res t' /\
                 fixup_pass N dn res t'.
Proof.
  destruct (color_at (heap t) (child (opp d) gd)) eqn:Hu.
  - destruct (child (opp d) gd) as [u|] eqn:Hgu; [|discriminate].
    destruct (side_uncle_alloc u Hgu) as [ud Hud].
    apply (side_case1 u ud Hgu Hud).
    rewrite (color_at_Some _ _ _ Hud) in Hu. exact Hu.
  - destruct (inv_parent_link N t node xd p HI Hnode_in Hnode Hxp)
      as (_ & pd' & kx & Hpd' & Hkx).
    assert (pd' = pd) as -> by congruence.
    destruct (decide (kx = d)) as [->|Hk].
    + exact (side_case3 Hu Hkx).
    + apply side_ne_opp in Hk. subst kx. exact (side_case2 Hu Hkx).
Qed.
End fixup_side.

(** *** The loop of [insert_fixup] *)

Lemma insert_fixup_body_pass N b t node p xd pd dn :
  tree_inv N t -> balanced N t b -> red_ok N t (Some node) -> black_root t ->
  node ∈ N -> heap t !! node = Some xd -> color xd = RED -> parent xd = Some p ->
  heap t !! p = Some pd -> color pd = RED -> depth t node dn ->
  exists res t', insert_fixup_body node p t = Ok res t' /\ fixup_pass N dn res t'.
Proof.
  intros HI HB HR Hroot Hnode_in Hnode Hxc Hxp Hp Hpc Hdn.
  pose proof (inv_parent _ _ HI node xd p Hnode_in Hnode Hxp) as Hp_in.
  destruct (red_has_parent N t HI p pd Hroot Hp_in Hp Hpc)
    as (g & gd & k & Hpg & Hg_in & Hg & Hgp).
  rewrite insert_fixup_body_side.
  rewrite (bind_Ok _ _ _ _ _ (get_parent_Ok _ _ _ Hp)), Hpg.
  rewrite (bind_Ok _ _ _ _ _ (is_left_child_Ok t p pd g gd Hp Hpg Hg)).
  assert (Hside : (if bool_decide (lchild gd = Some p) then L else R) = k).
  { destruct k; cbn [child] in Hgp.
    - rewrite bool_decide_eq_true_2 by exact Hgp. reflexivity.
    - rewrite bool_decide_eq_false_2; [reflexivity|]. intros Hc.
      pose proof (kid_side N t HI g gd R L p Hg_in Hg Hgp Hc). discriminate. }
  rewrite Hside.
  exact (insert_fixup_side_pass k N t node p g xd pd gd b dn HI HB HR Hroot Hnode_in
           Hnode Hxc Hxp Hp_in Hp Hpc Hpg Hg_in Hg Hgp Hdn).
Qed.

(** When the parent of the RED node is BLACK, no RED node has a RED
    parent. *)
Lemma red_ok_exit N t node xd p pd :
  tree_inv N t -> red_ok N t (Some node) ->
  heap t !! node = Some xd -> parent xd = Some p ->
  heap t !! p = Some pd -> color pd = BLACK ->
  red_ok N t None.
Proof.
  intros HI HR Hnode Hxp Hp Hpc a y k c Ha Hy Hc Hk _.
  apply (HR a y k c Ha Hy Hc Hk). intros [= ->].
  destruct (kid_in N t HI a y k node Ha Hy Hk) as (_ & cd & Hcd & Hpar).
  assert (a = p) as -> by congruence. congruence.
Qed.

Lemma insert_fixup_loop_rb N : forall f t node p xd dn,
  rb_inv N t (Some node) -> node ∈ N ->
  heap t !! node = Some xd -> color xd = RED -> parent xd = Some p ->
  depth t node dn -> (dn <= f)%nat ->
  exists t', insert_fixup_loop f node p t = Ok tt t' /\ rb_inv N t' None.
Proof.
  induction f as [|f IH]; intros t node p xd dn Hrb Hnode_in Hnode Hxc Hxp Hdn Hle.
  { destruct (depth_parent t node xd p dn Hdn Hnode Hxp) as (dp & -> & _). lia. }
  destruct Hrb as (HI & Hroot & HR & b & HB).
  pose proof (inv_parent _ _ HI node xd p Hnode_in Hnode Hxp) as Hp_in.
  destruct (inv_alloc _ _ HI p Hp_in) as [pd Hp].
  cbn [insert_fixup_loop].
  rewrite (bind_Ok _ _ _ _ _ (get_color_Ok _ _ _ Hp)).
  destruct (color pd) eqn:Hpc.
  - rewrite bool_decide_eq_true_2 by reflexivity.
    destruct (insert_fixup_body_pass N b t node p xd pd dn HI HB HR Hroot Hnode_in
                Hnode Hxc Hxp Hp Hpc Hdn) as ([node' np'] & t' & Hbody & Hpass).
    rewrite (bind_Ok _ _ _ _ _ Hbody). unfold fixup_pass in Hpass.
    cbn [fst snd] in Hpass. destruct np' as [q|].
    + destruct Hpass as [(Hrb' & Hq & Hdn2)|(Hrb' & Hin' & (xd' & Hxd' & Hxc' & Hxp') &
                                              dn' & Hdn' & Hlt)].
      * destruct f as [|f]; [lia|]. exists t'. split; [|exact Hrb'].
        cbn [insert_fixup_loop].
        rewrite (bind_Ok _ _ _ _ _ (get_color_look q t' BLACK Hq)).
        rewrite bool_decide_eq_false_2 by discriminate. reflexivity.
      * apply (IH t' node' q xd' dn' Hrb' Hin' Hxd' Hxc' Hxp' Hdn'). lia.
    + exists t'. split; [reflexivity|exact Hpass].
  - rewrite bool_decide_eq_false_2 by discriminate.
    exists t. split; [reflexivity|].
    split; [exact HI|]. split; [exact Hroot|].
    split; [exact (red_ok_exit N t node xd p pd HI HR Hnode Hxp Hp Hpc)|].
    exists b. exact HB.
Qed.

(** [insert_fixup] on a RED node with a parent, at a depth the loop budget
    covers. *)
Lemma insert_fixup_rb N fuel t n xd p dn :
  rb_inv N t (Some n) -> n ∈ N ->
  heap t !! n = Some xd -> color xd = RED -> parent xd = Some p ->
  depth t n dn -> (dn <= fuel)%nat ->
  exists t', insert_fixup fuel (Some n) t = Ok tt t' /\ rb_inv N t' None.
Proof.
  intros Hrb Hn_in Hn Hxc Hxp Hdn Hle. unfold insert_fixup.
  rewrite (bind_Ok (deref (Some n)) _ t n t eq_refl).
  rewrite (bind_Ok _ _ _ _ _ (get_parent_Ok _ _ _ Hn)), Hxp.
  exact (insert_fixup_loop_rb N fuel t n p xd dn Hrb Hn_in Hn Hxc Hxp Hdn Hle).
Qed.

(** *** The node [insert] hangs into the tree *)

Lemma attached_rb N t n tp k nd x :
  rb_inv N t None -> n ∉ N -> heap t !! n = Some nd ->
  lchild nd = None -> rchild nd = None ->
  tp ∈ N -> heap t !! tp = Some x -> child k x = None ->
  rb_inv (N ∪ {[n]}) (attached n tp k t) (Some n).
Proof.
  intros (HI & Hroot & HR & b & HB) Hout Hn Hnl Hnr Htp_in Hx Hfree.
  assert (Hne : n <> tp) by (intros ->; contradiction).
  pose proof (attached_lookup n tp k t nd x Hne Hn Hx) as Hlook.
  assert (Hold : forall a, a ∈ N ∪ {[n]} -> a <> n -> a ∈ N).
  { intros a Ha Han. apply elem_of_union in Ha as [Ha|Ha]; [exact Ha|].
    apply elem_of_singleton in Ha. contradiction. }
  assert (Hcol : forall c, c ∈ N ->
            color_at (heap (attached n tp k t)) (Some c) = color_at (heap t) (Some c)).
  { intros c Hc. cbn [color_at]. rewrite Hlook.
    rewrite decide_False by (intros ->; contradiction).
    destruct (decide (c = tp)) as [->|_]; [|reflexivity].
    rewrite Hx. apply color_set_child. }
  assert (Hrec : forall a y', a <> n -> heap (attached n tp k t) !! a = Some y' ->
            exists y, heap t !! a = Some y /\ color y' = color y /\
              forall kk, child kk y' = if decide (a = tp /\ kk = k) then Some n
                                       else child kk y).
  { intros a y' Han Hy'. rewrite Hlook in Hy'.
    rewrite decide_False in Hy' by exact Han.
    destruct (decide (a = tp)) as [->|Hatp].
    - injection Hy' as <-. exists x. split; [exact Hx|].
      split; [apply color_set_child|]. intros kk. rewrite child_set_child.
      destruct (decide (kk = k)) as [->|Hk].
      + rewrite decide_True by done. reflexivity.
      + rewrite decide_False by (intros [_ ?]; contradiction). reflexivity.
    - exists y'. split; [exact Hy'|]. split; [reflexivity|]. intros kk.
      rewrite decide_False by (intros [? _]; contradiction). reflexivity. }
  assert (Hnew : heap (attached n tp k t) !! n
                 = Some (set_color RED (set_parent (Some tp) nd))).
  { rewrite Hlook. rewrite decide_True by reflexivity. reflexivity. }
  split; [exact (attached_inv N t n tp k nd x HI Hout Hn Hnl Hnr Htp_in Hx Hfree)|].
  split.
  { unfold black_root. assert (Hrt : root (attached n tp k t) = root t) by reflexivity.
    rewrite Hrt. unfold black_root in Hroot.
    destruct (root t) as [r|] eqn:Hr; [|reflexivity].
    rewrite (Hcol r (inv_root _ _ HI r Hr)). exact Hroot. }
  split.
  { intros a y' kk c Ha Hy' Hc Hk Hcn.
    destruct (decide (a = n)) as [->|Han].
    { rewrite Hnew in Hy'. injection Hy' as <-.
      destruct kk; cbn in Hk; congruence. }
    destruct (Hrec a y' Han Hy') as (y & Hy & Hcy & Hkids).
    rewrite Hkids in Hk.
    destruct (decide (a = tp /\ kk = k)) as [_|_]; [congruence|].
    pose proof (Hold a Ha Han) as Ha'.
    destruct (kid_in N t HI a y kk c Ha' Hy Hk) as (Hc_in & _).
    rewrite (Hcol c Hc_in). rewrite Hcy in Hc.
    apply (HR a y kk c Ha' Hy Hc Hk). discriminate. }
  exists (fun i => if decide (i = n) then O else b i).
  intros a y' kk Ha Hy'.
  destruct (decide (a = n)) as [->|Han].
  { rewrite Hnew in Hy'. injection Hy' as <-.
    replace (child kk (set_color RED (set_parent (Some tp) nd))) with (@None ptr)
      by (destruct kk; cbn; congruence).
    reflexivity. }
  destruct (Hrec a y' Han Hy') as (y & Hy & Hcy & Hkids).
  pose proof (Hold a Ha Han) as Ha'.
  rewrite Hkids, Hcy. pose proof (HB a y kk Ha' Hy) as Hba.
  destruct (decide (a = tp /\ kk = k)) as [[-> ->]|_].
  - assert (y = x) as -> by congruence. rewrite Hfree in Hba. cbn [bh_at] in *.
    rewrite decide_True by reflexivity. exact Hba.
  - destruct (child kk y) as [c|] eqn:Hc; [|exact Hba]. cbn [bh_at] in *.
    destruct (kid_in N t HI a y kk c Ha' Hy Hc) as (Hc_in & _).
    rewrite decide_False by (intros ->; contradiction). exact Hba.
Qed.

Lemma parent_chain_depth N t :
  tree_inv N t ->
  forall a d, parent_chain (heap t) a d -> a ∈ N -> depth t a d.
Proof.
  intros HI. induction 1 as [c nd Hc Hp|c nd p pn d Hc Hp Hpn Hch Hchain IH];
    intros Hin.
  - eapply depth_root; [exact (orphan_root N t HI c nd Hin Hc Hp)|exact Hc|exact Hp].
  - pose proof (inv_parent _ _ HI c nd p Hin Hc Hp) as Hp_in.
    destruct Hch as [Hk|Hk].
    + exact (depth_up t c nd p pn L d Hc Hp Hpn Hk (IH Hp_in)).
    + exact (depth_up t c nd p pn R d Hc Hp Hpn Hk (IH Hp_in)).
Qed.

(** *** The colors of a shape and the colors of a tree *)

Lemma shape_color_at h f p s :
  shape_from f h p = Some s -> shape_color s = color_at h p.
Proof.
  intros Hs. destruct p as [a|].
  - apply shape_from_Some_inv in Hs as (f' & nd & l & r & _ & Ha & _ & _ & ->).
    cbn. rewrite Ha. reflexivity.
  - destruct f; injection Hs as <-; reflexivity.
Qed.

Lemma rb_inv_shape N t b :
  tree_inv N t -> balanced N t b -> red_ok N t None ->
  forall f p s,
    shape_from f (heap t) p = Some s -> (forall a, p = Some a -> a ∈ N) ->
    no_red_red s = true /\ black_height s = Some (bh_at b p).
Proof.
  intros HI HB HR. induction f as [|f IH]; intros p s Hs Hp.
  - destruct p; [discriminate|]. injection Hs as <-. split; reflexivity.
  - destruct p as [a|]; [|injection Hs as <-; split; reflexivity].
    pose proof (Hp a eq_refl) as Ha.
    apply shape_from_Some_inv in Hs as (f' & nd & l & r & [= <-] & Hnd & Hl & Hr & ->).
    assert (Hkid : forall k c, child k nd = Some c -> c ∈ N).
    { intros k c Hc. exact (proj1 (kid_in N t HI a nd k c Ha Hnd Hc)). }
    destruct (IH _ _ Hl (Hkid L)) as [Hl1 Hl2].
    destruct (IH _ _ Hr (Hkid R)) as [Hr1 Hr2].
    pose proof (HB a nd L Ha Hnd) as HbL. pose proof (HB a nd R Ha Hnd) as HbR.
    cbn [child] in HbL, HbR. split.
    + cbn [no_red_red]. rewrite Hl1, Hr1, !andb_true_r.
      destruct (color nd) eqn:Hc; [|reflexivity].
      assert (Hblack : forall k, color_at (heap t) (child k nd) = BLACK).
      { intros k. destruct (child k nd) as [c|] eqn:Hk; [|reflexivity].
        apply (HR a nd k c Ha Hnd Hc Hk). discriminate. }
      rewrite (shape_color_at _ _ _ _ Hl), (shape_color_at _ _ _ _ Hr).
      pose proof (Hblack L) as HL. pose proof (Hblack R) as HR'.
      cbn [child] in HL, HR'. rewrite HL, HR'. reflexivity.
    + cbn [black_height]. rewrite Hl2, Hr2.
      rewrite bool_decide_eq_true_2 by lia. cbn [bh_at]. f_equal.
      destruct (color nd); cbn [blacks] in *; lia.
Qed.

Lemma shape_red_ok h : forall f p s,
  shape_from f h p = Some s -> no_red_red s = true ->
  forall a nd k c, a ∈ addrs s -> h !! a = Some nd -> color nd = RED ->
    child k nd = Some c -> color_at h (Some c) = BLACK.
Proof.
  induction f as [|f IH]; intros p s Hs Hrr a nd k c Ha Hnd Hc Hk.
  - destruct p; [discriminate|]. injection Hs as <-. inversion Ha.
  - destruct p as [a0|]; [|injection Hs as <-; inversion Ha].
    apply shape_from_Some_inv in Hs as (f' & nd0 & l & r & [= <-] & Hnd0 & Hl & Hr & ->).
    cbn [no_red_red] in Hrr. apply andb_prop in Hrr as [Hrr Hrr_r].
    apply andb_prop in Hrr as [Hrr0 Hrr_l].
    cbn [addrs] in Ha. apply elem_of_app in Ha as [Ha|Ha];
      [exact (IH _ _ Hl Hrr_l a nd k c Ha Hnd Hc Hk)|].
    apply elem_of_cons in Ha as [->|Ha];
      [|exact (IH _ _ Hr Hrr_r a nd k c Ha Hnd Hc Hk)].
    assert (nd0 = nd) as -> by congruence. rewrite Hc in Hrr0.
    apply andb_prop in Hrr0 as [H1 H2].
    apply bool_decide_eq_true in H1, H2.
    rewrite (shape_color_at _ _ _ _ Hl) in H1.
    rewrite (shape_color_at _ _ _ _ Hr) in H2.
    destruct k; cbn [child] in Hk; rewrite Hk in *; assumption.
Qed.

Lemma shape_balanced h : forall f p s m,
  shape_from f h p = Some s -> NoDup (addrs s) -> black_height s = Some m ->
  exists b, bh_at b p = m /\
    forall a nd k, a ∈ addrs s -> h !! a = Some nd ->
      b a = (bh_at b (child k nd) + blacks (color nd))%nat.
Proof.
  induction f as [|f IH]; intros p s m Hs Hnd Hbh.
  - destruct p; [discriminate|]. injection Hs as <-. injection Hbh as <-.
    exists (fun _ => O). split; [reflexivity|]. intros a nd k Ha. inversion Ha.
  - destruct p as [a0|].
    2:{ injection Hs as <-. injection Hbh as <-.
        exists (fun _ => O). split; [reflexivity|]. intros a nd k Ha. inversion Ha. }
    apply shape_from_Some_inv in Hs as (f' & nd0 & l & r & [= <-] & Hnd0 & Hl & Hr & ->).
    cbn [addrs] in Hnd. apply NoDup_app in Hnd as (Hnd_l & Hdisj & Hnd_r).
    apply NoDup_cons in Hnd_r as [Ha0_r Hnd_r].
    assert (Ha0_l : a0 ∉ addrs l).
    { intros Hc. apply (Hdisj a0 Hc). apply elem_of_cons. left. reflexivity. }
    assert (Hlr : forall x, x ∈ addrs l -> x ∉ addrs r).
    { intros x Hx Hx'. apply (Hdisj x Hx). apply elem_of_cons. right. exact Hx'. }
    cbn [black_height] in Hbh.
    destruct (black_height l) as [hl|] eqn:Hbl; [|discriminate].
    destruct (black_height r) as [hr|] eqn:Hbr; [|discriminate].
    destruct (bool_decide (hl = hr)) eqn:Heq; [|discriminate].
    apply bool_decide_eq_true in Heq. subst hr. injection Hbh as <-.
    destruct (IH _ _ hl Hl Hnd_l Hbl) as (bl & Hbl_top & Hbl_in).
    destruct (IH _ _ hl Hr Hnd_r Hbr) as (br & Hbr_top & Hbr_in).
    pose proof (shape_in_order _ _ _ _ Hl) as Hol.
    pose proof (shape_in_order _ _ _ _ Hr) as Hor.
    set (m := match color nd0 with BLACK => S hl | RED => hl end).
    set (b := fun x => if decide (x = a0) then m
                       else if decide (x ∈ addrs l) then bl x else br x).
    assert (Hb_l : forall q, (forall c, q = Some c -> c ∈ addrs l) ->
              bh_at b q = bh_at bl q).
    { intros [c|] Hq; [|reflexivity]. pose proof (Hq c eq_refl) as Hc.
      cbn [bh_at]. unfold b.
      rewrite decide_False by (intros ->; contradiction).
      rewrite decide_True by exact Hc. reflexivity. }
    assert (Hb_r : forall q, (forall c, q = Some c -> c ∈ addrs r) ->
              bh_at b q = bh_at br q).
    { intros [c|] Hq; [|reflexivity]. pose proof (Hq c eq_refl) as Hc.
      cbn [bh_at]. unfold b.
      rewrite decide_False by (intros ->; contradiction).
      rewrite decide_False by (intros Hc'; exact (Hlr c Hc' Hc)). reflexivity. }
    assert (Htop_l : forall c, lchild nd0 = Some c -> c ∈ addrs l).
    { intros c Hc. rewrite Hc in Hol. exact (in_order_top _ _ _ Hol). }
    assert (Htop_r : forall c, rchild nd0 = Some c -> c ∈ addrs r).
    { intros c Hc. rewrite Hc in Hor. exact (in_order_top _ _ _ Hor). }
    exists b. split.
    { cbn [bh_at]. unfold b. rewrite decide_True by reflexivity. reflexivity. }
    intros a nd k Ha Hnd.
    apply elem_of_app in Ha as [Ha|Ha]; [|apply elem_of_cons in Ha as [->|Ha]].
    + assert (Hkid : forall c, child k nd = Some c -> c ∈ addrs l).
      { intros c Hc. exact (in_order_closed _ _ _ Hol a nd k c Ha Hnd Hc). }
      rewrite (Hb_l _ Hkid). rewrite <- (Hbl_in a nd k Ha Hnd).
      exact (Hb_l (Some a) ltac:(intros c [= <-]; exact Ha)).
    + assert (nd0 = nd) as -> by congruence.
      unfold b at 1. rewrite decide_True by reflexivity.
      destruct k; cbn [child].
      * rewrite (Hb_l _ Htop_l), Hbl_top. unfold m.
        destruct (color nd); cbn [blacks]; lia.
      * rewrite (Hb_r _ Htop_r), Hbr_top. unfold m.
        destruct (color nd); cbn [blacks]; lia.
    + assert (Hkid : forall c, child k nd = Some c -> c ∈ addrs r).
      { intros c Hc. exact (in_order_closed _ _ _ Hor a nd k c Ha Hnd Hc). }
      rewrite (Hb_r _ Hkid). rewrite <- (Hbr_in a nd k Ha Hnd).
      exact (Hb_r (Some a) ltac:(intros c [= <-]; exact Ha)).
Qed.

Lemma shape_rb_inv fuel t s :
  shape_of fuel t = Some s -> parents_ok (heap t) None s -> NoDup (addrs s) ->
  root_black s = true -> no_red_red s = true -> is_Some (black_height s) ->
  rb_inv (list_to_set (addrs s)) t None.
Proof.
  intros Hs Hp Hnd Hrb Hrr [m Hbh].
  split; [exact (shape_tree_inv fuel t s Hs Hp Hnd)|]. split.
  { unfold black_root. rewrite <- (shape_color_at _ _ _ _ Hs).
    apply bool_decide_eq_true in Hrb. exact Hrb. }
  split.
  { intros a nd k c Ha Hnd' Hc Hk _. apply elem_of_list_to_set in Ha.
    exact (shape_red_ok _ _ _ _ Hs Hrr a nd k c Ha Hnd' Hc Hk). }
  destruct (shape_balanced _ _ _ _ m Hs Hnd Hbh) as (b & _ & Hb).
  exists b. intros a nd k Ha Hnd'. apply elem_of_list_to_set in Ha.
  exact (Hb a nd k Ha Hnd').
Qed.

Lemma tree_inv_parents_ok N t :
  tree_inv N t ->
  forall f p s par,
    shape_from f (heap t) p = Some s ->
    (forall a, p = Some a -> a ∈ N /\ (parent <$> heap t !! a) = Some par) ->
    parents_ok (heap t) par s.
Proof.
  intros HI. induction f as [|f IH]; intros p s par Hs Hp.
  - destruct p; [discriminate|]. injection Hs as <-. exact I.
  - destruct p as [a|]; [|injection Hs as <-; exact I].
    destruct (Hp a eq_refl) as [Ha Hpar].
    apply shape_from_Some_inv in Hs as (f' & nd & l & r & [= <-] & Hnd & Hl & Hr & ->).
    cbn [parents_ok]. split; [exact Hpar|].
    assert (Hkid : forall k c, child k nd = Some c ->
              c ∈ N /\ (parent <$> heap t !! c) = Some (Some a)).
    { intros k c Hc. destruct (inv_child _ _ HI a nd k c Ha Hnd Hc) as (H1 & H2 & _).
      auto. }
    split; [exact (IH _ _ _ Hl (Hkid L))|exact (IH _ _ _ Hr (Hkid R))].
Qed.

(** *** [insert] into a red-black tree *)

(** [insert] of a node without children into a red-black tree that is not
    empty and whose height the loop budget covers. *)
Lemma insert_rb_step N l fuel t s n nd :
  ordered N l t -> rb_inv N t None -> root t <> None ->
  shape_of fuel t = Some s ->
  n ∉ N -> heap t !! n = Some nd -> lchild nd = None -> rchild nd = None ->
  exists t' pre post,
    insert fuel (Some n) t = Ok tt t' /\ l = pre ++ post /\
    ordered (N ∪ {[n]}) (pre ++ n :: post) t' /\
    rb_inv (N ∪ {[n]}) t' None /\ root t' <> None /\
    (keys_in_order (heap t) l -> keys_in_order (heap t') (pre ++ n :: post)).
Proof.
  intros HO Hinv Hroot Hs Hout Hn Hnl Hnr.
  pose proof HO as (HI & Hl & Hnd).
  assert (Haddrs : addrs s = l)
    by exact (in_order_fun _ _ _ (shape_in_order _ _ _ _ Hs) _ Hl).
  assert (Hpar : parents_ok (heap t) None s).
  { apply (tree_inv_parents_ok N t HI fuel (root t) s None Hs).
    intros a Ha. pose proof (inv_root _ _ HI a Ha) as Ha_in.
    split; [exact Ha_in|]. destruct (inv_alloc _ _ HI a Ha_in) as [y Hy].
    rewrite Hy. cbn. rewrite (root_no_parent N t a y HI Ha Hy). reflexivity. }
  (* the descent and the attachment *)
  destruct (insert_descend_total fuel t n nd Hn (root t) s None true Hs)
    as (tp0 & left_ & Hdesc & _ & _).
  assert (Hrin : forall a, root t = Some a -> a ∈ N)
    by (intros a Ha; exact (inv_root _ _ HI a Ha)).
  destruct (insert_descend_inv N t n HI fuel (root t) None true _ _ Hrin Hdesc)
    as (_ & _ & Hsome).
  destruct (Hsome Hroot) as (tp & x & Htp & Htp_in & Hx & Hfree).
  cbn [fst snd] in Htp, Hfree. subst tp0.
  set (k := if left_ then L else R) in *.
  assert (Hatt : insert_attach fuel (Some n) t = Ok tt (attached n tp k t)).
  { unfold insert_attach.
    rewrite (bind_Ok get_root _ t (root t) t eq_refl).
    rewrite (bind_Ok _ _ _ _ _ Hdesc).
    exact (attach_exec N t n tp k nd x Hout Hn Htp_in Hx Hfree left_ eq_refl). }
  set (t1 := attached n tp k t) in *.
  destruct (insert_attach_ordered N l fuel t n nd t1 HO Hroot Hout Hn Hnl Hnr Hatt)
    as (_ & _ & _ & pre & post & _ & _ & _ & _ & Heq & HO1 & Hpre & Hpost).
  pose proof HO1 as (HI1 & _ & Hnd1).
  pose proof (attached_rb N t n tp k nd x Hinv Hout Hn Hnl Hnr Htp_in Hx Hfree)
    as Hinv1. fold t1 in Hinv1.
  (* the depth of the new node *)
  assert (Htp_s : tp ∈ addrs s).
  { rewrite Haddrs. apply (reach_in_order t l tp Hl).
    apply (reach_iff N t tp HI). exact Htp_in. }
  destruct (parent_chain_in_tree fuel t s tp Hs Hpar Htp_s) as (dtp & Hchain & Hlt).
  pose proof (parent_chain_depth N t HI tp dtp Hchain Htp_in) as Hdtp.
  pose proof (attach_depth_old N t n tp k nd x HI Hout Hn Hnl Hnr Htp_in Hx Hfree
                tp dtp Hdtp) as Hdtp1. fold t1 in Hdtp1.
  assert (Hne : n <> tp) by (intros ->; contradiction).
  assert (Hn1 : heap t1 !! n = Some (set_color RED (set_parent (Some tp) nd))).
  { unfold t1. rewrite (attached_lookup n tp k t nd x Hne Hn Hx).
    rewrite decide_True by reflexivity. reflexivity. }
  assert (Hnew_in : n ∈ N ∪ {[n]}).
  { apply elem_of_union. right. apply elem_of_singleton. reflexivity. }
  assert (Hdn : depth t1 n (S dtp)).
  { destruct (inv_depth _ _ HI1 n Hnew_in) as [dn Hdn].
    destruct (depth_parent t1 n _ tp dn Hdn Hn1 eq_refl) as (dp & -> & Hdp).
    rewrite (depth_fun _ _ _ Hdp _ Hdtp1) in Hdn. exact Hdn. }
  (* the fixup *)
  destruct (insert_fixup_rb (N ∪ {[n]}) fuel t1 n _ tp (S dtp) Hinv1 Hnew_in Hn1
              eq_refl eq_refl Hdn ltac:(lia)) as (t' & Hfix & Hinv').
  assert (Hins : insert fuel (Some n) t = Ok tt t').
  { unfold insert. rewrite (bind_Ok get_root _ t (root t) t eq_refl).
    destruct (root t) as [r|]; [|destruct Hroot; reflexivity].
    rewrite (bind_Ok _ _ _ _ _ Hatt). exact Hfix. }
  destruct (insert_fixup_keeps_order (N ∪ {[n]}) (pre ++ n :: post) fuel n Hnew_in
              t1 tt t' HO1 Hfix) as [HO' _].
  exists t', pre, post.
  split; [exact Hins|]. split; [exact Heq|]. split; [exact HO'|].
  split; [exact Hinv'|]. split.
  { destruct HO' as (_ & Hl' & _). intros Hc. rewrite Hc in Hl'.
    inversion Hl' as [Hnil|]. destruct pre; discriminate. }
  intros Hsorted. rewrite Heq in Hsorted.
  pose proof (keeps_field_insert key key_ignores_links key_ignores_color
                fuel (Some n) t tt t' Hins) as Hkeys.
  exact (keys_in_order_insert (heap t) (heap t') pre post n nd Hkeys Hn Hpre Hpost
           Hsorted).
Qed.

(** A tree with the properties 2, 4 and 5 node by node has them as a
    shape. *)
Lemma rb_inv_red_black N l t f s :
  ordered N l t -> rb_inv N t None -> shape_of f t = Some s ->
  parents_ok (heap t) None s /\ addrs s = l /\
  root_black s = true /\ no_red_red s = true /\ is_Some (black_height s).
Proof.
  intros (HI & Hl & _) (_ & Hroot & HR & b & HB) Hs.
  assert (Hroot_in : forall a, root t = Some a -> a ∈ N)
    by (intros a Ha; exact (inv_root _ _ HI a Ha)).
  destruct (rb_inv_shape N t b HI HB HR f (root t) s Hs Hroot_in) as [Hrr Hbh].
  split.
  { apply (tree_inv_parents_ok N t HI f (root t) s None Hs).
    intros a Ha. split; [exact (Hroot_in a Ha)|].
    destruct (inv_alloc _ _ HI a (Hroot_in a Ha)) as [y Hy].
    rewrite Hy. cbn. rewrite (root_no_parent N t a y HI Ha Hy). reflexivity. }
  split; [exact (in_order_fun _ _ _ (shape_in_order _ _ _ _ Hs) _ Hl)|].
  split.
  { unfold root_black. rewrite (shape_color_at _ _ _ _ Hs).
    apply bool_decide_eq_true_2. exact Hroot. }
  split; [exact Hrr|]. rewrite Hbh. eexists. reflexivity.
Qed.

(** X18: [insert] keeps the red-black properties.  For a tree that is not
    empty, of height at most [fuel], whose nodes name their parents and are
    pairwise distinct, and that has the properties I2, I4, I5 and I6 (BLACK
    root, no RED node with a RED child, the same number of BLACK nodes on
    every path down, keys in order), and for a node that is not in the tree
    and has no children: [insert] returns, and the result is a tree of the
    same kind with the same four properties, whose in-order sequence is the
    former one with the new node put in at one place. *)
Theorem insert_keeps_red_black :
  forall fuel t s n nd,
    shape_of fuel t = Some s -> parents_ok (heap t) None s -> NoDup (addrs s) ->
    root t <> None -> red_black s = true ->
    n ∉ addrs s -> heap t !! n = Some nd -> lchild nd = None -> rchild nd = None ->
    exists t' f' s' pre post,
      insert fuel (Some n) t = Ok tt t' /\
      shape_of f' t' = Some s' /\ parents_ok (heap t') None s' /\
      NoDup (addrs s') /\ root t' <> None /\
      addrs s = pre ++ post /\ addrs s' = pre ++ n :: post /\
      red_black s' = true.
Proof.
  intros fuel t s n nd Hs Hpar Hnd Hroot Hrbs Hn_s Hn Hnl Hnr.
  unfold red_black in Hrbs.
  apply andb_prop in Hrbs as [Hrbs Hsorted].
  apply andb_prop in Hrbs as [Hrbs Hbh]. apply andb_prop in Hrbs as [Hrb Hrr].
  apply bool_decide_eq_true in Hbh.
  pose proof (shape_ordered fuel t s Hs Hpar Hnd) as HO.
  pose proof HO as (_ & Hl & _).
  pose proof (shape_rb_inv fuel t s Hs Hpar Hnd Hrb Hrr Hbh) as Hinv.
  assert (Hout : n ∉ (list_to_set (addrs s) : gset ptr)).
  { intros Hc. apply Hn_s. apply elem_of_list_to_set in Hc. exact Hc. }
  destruct (insert_rb_step _ _ fuel t s n nd HO Hinv Hroot Hs Hout Hn Hnl Hnr)
    as (t' & pre & post & Hins & Heq & HO' & Hinv' & Hroot' & Hkeys).
  pose proof HO' as (_ & Hl' & Hnd').
  destruct (in_order_shape _ _ _ Hl') as (f' & s' & Hs' & Haddrs).
  destruct (rb_inv_red_black _ _ t' f' s' HO' Hinv' Hs')
    as (Hpar' & _ & Hrb' & Hrr' & Hbh').
  exists t', f', s', pre, post.
  split; [exact Hins|]. split; [exact Hs'|]. split; [exact Hpar'|].
  split; [rewrite Haddrs; exact Hnd'|]. split; [exact Hroot'|].
  split; [exact Heq|]. split; [exact Haddrs|].
  unfold red_black. rewrite Hrb', Hrr'.
  rewrite (bool_decide_eq_true_2 _ Hbh'). cbn [andb].
  apply (keys_in_order_shape f' t' s' _ Hs' Hl'). apply Hkeys.
  exact (proj2 (keys_in_order_shape fuel t s _ Hs Hl) Hsorted).
Qed.

(** ** A tree built by insertions *)

(** *** Records outside the tree do not matter *)

Section outside.
Context (N : gset ptr) (t t0 : Tree).
Hypothesis Hsame : forall i, i ∈ N -> heap t0 !! i = heap t !! i.
Hypothesis Hrt : root t0 = root t.
Hypothesis HI : tree_inv N t.

Lemma outside_depth a d : depth t a d -> depth t0 a d.
Proof.
  induction 1 as [a nd Hr Ha Hp|c nd p pn k d Hc Hp Hpn Hk Hd IH].
  - pose proof (inv_root _ _ HI a Hr) as Hin.
    eapply depth_root; [rewrite Hrt; exact Hr|rewrite (Hsame a Hin); exact Ha|exact Hp].
  - pose proof (depth_in N t p d HI Hd) as Hp_in.
    pose proof (depth_in N t c (S d) HI (depth_up t c nd p pn k d Hc Hp Hpn Hk Hd))
      as Hc_in.
    eapply (depth_up t0 c nd p pn k d);
      [rewrite (Hsame c Hc_in); exact Hc|exact Hp|
       rewrite (Hsame p Hp_in); exact Hpn|exact Hk|exact IH].
Qed.

Lemma outside_inv : tree_inv N t0.
Proof.
  constructor.
  - intros r Hr. rewrite Hrt in Hr. exact (inv_root _ _ HI r Hr).
  - intros a Ha. rewrite (Hsame a Ha). exact (inv_alloc _ _ HI a Ha).
  - intros a nd k c Ha Hnd Hk. rewrite (Hsame a Ha) in Hnd.
    destruct (inv_child _ _ HI a nd k c Ha Hnd Hk) as (H1 & H2 & H3).
    split; [exact H1|]. split; [rewrite (Hsame c H1); exact H2|exact H3].
  - intros a nd p Ha Hnd Hp. rewrite (Hsame a Ha) in Hnd.
    exact (inv_parent _ _ HI a nd p Ha Hnd Hp).
  - intros a Ha. destruct (inv_depth _ _ HI a Ha) as [d Hd].
    exists d. exact (outside_depth a d Hd).
Qed.

Lemma outside_ordered l : ordered N l t -> ordered N l t0.
Proof.
  intros HO. pose proof HO as (_ & Hl & Hnd).
  split; [exact outside_inv|]. split; [|exact Hnd].
  rewrite Hrt. apply (in_order_ext (heap t) (heap t0) _ _ Hl).
  intros x Hx. rewrite (Hsame x (ordered_nodes N l t HO x Hx)). reflexivity.
Qed.

Lemma outside_color c : c ∈ N -> color_at (heap t0) (Some c) = color_at (heap t) (Some c).
Proof. intros Hc. cbn [color_at]. rewrite (Hsame c Hc). reflexivity. Qed.

Lemma outside_rb : rb_inv N t None -> rb_inv N t0 None.
Proof.
  intros (_ & Hroot & HR & b & HB).
  split; [exact outside_inv|]. split.
  { unfold black_root in *. rewrite Hrt.
    destruct (root t) as [r|] eqn:Hr; [|reflexivity].
    rewrite (outside_color r (inv_root _ _ HI r Hr)). exact Hroot. }
  split.
  { intros a nd k c Ha Hnd Hc Hk Hne. rewrite (Hsame a Ha) in Hnd.
    destruct (kid_in N t HI a nd k c Ha Hnd Hk) as (Hc_in & _).
    rewrite (outside_color c Hc_in). exact (HR a nd k c Ha Hnd Hc Hk Hne). }
  exists b. intros a nd k Ha Hnd. rewrite (Hsame a Ha) in Hnd.
  exact (HB a nd k Ha Hnd).
Qed.

Lemma outside_keys l :
  (forall x, x ∈ l -> x ∈ N) -> keys_in_order (heap t) l -> keys_in_order (heap t0) l.
Proof.
  intros Hl (ks & HF & Hs). exists ks. split; [|exact Hs].
  clear Hs. induction HF as [|a k l ks Hak HF IH]; constructor.
  - rewrite (Hsame a (Hl a ltac:(apply elem_of_cons; left; reflexivity))). exact Hak.
  - apply IH. intros x Hx. apply Hl. apply elem_of_cons. right. exact Hx.
Qed.
End outside.

(** A budget of the number of the nodes covers the height. *)
Lemma shape_from_size h : forall f p s,
  shape_from f h p = Some s -> shape_from (length (addrs s)) h p = Some s.
Proof.
  induction f as [|f IH]; intros p s Hs.
  - destruct p; [discriminate|]. injection Hs as <-. reflexivity.
  - destruct p as [a|]; [|injection Hs as <-; reflexivity].
    apply shape_from_Some_inv in Hs as (f' & nd & l & r & [= <-] & Ha & Hl & Hr & ->).
    cbn [addrs]. rewrite length_app. cbn [length].
    replace (length (addrs l) + S (length (addrs r)))%nat
      with (S (length (addrs l) + length (addrs r))) by lia.
    cbn [shape_from]. rewrite Ha.
    rewrite (shape_from_mono h _ (length (addrs l) + length (addrs r)) _ _
               (IH _ _ Hl)) by lia.
    rewrite (shape_from_mono h _ (length (addrs l) + length (addrs r)) _ _
               (IH _ _ Hr)) by lia.
    reflexivity.
Qed.

(** The keys of a shape, from the keys in the store. *)
Lemma shape_keys_fmap h f p s :
  shape_from f h p = Some s ->
  inorder s = (fun a => default 0 (key <$> h !! a)) <$> addrs s.
Proof.
  intros Hs. pose proof (shape_keys h f p s Hs) as HF.
  induction HF as [|a k l ks Hak HF IH]; [reflexivity|].
  cbn. rewrite Hak. cbn. rewrite IH. reflexivity.
Qed.

(** *** Insertions into a red-black tree, one after the other *)

Lemma run_inserts fuel : forall ins N l t,
  ordered N l t -> rb_inv N t None -> root t <> None ->
  keys_in_order (heap t) l ->
  NoDup ((fun x => x.1.1) <$> ins) ->
  (forall x, x ∈ ins -> x.1.1 ∉ N) ->
  (length l + length ins <= S fuel)%nat ->
  exists t' N' l',
    run_ops fuel (insert_ops ins) t = Ok tt t' /\
    ordered N' l' t' /\ rb_inv N' t' None /\ root t' <> None /\
    keys_in_order (heap t') l' /\
    l' ≡ₚ l ++ ((fun x => x.1.1) <$> ins) /\
    (forall i, i ∈ N -> (key <$> heap t' !! i) = (key <$> heap t !! i)) /\
    Forall (fun x => (key <$> heap t' !! x.1.1) = Some x.1.2) ins.
Proof.
  induction ins as [|[[a k] c] ins IH]; intros N l t HO Hinv Hroot Hkeys Hnd Hout Hlen.
  { exists t, N, l. split; [reflexivity|]. split; [exact HO|].
    split; [exact Hinv|]. split; [exact Hroot|]. split; [exact Hkeys|].
    split; [cbn; rewrite app_nil_r; reflexivity|].
    split; [reflexivity|constructor]. }
  cbn [fmap list_fmap fst snd] in Hnd. apply NoDup_cons in Hnd as [Ha_ins Hnd].
  assert (Ha_out : a ∉ N) by (apply (Hout (a, k, c)); apply elem_of_cons; left; reflexivity).
  pose proof HO as (HI & Hl & Hndl).
  (* the node is constructed *)
  set (t0 := mkTree (<[a := mkNode k c None None None]> (heap t)) (root t)).
  assert (Hsame : forall i, i ∈ N -> heap t0 !! i = heap t !! i).
  { intros i Hi. unfold t0. cbn [heap]. apply lookup_insert_ne. intros ->. contradiction. }
  assert (Hrt : root t0 = root t) by reflexivity.
  pose proof (outside_ordered N t t0 Hsame Hrt HI l HO) as HO0.
  pose proof (outside_rb N t t0 Hsame Hrt HI Hinv) as Hinv0.
  pose proof (outside_keys N t t0 Hsame l (ordered_nodes N l t HO) Hkeys) as Hkeys0.
  assert (Ha0 : heap t0 !! a = Some (mkNode k c None None None))
    by (unfold t0; cbn [heap]; apply lookup_insert_eq).
  (* and inserted *)
  pose proof HO0 as (_ & Hl0 & _).
  destruct (in_order_shape _ _ _ Hl0) as (f & s & Hs & Haddrs).
  assert (Hs0 : shape_of fuel t0 = Some s).
  { unfold shape_of. apply (shape_from_mono _ (length (addrs s))).
    - exact (shape_from_size _ _ _ _ Hs).
    - rewrite Haddrs. cbn [length] in Hlen. lia. }
  destruct (insert_rb_step N l fuel t0 s a _ HO0 Hinv0 Hroot Hs0 Ha_out Ha0 eq_refl
              eq_refl)
    as (t1 & pre & post & Hins & Heq & HO1 & Hinv1 & Hroot1 & Hkeys1).
  specialize (Hkeys1 Hkeys0).
  pose proof (keeps_field_insert key key_ignores_links key_ignores_color
                fuel (Some a) t0 tt t1 Hins) as Hk01.
  (* the other nodes *)
  assert (Hout1 : forall x, x ∈ ins -> x.1.1 ∉ N ∪ {[a]}).
  { intros x Hx Hc. apply elem_of_union in Hc as [Hc|Hc].
    - apply (Hout x); [apply elem_of_cons; right; exact Hx|exact Hc].
    - apply elem_of_singleton in Hc. apply Ha_ins. rewrite <- Hc.
      exact (list_elem_of_fmap_2 (fun x : ptr * Z * COLOR => x.1.1) ins x Hx). }
  assert (Hlen1 : (length (pre ++ a :: post) + length ins <= S fuel)%nat).
  { rewrite Heq in Hlen. rewrite length_app in *. cbn [length] in *. lia. }
  destruct (IH (N ∪ {[a]}) (pre ++ a :: post) t1 HO1 Hinv1 Hroot1 Hkeys1 Hnd Hout1 Hlen1)
    as (t' & N' & l' & Hrun & HO' & Hinv' & Hroot' & Hkeys' & Hperm & Hold & Hnew).
  exists t', N', l'. split.
  { assert (Hop : run_op fuel (Insert a k c) t = Ok tt t1).
    { unfold run_op. rewrite (bind_Ok (new_node a k c) _ t tt t0 eq_refl).
      exact Hins. }
    change (insert_ops ((a, k, c) :: ins)) with (Insert a k c :: insert_ops ins).
    cbn [run_ops]. rewrite (bind_Ok _ _ _ _ _ Hop). exact Hrun. }
  split; [exact HO'|]. split; [exact Hinv'|]. split; [exact Hroot'|].
  split; [exact Hkeys'|]. split.
  { rewrite Hperm, Heq. cbn [fmap list_fmap fst]. rewrite <- !app_assoc. cbn.
    apply Permutation_app_head. apply Permutation_middle. }
  split.
  { intros i Hi. rewrite (Hold i ltac:(apply elem_of_union; left; exact Hi)).
    rewrite (Hk01 i), (Hsame i Hi). reflexivity. }
  constructor; [|exact Hnew]. cbn [fst snd].
  rewrite (Hold a ltac:(apply elem_of_union; right; apply elem_of_singleton; reflexivity)).
  rewrite (Hk01 a), Ha0. reflexivity.
Qed.

(** X19: a tree built by insertions is a red-black tree.  A caller that
    starts from the empty tree, constructs a first node BLACK and further
    nodes of any color at pairwise distinct addresses, and inserts each one
    (with a loop budget of at least the number of the nodes before the last
    insertion): every [insert] returns, and the result is a red-black tree
    (I2, I4, I5, I6) that holds exactly the nodes inserted and whose keys
    in in-order are the keys inserted, sorted. *)
Theorem inserts_build_a_red_black_tree :
  forall fuel a0 k0 ins,
    NoDup (a0 :: ((fun x : ptr * Z * COLOR => x.1.1) <$> ins)) ->
    (length ins <= fuel)%nat ->
    exists t' f' s',
      run_ops fuel (insert_ops ((a0, k0, BLACK) :: ins)) empty_tree = Ok tt t' /\
      shape_of f' t' = Some s' /\ parents_ok (heap t') None s' /\
      red_black s' = true /\
      addrs s' ≡ₚ a0 :: ((fun x : ptr * Z * COLOR => x.1.1) <$> ins) /\
      inorder s' ≡ₚ k0 :: ((fun x : ptr * Z * COLOR => x.1.2) <$> ins).
Proof.
  intros fuel a0 k0 ins Hnd Hlen.
  apply NoDup_cons in Hnd as [Ha0 Hnd].
  (* the first node *)
  set (t1 := mkTree (<[a0 := mkNode k0 BLACK None None None]> ∅) (Some a0)).
  set (s1 := Br Leaf a0 k0 BLACK Leaf).
  assert (Hop : run_op fuel (Insert a0 k0 BLACK) empty_tree = Ok tt t1) by reflexivity.
  assert (Hlook : heap t1 !! a0 = Some (mkNode k0 BLACK None None None))
    by (unfold t1; cbn [heap]; apply lookup_insert_eq).
  assert (Hs1 : shape_of 1 t1 = Some s1).
  { unfold shape_of. change (root t1) with (Some a0). cbn [shape_from].
    rewrite Hlook. reflexivity. }
  assert (Hp1 : parents_ok (heap t1) None s1).
  { cbn [parents_ok s1]. rewrite Hlook. repeat split. }
  assert (Hnd1 : NoDup (addrs s1)).
  { cbn. apply NoDup_cons. split; [inversion 1|constructor]. }
  pose proof (shape_ordered 1 t1 s1 Hs1 Hp1 Hnd1) as HO1.
  assert (Hinv1 : rb_inv (list_to_set (addrs s1)) t1 None).
  { apply (shape_rb_inv 1 t1 s1 Hs1 Hp1 Hnd1); [reflexivity|reflexivity|].
    eexists. reflexivity. }
  pose proof HO1 as (_ & Hl1 & _).
  assert (Hk1 : keys_in_order (heap t1) (addrs s1))
    by (apply (keys_in_order_shape 1 t1 s1 _ Hs1 Hl1); reflexivity).
  (* the other nodes *)
  assert (Hout : forall x, x ∈ ins -> x.1.1 ∉ (list_to_set (addrs s1) : gset ptr)).
  { intros x Hx Hc. apply elem_of_list_to_set in Hc. cbn in Hc.
    apply elem_of_cons in Hc as [Hc|Hc]; [|inversion Hc].
    apply Ha0. rewrite <- Hc.
    exact (list_elem_of_fmap_2 (fun x : ptr * Z * COLOR => x.1.1) ins x Hx). }
  destruct (run_inserts fuel ins _ _ t1 HO1 Hinv1 ltac:(discriminate) Hk1 Hnd Hout
              ltac:(cbn; lia))
    as (t' & N' & l' & Hrun & HO' & Hinv' & Hroot' & Hkeys' & Hperm & Hold & Hnew).
  pose proof HO' as (_ & Hl' & _).
  destruct (in_order_shape _ _ _ Hl') as (f' & s' & Hs' & Haddrs).
  destruct (rb_inv_red_black _ _ t' f' s' HO' Hinv' Hs')
    as (Hpar' & _ & Hrb' & Hrr' & Hbh').
  exists t', f', s'. split.
  { change (insert_ops ((a0, k0, BLACK) :: ins))
      with (Insert a0 k0 BLACK :: insert_ops ins).
    cbn [run_ops]. rewrite (bind_Ok _ _ _ _ _ Hop). exact Hrun. }
  split; [exact Hs'|]. split; [exact Hpar'|]. split.
  { unfold red_black. rewrite Hrb', Hrr'.
    rewrite (bool_decide_eq_true_2 _ Hbh'). cbn [andb].
    exact (proj1 (keys_in_order_shape f' t' s' _ Hs' Hl') Hkeys'). }
  split; [rewrite Haddrs; exact Hperm|].
  rewrite (shape_keys_fmap _ _ _ _ Hs'), Haddrs, Hperm.
  cbn [app addrs s1 fmap list_fmap].
  assert (Hk0 : (key <$> heap t' !! a0) = Some k0).
  { rewrite (Hold a0); [rewrite Hlook; reflexivity|].
    apply elem_of_list_to_set. cbn. apply elem_of_cons. left. reflexivity. }
  rewrite Hk0. cbn [default].
  apply Permutation_cons; [reflexivity|].
  clear -Hnew. induction Hnew as [|x ins Hx HF IH]; [reflexivity|].
  cbn [fmap list_fmap] in *. rewrite Hx. cbn [default]. rewrite IH. reflexivity.
Qed.

(** ** The colors after a removal *)

(** *** What the structural phase does to the colors *)

Lemma lookup_alter_color (f : Node -> Node) a (h : gmap ptr Node) i :
  (forall x, color (f x) = color x) ->
  (color <$> alter f a h !! i) = (color <$> h !! i).
Proof.
  intros Hf. destruct (decide (a = i)) as [->|Hne].
  - rewrite lookup_alter_eq. destruct (h !! i) as [x|]; [|reflexivity].
    cbn. rewrite Hf. reflexivity.
  - rewrite lookup_alter_ne by done. reflexivity.
Qed.

Lemma lookup_alter_opt_color (f : Node -> Node) a (h : gmap ptr Node) i :
  (forall x, color (f x) = color x) ->
  (color <$> alter_opt f a h !! i) = (color <$> h !! i).
Proof. intros Hf. destruct a; [apply lookup_alter_color, Hf|reflexivity]. Qed.

Lemma color_repoint1 u v x : color (repoint1 u v x) = color x.
Proof. unfold repoint1. repeat case_match; reflexivity. Qed.

Lemma transplanted_color u v ud t i :
  (color <$> heap (transplanted u v ud t) !! i) = (color <$> heap t !! i).
Proof.
  unfold transplanted. cbn [heap].
  rewrite lookup_alter_opt_color by reflexivity.
  apply lookup_alter_opt_color. intros x. apply color_repoint1.
Qed.

Lemma spliced2_color n y l r nd yd t i :
  heap t !! y = Some yd ->
  (color <$> heap (spliced2 n y l r nd yd t) !! i) =
  if decide (i = y) then Some (color nd) else color <$> heap t !! i.
Proof.
  intros Hy.
  assert (Hinner : forall j,
    (color <$> (alter (set_parent (Some y)) l
                  (alter (set_lchild (Some l)) y
                     (heap (transplanted n (Some y)
                        (if decide (y = r) then nd else set_rchild (Some y) nd)
                        (if decide (y = r) then t
                         else mkTree
                           (alter (set_rchild (Some y)) n
                              (alter (set_parent (Some y)) r
                                 (alter (set_rchild (Some r)) y
                                    (heap (transplanted y (rchild yd) yd t)))))
                           (root (transplanted y (rchild yd) yd t)))))) !! j))
    = (color <$> heap t !! j)).
  { intros j. rewrite lookup_alter_color by reflexivity.
    rewrite lookup_alter_color by reflexivity.
    rewrite transplanted_color.
    destruct (decide (y = r)); [reflexivity|]. cbn [heap].
    rewrite lookup_alter_color by reflexivity.
    rewrite lookup_alter_color by reflexivity.
    rewrite lookup_alter_color by reflexivity.
    apply transplanted_color. }
  unfold spliced2. cbn [heap root]. destruct (decide (i = y)) as [->|Hiy].
  - rewrite lookup_alter_eq. pose proof (Hinner y) as Hc. rewrite Hy in Hc.
    match goal with
    | |- (color <$> (set_color _ <$> ?m)) = _ => destruct m as [x|]
    end; [reflexivity|discriminate].
  - rewrite lookup_alter_ne by done. apply Hinner.
Qed.

Lemma blackened_lookup a t i :
  heap (blackened a t) !! i =
  (if decide (i = a) then set_color BLACK else id) <$> heap t !! i.
Proof.
  unfold blackened. cbn [heap]. destruct (decide (i = a)) as [->|Hne].
  - apply lookup_alter_eq.
  - rewrite lookup_alter_ne by done. rewrite option_fmap_id. reflexivity.
Qed.

Lemma blackened_same_links a t : same_links t (blackened a t).
Proof.
  split; [reflexivity|]. intros i. rewrite blackened_lookup.
  destruct (heap t !! i) as [x|]; [|reflexivity]. cbn. case_decide; reflexivity.
Qed.

(** *** A node with at most one child is taken out *)

Section transplant_colors.
Context (N : gset ptr) (t : Tree) (u : ptr) (ud : Node) (ku : side)
        (b : ptr -> nat).
Hypothesis HI : tree_inv N t.
Hypothesis Hu_in : u ∈ N.
Hypothesis Hu : heap t !! u = Some ud.
Hypothesis Hnone : child (opp ku) ud = None.
Hypothesis HB : balanced N t b.
Hypothesis HR : red_ok N t None.
Hypothesis Hroot : black_root t.

Local Abbreviation v := (child ku ud).
Local Abbreviation t' := (transplanted u (child ku ud) ud t).

Lemma tp_in a : a ∈ N ∖ {[u]} -> a ∈ N /\ a <> u.
Proof.
  intros Ha. apply elem_of_difference in Ha as [Ha Hau].
  rewrite not_elem_of_singleton in Hau. auto.
Qed.

(** The record of a node of the tree after [u] is taken out. *)
Lemma tp_view a y' :
  a ∈ N -> heap t' !! a = Some y' ->
  exists y, heap t !! a = Some y /\ color y' = color y /\
    forall k, child k y' = if decide (child k y = Some u) then v else child k y.
Proof.
  intros Ha Hy'.
  pose proof (transplanted_color u v ud t a) as Hcol. rewrite Hy' in Hcol.
  destruct (transplanted_Some N t u ud ku HI Hu_in Hu a y' Hy') as (y & Hy & ->).
  exists y. split; [exact Hy|]. rewrite Hy in Hcol. cbn in Hcol.
  split; [congruence|]. intros k. rewrite (tp_child N t u ud ku HI k a y Ha Hy).
  destruct (decide (child k y = Some u)) as [Hk|Hk].
  - destruct (kid_in N t HI a y k u Ha Hy Hk) as (_ & ud' & Hud' & Hpar).
    assert (ud' = ud) as -> by congruence.
    destruct (tp_distinct N t u ud ku HI Hu_in Hu) as (Hb & _).
    rewrite decide_False.
    + rewrite decide_True by exact Hpar. reflexivity.
    + intros Hv. destruct (Hb a Hv) as [_ Hpa]. contradiction.
  - repeat case_decide; reflexivity.
Qed.

Lemma tp_color_at c :
  color_at (heap t') (Some c) = color_at (heap t) (Some c).
Proof.
  cbn [color_at]. pose proof (transplanted_color u v ud t c) as Hcol.
  destruct (heap t' !! c) as [x'|], (heap t !! c) as [x|]; cbn in Hcol; congruence.
Qed.

Lemma tp_root : root t' = match parent ud with None => v | Some _ => root t end.
Proof. reflexivity. Qed.

(** A RED node is taken out. *)
Lemma transplanted_red_rb : color ud = RED -> rb_inv (N ∖ {[u]}) t' None.
Proof.
  intros Huc.
  split; [exact (transplanted_inv N t u ud ku HI Hu_in Hu Hnone)|].
  split.
  { unfold black_root. rewrite tp_root. destruct (parent ud) as [p|] eqn:Hp.
    - unfold black_root in Hroot. destruct (root t) as [rt|]; [|reflexivity].
      rewrite tp_color_at. exact Hroot.
    - exfalso. pose proof (orphan_root N t HI u ud Hu_in Hu Hp) as Hrt.
      unfold black_root in Hroot.
      rewrite Hrt, (color_at_Some _ _ _ Hu), Huc in Hroot. discriminate. }
  split.
  { intros a y' k c Ha Hy' Hc Hk _. destruct (tp_in a Ha) as [Ha' Hau].
    destruct (tp_view a y' Ha' Hy') as (y & Hy & Hcol & Hkid).
    rewrite Hcol in Hc. rewrite Hkid in Hk. rewrite tp_color_at.
    destruct (decide (child k y = Some u)) as [Hku|Hku].
    - exfalso. pose proof (HR a y k u Ha' Hy Hc Hku ltac:(discriminate)) as Hbad.
      rewrite (color_at_Some _ _ _ Hu), Huc in Hbad. discriminate.
    - apply (HR a y k c Ha' Hy Hc Hk). discriminate. }
  exists b. intros a y' k Ha Hy'. destruct (tp_in a Ha) as [Ha' Hau].
  destruct (tp_view a y' Ha' Hy') as (y & Hy & Hcol & Hkid).
  rewrite Hcol, Hkid. pose proof (HB a y k Ha' Hy) as Hba.
  destruct (decide (child k y = Some u)) as [Hku|Hku]; [|exact Hba].
  rewrite Hku in Hba. cbn [bh_at] in Hba.
  pose proof (HB u ud ku Hu_in Hu) as Hbu. rewrite Huc in Hbu. cbn in Hbu. lia.
Qed.

(** The last node of the tree is taken out. *)
Lemma transplanted_last_rb :
  parent ud = None -> child ku ud = None -> rb_inv (N ∖ {[u]}) t' None.
Proof.
  intros Hp Hv.
  pose proof (transplanted_inv N t u ud ku HI Hu_in Hu Hnone) as HI'.
  assert (Hrt : root t' = None) by (rewrite tp_root, Hp; exact Hv).
  assert (Hempty : forall a, a ∈ N ∖ {[u]} -> False).
  { intros a Ha. destruct (inv_depth _ _ HI' a Ha) as [d Hd].
    destruct (depth_has_root _ _ _ Hd) as (r & Hr & _). congruence. }
  split; [exact HI'|]. split; [unfold black_root; rewrite Hrt; reflexivity|].
  split.
  - intros a y' k c Ha. destruct (Hempty a Ha).
  - exists b. intros a y' k Ha. destruct (Hempty a Ha).
Qed.

(** A BLACK node with a child is taken out, and the child is colored
    BLACK. *)
Lemma transplanted_black_rb xa :
  color ud = BLACK -> child ku ud = Some xa ->
  rb_inv (N ∖ {[u]}) (blackened xa t') None.
Proof.
  intros Huc Hv.
  pose proof (transplanted_inv N t u ud ku HI Hu_in Hu Hnone) as HI'.
  destruct (kid_in N t HI u ud ku xa Hu_in Hu Hv) as (Hxa_in & xd & Hxd & Hxp).
  pose proof (kid_ne N t HI u ud ku xa Hu_in Hu Hv) as Hxu.
  pose proof (HB u ud ku Hu_in Hu) as Hbu. rewrite Hv, Huc in Hbu.
  pose proof (HB u ud (opp ku) Hu_in Hu) as Hbu'. rewrite Hnone, Huc in Hbu'.
  cbn in Hbu, Hbu'.
  assert (Hxc : color xd = RED).
  { pose proof (HB xa xd L Hxa_in Hxd) as Hbx.
    destruct (color xd); [reflexivity|]. cbn in Hbx. lia. }
  assert (Hview : forall a y', a ∈ N -> heap (blackened xa t') !! a = Some y' ->
            exists y, heap t !! a = Some y /\
              color y' = (if decide (a = xa) then BLACK else color y) /\
              forall k, child k y' = if decide (child k y = Some u) then v
                                     else child k y).
  { intros a y' Ha Hy'. rewrite blackened_lookup in Hy'.
    destruct (heap t' !! a) as [y1|] eqn:Hy1; [|discriminate].
    injection Hy' as <-.
    destruct (tp_view a y1 Ha Hy1) as (y & Hy & Hcol & Hkid).
    exists y. split; [exact Hy|]. split.
    - destruct (decide (a = xa)); [reflexivity|exact Hcol].
    - intros k. rewrite <- Hkid. destruct (decide (a = xa)); [|reflexivity].
      apply child_set_color. }
  assert (Hblack : forall c, (c <> xa -> color_at (heap t) (Some c) = BLACK) ->
            color_at (heap (blackened xa t')) (Some c) = BLACK).
  { intros c Hc. cbn [color_at]. rewrite blackened_lookup.
    pose proof (transplanted_color u v ud t c) as Hcol.
    destruct (heap t' !! c) as [y1|] eqn:Hy1; [|reflexivity]. cbn.
    destruct (decide (c = xa)) as [_|Hcx]; [reflexivity|]. cbn.
    specialize (Hc Hcx). cbn [color_at] in Hc.
    destruct (heap t !! c) as [y|]; cbn in Hcol; congruence. }
  split; [exact (same_links_inv _ _ _ HI' (blackened_same_links xa t'))|].
  split.
  { unfold black_root.
    assert (Hrt : root (blackened xa t') = root t') by reflexivity.
    rewrite Hrt, tp_root. destruct (parent ud) as [p|] eqn:Hp.
    - destruct (root t) as [rt|] eqn:Hr; [|reflexivity]. apply Hblack.
      intros _. unfold black_root in Hroot. rewrite Hr in Hroot. exact Hroot.
    - assert (Hq : forall q, q = Some xa ->
                color_at (heap (blackened xa t')) q = BLACK).
      { intros q ->. apply Hblack. intros E. destruct (E eq_refl). }
      exact (Hq _ Hv). }
  split.
  { intros a y' k c Ha Hy' Hc Hk _. destruct (tp_in a Ha) as [Ha' Hau].
    destruct (Hview a y' Ha' Hy') as (y & Hy & Hcol & Hkid).
    rewrite Hcol in Hc. rewrite Hkid in Hk.
    destruct (decide (a = xa)) as [_|Hax]; [discriminate|].
    apply Hblack. intros Hcx.
    destruct (decide (child k y = Some u)) as [Hku|Hku]; [congruence|].
    apply (HR a y k c Ha' Hy Hc Hk). discriminate. }
  exists (fun i => if decide (i = xa) then b u else b i).
  intros a y' k Ha Hy'. destruct (tp_in a Ha) as [Ha' Hau].
  destruct (Hview a y' Ha' Hy') as (y & Hy & Hcol & Hkid).
  rewrite Hcol, Hkid. pose proof (HB a y k Ha' Hy) as Hba.
  assert (Hkids : bh_at (fun i => if decide (i = xa) then b u else b i)
                    (if decide (child k y = Some u) then v else child k y)
                  = bh_at b (child k y)).
  { destruct (decide (child k y = Some u)) as [Hku|Hku].
    - rewrite Hku, Hv. cbn [bh_at]. rewrite decide_True by reflexivity. reflexivity.
    - destruct (child k y) as [c|] eqn:Hc; [|reflexivity]. cbn [bh_at].
      rewrite decide_False; [reflexivity|]. intros ->. apply Hau.
      exact (kid_parent N t HI u ud ku xa a y k Hu_in Hu Hv Ha' Hy Hc). }
  rewrite Hkids.
  destruct (decide (a = xa)) as [->|Hax]; [|exact Hba].
  assert (y = xd) as -> by congruence. rewrite Hxc in Hba. cbn in *. lia.
Qed.
End transplant_colors.

(** *** The colors of a tree with its nodes renamed *)

Section rename_colors.
Context (f g : ptr -> ptr) (N : gset ptr) (t t' : Tree).
Hypothesis HI : tree_inv N t.
Hypothesis HI' : tree_inv (set_map f N) t'.
Hypothesis Hg : forall a, a ∈ N -> g (f a) = a.
Hypothesis Hroot : root t' = f <$> root t.
Hypothesis Hrec : forall a x,
  a ∈ N -> heap t !! a = Some x ->
  exists x', heap t' !! f a = Some x' /\ color x' = color x /\
             forall k, child k x' = f <$> child k x.

Lemma renamed_color_at c :
  c ∈ N -> color_at (heap t') (Some (f c)) = color_at (heap t) (Some c).
Proof.
  intros Hc. destruct (inv_alloc _ _ HI c Hc) as [x Hx].
  destruct (Hrec c x Hc Hx) as (x' & Hx' & Hcol & _).
  cbn [color_at]. rewrite Hx', Hx. exact Hcol.
Qed.

Lemma renamed_rb : rb_inv N t None -> rb_inv (set_map f N) t' None.
Proof.
  intros (_ & Hrt & HR & b & HB).
  assert (Hback : forall a' y', a' ∈ (set_map f N : gset ptr) ->
            heap t' !! a' = Some y' ->
            exists a y, a' = f a /\ a ∈ N /\ heap t !! a = Some y /\
              color y' = color y /\ forall k, child k y' = f <$> child k y).
  { intros a' y' Ha' Hy'. apply elem_of_map in Ha' as (a & -> & Ha).
    destruct (inv_alloc _ _ HI a Ha) as [y Hy].
    destruct (Hrec a y Ha Hy) as (y'' & Hy'' & Hcol & Hkid).
    assert (y'' = y') as -> by congruence. exists a, y. auto. }
  split; [exact HI'|]. split.
  { unfold black_root in *. rewrite Hroot.
    destruct (root t) as [r|] eqn:Hr; [|reflexivity]. cbn [fmap option_fmap option_map].
    rewrite (renamed_color_at r (inv_root _ _ HI r Hr)). exact Hrt. }
  split.
  { intros a' y' k c' Ha' Hy' Hc Hk _.
    destruct (Hback a' y' Ha' Hy') as (a & y & -> & Ha & Hy & Hcol & Hkid).
    rewrite Hcol in Hc. rewrite Hkid in Hk.
    destruct (child k y) as [c|] eqn:Hky; [|discriminate]. injection Hk as <-.
    destruct (kid_in N t HI a y k c Ha Hy Hky) as (Hc_in & _).
    rewrite (renamed_color_at c Hc_in).
    apply (HR a y k c Ha Hy Hc Hky). discriminate. }
  exists (fun i => b (g i)). intros a' y' k Ha' Hy'.
  destruct (Hback a' y' Ha' Hy') as (a & y & -> & Ha & Hy & Hcol & Hkid).
  rewrite Hcol, Hkid, (Hg a Ha). pose proof (HB a y k Ha Hy) as Hba.
  destruct (child k y) as [c|] eqn:Hky; [|exact Hba].
  destruct (kid_in N t HI a y k c Ha Hy Hky) as (Hc_in & _).
  cbn [fmap option_fmap option_map bh_at] in *. rewrite (Hg c Hc_in). exact Hba.
Qed.
End rename_colors.

(** *** A node with two children gives its place to its successor *)

Section splice2_colors.
Context (N : gset ptr) (t : Tree) (n l r y : ptr) (nd yd : Node).
Hypothesis HI : tree_inv N t.
Hypothesis Hn_in : n ∈ N.
Hypothesis Hn : heap t !! n = Some nd.
Hypothesis Hl : lchild nd = Some l.
Hypothesis Hr : rchild nd = Some r.
Hypothesis Hlm : leftmost (heap t) r y.
Hypothesis Hy : heap t !! y = Some yd.
Hypothesis Hrb : rb_inv N t None.

Local Abbreviation rename_n := (renamed_ptr n y).
Local Abbreviation t_mid := (transplanted y (rchild yd) yd t).
Local Abbreviation t_fin := (spliced2 n y l r nd yd t).

Lemma splice2_back a : a ∈ N ∖ {[y]} -> renamed_ptr y n (rename_n a) = a.
Proof.
  intros Ha. apply elem_of_difference in Ha as [_ Hay].
  rewrite not_elem_of_singleton in Hay.
  destruct (splice2_distinct N t n l r y nd yd HI Hn_in Hn Hl Hr Hlm Hy) as (Hny & _).
  unfold renamed_ptr. destruct (decide (a = n)) as [->|Han].
  - rewrite decide_True by reflexivity. reflexivity.
  - rewrite decide_False by exact Hay. reflexivity.
Qed.

(** The record of a node after the structural phase, from its record in
    the tree without [y]. *)
Lemma splice2_rec_color a x :
  a ∈ N ∖ {[y]} -> heap t_mid !! a = Some x ->
  exists x', heap t_fin !! rename_n a = Some x' /\ color x' = color x /\
             forall k, child k x' = rename_n <$> child k x.
Proof.
  intros Ha Hx.
  destruct (splice2_distinct N t n l r y nd yd HI Hn_in Hn Hl Hr Hlm Hy) as (Hny & _).
  assert (Hlinks : exists x', heap t_fin !! rename_n a = Some x' /\
                     parent x' = rename_n <$> parent x /\
                     forall k, child k x' = rename_n <$> child k x).
  { destruct (decide (y = r)) as [Hyr|Hyr].
    - exact (splice2_rec_adjacent N t n l r y nd yd HI Hn_in Hn Hl Hr Hlm Hy Hyr a x
               Ha Hx).
    - exact (splice2_rec_far N t n l r y nd yd HI Hn_in Hn Hl Hr Hlm Hy Hyr a x
               Ha Hx). }
  destruct Hlinks as (x' & Hx' & _ & Hkid).
  exists x'. split; [exact Hx'|]. split; [|exact Hkid].
  pose proof (spliced2_color n y l r nd yd t (rename_n a) Hy) as Hc.
  rewrite Hx' in Hc. cbn in Hc.
  pose proof (transplanted_color y (rchild yd) yd t a) as Hc0.
  rewrite Hx in Hc0. cbn in Hc0.
  apply elem_of_difference in Ha as [_ Hay]. rewrite not_elem_of_singleton in Hay.
  unfold renamed_ptr in Hc. destruct (decide (a = n)) as [->|Han].
  - rewrite decide_True in Hc by reflexivity. rewrite Hn in Hc0. cbn in Hc0.
    congruence.
  - rewrite decide_False in Hc by exact Hay. congruence.
Qed.

(** The successor was RED. *)
Lemma spliced2_red_rb : color yd = RED -> rb_inv (N ∖ {[n]}) t_fin None.
Proof.
  intros Hyc. destruct Hrb as (_ & Hroot & HR & b & HB).
  destruct (splice2_facts N t n l r y nd yd HI Hn_in Hn Hl Hr Hlm Hy)
    as (dn & dy & _ & _ & _ & _ & _ & _ & _ & Hy_in & _ & Hyl & _).
  pose proof (spliced2_inv N t n l r y nd yd HI Hn_in Hn Hl Hr Hlm Hy) as HIf.
  rewrite <- (rename_n_nodes N t n l r y nd yd HI Hn_in Hn Hl Hr Hlm Hy) in HIf |- *.
  apply (renamed_rb rename_n (renamed_ptr y n) (N ∖ {[y]}) t_mid t_fin
           (splice2_mid_inv N t n l r y nd yd HI Hn_in Hn Hl Hr Hlm Hy) HIf
           splice2_back
           (splice2_root N t n l r y nd yd HI Hn_in Hn Hl Hr Hlm Hy)
           splice2_rec_color).
  exact (transplanted_red_rb N t y yd R b HI Hy_in Hy Hyl HB HR Hroot Hyc).
Qed.

(** The successor was BLACK and had a child, which is colored BLACK. *)
Lemma spliced2_black_rb xa :
  color yd = BLACK -> rchild yd = Some xa ->
  rb_inv (N ∖ {[n]}) (blackened xa t_fin) None.
Proof.
  intros Hyc Hxa. destruct Hrb as (_ & Hroot & HR & b & HB).
  destruct (splice2_facts N t n l r y nd yd HI Hn_in Hn Hl Hr Hlm Hy)
    as (dn & dy & _ & _ & _ & _ & _ & _ & _ & Hy_in & _ & Hyl & _).
  destruct (splice2_distinct N t n l r y nd yd HI Hn_in Hn Hl Hr Hlm Hy)
    as (Hny & _ & _ & _ & _ & _ & _ & _ & _ & HXn & _ & _ & HXy & _).
  assert (Hxn : xa <> n) by congruence.
  assert (Hxy : xa <> y) by congruence.
  pose proof (spliced2_inv N t n l r y nd yd HI Hn_in Hn Hl Hr Hlm Hy) as HIf.
  pose proof (same_links_inv _ _ _ HIf (blackened_same_links xa t_fin)) as HIb.
  pose proof (splice2_mid_inv N t n l r y nd yd HI Hn_in Hn Hl Hr Hlm Hy) as HIm.
  pose proof (same_links_inv _ _ _ HIm (blackened_same_links xa t_mid)) as HImb.
  rewrite <- (rename_n_nodes N t n l r y nd yd HI Hn_in Hn Hl Hr Hlm Hy) in HIb |- *.
  apply (renamed_rb rename_n (renamed_ptr y n) (N ∖ {[y]})
           (blackened xa t_mid) (blackened xa t_fin) HImb HIb splice2_back).
  - exact (splice2_root N t n l r y nd yd HI Hn_in Hn Hl Hr Hlm Hy).
  - intros a x Ha Hx. rewrite blackened_lookup in Hx.
    destruct (heap t_mid !! a) as [x0|] eqn:Hx0; [|discriminate].
    injection Hx as <-.
    destruct (splice2_rec_color a x0 Ha Hx0) as (x' & Hx' & Hcol & Hkid).
    assert (Hsame : rename_n a = xa <-> a = xa).
    { unfold renamed_ptr. destruct (decide (a = n)) as [->|Han]; split; congruence. }
    rewrite blackened_lookup, Hx'. cbn.
    destruct (decide (a = xa)) as [Hax|Hax].
    + rewrite decide_True by (apply Hsame; exact Hax). eexists.
      split; [reflexivity|]. split; [reflexivity|].
      intros k. rewrite !child_set_color. apply Hkid.
    + rewrite decide_False by (intros E; apply Hax, Hsame, E). exists x'.
      split; [reflexivity|]. split; [exact Hcol|exact Hkid].
  - exact (transplanted_black_rb N t y yd R b HI Hy_in Hy Hyl HB HR Hroot xa Hyc Hxa).
Qed.
End splice2_colors.

(** *** [remove] on a red-black tree *)

Lemma leftmost_fun h a m : leftmost h a m -> forall m', leftmost h a m' -> m = m'.
Proof.
  induction 1 as [a nd Ha Hl|a nd l m Ha Hl Hm IH]; intros m' H'.
  - inversion H' as [a' nd' Ha' Hl'|a' nd' l' m'' Ha' Hl' Hm']; subst;
      [reflexivity|congruence].
  - inversion H' as [a' nd' Ha' Hl'|a' nd' l' m'' Ha' Hl' Hm']; subst;
      [congruence|].
    assert (l' = l) as -> by congruence. exact (IH _ Hm').
Qed.

(** [delete_fixup] on a RED node only colors it BLACK. *)
Lemma delete_fixup_red fuel a x t :
  heap t !! a = Some x -> color x = RED ->
  delete_fixup (S fuel) (Some a) t = Ok tt (blackened a t).
Proof.
  intros Hx Hc.
  assert (Hgo : andM (ret (bool_decide (Some a <> root t))) (has_color (Some a) BLACK) t
                = Ok false t).
  { unfold andM. rewrite (bind_Ok (ret _) _ t _ t eq_refl).
    destruct (bool_decide (Some a <> root t)); [|reflexivity].
    unfold has_color. rewrite (bind_Ok _ _ _ _ _ (get_color_Ok _ _ _ Hx)).
    rewrite Hc. reflexivity. }
  assert (Hloop : delete_fixup_loop (S fuel) (Some a) t = Ok (Some a) t).
  { cbn [delete_fixup_loop]. rewrite (bind_Ok get_root _ t (root t) t eq_refl).
    rewrite (bind_Ok _ _ _ _ _ Hgo). reflexivity. }
  unfold delete_fixup. rewrite (bind_Ok _ _ _ _ _ Hloop).
  exact (store_alter a (set_color BLACK) t (mk_is_Some _ _ Hx)).
Qed.

(** In a tree with property 5, the only child of a node is RED. *)
Lemma only_child_red N t b u ud k xa xd :
  balanced N t b -> u ∈ N -> heap t !! u = Some ud ->
  child (opp k) ud = None -> child k ud = Some xa ->
  xa ∈ N -> heap t !! xa = Some xd -> color xd = RED.
Proof.
  intros HB Hu_in Hu Hnone Hk Hxa_in Hxd.
  pose proof (HB u ud k Hu_in Hu) as H1. rewrite Hk in H1.
  pose proof (HB u ud (opp k) Hu_in Hu) as H2. rewrite Hnone in H2.
  pose proof (HB xa xd L Hxa_in Hxd) as H3. cbn [bh_at] in *.
  destruct (color xd); [reflexivity|]. cbn in H3. lia.
Qed.

(** [remove] of a node the key-guided descent reaches, in a red-black tree
    whose height the loop budget covers, in the cases in which the color
    recorded at lines 507 and 535 is the one of the node taken out of its
    place: a RED leaf, the last node of the tree, or a node with two
    children whose successor is RED or has a child. *)
Lemma remove_rb_step N l fuel t s n nd :
  ordered N l t -> rb_inv N t None -> shape_of fuel t = Some s ->
  heap t !! n = Some nd -> key_path (heap t) (key nd) n (root t) ->
  (lchild nd = None /\ rchild nd = None /\ (color nd = RED \/ parent nd = None) \/
   exists l0 r y yd, lchild nd = Some l0 /\ rchild nd = Some r /\
     leftmost (heap t) r y /\ heap t !! y = Some yd /\
     (color yd = RED \/ rchild yd <> None)) ->
  exists t' pre post,
    remove fuel (Some n) t = Ok tt t' /\ l = pre ++ n :: post /\
    ordered (N ∖ {[n]}) (pre ++ post) t' /\ rb_inv (N ∖ {[n]}) t' None.
Proof.
  intros HO Hinv Hs Hn Hkp Hgood.
  pose proof HO as (HI & Hl & Hnd).
  pose proof Hinv as (_ & Hroot & HR & b & HB).
  assert (Haddrs : addrs s = l)
    by exact (in_order_fun _ _ _ (shape_in_order _ _ _ _ Hs) _ Hl).
  (* the membership test *)
  destruct (remove_descend_spec fuel t n nd Hn (root t) s Hs) as (temp & Hd & Hiff).
  assert (temp = Some n) as -> by (apply Hiff; exact Hkp).
  assert (Hn_s : n ∈ addrs s) by exact (remove_descend_found fuel n fuel _ t t s Hd Hs).
  assert (Hin : n ∈ N) by (apply (ordered_nodes N l t HO); rewrite <- Haddrs; exact Hn_s).
  assert (Hstart : forall res t1 t',
            remove_splice fuel n t = Ok res t1 ->
            (if bool_decide (res.2 = BLACK) then delete_fixup fuel res.1 else ret tt) t1
              = Ok tt t' ->
            remove fuel (Some n) t = Ok tt t').
  { intros res t1 t' Hsp Hfix. unfold remove.
    rewrite (bind_Ok get_root _ t (root t) t eq_refl).
    rewrite (bind_Ok _ _ _ _ _ Hd).
    rewrite bool_decide_eq_false_2 by (intros E; apply E; reflexivity).
    rewrite (bind_Ok _ _ _ _ _ Hsp). exact Hfix. }
  destruct Hgood as [(Hnl & Hnr & Hcase)|
                     (l0 & r & y & yd & Hnl & Hnr & Hlm & Hy & Hcase)].
  - (* a leaf *)
    assert (Hnone : child (opp R) nd = None) by exact Hnl.
    pose proof (remove_splice_few_exec N fuel t n nd R HI Hin Hn Hnone) as Hsp.
    destruct (transplanted_in_order N l t n nd R HO Hin Hn Hnone)
      as (pre & post & Heq & HO').
    exists (transplanted n (child R nd) nd t), pre, post.
    split; [exact (Hstart _ _ _ Hsp eq_refl)|]. split; [exact Heq|].
    split; [exact HO'|]. destruct Hcase as [Hc|Hp].
    + exact (transplanted_red_rb N t n nd R b HI Hin Hn Hnone HB HR Hroot Hc).
    + exact (transplanted_last_rb N t n nd R b HI Hin Hn Hnone Hp Hnr).
  - (* two children *)
    destruct (shape_from_at _ n _ _ _ Hs Hn_s) as (nd' & sl & sr & Hn' & _ & Hsr).
    assert (nd' = nd) as -> by congruence. rewrite Hnr in Hsr.
    destruct (minimum_loop_leftmost t fuel r sr None Hsr) as (m & Hm & Hlm').
    pose proof (leftmost_fun _ _ _ Hlm' _ Hlm) as ->.
    assert (Hsucc : successor fuel (Some n) t = Ok (Some y) t).
    { unfold successor. rewrite (bind_Ok _ _ _ _ _ (get_rchild_Ok _ _ _ Hn)).
      rewrite Hnr. exact Hm. }
    pose proof (splice2_exec N t n l0 r y nd yd HI Hin Hn Hnl Hnr Hlm Hy fuel Hsucc)
      as Hsp.
    destruct (spliced2_in_order N l t n l0 r y nd yd HO Hin Hn Hnl Hnr Hlm Hy)
      as (pre & post & Heq & HO1).
    destruct (color yd) eqn:Hyc.
    + exists (spliced2 n y l0 r nd yd t), pre, post.
      split; [apply (Hstart _ _ _ Hsp); cbn [fst snd];
              rewrite bool_decide_eq_false_2 by discriminate; reflexivity|].
      split; [exact Heq|]. split; [exact HO1|].
      exact (spliced2_red_rb N t n l0 r y nd yd HI Hin Hn Hnl Hnr Hlm Hy Hinv Hyc).
    + destruct Hcase as [Hc|Hx]; [discriminate|].
      destruct (rchild yd) as [xa|] eqn:Hxa; [|destruct Hx; reflexivity].
      destruct (splice2_facts N t n l0 r y nd yd HI Hin Hn Hnl Hnr Hlm Hy)
        as (dn & dy & _ & _ & _ & _ & _ & _ & _ & Hy_in & _ & Hyl & _ & _ & Hxf & _).
      destruct (splice2_distinct N t n l0 r y nd yd HI Hin Hn Hnl Hnr Hlm Hy)
        as (_ & _ & _ & _ & _ & _ & _ & _ & _ & HXn & _ & _ & HXy & _).
      rewrite Hxa in HXn, HXy.
      destruct (Hxf xa Hxa) as (Hxa_in & _ & _).
      destruct (inv_alloc _ _ HI xa Hxa_in) as [xd Hxd].
      pose proof (only_child_red N t b y yd R xa xd HB Hy_in Hy Hyl Hxa Hxa_in Hxd)
        as Hxc.
      pose proof (spliced2_color n y l0 r nd yd t xa Hy) as Hcol.
      rewrite decide_False in Hcol by congruence. rewrite Hxd in Hcol.
      destruct (heap (spliced2 n y l0 r nd yd t) !! xa) as [xd'|] eqn:Hxd';
        cbn in Hcol; [|discriminate].
      injection Hcol as Hcol. rewrite Hxc in Hcol.
      assert (Hfuel : exists f, fuel = S f).
      { destruct fuel as [|f]; [|eauto]. unfold shape_of in Hs.
        destruct (root t) as [rt|] eqn:Hrt; [discriminate|].
        cbn in Hs. injection Hs as <-. inversion Hn_s. }
      destruct Hfuel as [f ->].
      pose proof (delete_fixup_red f xa xd' _ Hxd' Hcol) as Hfix.
      exists (blackened xa (spliced2 n y l0 r nd yd t)), pre, post.
      split; [apply (Hstart _ _ _ Hsp); cbn [fst snd];
              rewrite bool_decide_eq_true_2 by reflexivity; exact Hfix|].
      split; [exact Heq|]. split.
      * apply (delete_fixup_keeps_order (N ∖ {[n]}) (pre ++ post) (S f) (Some xa))
          with (t := spliced2 n y l0 r nd yd t) (a := tt); [|exact HO1|exact Hfix].
        intros a [= <-]. apply elem_of_difference. split; [exact Hxa_in|].
        rewrite not_elem_of_singleton. congruence.
      * exact (spliced2_black_rb N t n l0 r y nd yd HI Hin Hn Hnl Hnr Hlm Hy Hinv xa
                 Hyc Hxa).
Qed.

(** X20: where [remove] keeps the red-black properties.  For a tree of
    height at most [fuel], whose nodes name their parents and are pairwise
    distinct, with the properties I2, I4, I5 and I6, and a node the
    key-guided descent from the root reaches that is a RED leaf, or the only
    node of the tree, or has two children and a successor (the leftmost node
    below its right child) that is RED or has a child: [remove] returns, and
    the result is a tree of the same kind with the same four properties,
    whose in-order sequence is the former one without the node. *)
Theorem remove_keeps_red_black :
  forall fuel t s n nd,
    shape_of fuel t = Some s -> parents_ok (heap t) None s -> NoDup (addrs s) ->
    red_black s = true ->
    heap t !! n = Some nd -> key_path (heap t) (key nd) n (root t) ->
    (lchild nd = None /\ rchild nd = None /\ (color nd = RED \/ parent nd = None) \/
     exists l r y yd, lchild nd = Some l /\ rchild nd = Some r /\
       leftmost (heap t) r y /\ heap t !! y = Some yd /\
       (color yd = RED \/ rchild yd <> None)) ->
    exists t' f' s' pre post,
      remove fuel (Some n) t = Ok tt t' /\
      shape_of f' t' = Some s' /\ parents_ok (heap t') None s' /\
      NoDup (addrs s') /\
      addrs s = pre ++ n :: post /\ addrs s' = pre ++ post /\
      red_black s' = true.
Proof.
  intros fuel t s n nd Hs Hpar Hnd Hrbs Hn Hkp Hgood.
  unfold red_black in Hrbs.
  apply andb_prop in Hrbs as [Hrbs Hsorted].
  apply andb_prop in Hrbs as [Hrbs Hbh]. apply andb_prop in Hrbs as [Hrb Hrr].
  apply bool_decide_eq_true in Hbh.
  pose proof (shape_ordered fuel t s Hs Hpar Hnd) as HO.
  pose proof HO as (_ & Hl & _).
  pose proof (shape_rb_inv fuel t s Hs Hpar Hnd Hrb Hrr Hbh) as Hinv.
  destruct (remove_rb_step _ _ fuel t s n nd HO Hinv Hs Hn Hkp Hgood)
    as (t' & pre & post & Hrem & Heq & HO' & Hinv').
  pose proof HO' as (_ & Hl' & Hnd').
  destruct (in_order_shape _ _ _ Hl') as (f' & s' & Hs' & Haddrs).
  destruct (rb_inv_red_black _ _ t' f' s' HO' Hinv' Hs')
    as (Hpar' & _ & Hrb' & Hrr' & Hbh').
  exists t', f', s', pre, post.
  split; [exact Hrem|]. split; [exact Hs'|]. split; [exact Hpar'|].
  split; [rewrite Haddrs; exact Hnd'|].
  split; [exact Heq|]. split; [exact Haddrs|].
  unfold red_black. rewrite Hrb', Hrr'.
  rewrite (bool_decide_eq_true_2 _ Hbh'). cbn [andb].
  pose proof (keeps_field_remove key key_ignores_links key_ignores_color
                fuel (Some n) t tt t' Hrem) as Hkeys.
  apply (keys_in_order_shape f' t' s' _ Hs' Hl').
  apply (keys_in_order_shape fuel t s _ Hs Hl) in Hsorted. rewrite Heq in Hsorted.
  exact (keys_in_order_delete (heap t) (heap t') pre post n Hkeys Hsorted).
Qed.

(** ** The search order on concrete trees *)

Lemma red_sibling_ordered :
  ordered (list_to_set (addrs red_sibling_shape)) (addrs red_sibling_shape) red_sibling.
Proof.
  apply (shape_ordered 10 red_sibling red_sibling_shape).
  - vm_compute. reflexivity.
  - cbn. repeat split.
  - apply (bool_decide_unpack _). vm_compute. exact I.
Qed.

Lemma four_nodes_ordered :
  ordered (list_to_set (addrs four_nodes_shape)) (addrs four_nodes_shape) four_nodes.
Proof.
  apply (shape_ordered 10 four_nodes four_nodes_shape).
  - vm_compute. reflexivity.
  - cbn. repeat split.
  - apply (bool_decide_unpack _). vm_compute. exact I.
Qed.

Lemma insert_keeps_the_order_witness :
  exists t',
    insert 10 (Some 9%positive) four_nodes = Ok tt t' /\
    exists pre post,
      addrs four_nodes_shape = pre ++ post /\
      ordered (list_to_set (addrs four_nodes_shape) ∪ {[9%positive]})
        (pre ++ 9%positive :: post) t' /\
      forall f s f' s',
        shape_of f four_nodes = Some s -> shape_of f' t' = Some s' ->
        nondecreasing (inorder s) = true -> nondecreasing (inorder s') = true.
Proof.
  assert (exists t', insert 10 (Some 9%positive) four_nodes = Ok tt t') as [t' H]
    by (eexists; vm_compute; reflexivity).
  exists t'. split; [exact H|].
  apply (insert_keeps_the_order _ _ 10 four_nodes 9%positive
           (mkNode 9 RED None None None) t').
  - exact four_nodes_ordered.
  - discriminate.
  - rewrite elem_of_list_to_set. apply (bool_decide_unpack _). vm_compute. exact I.
  - reflexivity.
  - reflexivity.
  - reflexivity.
  - exact H.
Defined.

Lemma fixups_keep_the_order_witness :
  exists t',
    left_rotate (Some 2%positive) red_sibling = Ok tt t' /\
    ordered (list_to_set (addrs red_sibling_shape)) (addrs red_sibling_shape) t'.
Proof.
  assert (exists t', left_rotate (Some 2%positive) red_sibling = Ok tt t') as [t' H]
    by (eexists; vm_compute; reflexivity).
  exists t'. split; [exact H|].
  apply (fixups_keep_the_order _ _ 0 red_sibling 2%positive None t').
  - exact red_sibling_ordered.
  - apply red_sibling_nodes. cbn. repeat constructor.
  - discriminate.
  - left. exact H.
Defined.

Lemma remove_keeps_the_order_witness :
  exists t',
    remove 10 (Some 2%positive) red_sibling = Ok tt t' /\
    exists pre post,
      addrs red_sibling_shape = pre ++ 2%positive :: post /\
      ordered (list_to_set (addrs red_sibling_shape) ∖ {[2%positive]}) (pre ++ post) t' /\
      forall f s f' s',
        shape_of f red_sibling = Some s -> shape_of f' t' = Some s' ->
        nondecreasing (inorder s) = true -> nondecreasing (inorder s') = true.
Proof.
  assert (exists t', remove 10 (Some 2%positive) red_sibling = Ok tt t') as [t' H]
    by (eexists; vm_compute; reflexivity).
  exists t'. split; [exact H|].
  apply (remove_keeps_the_order _ _ 10 red_sibling 2%positive t').
  - exact red_sibling_ordered.
  - apply red_sibling_nodes. cbn. repeat constructor.
  - exact H.
Defined.

Lemma successor_predecessor_in_order_witness :
  exists pre post,
    addrs red_sibling_shape = pre ++ 2%positive :: post /\
    successor 10 (Some 2%positive) red_sibling = Ok (head post) red_sibling /\
    predecessor 10 (Some 2%positive) red_sibling = Ok (last pre) red_sibling.
Proof.
  apply (successor_predecessor_in_order 10 red_sibling red_sibling_shape 2%positive).
  - vm_compute. reflexivity.
  - cbn. repeat split.
  - apply (bool_decide_unpack _). vm_compute. exact I.
  - cbn. repeat constructor.
Defined.

Lemma insert_keeps_red_black_witness :
  exists t' f' s' pre post,
    insert 10 (Some 9%positive) four_nodes = Ok tt t' /\
    shape_of f' t' = Some s' /\ parents_ok (heap t') None s' /\
    NoDup (addrs s') /\ root t' <> None /\
    addrs four_nodes_shape = pre ++ post /\
    addrs s' = pre ++ 9%positive :: post /\
    red_black s' = true.
Proof.
  apply (insert_keeps_red_black 10 four_nodes four_nodes_shape 9%positive
           (mkNode 9 RED None None None)).
  - vm_compute. reflexivity.
  - cbn. repeat split.
  - apply (bool_decide_unpack _). vm_compute. exact I.
  - discriminate.
  - vm_compute. reflexivity.
  - apply (bool_decide_unpack _). vm_compute. exact I.
  - reflexivity.
  - reflexivity.
  - reflexivity.
Defined.

Lemma inserts_build_a_red_black_tree_witness :
  exists t' f' s',
    run_ops 10 (insert_ops [(1%positive, 1, BLACK); (2%positive, 2, RED);
                            (3%positive, 3, RED); (4%positive, 4, RED)])
      empty_tree = Ok tt t' /\
    shape_of f' t' = Some s' /\ parents_ok (heap t') None s' /\
    red_black s' = true /\
    addrs s' ≡ₚ [1%positive; 2%positive; 3%positive; 4%positive] /\
    inorder s' ≡ₚ [1; 2; 3; 4].
Proof.
  apply (inserts_build_a_red_black_tree 10 1%positive 1
           [(2%positive, 2, RED); (3%positive, 3, RED); (4%positive, 4, RED)]).
  - apply (bool_decide_unpack _). vm_compute. exact I.
  - cbn. lia.
Defined.

Lemma remove_keeps_red_black_witness :
  exists t' f' s' pre post,
    remove 10 (Some 2%positive) four_nodes = Ok tt t' /\
    shape_of f' t' = Some s' /\ parents_ok (heap t') None s' /\
    NoDup (addrs s') /\
    addrs four_nodes_shape = pre ++ 2%positive :: post /\
    addrs s' = pre ++ post /\
    red_black s' = true.
Proof.
  apply (remove_keeps_red_black 10 four_nodes four_nodes_shape 2%positive
           (mkNode 2 BLACK None (Some 1%positive) (Some 3%positive))).
  - vm_compute. reflexivity.
  - cbn. repeat split.
  - apply (bool_decide_unpack _). vm_compute. exact I.
  - vm_compute. reflexivity.
  - reflexivity.
  - apply key_path_here.
  - right. exists 1%positive, 3%positive, 3%positive,
      (mkNode 3 BLACK (Some 2%positive) None (Some 4%positive)).
    split; [reflexivity|]. split; [reflexivity|]. split.
    + eapply leftmost_here; reflexivity.
    + split; [reflexivity|]. right. discriminate.
Defined.
